(* ===== verification/_CoqProject ===== *)
-Q . S2P
Prelude.v
Chain.v
CustomLists.v
Queue.v
Ratio.v
SiteAlgorithm.v
Text.v
Deploy.v
Registration.v
Session.v
Refinement.v
TextFiles.v
Disk.v
Console.v
Reports.v
