(* ===== verification/Prelude.v ===== *)
(** * Verification of the volunteer-operations allocation engine

    The program (C++, [src/]) keeps a FIFO waiting list of volunteers and
    deploys the volunteer at the front of the list to the relief site that
    is proportionally least filled.  Its parts, leaf first:

    - [src/include/CustomLists.hpp]: [ListNode<T>] and
      [CustomLinkedList<T>], an owning singly linked list with [head],
      [tail] and an incrementally maintained [count]; its [Iterator]; and
      [SkillCounter], a linear-scan frequency table built on the list.
    - [src/include/VolunteerQueue.hpp], [src/src/VolunteerQueue.cpp]: the
      records [Volunteer] and [ReliefSite], and [VolunteerQueue], a FIFO
      queue on its own chain of [Node]s with [head] and [tail] only
      ([size] walks the chain).
    - [src/include/SiteAlgorithm.hpp]: [findMostNeededSite], one scan over
      the sites that returns the index of the first site of minimal
      [double] fill ratio below the start value [1.1], or [-1].
    - [src/src/main.cpp]: [deployVolunteer], which checks the queue, loads
      the site table, checks for capacity, calls the matcher, dequeues,
      increments the chosen site's counter through [operator[]] and hands
      volunteer and table to the files; the loaders and savers of the three
      text files; [trim]; the registration dialogues and the menu loop.

    ** The files of the development

    Every file models one part, with the names of the source; the
    dependencies run down this list.

    - [Prelude] (this file): what the parts share.  A C++ call either
      returns, throws, or has no defined behaviour; [res A] is [Ok a] or
      [Err e] where [e] is a thrown exception ([OutOfRange] for
      [std::out_of_range], [RuntimeError] for [std::runtime_error]), a
      fault ([BadPointer]: a null or dangling pointer is dereferenced;
      [Overflow]: a signed [int] leaves its range; [Indeterminate]: an
      [int] that was never assigned is read) or [OutOfFuel].  [res]
      is a monad (stdpp's [x ← m; k]); [catch_runtime] is the handler
      [catch (const std::runtime_error&)].  An [int] is a [Z] with the
      bounds [INT_MIN], [INT_MAX] written out; [int_incr] is [x++] and
      [int_sub] is [x - y], both [Err Overflow] outside the range.  The
      hint databases [cpp] and [cpp_rw] and the tactics [res_inv] and
      [int_solve] are declared here.
    - [Chain]: the memory both linked structures are made of.  A node store
      is a finite map [gmap loc (ListNode T)] from addresses to nodes, a
      pointer is an [option loc] ([None] is [nullptr]), [new] takes a fresh
      address and [delete] removes one.  Each container owns a store of its
      own: the sources never share a node between two containers, so the
      stores of two containers are two values.  [lseg] is the
      representation predicate of a list segment, [owns] says that a store
      holds exactly one chain, [chain_loop] is the
      [while (current != nullptr)] / iterator loop with an explicit budget
      of steps, [nth_node] the counted loop of indexed access,
      [free_chain] the loop of [clear].
    - [CustomLists]: module [CustomLinkedList], the record of [nodes],
      [head], [tail], [count] and one definition per member function,
      constructor, copy, assignment and iterator operation included;
      [repr l cs] relates a list object to the cells [(address, value)] of
      its chain, [wf] is the class invariant, [models l xs] the
      abstraction to a list.  Module [SkillCounter]: [increment] and
      [getCount] as the iterator loops of the source, with the in-place
      update through [it->].
    - [Queue]: [Volunteer], [ReliefSite]; module [QueueSpec], the abstract
      FIFO queue (a list, with the observations of [enqueue], [dequeue]
      and [size]); module [VolunteerQueue], the queue record and
      [enqueue], [dequeue], [isEmpty], [size], [displayAll], the
      destructor.
    - [Ratio]: the interface of the fill ratio, classes [FillOps] (the
      type of ratios, conversion and division, the start value, [<]) and
      [FillOrder] (its laws), and the instance [binary64]: IEEE 754
      double precision as the Standard Library's [SpecFloat] defines it
      ([prec = 53], [emax = 1024]), with the proof [binary64_order] of
      the laws.
    - [SiteAlgorithm]: the scan [findMostNeededSite] over a
      [CustomLinkedList] of sites, with its locals ([scan]), the body of
      its loop ([scan_site]) and the name and priority column of the rows
      it prints.  It is written and proved against [FillOps]/[FillOrder]
      and evaluated on [binary64].
    - [Text]: [trim], by [find_first_not_of], [find_last_not_of] and
      [substr] as in the source, and the reference definition [strip].
    - [Deploy]: the interface [Storage] of the three data files with the
      laws [StorageLaws] and the instance [files] (the files as lists of
      records); on it [loadReliefSites], [saveReliefSites],
      [saveDeployedVolunteer], [saveVolunteerToFile],
      [isVolunteerDeployed], [loadVolunteersFromFile]; and
      [deployVolunteer], a function from the queue and the files to the
      report, the queue and the files.
    - [Registration]: [registerSingleVolunteer] and
      [registerMultipleVolunteers] on the list of input lines still to be
      read ([getline] takes the next line, the empty string at the end of
      the input); the [for] loop of the second is [register_loop], its
      body [register_one], with the [int] counters [successCount],
      [failedCount] and [i]; [dialogue] is the reference definition of
      what a dialogue registers.  Scenarios run registration and
      deployment together.
    - [Session]: the program as a whole.  The state between two turns of
      the menu is [world], the queue of [main] and the files; a [command]
      is what the operator chooses at the menu, with what is typed in the
      dialogue the choice opens; [handle] is the [switch] of [main],
      [registerVolunteer] the submenu, [viewRegisteredVolunteers] the
      listing, [main_loop] the [while (running)], [main] the load at
      startup, the loop and the destructor of the queue; [step] is the
      transition relation of one turn.  [sane] is the invariant of the
      session and [advances] what a turn does, seen from outside.
    - [Refinement]: the class [Abstraction] of two storages related by
      a function [abstract] on their files, and the proof that the
      loaders, [deployVolunteer], the registrations, [handle],
      [main_loop] and [main] on the first are the same runs on the
      second.
    - [TextFiles]: the text of the data files.  [read_lines] is the loop
      [while (std::getline(file, line))] on the characters of a file,
      [parse_volunteer] the three [std::getline] on a line with the
      trims, [extract] one [ss >> word], [stoi] is [std::stoi] with
      [None] for its two exceptions, [parse_site] the parse of a line of
      the sites file; [print_volunteer], [print_int], [print_site] are
      what the savers write, [needsNewline] and [terminate] the repair
      of a file without a line feed at its end before an append.
    - [Disk]: [disk], the text of the three files; [disk_storage], the
      instance of [Storage] on text, with [disk_laws]; [records], the
      files of records that the text holds, with the proof
      [disk_records] that it is an [Abstraction].
    - [Console]: [std::cin].  [istream] is the stream on its characters
      with the failed state, which the program never clears;
      [extract_int] is [std::cin >> x] on an [int] that may never have
      been assigned ([num_get] is the conversion: sign, digits, the
      range of [int]), [ignore] and [cin_getline] the two other reads.
      [pending] is the stream in lines, and [read_int], [getline] and
      [pauseForUser] are the reads on the lines.  Module [Console] is
      the program on what is typed: [Console.registerVolunteer] and
      [Console.registerMultipleVolunteers] read their numbers,
      [Console.serve] is the [switch] of [main] on the number,
      [Console.turn] a turn of the loop with the variable [choice] of
      [main], [Console.main_loop] and [Console.main] the loop and the
      program.
    - [Reports]: the functions that read the volunteer files for a
      report, on the text of the files: [validateVolunteerFile] with
      its counters of lines and commas, [displayVolunteersFromFile]
      with its table and the tally in a [SkillCounter],
      [displayCombinedVolunteerReport] with its four sections and the
      deployment rate in binary64, and [saveAllVolunteersToFile].

    ** Budgets of steps

    A loop over a chain is a [Fixpoint] on a number of steps.  The callers
    pass the number of nodes of the store, [size (nodes l)]: a chain
    without a cycle visits each node of its store at most once, so this is
    enough whenever the class invariant holds (the theorems give [Ok]
    results, they are not conditional on a result), and [clear] needs no
    invariant at all because every step deletes a node
    ([clear_terminates]).  [Err OutOfFuel] is therefore the model of a
    walk that does not end (a cyclic chain), which no well-formed object
    has.  The loop of [registerMultipleVolunteers] has the budget
    [numVolunteers], the number of its turns: enough below [INT_MAX]
    ([registerMultipleVolunteers_registers]), and at [INT_MAX] the loop
    ends in [Err Overflow] within the budget, not in [Err OutOfFuel]
    ([registerMultipleVolunteers_overflow]).  [main_loop] is structural
    on the list of commands.  The loop that reads the lines of a file
    has the length of the file as its budget: every turn extracts a
    character ([read_lines_total]).  [print_int] has a budget of ten
    digits, enough for every [int] ([digits_int]).  The loop of [main]
    on the console has a budget of turns: a turn reads a line when
    there is one, so that one turn more than the input has lines
    decides whether the run ends ([main_loop_enough]), and a run that
    returns does not depend on the budget.

    ** What the theorems show

    - [Chain]: the loops agree with loops over the abstract list of cells
      ([chain_loop_lseg], [list_loop_invariant]); stores are framed (a
      fresh node changes no existing segment).
    - [CustomLists]: every member function preserves the invariant and
      refines the list operation it stands for ([push_back] is append,
      [operator[]] is lookup with [OutOfRange] outside the bounds, [at]
      is lookup with [nullptr], copy is a deep copy, assignment releases
      the target); [clear] frees every node and ends on any store;
      [count] is the length, an [int]; [SkillCounter] is a map from
      skills to counts with distinct keys.
    - [Queue]: the linked queue refines the abstract FIFO queue
      ([run_refines]); FIFO order, the size law, the empty-dequeue error,
      the destructor.
    - [Ratio]: [<] on doubles is a strict weak order away from NaN; the
      conversion of an [int] is exact; the ratio of a site with room is
      not a NaN, and is at most [1.0] when the count is not negative.
    - [SiteAlgorithm]: the scan ends and returns the first index of
      minimal ratio among the sites below the start value, or [-1]
      exactly when there is none; the index is in the bounds of the list;
      the rows; the test vectors of the specification on [binary64].
    - [Text]: [trim] is [strip]; its result has no whitespace at either
      end; it is idempotent.
    - [Deploy]: a deployment with a volunteer and room succeeds and changes
      exactly the head of the queue, one counter and the end of the ledger;
      every check comes before any change; [currentCount <= maxCapacity]
      is an invariant; the ledger followed by the queue is conserved; on
      valid data the function returns and two of its error reports are
      dead; the loader skips the volunteers of the ledger; saving and
      loading the sites is the identity.
    - [Registration]: what a registration changes and that a refused one
      changes nothing; a dialogue for several volunteers registers the
      volunteers of [dialogue] in order, counts them, and overflows its
      counter when asked for [INT_MAX]; a volunteer can register again
      after deployment and is then deployed twice.
    - [Session]: [sane] holds in every state reachable by [step]
      ([reachable_sane], by induction on the steps); a session returns,
      deploys the volunteers in the order of their arrival and loses none
      ([main_loop_order]); the counts of the sites grow with the ledger
      and stay within the capacities ([main_loop_counts]); [main] from
      the load to the destructor ([main_spec]); the menu stops at the
      first [Exit].
    - [Console]: the reads on the lines are the reads on the characters
      ([console_reads]); every run on the console that returns is a run
      of [Session] on the commands it read ([main_session]), so that
      the theorems of [Session] hold of it; the budget of turns
      ([main_loop_enough]); at the end of the input the loop is never
      left and serves the last choice again ([main_loop_eof],
      [eof_deploys]).
    - [Reports]: each report is the reference on the records of the
      file, on every file of fewer than [INT_MAX] characters
      ([validateVolunteerFile_spec], [displayVolunteersFromFile_spec],
      [displayCombinedVolunteerReport_spec]); the tally names every
      skill once with its number ([skill_distribution_counts]); the
      validation after a registration warns about a skill with a comma
      ([validate_registered]); [saveAllVolunteersToFile] empties the
      file.
    - [TextFiles]: the round trips of the formats: a number
      ([stoi_print_int]), the sites file ([text_sites_roundtrip]), an
      append to a volunteer file in any state
      ([append_volunteer_roundtrip]); what [std::stoi] accepts and
      refuses ([stoi_spec]); every site read is well formed
      ([text_sites_wf]); the lines accepted that are no records.
    - [Disk]: the laws of the interface hold of the text files, so the
      theorems of [Deploy], [Registration] and [Session] are theorems
      of the program on text; the program on text refines the program
      on records ([main_text]); a name with a comma is not read back
      ([comma_in_name]).

    ** Assumptions

    The theorems on [deployVolunteer] assume a well-formed queue, fewer
    than [INT_MAX] volunteers and sites, and site records whose two
    numbers are [int]s that are not negative ([site_valid]); the examples
    [negative_site] and [rounding_tie] show what the code does outside
    or at the edge of these.  The laws [StorageLaws] are those of a store
    whose files can be written.  The theorems on whole sessions assume
    the invariant [sane] at the start, fewer than [INT_MAX] volunteers
    in the queue and the dialogues together, and no dialogue asked for
    [INT_MAX] volunteers ([served]).  The theorems on the reports assume
    files of fewer than [INT_MAX] characters, which the [int] counters
    of lines and commas can count.  [Registration] leaves out the call
    of [validateVolunteerFile] at the end of a registration: on such a
    file it returns and changes nothing ([validateVolunteerFile_spec]).

    ** Not modelled

    The text that is printed (only which report is printed is kept, as
    [outcome], [registration], [multiple], [display], [report],
    [file_report], [combined_report], the warnings and the rows of the
    matcher): the layout of the tables, the prompts and [displayMenu];
    a file that cannot be created or written (the text files of [Disk]
    exist or not, and can always be written); the locale of
    [std::stoi] and [operator>>] (the C locale is taken); a stream
    [std::cin] in a state other than good, failed or ended (a read
    error of the device). *)

From Stdlib Require Export ZArith Lia.
From stdpp Require Export base numbers option strings gmap list.

#[export] Set Warnings "-clear-no-such-hyp".

(** ** Results of C++ calls *)

Inductive err : Set :=
| OutOfRange      (* std::out_of_range is thrown *)
| RuntimeError    (* std::runtime_error is thrown *)
| BadPointer      (* undefined: a null or dangling pointer is dereferenced *)
| Overflow        (* undefined: a signed int leaves its range *)
| Indeterminate   (* undefined: an int that was never assigned is read *)
| OutOfFuel.      (* the loop did not end within its budget of steps *)

#[export] Instance err_eq_dec : EqDecision err.
Proof. solve_decision. Defined.

Inductive res (A : Type) : Type :=
| Ok (a : A)
| Err (e : err).
Arguments Ok {A} a.
Arguments Err {A} e.

#[export] Instance res_eq_dec `{EqDecision A} : EqDecision (res A).
Proof. solve_decision. Defined.

#[export] Instance res_ret : MRet res := λ A a, Ok a.
#[export] Instance res_bind : MBind res :=
  λ A B f m, match m with Ok a => f a | Err e => Err e end.
#[export] Instance res_fmap : FMap res :=
  λ A B f m, match m with Ok a => Ok (f a) | Err e => Err e end.

(** [try { m } catch (const std::runtime_error&) { h }]: only a thrown
    [std::runtime_error] reaches the handler. *)
Definition catch_runtime {A} (m : res A) (h : res A) : res A :=
  match m with
  | Err RuntimeError => h
  | _ => m
  end.

(** The result is a returned value: no exception, no fault. *)
Definition is_Ok {A} (m : res A) : Prop := ∃ a, m = Ok a.

Declare Scope cpp_scope.
Delimit Scope cpp_scope with cpp.
Notation "'throw' e" := (Err e) (at level 10, e at level 9, only parsing) : cpp_scope.
Notation "'return_' a" := (Ok a) (at level 10, a at level 9, only parsing) : cpp_scope.
Open Scope cpp_scope.

(** ** The type [int] *)

Definition INT_MAX : Z := 2147483647.
Definition INT_MIN : Z := -2147483648.

Definition is_int (x : Z) : Prop := (INT_MIN ≤ x ≤ INT_MAX)%Z.

#[export] Instance is_int_dec x : Decision (is_int x).
Proof. unfold is_int. apply _. Defined.

(** [x++] on an [int]: undefined when [x] is [INT_MAX]. *)
Definition int_incr (x : Z) : res Z :=
  if decide (x < INT_MAX)%Z then return_ (x + 1)%Z else throw Overflow.

(** [x - y] on [int]: leaving the range is undefined behaviour. *)
Definition int_sub (x y : Z) : res Z :=
  if decide (is_int (x - y)) then return_ (x - y)%Z else throw Overflow.

(** ** Lemmas on results *)

Section res_lemmas.
Context {A B : Type}.
Implicit Types (m : res A) (f : A → res B) (g : A → B).

Lemma res_bind_Ok m f b :
  m ≫= f = Ok b ↔ ∃ a, m = Ok a ∧ f a = Ok b.
Proof.
  destruct m; simpl; split; [eauto | | done |]; intros (? & ? & ?);
    by simplify_eq.
Qed.

Lemma res_bind_Err m f e :
  m ≫= f = Err e ↔ m = Err e ∨ ∃ a, m = Ok a ∧ f a = Err e.
Proof.
  destruct m; simpl; split;
    [intros; right; eauto | | intros [= ->]; by left |];
    intros [? | (? & ? & ?)]; by simplify_eq.
Qed.

Lemma res_fmap_Ok m g b :
  g <$> m = Ok b ↔ ∃ a, m = Ok a ∧ b = g a.
Proof.
  destruct m; simpl; split; [intros [= <-]; eauto | | done |];
    intros (? & ? & ?); by simplify_eq.
Qed.

Lemma res_fmap_Err m g e : g <$> m = Err e ↔ m = Err e.
Proof. destruct m; simpl; split; intros [= ->]; done. Qed.

Lemma res_bind_Ok_l a f : Ok a ≫= f = f a.
Proof. done. Qed.

Lemma is_Ok_Ok (a : A) : is_Ok (Ok a).
Proof. by exists a. Qed.

Lemma is_Ok_Err (e : err) : ¬ is_Ok (@Err A e).
Proof. by intros [a ?]. Qed.

Lemma catch_runtime_Ok (a : A) h : catch_runtime (Ok a) h = Ok a.
Proof. done. Qed.

Lemma catch_runtime_other e h :
  e ≠ RuntimeError → catch_runtime (Err e) h = @Err A e.
Proof. by destruct e. Qed.

End res_lemmas.

(** ** Lemmas on [int] *)

Lemma int_incr_Ok x y : int_incr x = Ok y ↔ (x < INT_MAX)%Z ∧ y = (x + 1)%Z.
Proof.
  unfold int_incr. case_decide; split; [by intros [= <-] | by intros [_ ->] | done |].
  by intros [? _].
Qed.

Lemma int_incr_lt x : (x < INT_MAX)%Z → int_incr x = Ok (x + 1)%Z.
Proof. intros. by apply int_incr_Ok. Qed.

Lemma int_incr_max x : (INT_MAX ≤ x)%Z → int_incr x = Err Overflow.
Proof. unfold int_incr. case_decide; [lia | done]. Qed.

Lemma int_sub_Ok x y : is_int (x - y) → int_sub x y = Ok (x - y)%Z.
Proof. intros. unfold int_sub. by rewrite decide_True. Qed.

Lemma int_incr_is_int x y : is_int x → int_incr x = Ok y → is_int y.
Proof. unfold is_int. intros ? [? ->]%int_incr_Ok. lia. Qed.

(** ** Lemmas on lists *)

Section list_lemmas.
Context {A B : Type}.
Implicit Types (l k : list A) (x y : A).

Lemma last_cons_cons x y l : last (x :: y :: l) = last (y :: l).
Proof. done. Qed.

Lemma last_is_Some l : l ≠ [] → is_Some (last l).
Proof. induction l using rev_ind; [done | rewrite last_snoc; eauto]. Qed.

Lemma last_app_cons l y k : last (l ++ y :: k) = last (y :: k).
Proof. by rewrite last_app, (last_cons y k); destruct (last k). Qed.

Lemma NoDup_snoc l x : NoDup l → x ∉ l → NoDup (l ++ [x]).
Proof.
  intros Hl Hx. apply NoDup_app. split_and!; [done | | apply NoDup_singleton].
  intros y Hy ->%list_elem_of_singleton. done.
Qed.

Lemma list_to_set_snoc `{Countable A} l x :
  list_to_set (C := gset A) (l ++ [x]) = {[x]} ∪ list_to_set l.
Proof. rewrite list_to_set_app_L. set_solver. Qed.

End list_lemmas.

(** ** Automation *)

Create HintDb cpp discriminated.
Create Rewrite HintDb cpp_rw.

#[export] Hint Resolve is_Ok_Ok int_incr_lt int_incr_is_int : cpp.
#[export] Hint Rewrite @res_bind_Ok_l @catch_runtime_Ok : cpp_rw.
#[export] Hint Unfold is_int INT_MAX INT_MIN : cpp.

(** [res_inv] breaks hypotheses [m ≫= f = Ok b], [g <$> m = Ok b] and
    [int_incr x = Ok y] into their parts. *)
Ltac res_inv :=
  repeat match goal with
  | H : _ ≫= _ = Ok _ |- _ =>
      apply res_bind_Ok in H; destruct H as (? & ? & H)
  | H : _ <$> _ = Ok _ |- _ =>
      apply res_fmap_Ok in H; destruct H as (? & ? & H)
  | H : int_incr _ = Ok _ |- _ => apply int_incr_Ok in H; destruct H as [? H]
  | H : mret _ = Ok _ |- _ => injection H as H
  | H : Ok _ = Ok _ |- _ => injection H as H
  | H : Err _ = Ok _ |- _ => discriminate H
  | H : Ok _ = Err _ |- _ => discriminate H
  | H : is_Ok (Err _) |- _ => destruct (is_Ok_Err _ H)
  end; simplify_eq/=.

(** [res_inv_pairs] also opens the tuples that the calls return. *)
Ltac res_inv_pairs :=
  res_inv;
  repeat (match goal with x : (_ * _)%type |- _ => destruct x end; res_inv).

(** [int_solve] closes range goals on [int]s. *)
Ltac int_solve := unfold is_int, INT_MAX, INT_MIN in *; lia.
