(* ===== verification/Chain.v ===== *)
(** * Chains of nodes

    The memory model shared by [CustomLinkedList<T>] and [VolunteerQueue]:
    node stores, pointers, the list-segment predicate [lseg], the loops
    that walk a chain ([chain_loop], [nth_node], [free_chain]) and the
    lemmas that relate them to the abstract list of cells.  The struct is
    [ListNode<T>] of [src/include/CustomLists.hpp]; [Node] of
    [src/include/VolunteerQueue.hpp] is the same struct at [T = Volunteer]. *)

From S2P Require Import Prelude.

(** An address of a node; a pointer is an [option loc], [None] for
    [nullptr]. *)
Abbreviation loc := positive.

(** [template<typename T> struct ListNode { T data; ListNode* next; }] *)
Record ListNode (T : Type) := mkNode { data : T; next : option loc }.
Arguments mkNode {T} data next.
Arguments data {T} _.
Arguments next {T} _.

(** How the body of a loop ends: it goes on with a new loop state, or the
    enclosing function returns. *)
Inductive ctl (S R : Type) :=
| Next (s : S)
| Return (r : R).
Arguments Next {S R} s.
Arguments Return {S R} r.

Section chain.
Context {T : Type}.

Local Abbreviation store := (gmap loc (ListNode T)).
Local Abbreviation cells := (list (loc * T)).

Implicit Types (h : store) (p q : option loc) (l : loc) (v : T)
  (cs : cells) (nd : ListNode T).

(** ** Operations on a store *)

(** [new ListNode<T>(value)]: a fresh address, holding [value] and a null
    [next]. *)
Definition new_node (value : T) h : loc * store :=
  let l := fresh (dom h) in (l, <[l := mkNode value None]> h).

(** [*p], reading a node through a pointer. *)
Definition load h p : res (ListNode T) :=
  match p with
  | None => throw BadPointer
  | Some l =>
      match h !! l with
      | Some nd => return_ nd
      | None => throw BadPointer
      end
  end.

(** [p->next = n] *)
Definition store_next h p (n : option loc) : res store :=
  nd ← load h p;
  match p with
  | Some l => return_ (<[l := mkNode (data nd) n]> h)
  | None => throw BadPointer
  end.

(** [p->data = v] (an assignment through [T&] or [T*]) *)
Definition store_data h p v : res store :=
  nd ← load h p;
  match p with
  | Some l => return_ (<[l := mkNode v (next nd)]> h)
  | None => throw BadPointer
  end.

(** [delete p] for a non-null [p] *)
Definition delete_node h p : res store :=
  _ ← load h p;
  match p with
  | Some l => return_ (delete l h)
  | None => throw BadPointer
  end.

(** ** The loops over a chain *)

(** [for (current = p; current != nullptr; current = current->next) body],
    also in its iterator form [for (it = begin(); it != end(); ++it)].
    The body sees the node's address and value and the loop state. *)
Fixpoint chain_loop {S R} (fuel : nat) h (body : loc → T → S → res (ctl S R))
    p (s : S) : res (ctl S R) :=
  match p with
  | None => return_ (Next s)
  | Some l =>
      nd ← load h p;
      match fuel with
      | O => throw OutOfFuel
      | S fuel' =>
          c ← body l (data nd) s;
          match c with
          | Return r => return_ (Return r)
          | Next s' => chain_loop fuel' h body (next nd) s'
          end
      end
  end.

(** [for (int i = 0; i < index; i++) current = current->next;] *)
Fixpoint nth_node (index : nat) h p : res (option loc) :=
  match index with
  | O => return_ p
  | S i => nd ← load h p; nth_node i h (next nd)
  end.

(** [while (head != nullptr) { temp = head; head = head->next; delete temp; }] *)
Fixpoint free_chain (fuel : nat) h p : res store :=
  match p with
  | None => return_ h
  | Some l =>
      nd ← load h p;
      match fuel with
      | O => throw OutOfFuel
      | S fuel' =>
          h' ← delete_node h p;
          free_chain fuel' h' (next nd)
      end
  end.

(** The cells of the chain that starts at [p], by a walk. *)
Definition walk (fuel : nat) h p : res cells :=
  c ← chain_loop (R := Empty_set) fuel h
         (λ l v acc, return_ (Next (acc ++ [(l, v)]))) p [];
  match c with
  | Next cs => return_ cs
  | Return r => match r : Empty_set with end
  end.

(** ** The representation predicate *)

(** [lseg h p cs q]: following [next] from [p] visits the cells [cs] and
    arrives at [q]. *)
Fixpoint lseg h p cs q : Prop :=
  match cs with
  | [] => p = q
  | (l, v) :: cs' =>
      p = Some l ∧ ∃ n, h !! l = Some (mkNode v n) ∧ lseg h n cs' q
  end.

(** [owns h p cs]: the store holds exactly the chain from [p], which ends
    at [nullptr] and visits no node twice. *)
Definition owns h p cs : Prop :=
  lseg h p cs None ∧ NoDup cs.*1 ∧ dom h = list_to_set cs.*1.

(** A loop over the cells of a chain, the image of [chain_loop]. *)
Fixpoint cells_loop {S R} (body : loc → T → S → res (ctl S R)) cs (s : S)
    : res (ctl S R) :=
  match cs with
  | [] => return_ (Next s)
  | (l, v) :: cs' =>
      c ← body l v s;
      match c with
      | Return r => return_ (Return r)
      | Next s' => cells_loop body cs' s'
      end
  end.

(** The same loop over the values alone, for bodies that do not use the
    address. *)
Fixpoint list_loop {S R} (body : T → S → res (ctl S R)) (xs : list T) (s : S)
    : res (ctl S R) :=
  match xs with
  | [] => return_ (Next s)
  | x :: xs' =>
      c ← body x s;
      match c with
      | Return r => return_ (Return r)
      | Next s' => list_loop body xs' s'
      end
  end.

(** ** Lemmas on stores *)

Lemma new_node_fresh value h : (new_node value h).1 ∉ dom h.
Proof. apply is_fresh. Qed.

Lemma load_Some h l nd : h !! l = Some nd → load h (Some l) = Ok nd.
Proof. simpl. by intros ->. Qed.

Lemma load_Ok h p nd : load h p = Ok nd ↔ ∃ l, p = Some l ∧ h !! l = Some nd.
Proof.
  destruct p as [l|]; simpl; [destruct (h !! l) eqn:E|]; split;
    try done; try (intros (? & ? & ?); by simplify_eq).
  intros [= ->]. eauto.
Qed.

Lemma store_next_Some h l nd n :
  h !! l = Some nd → store_next h (Some l) n = Ok (<[l := mkNode (data nd) n]> h).
Proof. unfold store_next. simpl. by intros ->. Qed.

Lemma store_data_Some h l nd v :
  h !! l = Some nd → store_data h (Some l) v = Ok (<[l := mkNode v (next nd)]> h).
Proof. unfold store_data. simpl. by intros ->. Qed.

Lemma delete_node_Some h l nd :
  h !! l = Some nd → delete_node h (Some l) = Ok (delete l h).
Proof. unfold delete_node. simpl. by intros ->. Qed.

(** ** Lemmas on segments *)

Lemma lseg_nil h p q : lseg h p [] q ↔ p = q.
Proof. done. Qed.

Lemma lseg_cons h p l v cs q :
  lseg h p ((l, v) :: cs) q ↔
  p = Some l ∧ ∃ n, h !! l = Some (mkNode v n) ∧ lseg h n cs q.
Proof. done. Qed.

Lemma lseg_app h p cs1 cs2 q :
  lseg h p (cs1 ++ cs2) q ↔ ∃ m, lseg h p cs1 m ∧ lseg h m cs2 q.
Proof.
  revert p. induction cs1 as [|[l v] cs1 IH]; intros p; simpl.
  - split; [eauto | by intros (m & -> & ?)].
  - split.
    + intros (-> & n & Hl & (m & ? & ?)%IH). eauto 10.
    + intros (m & (-> & n & Hl & ?) & ?). split; [done|].
      exists n. split; [done|]. apply IH. eauto.
Qed.

Lemma lseg_snoc h p cs l v q :
  lseg h p (cs ++ [(l, v)]) q ↔
  lseg h p cs (Some l) ∧ h !! l = Some (mkNode v q).
Proof.
  rewrite lseg_app. simpl. split.
  - intros (m & ? & -> & n & ? & ->). done.
  - intros [? ?]. eauto 10.
Qed.

(** A segment reads only its own nodes: changing another node keeps it. *)
Lemma lseg_insert_other h p cs q l nd :
  l ∉ cs.*1 → lseg h p cs q → lseg (<[l := nd]> h) p cs q.
Proof.
  revert p. induction cs as [|[l' v] cs IH]; intros p; simpl; [done|].
  rewrite not_elem_of_cons. intros [Hne Hnin] (-> & n & Hl & Hseg).
  split; [done|]. exists n. rewrite lookup_insert_ne by done. auto.
Qed.

Lemma lseg_delete_other h p cs q l :
  l ∉ cs.*1 → lseg h p cs q → lseg (delete l h) p cs q.
Proof.
  revert p. induction cs as [|[l' v] cs IH]; intros p; simpl; [done|].
  rewrite not_elem_of_cons. intros [Hne Hnin] (-> & n & Hl & Hseg).
  split; [done|]. exists n. rewrite lookup_delete_ne by done. auto.
Qed.

Lemma lseg_lookup h p cs q i l v :
  lseg h p cs q → cs !! i = Some (l, v) →
  ∃ n, h !! l = Some (mkNode v n).
Proof.
  revert p i. induction cs as [|[l' v'] cs IH]; intros p i; [done|].
  intros (-> & n & Hl & Hseg). destruct i as [|i]; simpl.
  - intros [= -> ->]. eauto.
  - eauto.
Qed.

Lemma lseg_dom h p cs q l : lseg h p cs q → l ∈ cs.*1 → l ∈ dom h.
Proof.
  intros Hseg (i & Hi)%list_elem_of_lookup_1.
  apply list_lookup_fmap_Some_1 in Hi as ([l' v] & ? & Hi); simplify_eq/=.
  destruct (lseg_lookup _ _ _ _ _ _ _ Hseg Hi) as [n Hn].
  by apply elem_of_dom_2 in Hn.
Qed.

(** The chain from a pointer to [nullptr] is a function of the store. *)
Lemma lseg_None_inj h p cs1 cs2 :
  lseg h p cs1 None → lseg h p cs2 None → cs1 = cs2.
Proof.
  revert p cs2. induction cs1 as [|[l v] cs1 IH]; intros p [|[l' v'] cs2]; simpl.
  - done.
  - by intros -> [? _].
  - by intros [-> _] ?.
  - intros (-> & n & Hl & H1) ([= <-] & n' & Hl' & H2). simplify_eq.
    f_equal. eauto.
Qed.

(** ** The loops on a segment *)

Lemma chain_loop_lseg {S R} fuel h (body : loc → T → S → res (ctl S R)) p cs s :
  lseg h p cs None → length cs ≤ fuel →
  chain_loop fuel h body p s = cells_loop body cs s.
Proof.
  revert fuel p s. induction cs as [|[l v] cs IH]; intros fuel p s; simpl.
  - by intros ->; destruct fuel.
  - intros (-> & n & Hl & Hseg) Hfuel. destruct fuel as [|fuel]; [lia|].
    simpl. rewrite Hl. simpl. destruct (body l v s) as [[s'|r]|e]; simpl; try done.
    apply IH; [done | lia].
Qed.

Lemma cells_loop_values {S R} (body : T → S → res (ctl S R)) cs s :
  cells_loop (λ _, body) cs s = list_loop body cs.*2 s.
Proof.
  revert s. induction cs as [|[l v] cs IH]; intros s; simpl; [done|].
  destruct (body v s) as [[s'|r]|e]; simpl; auto.
Qed.

(** The invariant rule for a loop whose body never returns: an invariant
    of the elements done so far that every step extends holds at the end,
    and the loop ends normally. *)
Lemma list_loop_invariant {S R} (I : list T → S → Prop)
    (body : T → S → res (ctl S R)) xs s0 :
  I [] s0 →
  (∀ pre x suf s, xs = pre ++ x :: suf → I pre s →
     ∃ s', body x s = Ok (Next s') ∧ I (pre ++ [x]) s') →
  ∃ s', list_loop body xs s0 = Ok (Next s') ∧ I xs s'.
Proof.
  intros H0 Hstep.
  enough (∀ suf pre s, xs = pre ++ suf → I pre s →
            ∃ s', list_loop body suf s = Ok (Next s') ∧ I xs s') as Hgen
    by exact (Hgen xs [] s0 eq_refl H0).
  induction suf as [|x suf IH]; intros pre s Hxs Hpre; simpl.
  - rewrite app_nil_r in Hxs. subst. eauto.
  - destruct (Hstep pre x suf s Hxs Hpre) as (s' & -> & Hs'). simpl.
    apply (IH (pre ++ [x])); [by rewrite <-app_assoc | done].
Qed.

Lemma list_loop_collect xs (acc : list T) :
  list_loop (R := Empty_set) (λ x acc, Ok (Next (acc ++ [x]))) xs acc
  = Ok (Next (acc ++ xs)).
Proof.
  revert acc. induction xs as [|x xs IH]; intros acc; simpl.
  - by rewrite app_nil_r.
  - rewrite IH. by rewrite <-app_assoc.
Qed.

(** A loop that returns [r] at the first element that satisfies the
    test. *)
Lemma list_loop_exists {R} (P : T → Prop) `{!∀ v, Decision (P v)} (r : R) xs :
  list_loop (λ v (_ : unit), if decide (P v) then Ok (Return r) else Ok (Next ())) xs ()
  = Ok (if decide (Exists P xs) then Return r else Next ()).
Proof.
  induction xs as [|x xs IH]; cbn [list_loop].
  - by rewrite decide_False by by intros ?%Exists_nil.
  - destruct (decide (P x)); simpl.
    + by rewrite decide_True by by left.
    + rewrite IH. f_equal. apply decide_ext. rewrite Exists_cons. tauto.
Qed.

(** A search loop: the body returns at the first cell that satisfies the
    test. *)
Lemma cells_loop_search {R} (P : T → Prop) `{!∀ v, Decision (P v)}
    (f : loc → T → res R) cs :
  cells_loop (λ a v (_ : unit),
                if decide (P v) then Return <$> f a v else Ok (Next ())) cs ()
  = match list_find (λ c, P c.2) cs with
    | Some (_, (a, v)) => Return <$> f a v
    | None => Ok (Next ())
    end.
Proof.
  induction cs as [|[a v] cs IH]; simpl; [done|]. case_decide; simpl.
  - by destruct (f a v).
  - rewrite IH. by destruct (list_find _ cs) as [[? [??]]|].
Qed.

Lemma cells_loop_collect cs (acc : cells) :
  cells_loop (R := Empty_set) (λ l v acc, Ok (Next (acc ++ [(l, v)]))) cs acc
  = Ok (Next (acc ++ cs)).
Proof.
  revert acc. induction cs as [|[l v] cs IH]; intros acc; simpl.
  - by rewrite app_nil_r.
  - rewrite IH. by rewrite <-app_assoc.
Qed.

Lemma walk_lseg fuel h p cs :
  lseg h p cs None → length cs ≤ fuel → walk fuel h p = Ok cs.
Proof.
  intros Hseg Hfuel. unfold walk.
  by rewrite (chain_loop_lseg _ _ _ _ cs), cells_loop_collect.
Qed.

Lemma chain_loop_collect_sound fuel h p (acc cs' : cells) :
  chain_loop (R := Empty_set) fuel h
    (λ l v acc, Ok (Next (acc ++ [(l, v)]))) p acc = Ok (Next cs') →
  ∃ cs, cs' = acc ++ cs ∧ lseg h p cs None.
Proof.
  revert p acc. induction fuel as [|fuel IH]; intros [l|] acc; simpl;
    try (intros [= <-]; exists []; by rewrite app_nil_r);
    destruct (h !! l) as [[v n]|] eqn:Hl; simpl; try done.
  intros (cs & -> & Hseg)%IH. exists ((l, v) :: cs).
  rewrite <-app_assoc. split; [done|]. simpl. eauto.
Qed.

Lemma walk_sound fuel h p cs : walk fuel h p = Ok cs → lseg h p cs None.
Proof.
  unfold walk. intros Hw. apply res_bind_Ok in Hw as ([cs'|[]] & Hloop & [= ->]).
  by apply chain_loop_collect_sound in Hloop as (cs' & -> & ?).
Qed.

Lemma nth_node_lseg h p cs q i :
  lseg h p cs q → i ≤ length cs →
  nth_node i h p = Ok (if decide (i = length cs) then q else cs.*1 !! i).
Proof.
  revert p i. induction cs as [|[l v] cs IH]; intros p i; simpl.
  - intros -> ?. by replace i with 0 by lia.
  - intros (-> & n & Hl & Hseg) Hi. destruct i as [|i]; simpl; [done|].
    rewrite Hl. simpl. rewrite (IH n i) by (done || lia).
    by repeat case_decide; try lia.
Qed.

(** Every step of [free_chain] deletes a node of the store, so the number
    of nodes bounds the number of steps, whatever the store holds. *)
Lemma free_chain_fuel fuel h p :
  size h ≤ fuel → free_chain fuel h p ≠ Err OutOfFuel.
Proof.
  revert h p. induction fuel as [|fuel IH]; intros h [l|] Hsize; simpl; try done;
    destruct (h !! l) as [nd|] eqn:Hl; simpl; try done.
  - apply Nat.le_0_r, map_size_empty_inv in Hsize. by simplify_map_eq.
  - rewrite (delete_node_Some _ _ _ Hl). simpl. apply IH.
    rewrite map_size_delete, Hl. destruct (size h) eqn:E; [|lia].
    apply map_size_empty_inv in E. by simplify_map_eq.
Qed.

(** ** Owned chains *)

Lemma owns_empty : owns ∅ None [].
Proof. split_and!; [done | constructor | by rewrite dom_empty_L]. Qed.

Lemma owns_size h p cs : owns h p cs → size h = length cs.
Proof.
  intros (_ & Hnd & Hdom). rewrite <-size_dom, Hdom, size_list_to_set by done.
  by rewrite length_fmap.
Qed.

Lemma owns_null h p cs : owns h p cs → p = None ↔ cs = [].
Proof. intros (Hseg & _). destruct cs as [|[??]?]; naive_solver. Qed.

Lemma owns_inj h p cs1 cs2 : owns h p cs1 → owns h p cs2 → cs1 = cs2.
Proof. intros [? _] [? _]. by eapply lseg_None_inj. Qed.

Lemma owns_lookup h p cs i l v :
  owns h p cs → cs !! i = Some (l, v) → ∃ n, h !! l = Some (mkNode v n).
Proof. intros [? _]. by eapply lseg_lookup. Qed.

Lemma owns_fresh h p cs value :
  owns h p cs → (new_node value h).1 ∉ cs.*1.
Proof.
  intros (_ & _ & Hdom) Hin. apply (new_node_fresh value h).
  rewrite Hdom. by apply elem_of_list_to_set.
Qed.

(** [newNode->next = head; head = newNode] *)
Lemma owns_push_front h p cs v :
  owns h p cs →
  let '(l, h1) := new_node v h in
  ∃ h2, store_next h1 (Some l) p = Ok h2 ∧ owns h2 (Some l) ((l, v) :: cs).
Proof.
  intros Hown. pose proof (owns_fresh _ _ _ v Hown) as Hfresh.
  destruct Hown as (Hseg & Hnd & Hdom). unfold new_node in *. simpl in *.
  set (l := fresh (dom h)) in *. eexists. split.
  { apply store_next_Some, lookup_insert_eq. }
  simpl. rewrite insert_insert_eq. split_and!.
  - split; [done|]. eexists. rewrite lookup_insert_eq. split; [done|].
    by apply lseg_insert_other.
  - by constructor.
  - rewrite dom_insert_L, Hdom. set_solver.
Qed.

(** [head = tail = newNode] on an empty chain *)
Lemma owns_push_first h v :
  owns h None [] →
  let '(l, h1) := new_node v h in owns h1 (Some l) [(l, v)].
Proof.
  intros (_ & _ & Hdom). unfold new_node. simpl in *. split_and!.
  - split; [done|]. eexists. by rewrite lookup_insert_eq.
  - apply NoDup_singleton.
  - rewrite dom_insert_L, Hdom. set_solver.
Qed.

(** [tail->next = newNode; tail = newNode] on a chain with last node [t] *)
Lemma owns_push_back h p cs t v :
  owns h p cs → last cs.*1 = Some t →
  let '(l, h1) := new_node v h in
  ∃ h2, store_next h1 (Some t) (Some l) = Ok h2 ∧
        owns h2 p (cs ++ [(l, v)]).
Proof.
  intros Hown Hlast. pose proof (owns_fresh _ _ _ v Hown) as Hfresh.
  destruct Hown as (Hseg & Hnd & Hdom). unfold new_node in *. simpl in *.
  set (l := fresh (dom h)) in *.
  destruct cs as [|[t' vt] cs _] using rev_ind; [done|].
  rewrite fmap_app in Hlast, Hfresh, Hnd, Hdom. simpl in *.
  rewrite last_snoc in Hlast. simplify_eq.
  apply not_elem_of_app in Hfresh as [Hfresh Hlt%not_elem_of_cons].
  apply NoDup_app in Hnd as (Hnd & Hdisj & _).
  apply lseg_snoc in Hseg as [Hseg Ht].
  assert (t ∉ cs.*1) as Htn by (intros ?%Hdisj; set_solver).
  eexists. split.
  { apply store_next_Some. rewrite lookup_insert_ne by naive_solver. done. }
  simpl. split_and!.
  - rewrite <-app_assoc. apply lseg_app. exists (Some t). split.
    + apply lseg_insert_other; [done|]. by apply lseg_insert_other.
    + simpl. split; [done|]. eexists. rewrite lookup_insert_eq. split; [done|].
      split; [done|]. eexists. rewrite lookup_insert_ne by naive_solver.
      by rewrite lookup_insert_eq.
  - rewrite !fmap_app. simpl. apply NoDup_snoc.
    + apply NoDup_snoc; done.
    + set_solver.
  - rewrite !dom_insert_L, Hdom, !fmap_app, !list_to_set_app_L. simpl. set_solver.
Qed.

(** [head = head->next; delete nodeToDelete] *)
Lemma owns_pop_front h l v cs :
  owns h (Some l) ((l, v) :: cs) →
  ∃ n, h !! l = Some (mkNode v n) ∧ owns (delete l h) n cs.
Proof.
  intros ((_ & n & Hl & Hseg) & [Hnin Hnd]%NoDup_cons & Hdom). simpl in *.
  exists n. split; [done|]. split_and!; [by apply lseg_delete_other | done |].
  rewrite dom_delete_L, Hdom. set_solver.
Qed.

(** An assignment to the [data] of the [i]-th node *)
Lemma owns_store_data h p cs i l v v' :
  owns h p cs → cs !! i = Some (l, v) →
  ∃ h', store_data h (Some l) v' = Ok h' ∧ owns h' p (<[i := (l, v')]> cs).
Proof.
  intros (Hseg & Hnd & Hdom) Hi.
  destruct (lseg_lookup _ _ _ _ _ _ _ Hseg Hi) as [n Hl].
  eexists. split; [by apply store_data_Some|]. simpl.
  assert ((<[i:=(l, v')]> cs).*1 = cs.*1) as Hfst.
  { rewrite list_fmap_insert. simpl. apply list_insert_id.
    by rewrite list_lookup_fmap, Hi. }
  split_and!; rewrite ?Hfst; [| done |].
  - apply take_drop_middle in Hi as Hsplit. rewrite <-Hsplit in Hseg, Hnd.
    rewrite insert_take_drop by (by eapply lookup_lt_Some).
    rewrite fmap_app in Hnd. simpl in Hnd.
    apply NoDup_app in Hnd as (_ & Hdisj & [Hnin _]%NoDup_cons).
    apply lseg_app in Hseg as (m & Hpre & (-> & n' & Hl' & Hpost)).
    simplify_eq/=. apply lseg_app. exists (Some l). split.
    + apply lseg_insert_other; [|done]. intros ?%Hdisj. set_solver.
    + split; [done|]. eexists. rewrite lookup_insert_eq. split; [done|].
      by apply lseg_insert_other.
  - rewrite dom_insert_L, <-Hdom. apply elem_of_dom_2 in Hl. set_solver.
Qed.

Lemma free_chain_owns fuel h p cs :
  owns h p cs → length cs ≤ fuel → free_chain fuel h p = Ok ∅.
Proof.
  revert fuel h p. induction cs as [|[l v] cs IH]; intros fuel h p Hown Hfuel.
  - destruct Hown as (-> & _ & Hdom). simpl. apply dom_empty_inv_L in Hdom.
    subst. by destruct fuel.
  - pose proof Hown as [[-> _] _].
    apply owns_pop_front in Hown as (n & Hl & Hown).
    destruct fuel as [|fuel]; [simpl in *; lia|]. simpl. rewrite Hl. simpl.
    rewrite (delete_node_Some _ _ _ Hl). simpl. apply IH; [done | simpl in *; lia].
Qed.

End chain.
