(* ===== verification/CustomLists.v ===== *)
(** * [CustomLinkedList<T>] and [SkillCounter]

    Module [CustomLinkedList] models the class template of
    [src/include/CustomLists.hpp]: the object is the record [t] of its
    node store and its three members, and every member function is one
    definition.  [repr] is the class invariant with the cells of the chain
    made explicit, [models] the abstraction to a [list T]; the theorems
    say that each member function preserves the invariant and refines the
    list operation it stands for.  Module [SkillCounter] models the
    frequency table built on the list. *)

From S2P Require Import Prelude Chain.

Module CustomLinkedList.

(** [ListNode<T>* head; ListNode<T>* tail; int count;] and the nodes the
    object owns. *)
Record t (T : Type) := mk {
  nodes : gmap loc (ListNode T);
  head : option loc;
  tail : option loc;
  count : Z
}.
Arguments mk {T} nodes head tail count.
Arguments nodes {T} _.
Arguments head {T} _.
Arguments tail {T} _.
Arguments count {T} _.

(** [class Iterator { ListNode<T>* current; }] *)
Record Iterator := mkIterator { current : option loc }.

Section ops.
Context {T : Type}.
Implicit Types (l other : t T) (value : T) (it : Iterator).

(** [CustomLinkedList() : head(nullptr), tail(nullptr), count(0) {}] *)
Definition new : t T := mk ∅ None None 0.

(** [void push_back(const T& value)] *)
Definition push_back value l : res (t T) :=
  let '(newNode, h) := new_node value (nodes l) in
  l' ← match head l with
       | None => return_ (mk h (Some newNode) (Some newNode) (count l))
       | Some _ =>
           h' ← store_next h (tail l) (Some newNode);
           return_ (mk h' (head l) (Some newNode) (count l))
       end;
  c ← int_incr (count l');
  return_ (mk (nodes l') (head l') (tail l') c).

(** [void push_front(const T& value)] *)
Definition push_front value l : res (t T) :=
  let '(newNode, h) := new_node value (nodes l) in
  l' ← match head l with
       | None => return_ (mk h (Some newNode) (Some newNode) (count l))
       | Some _ =>
           h' ← store_next h (Some newNode) (head l);
           return_ (mk h' (Some newNode) (tail l) (count l))
       end;
  c ← int_incr (count l');
  return_ (mk (nodes l') (head l') (tail l') c).

(** [bool empty() const] *)
Definition empty l : bool := bool_decide (head l = None).

(** [void clear()]: the loop frees node after node; its budget is the
    number of nodes of the store. *)
Definition clear l : res (t T) :=
  h ← free_chain (base.size (nodes l)) (nodes l) (head l);
  return_ (mk h None None 0).

(** [~CustomLinkedList()] *)
Definition destroy l : res (t T) := clear l.

(** [int size() const] *)
Definition size l : Z := count l.

(** The loop shared by the copy constructor and the assignment:
    [while (current != nullptr) { push_back(current->data); current = current->next; }] *)
Definition append_all other (l : t T) : res (t T) :=
  c ← chain_loop (R := Empty_set) (base.size (nodes other)) (nodes other)
         (λ _ value acc, acc' ← push_back value acc; return_ (Next acc'))
         (head other) l;
  match c with
  | Next l' => return_ l'
  | Return r => match r : Empty_set with end
  end.

(** One [push_back] per element of [xs], in order: the way a caller
    fills a list. *)
Fixpoint push_all (xs : list T) (l : t T) : res (t T) :=
  match xs with
  | [] => return_ l
  | x :: xs' => l' ← push_back x l; push_all xs' l'
  end.

(** [CustomLinkedList(const CustomLinkedList& other)] *)
Definition copy other : res (t T) := append_all other new.

(** [CustomLinkedList& operator=(const CustomLinkedList& other)];
    [same] says whether [this == &other]. *)
Definition assign (same : bool) l other : res (t T) :=
  if same then return_ l
  else l' ← clear l; append_all other l'.

(** [Iterator begin()], [Iterator end()] and their [const] forms *)
Definition begin l : Iterator := mkIterator (head l).
Definition end_ : Iterator := mkIterator None.

(** [bool operator==(const Iterator&)], [bool operator!=(const Iterator&)] *)
Definition it_eq it it' : bool := bool_decide (current it = current it').
Definition it_neq it it' : bool := negb (it_eq it it').

(** [T& operator*()], [T* operator->()]: the node whose [data] is
    referred to. *)
Definition deref l it : res T := nd ← load (nodes l) (current it); return_ (data nd).

(** [Iterator& operator++()]: [if (current) current = current->next;] *)
Definition incr l it : res Iterator :=
  match current it with
  | None => return_ it
  | Some _ => nd ← load (nodes l) (current it); return_ (mkIterator (next nd))
  end.

(** [for (auto it = l.begin(); it != l.end(); ++it) body], with the
    iterator's operations.  The body gets the iterator and [*it]. *)
Fixpoint for_each {S R} (fuel : nat) l
    (body : Iterator → T → S → res (ctl S R)) it (s : S) : res (ctl S R) :=
  if it_neq it end_ then
    value ← deref l it;
    match fuel with
    | O => throw OutOfFuel
    | S fuel' =>
        c ← body it value s;
        match c with
        | Return r => return_ (Return r)
        | Next s' => it' ← incr l it; for_each fuel' l body it' s'
        end
    end
  else return_ (Next s).

(** The loop over the whole list, on the budget of the store's size. *)
Definition iterate {S R} l (body : Iterator → T → S → res (ctl S R)) (s : S)
    : res (ctl S R) :=
  for_each (base.size (nodes l)) l body (begin l) s.

(** [T& operator[](int index)] and its [const] form: the address of the
    node whose [data] the reference denotes. *)
Definition subscript l (index : Z) : res loc :=
  if decide (index < 0 ∨ count l ≤ index)%Z then throw OutOfRange
  else
    cur ← nth_node (Z.to_nat index) (nodes l) (head l);
    _ ← load (nodes l) cur;
    match cur with
    | Some a => return_ a
    | None => throw BadPointer
    end.

(** [T* at(int index)] and its [const] form: [None] is [nullptr]. *)
Definition at_ l (index : Z) : res (option loc) :=
  if decide (index < 0 ∨ count l ≤ index)%Z then return_ None
  else
    cur ← nth_node (Z.to_nat index) (nodes l) (head l);
    _ ← load (nodes l) cur;
    return_ cur.

(** Reading and writing through a reference or pointer obtained from
    [operator[]], [at] or an iterator: [... = *p] and [*p = value]. *)
Definition read l (p : option loc) : res T :=
  nd ← load (nodes l) p; return_ (data nd).

Definition write l (p : option loc) value : res (t T) :=
  h ← store_data (nodes l) p value;
  return_ (mk h (head l) (tail l) (count l)).

(** ** Invariant and abstraction *)

(** The elements from [head] on, by a walk over the chain. *)
Definition to_list l : res (list T) :=
  cs ← walk (base.size (nodes l)) (nodes l) (head l); return_ cs.*2.

(** [repr l cs]: the object owns exactly the chain of cells [cs], [tail]
    points to its last node and [count] is its length, an [int]. *)
Definition repr l (cs : list (loc * T)) : Prop :=
  owns (nodes l) (head l) cs ∧
  tail l = last cs.*1 ∧
  count l = Z.of_nat (length cs) ∧
  (Z.of_nat (length cs) ≤ INT_MAX)%Z.

(** The class invariant. *)
Definition wf l : Prop := ∃ cs, repr l cs.

(** [models l xs]: the well-formed object [l] holds the elements [xs]. *)
Definition models l (xs : list T) : Prop := ∃ cs, repr l cs ∧ cs.*2 = xs.

(** [repr] as a test that evaluates on a closed object. *)
Definition check `{EqDecision T} l (cs : list (loc * T)) : bool :=
  bool_decide (walk (base.size (nodes l)) (nodes l) (head l) = Ok cs ∧
               NoDup cs.*1 ∧ dom (nodes l) = list_to_set cs.*1 ∧
               tail l = last cs.*1 ∧ count l = Z.of_nat (length cs) ∧
               (Z.of_nat (length cs) ≤ INT_MAX)%Z).

End ops.

(** ** The invariant on every member function *)

Section lemmas.
Context {T : Type}.
Implicit Types (l other : t T) (value v : T) (it : Iterator)
  (cs : list (loc * T)) (xs : list T) (a : loc).

Lemma repr_new : repr (@new T) [].
Proof. split_and!; [apply owns_empty | done | done | done]. Qed.

Lemma repr_inj l cs1 cs2 : repr l cs1 → repr l cs2 → cs1 = cs2.
Proof. intros [? _] [? _]. by eapply owns_inj. Qed.

Lemma repr_size_nodes l cs : repr l cs → base.size (nodes l) = length cs.
Proof. intros [? _]. by eapply owns_size. Qed.

Lemma repr_head_None l cs : repr l cs → head l = None ↔ cs = [].
Proof. intros [? _]. by eapply owns_null. Qed.

Lemma models_new : models (@new T) [].
Proof. exists []. split; [apply repr_new | done]. Qed.

Lemma models_inj l xs ys : models l xs → models l ys → xs = ys.
Proof.
  intros (cs1 & H1 & <-) (cs2 & H2 & <-). by rewrite (repr_inj _ _ _ H1 H2).
Qed.

Lemma models_length l xs :
  models l xs → count l = Z.of_nat (length xs) ∧ (Z.of_nat (length xs) ≤ INT_MAX)%Z.
Proof. intros (cs & (_ & _ & ? & ?) & <-). by rewrite length_fmap. Qed.

Lemma push_back_repr value l cs :
  repr l cs → (Z.of_nat (length cs) < INT_MAX)%Z →
  ∃ a l', push_back value l = Ok l' ∧ repr l' (cs ++ [(a, value)]).
Proof.
  intros (Hown & Htail & Hcount & _) Hlt. unfold push_back.
  pose proof (owns_null _ _ _ Hown) as Hnull.
  destruct cs as [|c cs].
  - rewrite (proj2 Hnull eq_refl) in Hown |- *.
    pose proof (owns_push_first _ value Hown) as H1.
    destruct (new_node value (nodes l)) as [a h1]. simpl.
    rewrite int_incr_lt by lia. exists a. eexists. split; [done|].
    split_and!; simpl in *; [done | done | lia | int_solve].
  - assert (c :: cs ≠ []) as Hne by done.
    remember (c :: cs) as cs' eqn:E. clear E c cs.
    destruct (head l) as [hd|] eqn:Hhd; [|by destruct Hne; apply Hnull].
    destruct (last_is_Some (cs'.*1)) as [tl Htl]; [by destruct cs'|].
    pose proof (owns_push_back _ _ _ _ value Hown Htl) as H1.
    destruct (new_node value (nodes l)) as [a h1].
    destruct H1 as (h2 & Hst & Hown2). rewrite Htail, Htl, Hst. simpl.
    rewrite int_incr_lt by lia. exists a. eexists. split; [done|].
    split_and!; cbn [nodes head tail count]; [done | | |].
    + symmetry. rewrite fmap_app. apply last_snoc.
    + rewrite length_app. simpl. lia.
    + rewrite length_app. simpl. int_solve.
Qed.

Lemma push_front_repr value l cs :
  repr l cs → (Z.of_nat (length cs) < INT_MAX)%Z →
  ∃ a l', push_front value l = Ok l' ∧ repr l' ((a, value) :: cs).
Proof.
  intros (Hown & Htail & Hcount & _) Hlt. unfold push_front.
  pose proof (owns_null _ _ _ Hown) as Hnull.
  destruct cs as [|c cs].
  - rewrite (proj2 Hnull eq_refl) in Hown |- *.
    pose proof (owns_push_first _ value Hown) as H1.
    destruct (new_node value (nodes l)) as [a h1]. simpl.
    rewrite int_incr_lt by lia. exists a. eexists. split; [done|].
    split_and!; simpl in *; [done | done | lia | int_solve].
  - destruct (head l) as [hd|] eqn:Hhd; [|by destruct Hnull as [Hn _]; specialize (Hn eq_refl)].
    pose proof (owns_push_front _ _ _ value Hown) as H1.
    destruct (new_node value (nodes l)) as [a h1].
    destruct H1 as (h2 & Hst & Hown2). rewrite Hst. simpl.
    rewrite int_incr_lt by lia. exists a. eexists. split; [done|].
    split_and!; simpl in *; [done | done | lia | int_solve].
Qed.

Lemma push_back_full value l cs :
  repr l cs → Z.of_nat (length cs) = INT_MAX → push_back value l = Err Overflow.
Proof.
  intros (Hown & Htail & Hcount & _) Hfull. unfold push_back.
  destruct cs as [|c cs]; [done|].
  pose proof (owns_null _ _ _ Hown) as Hnull.
  destruct (head l) as [hd|] eqn:Hhd; [|by destruct Hnull as [Hn _]; specialize (Hn eq_refl)].
  destruct (last_is_Some ((c :: cs).*1)) as [tl Htl]; [done|].
  pose proof (owns_push_back _ _ _ _ value Hown Htl) as H1.
  destruct (new_node value (nodes l)) as [a h1].
  destruct H1 as (h2 & Hst & Hown2). rewrite Htail, Htl, Hst. simpl.
  by rewrite int_incr_max by lia.
Qed.

Lemma clear_repr l cs : repr l cs → clear l = Ok new.
Proof.
  intros (Hown & _). unfold clear.
  rewrite (free_chain_owns _ _ _ cs); [done | done |].
  by rewrite (owns_size _ _ _ Hown).
Qed.

Lemma check_repr `{EqDecision T} l cs : check l cs = true ↔ repr l cs.
Proof.
  unfold check. rewrite bool_decide_eq_true. split.
  - intros (Hw%walk_sound & ? & ? & ? & ? & ?). by split_and!.
  - intros (Hown & ? & ? & ?). pose proof (owns_size _ _ _ Hown) as Hsz.
    destruct Hown as (? & ? & ?). split_and!; try done.
    apply walk_lseg; [done | lia].
Qed.

Lemma check_models `{EqDecision T} l cs : check l cs = true → models l cs.*2.
Proof. intros ?%check_repr. by exists cs. Qed.

Lemma push_back_models value l xs :
  models l xs → (Z.of_nat (length xs) < INT_MAX)%Z →
  ∃ l', push_back value l = Ok l' ∧ models l' (xs ++ [value]).
Proof.
  intros (cs & Hrepr & <-) Hlen. rewrite length_fmap in Hlen.
  destruct (push_back_repr value l cs) as (a & l' & ? & ?); [done..|].
  exists l'. split; [done|]. exists (cs ++ [(a, value)]). by rewrite fmap_app.
Qed.

Lemma push_all_models xs l xs0 :
  models l xs0 → (Z.of_nat (length xs0 + length xs) ≤ INT_MAX)%Z →
  ∃ l', push_all xs l = Ok l' ∧ models l' (xs0 ++ xs).
Proof.
  revert l xs0. induction xs as [|x xs IH]; intros l xs0 Hm Hlen; simpl.
  - rewrite app_nil_r. eauto.
  - simpl in Hlen. destruct (push_back_models x l xs0) as (l' & -> & Hm');
      [done | lia |]. simpl.
    rewrite (cons_middle x xs0 xs), (assoc_L (++)). apply IH; [done|].
    rewrite length_app. simpl. lia.
Qed.

Lemma to_list_repr l cs : repr l cs → to_list l = Ok cs.*2.
Proof.
  intros (Hown & _). unfold to_list. pose proof (owns_size _ _ _ Hown).
  destruct Hown as (? & _). rewrite (walk_lseg _ _ _ cs); [done | done | lia].
Qed.

(** The copy loop appends the elements of the chain it walks. *)
Lemma cells_loop_push_back cs l cs0 :
  repr l cs0 → (Z.of_nat (length cs0 + length cs) ≤ INT_MAX)%Z →
  ∃ l' cs', cells_loop (R := Empty_set)
              (λ _ value acc, acc' ← push_back value acc; Ok (Next acc')) cs l
            = Ok (Next l') ∧ repr l' cs' ∧ cs'.*2 = cs0.*2 ++ cs.*2.
Proof.
  revert l cs0. induction cs as [|[a v] cs IH]; intros l cs0 Hrepr Hlen; simpl.
  - exists l, cs0. by rewrite app_nil_r.
  - destruct (push_back_repr v l cs0) as (a' & l1 & -> & Hrepr1);
      [done | simpl in *; lia |]. simpl.
    destruct (IH l1 (cs0 ++ [(a', v)])) as (l' & cs' & -> & ? & Hcs');
      [done | rewrite length_app; simpl in *; lia |].
    exists l', cs'. by rewrite Hcs', fmap_app, <-app_assoc.
Qed.

Lemma append_all_repr other cs l cs0 :
  repr other cs → repr l cs0 →
  (Z.of_nat (length cs0 + length cs) ≤ INT_MAX)%Z →
  ∃ l' cs', append_all other l = Ok l' ∧ repr l' cs' ∧ cs'.*2 = cs0.*2 ++ cs.*2.
Proof.
  intros (Hown & _) Hrepr Hlen. unfold append_all.
  pose proof (owns_size _ _ _ Hown). destruct Hown as (Hseg & _).
  rewrite (chain_loop_lseg _ _ _ _ cs) by (done || lia).
  destruct (cells_loop_push_back cs l cs0) as (l' & cs' & -> & ? & ?);
    [done | done |]. simpl. eauto.
Qed.

(** The iterator loop is the pointer loop. *)
Lemma for_each_chain_loop {S R} fuel l
    (body : Iterator → T → S → res (ctl S R)) it s :
  for_each fuel l body it s
  = chain_loop fuel (nodes l) (λ a, body (mkIterator (Some a))) (current it) s.
Proof.
  revert it s. induction fuel as [|fuel IH]; intros [[a|]] s; simpl; try done;
    unfold deref; simpl; destruct (nodes l !! a) as [nd|] eqn:Ha; simpl; try done.
  destruct (body _ _ _) as [[s'|r]|e]; simpl; try done.
  unfold incr. simpl. rewrite Ha. simpl. apply IH.
Qed.

Lemma iterate_repr {S R} l cs (body : Iterator → T → S → res (ctl S R)) s :
  repr l cs →
  iterate l body s = cells_loop (λ a, body (mkIterator (Some a))) cs s.
Proof.
  intros (Hown & _). unfold iterate. rewrite for_each_chain_loop.
  pose proof (owns_size _ _ _ Hown). destruct Hown as (? & _).
  apply chain_loop_lseg; [done | lia].
Qed.

Lemma iterate_models {S R} l xs (body : T → S → res (ctl S R)) s :
  models l xs → iterate l (λ _, body) s = list_loop body xs s.
Proof.
  intros (cs & Hrepr & <-). rewrite (iterate_repr _ _ _ _ Hrepr).
  apply cells_loop_values.
Qed.

Lemma read_repr l cs i a v :
  repr l cs → cs !! i = Some (a, v) → read l (Some a) = Ok v.
Proof.
  intros (Hown & _) Hi. destruct (owns_lookup _ _ _ _ _ _ Hown Hi) as [n Ha].
  unfold read. simpl. by rewrite Ha.
Qed.

Lemma nth_node_repr l cs i a v :
  repr l cs → cs !! i = Some (a, v) →
  nth_node i (nodes l) (head l) = Ok (Some a).
Proof.
  intros ((Hseg & _) & _) Hi. pose proof (lookup_lt_Some _ _ _ Hi).
  rewrite (nth_node_lseg _ _ cs None) by (done || lia).
  rewrite decide_False by lia. by rewrite list_lookup_fmap, Hi.
Qed.

Lemma subscript_repr l cs (index : Z) a v :
  repr l cs → (0 ≤ index)%Z → cs !! Z.to_nat index = Some (a, v) →
  subscript l index = Ok a.
Proof.
  intros Hrepr Hpos Hi. pose proof (lookup_lt_Some _ _ _ Hi).
  unfold subscript. pose proof Hrepr as (Hown & _ & Hcount & _).
  rewrite decide_False by lia.
  rewrite (nth_node_repr _ _ _ _ _ Hrepr Hi). simpl.
  destruct (owns_lookup _ _ _ _ _ _ Hown Hi) as [n ->]. done.
Qed.

Lemma at_repr l cs (index : Z) a v :
  repr l cs → (0 ≤ index)%Z → cs !! Z.to_nat index = Some (a, v) →
  at_ l index = Ok (Some a).
Proof.
  intros Hrepr Hpos Hi. pose proof (lookup_lt_Some _ _ _ Hi).
  unfold at_. pose proof Hrepr as (Hown & _ & Hcount & _).
  rewrite decide_False by lia.
  rewrite (nth_node_repr _ _ _ _ _ Hrepr Hi). simpl.
  destruct (owns_lookup _ _ _ _ _ _ Hown Hi) as [n ->]. done.
Qed.

Lemma write_repr l cs i a v v' :
  repr l cs → cs !! i = Some (a, v) →
  ∃ l', write l (Some a) v' = Ok l' ∧ repr l' (<[i := (a, v')]> cs).
Proof.
  intros (Hown & Htail & Hcount & Hmax) Hi. unfold write.
  destruct (owns_store_data _ _ _ _ _ _ v' Hown Hi) as (h' & -> & Hown').
  eexists. split; [done|].
  assert ((<[i:=(a, v')]> cs).*1 = cs.*1) as Hfst.
  { rewrite list_fmap_insert. apply list_insert_id.
    by rewrite list_lookup_fmap, Hi. }
  split_and!; cbn [nodes head tail count]; rewrite ?Hfst, ?length_insert; done.
Qed.

(** The members on the abstraction. *)
Lemma empty_models l xs : models l xs → empty l = bool_decide (xs = []).
Proof.
  intros (cs & Hrepr & <-). unfold empty. apply bool_decide_ext.
  rewrite (repr_head_None l cs Hrepr). by destruct cs.
Qed.

Lemma to_list_models l xs : models l xs → to_list l = Ok xs.
Proof. intros (cs & Hrepr & <-). by apply to_list_repr. Qed.

(** A reference from [operator[]] is read and written in place. *)
Lemma subscript_models l xs (index : Z) v v' :
  models l xs → (0 ≤ index)%Z → xs !! Z.to_nat index = Some v →
  ∃ a l', subscript l index = Ok a ∧ read l (Some a) = Ok v ∧
          write l (Some a) v' = Ok l' ∧ models l' (<[Z.to_nat index := v']> xs).
Proof.
  intros (cs & Hrepr & <-) Hpos Hi.
  apply list_lookup_fmap_Some in Hi as ([a w] & -> & Hcs).
  destruct (write_repr l cs _ a w v' Hrepr Hcs) as (l' & Hw & Hrepr').
  exists a, l'. split_and!; [by eapply subscript_repr | by eapply read_repr | done |].
  exists (<[Z.to_nat index := (a, v')]> cs). split; [done|].
  by rewrite list_fmap_insert.
Qed.

End lemmas.

(** ** The member functions refine the list operations *)

Section refinement.
Context {T : Type}.
Implicit Types (l other : t T) (value v : T) (xs ys : list T).

(** C4 [push_back] appends: on an object that holds [xs], fewer than
    [INT_MAX] of them, [push_back(value)] returns normally and the object
    then holds [xs ++ [value]] and satisfies the class invariant. *)
Theorem push_back_spec value l xs :
  models l xs → (Z.of_nat (length xs) < INT_MAX)%Z →
  ∃ l', push_back value l = Ok l' ∧ models l' (xs ++ [value]).
Proof.
  intros (cs & Hrepr & <-) Hlen. rewrite length_fmap in Hlen.
  destruct (push_back_repr value l cs) as (a & l' & ? & ?); [done..|].
  exists l'. split; [done|]. exists (cs ++ [(a, value)]).
  by rewrite fmap_app.
Qed.

(** [push_front] prepends: on an object that holds [xs], fewer than
    [INT_MAX] of them, it returns normally and the object then holds
    [value :: xs]. *)
Theorem push_front_spec value l xs :
  models l xs → (Z.of_nat (length xs) < INT_MAX)%Z →
  ∃ l', push_front value l = Ok l' ∧ models l' (value :: xs).
Proof.
  intros (cs & Hrepr & <-) Hlen. rewrite length_fmap in Hlen.
  destruct (push_front_repr value l cs) as (a & l' & ? & ?); [done..|].
  exists l'. split; [done|]. by exists ((a, value) :: cs).
Qed.

(** The counter is a signed [int]: on an object whose [count] is
    [INT_MAX] [push_back] does not return; on a well-formed object it
    links the node and then overflows [count]. *)
Theorem push_back_overflow value l :
  (INT_MAX ≤ count l)%Z →
  (∀ l', push_back value l ≠ Ok l') ∧
  (wf l → push_back value l = Err Overflow).
Proof.
  intros Hmax. split.
  - intros l'. unfold push_back. destruct (new_node value (nodes l)) as [a h].
    destruct (head l); simpl; [destruct (store_next h _ _); simpl|];
      by rewrite ?int_incr_max.
  - intros (cs & Hrepr). apply (push_back_full _ _ cs Hrepr).
    destruct Hrepr as (_ & _ & ? & ?). lia.
Qed.

(** [size()] is the number of elements and [empty()] says whether
    there is none. *)
Theorem size_spec l xs :
  models l xs → size l = Z.of_nat (length xs) ∧ (empty l = true ↔ xs = []).
Proof.
  intros Hm. split; [by apply models_length|].
  destruct Hm as (cs & Hrepr & <-). unfold empty.
  rewrite bool_decide_eq_true, (repr_head_None _ _ Hrepr).
  by destruct cs.
Qed.

(** [clear()] on a well-formed object frees every node and leaves the
    empty object: no node leaks. *)
Theorem clear_spec l xs : models l xs → clear l = Ok new.
Proof. intros (cs & Hrepr & _). by eapply clear_repr. Qed.

(** The loop of [clear()] ends on every object, well-formed or not:
    each step deletes a node of the store. *)
Theorem clear_terminates l : clear l ≠ Err OutOfFuel.
Proof.
  unfold clear. intros [H | (h & _ & [=])]%res_bind_Err.
  by eapply free_chain_fuel.
Qed.

(** The copy constructor makes a deep copy: a well-formed object
    with the same elements in the same order. *)
Theorem copy_spec other xs :
  models other xs → ∃ l', copy other = Ok l' ∧ models l' xs.
Proof.
  intros (cs & Hrepr & <-). unfold copy.
  destruct (append_all_repr other cs new []) as (l' & cs' & ? & ? & Heq);
    [done | apply repr_new | by destruct Hrepr as (_ & _ & _ & ?) |].
  exists l'. split; [done|]. by exists cs'.
Qed.

(** Assignment from another object releases the target's nodes and
    copies the source: afterwards the target holds the source's elements. *)
Theorem assign_spec l other xs ys :
  models l xs → models other ys →
  ∃ l', assign false l other = Ok l' ∧ models l' ys.
Proof.
  intros Hl (cs & Hrepr & <-). unfold assign.
  destruct Hl as (cs0 & Hl & _). rewrite (clear_repr l cs0 Hl). simpl.
  destruct (append_all_repr other cs new []) as (l' & cs' & ? & ? & Heq);
    [done | apply repr_new | by destruct Hrepr as (_ & _ & _ & ?) |].
  exists l'. split; [done|]. by exists cs'.
Qed.

(** [operator[]] inside the bounds refers to the element at that
    index: reading through the reference gives [xs !! index]. *)
Theorem subscript_spec l xs (index : Z) v :
  models l xs → (0 ≤ index)%Z → xs !! Z.to_nat index = Some v →
  ∃ a, subscript l index = Ok a ∧ read l (Some a) = Ok v.
Proof.
  intros (cs & Hrepr & <-) Hpos Hi.
  apply list_lookup_fmap_Some_1 in Hi as ([a v'] & ? & Hi); simplify_eq/=.
  exists a. split; [by eapply subscript_repr | by eapply read_repr].
Qed.

(** [operator[]] outside the bounds throws [std::out_of_range]. *)
Theorem subscript_out_of_range l xs (index : Z) :
  models l xs → (index < 0 ∨ Z.of_nat (length xs) ≤ index)%Z →
  subscript l index = Err OutOfRange.
Proof.
  intros [Hc _]%models_length Hout. unfold subscript.
  by rewrite decide_True by lia.
Qed.

(** [at] returns [nullptr] outside the bounds and a pointer to the
    element inside. *)
Theorem at_spec l xs (index : Z) :
  models l xs →
  (∀ v, (0 ≤ index)%Z → xs !! Z.to_nat index = Some v →
        ∃ a, at_ l index = Ok (Some a) ∧ read l (Some a) = Ok v) ∧
  ((index < 0 ∨ Z.of_nat (length xs) ≤ index)%Z → at_ l index = Ok None).
Proof.
  intros Hm. split.
  - destruct Hm as (cs & Hrepr & <-). intros v Hpos Hi.
    apply list_lookup_fmap_Some_1 in Hi as ([a v'] & ? & Hi); simplify_eq/=.
    exists a. split; [by eapply at_repr | by eapply read_repr].
  - apply models_length in Hm as [Hc _]. intros Hout.
    unfold at_. by rewrite decide_True by lia.
Qed.

(** A loop with the iterator from [begin()] to [end()] runs its body
    on the elements in order, and ends. *)
Theorem iterate_spec {S R} l xs (body : T → S → res (ctl S R)) s :
  models l xs → iterate l (λ _, body) s = list_loop body xs s.
Proof.
  intros (cs & Hrepr & <-).
  by rewrite (iterate_repr _ cs), cells_loop_values.
Qed.

(** An assignment through the reference [operator[]] returned
    replaces that element and no other. *)
Theorem write_spec l xs (index : Z) a v v' :
  models l xs → (0 ≤ index)%Z → xs !! Z.to_nat index = Some v →
  subscript l index = Ok a →
  ∃ l', write l (Some a) v' = Ok l' ∧ models l' (<[Z.to_nat index := v']> xs).
Proof.
  intros (cs & Hrepr & <-) Hpos Hi Hsub.
  apply list_lookup_fmap_Some_1 in Hi as ([a' v''] & ? & Hi); simplify_eq/=.
  rewrite (subscript_repr _ _ _ _ _ Hrepr Hpos Hi) in Hsub. simplify_eq.
  destruct (write_repr _ _ _ _ _ v' Hrepr Hi) as (l' & ? & ?).
  exists l'. split; [done|]. eexists. split; [done|].
  by rewrite list_fmap_insert.
Qed.

(** The walk from [head] lists the elements of a well-formed
    object. *)
Theorem to_list_spec l xs : models l xs → to_list l = Ok xs.
Proof. intros (cs & Hrepr & <-). by apply to_list_repr. Qed.

End refinement.

(** ** Closed instances

    A two-element object, tested against [repr] by evaluation, on which
    the theorems above are applied. *)

Definition sample_cells : list (loc * Z) := [(1%positive, 10%Z); (2%positive, 20%Z)].

Definition sample : t Z :=
  mk (<[1%positive := mkNode 10%Z (Some 2%positive)]>
        (<[2%positive := mkNode 20%Z None]> ∅))
     (Some 1%positive) (Some 2%positive) 2.

Lemma sample_models : models sample [10; 20]%Z.
Proof. apply (check_models sample sample_cells). by vm_compute. Qed.

Lemma push_back_spec_witness :
  ∃ l', push_back 30%Z sample = Ok l' ∧ models l' ([10; 20] ++ [30])%Z.
Proof. apply push_back_spec; [apply sample_models | done]. Defined.

Lemma push_back_overflow_witness :
  (∀ l', push_back 7%Z (mk ∅ None None INT_MAX) ≠ Ok l') ∧
  (wf (mk (T := Z) ∅ None None INT_MAX) →
   push_back 7%Z (mk ∅ None None INT_MAX) = Err Overflow).
Proof. by apply push_back_overflow. Defined.

Lemma push_front_spec_witness :
  ∃ l', push_front 5%Z sample = Ok l' ∧ models l' [5; 10; 20]%Z.
Proof. apply push_front_spec; [apply sample_models | done]. Defined.

Lemma size_spec_witness :
  size sample = 2%Z ∧ (empty sample = true ↔ [10; 20]%Z = []).
Proof. apply (size_spec sample [10; 20]%Z), sample_models. Defined.

Lemma clear_spec_witness : clear sample = Ok new.
Proof. apply (clear_spec sample [10; 20]%Z), sample_models. Defined.

Lemma copy_spec_witness : ∃ l', copy sample = Ok l' ∧ models l' [10; 20]%Z.
Proof. apply copy_spec, sample_models. Defined.

Lemma assign_spec_witness :
  ∃ l', assign false new sample = Ok l' ∧ models l' [10; 20]%Z.
Proof. apply (assign_spec new sample []); [apply models_new | apply sample_models]. Defined.

Lemma subscript_spec_witness :
  ∃ a, subscript sample 1 = Ok a ∧ read sample (Some a) = Ok 20%Z.
Proof. apply (subscript_spec sample [10; 20]%Z); [apply sample_models | done..]. Defined.

Lemma subscript_out_of_range_witness : subscript sample 2 = Err OutOfRange.
Proof.
  apply (subscript_out_of_range sample [10; 20]%Z); [apply sample_models|].
  right. done.
Defined.

Lemma at_spec_witness :
  (∃ a, at_ sample 1 = Ok (Some a) ∧ read sample (Some a) = Ok 20%Z) ∧
  at_ sample (-1) = Ok None.
Proof.
  split.
  - by apply (at_spec sample [10; 20]%Z 1 sample_models).
  - apply (at_spec sample [10; 20]%Z (-1) sample_models). by left.
Defined.

Lemma iterate_spec_witness :
  iterate sample (λ _ v s, Ok (Next (R := unit) (s + v)%Z)) 0%Z = Ok (Next 30%Z).
Proof.
  rewrite (iterate_spec sample [10; 20]%Z) by apply sample_models. done.
Defined.

Lemma write_spec_witness :
  ∃ l', write sample (Some 2%positive) 21%Z = Ok l' ∧ models l' [10; 21]%Z.
Proof.
  apply (write_spec sample [10; 20]%Z 1 2%positive 20%Z 21%Z);
    [apply sample_models | done..].
Defined.

Lemma to_list_spec_witness : to_list sample = Ok [10; 20]%Z.
Proof. apply to_list_spec, sample_models. Defined.


End CustomLinkedList.

(** * [SkillCounter] *)

(** [struct StringCountPair { std::string skill; int count; }] *)
Record StringCountPair := mkPair { skill : string; count : Z }.

#[export] Instance StringCountPair_eq_dec : EqDecision StringCountPair.
Proof. solve_decision. Defined.

Module SkillCounter.

(** [CustomLinkedList<StringCountPair> skillList;] *)
Record t := mk { skillList : CustomLinkedList.t StringCountPair }.

(** The implicit default constructor. *)
Definition new : t := mk CustomLinkedList.new.

(** [void increment(const std::string& skill)]: the scan returns from
    inside the loop after [it->count++]; a key that is not found is
    appended with count 1. *)
Definition increment (sk : string) (sc : t) : res t :=
  c ← CustomLinkedList.iterate (skillList sc)
         (λ it p (_ : unit),
            if decide (skill p = sk) then
              Return <$> (n ← int_incr (count p);
                          CustomLinkedList.write (skillList sc)
                            (CustomLinkedList.current it) (mkPair (skill p) n))
            else return_ (Next ())) ();
  match c with
  | Return l' => return_ (mk l')
  | Next _ =>
      l' ← CustomLinkedList.push_back (mkPair sk 1) (skillList sc);
      return_ (mk l')
  end.

(** [int getCount(const std::string& skill) const] *)
Definition getCount (sk : string) (sc : t) : res Z :=
  c ← CustomLinkedList.iterate (skillList sc)
         (λ _ p (_ : unit),
            if decide (skill p = sk) then Return <$> return_ (count p)
            else return_ (Next ())) ();
  match c with
  | Return n => return_ n
  | Next _ => return_ 0%Z
  end.

(** [Iterator begin()], [Iterator end()], [bool empty() const] *)
Definition begin (sc : t) : CustomLinkedList.Iterator :=
  CustomLinkedList.begin (skillList sc).
Definition end_ : CustomLinkedList.Iterator := CustomLinkedList.end_.
Definition empty (sc : t) : bool := CustomLinkedList.empty (skillList sc).

(** ** The table as an association list *)

(** The count of the first pair with the key, 0 without one. *)
Fixpoint count_of (sk : string) (ps : list StringCountPair) : Z :=
  match ps with
  | [] => 0
  | p :: ps' => if decide (skill p = sk) then count p else count_of sk ps'
  end.

(** The first pair with the key counts one more; without one, a pair with
    count 1 is appended. *)
Fixpoint bump (sk : string) (ps : list StringCountPair) : list StringCountPair :=
  match ps with
  | [] => [mkPair sk 1]
  | p :: ps' =>
      if decide (skill p = sk) then mkPair (skill p) (count p + 1) :: ps'
      else p :: bump sk ps'
  end.

(** The counter holds the pairs [ps]. *)
Definition holds (sc : t) (ps : list StringCountPair) : Prop :=
  CustomLinkedList.models (skillList sc) ps.

(** ** Lemmas on the association list *)

Lemma count_of_find sk ps :
  count_of sk ps
  = from_option (λ ip, count ip.2) 0%Z (list_find (λ p, skill p = sk) ps).
Proof.
  induction ps as [|p ps IH]; simpl; [done|]. case_decide; [done|].
  rewrite IH. by destruct (list_find _ ps) as [[??]|].
Qed.

Lemma bump_find sk ps :
  bump sk ps
  = match list_find (λ p, skill p = sk) ps with
    | Some (i, p) => <[i := mkPair (skill p) (count p + 1)]> ps
    | None => ps ++ [mkPair sk 1]
    end.
Proof.
  induction ps as [|p ps IH]; simpl; [done|]. case_decide; [done|].
  rewrite IH. by destruct (list_find _ ps) as [[??]|].
Qed.

Lemma count_of_bump sk sk' ps :
  count_of sk' (bump sk ps)
  = if decide (sk' = sk) then (count_of sk ps + 1)%Z else count_of sk' ps.
Proof.
  induction ps as [|p ps IH]; simpl;
    repeat (case_decide; simpl); subst; try done; try congruence.
  all: rewrite IH; by case_decide.
Qed.

Lemma bump_keys sk ps :
  skill <$> bump sk ps
  = if decide (sk ∈ skill <$> ps) then skill <$> ps else (skill <$> ps) ++ [sk].
Proof.
  induction ps as [|p ps IH]; [done|]. cbn [bump].
  destruct (decide (skill p = sk)) as [<-|Hne].
  - by rewrite decide_True by set_solver.
  - rewrite !fmap_cons, IH. destruct (decide (sk ∈ skill <$> ps)).
    + by rewrite decide_True by set_solver.
    + by rewrite decide_False by set_solver.
Qed.

Lemma bump_length sk ps : length ps ≤ length (bump sk ps) ≤ S (length ps).
Proof. induction ps; simpl; [lia|]. case_decide; simpl; lia. Qed.

Lemma bump_NoDup sk ps : NoDup (skill <$> ps) → NoDup (skill <$> bump sk ps).
Proof. intros Hnd. rewrite bump_keys. case_decide; [done|]. by apply NoDup_snoc. Qed.

(** No count grows by more than one. *)
Lemma bump_bounded sk ps (n : Z) :
  Forall (λ p, (count p ≤ n)%Z) ps → (1 ≤ n + 1)%Z →
  Forall (λ p, (count p ≤ n + 1)%Z) (bump sk ps).
Proof.
  intros Hps Hn. induction Hps as [|p ps Hp Hps IH]; simpl.
  { by repeat constructor. }
  case_decide; constructor; simpl; try lia; [|done].
  eapply Forall_impl; [done|]. simpl. intros; lia.
Qed.

Lemma holds_new : holds new [].
Proof. apply CustomLinkedList.models_new. Qed.

(** The scans of [getCount] and [increment] on the cells of the list. *)
Lemma find_cells sk (cs : list (loc * StringCountPair)) :
  list_find (λ p, skill p = sk) cs.*2
  = prod_map id snd <$> list_find (λ c, skill c.2 = sk) cs.
Proof.
  induction cs as [|[a p] cs IH]; csimpl; [done|]. case_decide; [done|].
  rewrite IH. by destruct (list_find _ cs) as [[??]|].
Qed.

(** ** Theorems *)

(** [getCount] returns the count stored with the key, and 0 for a key
    that is not in the table. *)
Lemma getCount_holds sk sc ps :
  holds sc ps → getCount sk sc = Ok (count_of sk ps).
Proof.
  intros (cs & Hrepr & <-). unfold getCount.
  rewrite (CustomLinkedList.iterate_repr _ cs) by done.
  rewrite (cells_loop_search (λ p, skill p = sk) (λ _ p, Ok (count p))).
  rewrite count_of_find, find_cells.
  by destruct (list_find _ cs) as [[? [??]]|].
Qed.

(** [increment] updates the table in place: the first pair with the key
    counts one more, a new key is appended with count 1, and the list
    stays well-formed. *)
Lemma increment_holds sk sc ps :
  holds sc ps →
  Forall (λ p, (count p < INT_MAX)%Z) ps →
  (Z.of_nat (length ps) < INT_MAX)%Z →
  ∃ sc', increment sk sc = Ok sc' ∧ holds sc' (bump sk ps).
Proof.
  intros (cs & Hrepr & <-) Hcounts Hlen. unfold increment.
  rewrite (CustomLinkedList.iterate_repr _ cs) by done.
  rewrite (cells_loop_search (λ p, skill p = sk)
    (λ a p, n ← int_incr (count p);
            CustomLinkedList.write (skillList sc) (Some a) (mkPair (skill p) n))).
  rewrite bump_find, find_cells.
  destruct (list_find _ cs) as [[i [a p]]|] eqn:Hfind; simpl.
  - apply list_find_Some in Hfind as (Hi & _ & _).
    rewrite int_incr_lt; last first.
    { eapply (Forall_lookup_1 _ _ i p) in Hcounts; [done|].
      by rewrite list_lookup_fmap, Hi. }
    simpl.
    destruct (CustomLinkedList.write_repr _ _ _ _ _
                (mkPair (skill p) (count p + 1)) Hrepr Hi) as (l' & -> & Hl').
    simpl. eexists. split; [done|]. eexists. split; [done|].
    by rewrite list_fmap_insert.
  - rewrite length_fmap in Hlen.
    destruct (CustomLinkedList.push_back_repr (mkPair sk 1) _ _ Hrepr Hlen)
      as (a & l' & -> & Hl').
    simpl. eexists. split; [done|]. eexists. split; [done|].
    by rewrite fmap_app.
Qed.

(** The counter is a map from keys to counts: on a table whose counts
    and length are below [INT_MAX], [increment(skill)] returns normally,
    and afterwards [getCount] is one more than before for [skill] and
    unchanged for every other key. *)
Theorem increment_getCount sk sc ps :
  holds sc ps →
  Forall (λ p, (count p < INT_MAX)%Z) ps →
  (Z.of_nat (length ps) < INT_MAX)%Z →
  ∃ sc', increment sk sc = Ok sc' ∧
    ∀ sk', ∃ n, getCount sk' sc = Ok n ∧
                getCount sk' sc' = Ok (if decide (sk' = sk) then n + 1 else n)%Z.
Proof.
  intros Hps Hcounts Hlen.
  destruct (increment_holds sk sc ps) as (sc' & Hinc & Hps'); [done..|].
  exists sc'. split; [done|]. intros sk'. exists (count_of sk' ps).
  rewrite (getCount_holds sk' sc ps), (getCount_holds sk' sc' (bump sk ps)) by done.
  split; [done|]. rewrite count_of_bump. by case_decide; subst.
Qed.

(** [increment] never duplicates a key: from a table with distinct
    keys it makes a table with distinct keys, of at most one pair more. *)
Theorem increment_keys_NoDup sk sc ps :
  holds sc ps →
  Forall (λ p, (count p < INT_MAX)%Z) ps →
  (Z.of_nat (length ps) < INT_MAX)%Z →
  NoDup (skill <$> ps) →
  ∃ sc' ps', increment sk sc = Ok sc' ∧ holds sc' ps' ∧
             NoDup (skill <$> ps') ∧ length ps ≤ length ps' ≤ S (length ps).
Proof.
  intros Hps Hcounts Hlen Hnd.
  destruct (increment_holds sk sc ps) as (sc' & Hinc & Hps'); [done..|].
  exists sc', (bump sk ps).
  split_and!; [done | done | by apply bump_NoDup | apply bump_length..].
Qed.

(** ** A closed instance *)

Definition sample_pairs : list StringCountPair :=
  [mkPair "medic" 2; mkPair "cook" 1].

Definition sample : t :=
  mk (CustomLinkedList.mk
        (<[1%positive := mkNode (mkPair "medic" 2) (Some 2%positive)]>
           (<[2%positive := mkNode (mkPair "cook" 1) None]> ∅))
        (Some 1%positive) (Some 2%positive) 2).

Lemma sample_holds : holds sample sample_pairs.
Proof.
  apply (CustomLinkedList.check_models (skillList sample)
           [(1%positive, mkPair "medic" 2); (2%positive, mkPair "cook" 1)]).
  by vm_compute.
Qed.

Lemma sample_counts : Forall (λ p, (count p < INT_MAX)%Z) sample_pairs.
Proof. by repeat constructor. Qed.

Lemma increment_getCount_witness :
  ∃ sc', increment "cook" sample = Ok sc' ∧
    ∀ sk', ∃ n, getCount sk' sample = Ok n ∧
                getCount sk' sc' = Ok (if decide (sk' = "cook") then n + 1 else n)%Z.
Proof.
  apply (increment_getCount "cook" sample sample_pairs);
    [apply sample_holds | apply sample_counts | done].
Defined.

Lemma increment_keys_NoDup_witness :
  ∃ sc' ps', increment "driver" sample = Ok sc' ∧ holds sc' ps' ∧
             NoDup (skill <$> ps') ∧ 2 ≤ length ps' ≤ 3.
Proof.
  apply (increment_keys_NoDup "driver" sample sample_pairs);
    [apply sample_holds | apply sample_counts | done |].
  apply (bool_decide_unpack _). by vm_compute.
Defined.

End SkillCounter.
