(* ===== verification/Queue.v ===== *)
(** * [Volunteer], [ReliefSite] and [VolunteerQueue]

    The records of [src/include/VolunteerQueue.hpp] and the FIFO queue of
    [src/src/VolunteerQueue.cpp].  The queue keeps [head] and [tail] only;
    its nodes are [Node], the struct [ListNode] of [Chain] at
    [T = Volunteer].  Module [QueueSpec] is the abstract queue, a list
    with append and removal of the first element; the theorems say that
    every run of operations on the linked queue is a run of the abstract
    queue with the same observations. *)

From S2P Require Import Prelude Chain.

(** [struct Volunteer { std::string name; std::string contact; std::string skill; }] *)
Record Volunteer := mkVolunteer {
  name : string;
  contact : string;
  skill : string
}.

#[export] Instance Volunteer_eq_dec : EqDecision Volunteer.
Proof. solve_decision. Defined.

(** [struct ReliefSite { std::string name; int currentCount; int maxCapacity; }] *)
Record ReliefSite := mkSite {
  site_name : string;
  currentCount : Z;
  maxCapacity : Z
}.

#[export] Instance ReliefSite_eq_dec : EqDecision ReliefSite.
Proof. solve_decision. Defined.

(** [struct Node { Volunteer data; Node* next; }] *)
Abbreviation Node := (ListNode Volunteer).

(** What [displayAll] prints: the notice for an empty queue, or the rows
    [(position, volunteer)] and the total. *)
Inductive display :=
| NoVolunteers
| Table (rows : list (Z * Volunteer)) (total : Z).

(** The abstract FIFO queue. *)
Module QueueSpec.

(** A call a client makes, and what the client sees of it. *)
Inductive op := Enqueue (v : Volunteer) | Dequeue | Size.
Inductive obs := Done | Got (v : Volunteer) | Count (n : Z) | Failed (e : err).

Definition call (o : op) (vs : list Volunteer) : list Volunteer * obs :=
  match o with
  | Enqueue v => (vs ++ [v], Done)
  | Dequeue =>
      match vs with
      | [] => (vs, Failed RuntimeError)
      | v :: vs' => (vs', Got v)
      end
  | Size =>
      (vs, if decide (Z.of_nat (length vs) ≤ INT_MAX)%Z
           then Count (Z.of_nat (length vs)) else Failed Overflow)
  end.

Fixpoint run (os : list op) (vs : list Volunteer) : list Volunteer * list obs :=
  match os with
  | [] => (vs, [])
  | o :: os' =>
      let '(vs', b) := call o vs in
      let '(vs'', bs) := run os' vs' in (vs'', b :: bs)
  end.

(** The number of [Enqueue] calls of a run and of the volunteers it got. *)
Definition enqueues (os : list op) : nat :=
  sum_list_with (λ o, match o with Enqueue _ => 1 | _ => 0 end) os.
Definition gots (bs : list obs) : nat :=
  sum_list_with (λ b, match b with Got _ => 1 | _ => 0 end) bs.

Lemma run_app os1 os2 vs :
  run (os1 ++ os2) vs
  = let '(vs1, bs1) := run os1 vs in
    let '(vs2, bs2) := run os2 vs1 in (vs2, bs1 ++ bs2).
Proof.
  revert vs. induction os1 as [|o os1 IH]; intros vs; simpl.
  - by destruct (run os2 vs).
  - destruct (call o vs) as [vs' b]. rewrite IH.
    destruct (run os1 vs') as [vs1 bs1]. by destruct (run os2 vs1).
Qed.

Lemma run_enqueues ws vs :
  run (Enqueue <$> ws) vs = (vs ++ ws, replicate (length ws) Done).
Proof.
  revert vs. induction ws as [|w ws IH]; intros vs; simpl.
  - by rewrite app_nil_r.
  - rewrite IH. by rewrite <-app_assoc.
Qed.

Lemma run_dequeues vs ws :
  run (replicate (length vs) Dequeue) (vs ++ ws) = (ws, Got <$> vs).
Proof. induction vs as [|v vs IH]; simpl; [done|]. by rewrite IH. Qed.

Lemma run_fifo vs :
  run ((Enqueue <$> vs) ++ replicate (length vs) Dequeue) []
  = ([], replicate (length vs) Done ++ (Got <$> vs)).
Proof.
  rewrite run_app, run_enqueues. simpl.
  pose proof (run_dequeues vs []) as H. rewrite app_nil_r in H. by rewrite H.
Qed.

(** Every volunteer enqueued is in the queue or was got. *)
Lemma run_balance os vs :
  length (run os vs).1 + gots (run os vs).2 = length vs + enqueues os.
Proof.
  revert vs. induction os as [|o os IH]; intros vs; simpl; [lia|].
  destruct o as [v| |]; simpl.
  - specialize (IH (vs ++ [v])). destruct (run os (vs ++ [v])); simpl in *.
    rewrite length_app in IH. simpl in *. lia.
  - destruct vs as [|v vs]; simpl.
    + specialize (IH []). destruct (run os []); simpl in *. lia.
    + specialize (IH vs). destruct (run os vs); simpl in *. lia.
  - specialize (IH vs). destruct (run os vs); simpl in *.
    case_decide; simpl; lia.
Qed.

End QueueSpec.

Module VolunteerQueue.

Import QueueSpec (op, obs, Enqueue, Dequeue, Size, Done, Got, Count, Failed).

(** [Node* head; Node* tail;] and the nodes the queue owns. *)
Record t := mk {
  nodes : gmap loc Node;
  head : option loc;
  tail : option loc
}.

Implicit Types (q : t) (v : Volunteer).

(** [VolunteerQueue::VolunteerQueue() : head(nullptr), tail(nullptr)] *)
Definition new : t := mk ∅ None None.

(** [bool VolunteerQueue::isEmpty() const] *)
Definition isEmpty q : bool := bool_decide (head q = None).

(** [void VolunteerQueue::enqueue(const Volunteer& v)] *)
Definition enqueue v q : res t :=
  let '(newNode, h) := new_node v (nodes q) in
  if isEmpty q then return_ (mk h (Some newNode) (Some newNode))
  else
    h' ← store_next h (tail q) (Some newNode);
    return_ (mk h' (head q) (Some newNode)).

(** [Volunteer VolunteerQueue::dequeue()] *)
Definition dequeue q : res (Volunteer * t) :=
  if isEmpty q then throw RuntimeError
  else
    nd ← load (nodes q) (head q);
    let volunteer := data nd in
    let nodeToDelete := head q in
    let head' := next nd in
    let tail' := if decide (head' = None) then None else tail q in
    h ← delete_node (nodes q) nodeToDelete;
    return_ (volunteer, mk h head' tail').

(** [int VolunteerQueue::size() const]: the walk counts in an [int]. *)
Definition size q : res Z :=
  c ← chain_loop (R := Empty_set) (base.size (nodes q)) (nodes q)
         (λ _ _ count, count' ← int_incr count; return_ (Next count'))
         (head q) 0%Z;
  match c with
  | Next count => return_ count
  | Return r => match r : Empty_set with end
  end.

(** [void VolunteerQueue::displayAll() const]: the rows from front to
    rear with positions from 1, then the total from [size()]. *)
Definition displayAll q : res display :=
  if isEmpty q then return_ NoVolunteers
  else
    c ← chain_loop (R := Empty_set) (base.size (nodes q)) (nodes q)
           (λ _ v '(rows, position),
              position' ← int_incr position;
              return_ (Next (rows ++ [(position, v)], position')))
           (head q) ([], 1%Z);
    total ← size q;
    match c with
    | Next (rows, _) => return_ (Table rows total)
    | Return r => match r : Empty_set with end
    end.

(** [VolunteerQueue::~VolunteerQueue()]:
    [while (!isEmpty()) { try { dequeue(); } catch (const std::runtime_error&) { break; } }] *)
Fixpoint destroy_loop (fuel : nat) q : res t :=
  if isEmpty q then return_ q
  else
    match fuel with
    | O => throw OutOfFuel
    | S fuel' =>
        match dequeue q with
        | Ok (_, q') => destroy_loop fuel' q'
        | Err RuntimeError => return_ q
        | Err e => throw e
        end
    end.

Definition destroy q : res t := destroy_loop (base.size (nodes q)) q.

(** ** Invariant and abstraction *)

(** [repr q cs]: the queue owns exactly the chain of cells [cs] and
    [tail] points to its last node. *)
Definition repr q (cs : list (loc * Volunteer)) : Prop :=
  owns (nodes q) (head q) cs ∧ tail q = last cs.*1.

(** The class invariant. *)
Definition wf q : Prop := ∃ cs, repr q cs.

(** [models q vs]: the well-formed queue [q] holds [vs], front first. *)
Definition models q (vs : list Volunteer) : Prop := ∃ cs, repr q cs ∧ cs.*2 = vs.

(** [repr] as a test that evaluates on a closed queue. *)
Definition check q (cs : list (loc * Volunteer)) : bool :=
  bool_decide (walk (base.size (nodes q)) (nodes q) (head q) = Ok cs ∧
               NoDup cs.*1 ∧ dom (nodes q) = list_to_set cs.*1 ∧
               tail q = last cs.*1).

(** ** Runs of operations *)

(** One call; a call that throws leaves the queue as it was. *)
Definition call (o : op) q : t * obs :=
  match o with
  | Enqueue v =>
      match enqueue v q with Ok q' => (q', Done) | Err e => (q, Failed e) end
  | Dequeue =>
      match dequeue q with Ok (v, q') => (q', Got v) | Err e => (q, Failed e) end
  | Size =>
      match size q with Ok n => (q, Count n) | Err e => (q, Failed e) end
  end.

Fixpoint run (os : list op) q : t * list obs :=
  match os with
  | [] => (q, [])
  | o :: os' =>
      let '(q', b) := call o q in
      let '(q'', bs) := run os' q' in (q'', b :: bs)
  end.

(** ** The invariant on every member function *)

Lemma queue_repr_new : repr new [].
Proof. split; [apply owns_empty | done]. Qed.

Lemma queue_repr_inj q cs1 cs2 : repr q cs1 → repr q cs2 → cs1 = cs2.
Proof. intros [? _] [? _]. by eapply owns_inj. Qed.

Lemma queue_models_new : models new [].
Proof. exists []. split; [apply queue_repr_new | done]. Qed.

Lemma queue_models_inj q vs1 vs2 : models q vs1 → models q vs2 → vs1 = vs2.
Proof.
  intros (cs1 & H1 & <-) (cs2 & H2 & <-). by rewrite (queue_repr_inj _ _ _ H1 H2).
Qed.

Lemma queue_check_repr q cs : check q cs = true ↔ repr q cs.
Proof.
  unfold check. rewrite bool_decide_eq_true. split.
  - intros (Hw%walk_sound & ? & ? & ?). by split_and!.
  - intros (Hown & ?). pose proof (owns_size _ _ _ Hown) as Hsz.
    destruct Hown as (? & ? & ?). split_and!; try done.
    apply walk_lseg; [done | lia].
Qed.

Lemma queue_check_models q cs : check q cs = true → models q cs.*2.
Proof. intros ?%queue_check_repr. by exists cs. Qed.

Lemma isEmpty_repr q cs : repr q cs → isEmpty q = true ↔ cs = [].
Proof.
  intros [Hown _]. unfold isEmpty.
  by rewrite bool_decide_eq_true, (owns_null _ _ _ Hown).
Qed.

Lemma isEmpty_nil q : repr q [] → isEmpty q = true.
Proof. intros H. by apply (isEmpty_repr _ _ H). Qed.

Lemma isEmpty_cons q c cs : repr q (c :: cs) → isEmpty q = false.
Proof.
  intros H. apply not_true_is_false. by intros ?%(isEmpty_repr _ _ H).
Qed.

Lemma enqueue_repr v q cs :
  repr q cs → ∃ a q', enqueue v q = Ok q' ∧ repr q' (cs ++ [(a, v)]).
Proof.
  intros [Hown Htail]. unfold enqueue. destruct cs as [|c cs].
  - rewrite (isEmpty_nil q) by done.
    pose proof (owns_null _ _ _ Hown) as Hnull.
    rewrite (proj2 Hnull eq_refl) in Hown.
    pose proof (owns_push_first _ v Hown) as H1.
    destruct (new_node v (nodes q)) as [a h1].
    exists a. eexists. by split.
  - rewrite (isEmpty_cons q c cs) by done.
    assert (c :: cs ≠ []) as Hne by done.
    remember (c :: cs) as cs' eqn:E. clear E c cs.
    destruct (last_is_Some (cs'.*1)) as [tl Htl]; [by destruct cs'|].
    pose proof (owns_push_back _ _ _ _ v Hown Htl) as H1.
    destruct (new_node v (nodes q)) as [a h1].
    destruct H1 as (h2 & Hst & Hown2). rewrite Htail, Htl, Hst. simpl.
    exists a. eexists. split; [done|]. split; [done|].
    cbn [tail]. symmetry. rewrite fmap_app. apply last_snoc.
Qed.

Lemma dequeue_repr q a v cs :
  repr q ((a, v) :: cs) → ∃ q', dequeue q = Ok (v, q') ∧ repr q' cs.
Proof.
  intros Hrepr. unfold dequeue. rewrite (isEmpty_cons q _ cs) by done.
  destruct Hrepr as [Hown Htail]. pose proof Hown as [[Hhd _] _].
  rewrite Hhd in *. apply owns_pop_front in Hown as (n & Ha & Hown).
  rewrite (load_Some _ _ _ Ha), (delete_node_Some _ _ _ Ha). simpl.
  eexists. split; [done|]. split; [done|]. cbn [tail].
  pose proof (owns_null _ _ _ Hown) as Hnull. case_decide as Hn.
  - by rewrite (proj1 Hnull Hn).
  - rewrite Htail. destruct cs as [|c cs]; [by destruct Hn; apply Hnull|done].
Qed.

Lemma dequeue_repr_nil q : repr q [] → dequeue q = Err RuntimeError.
Proof. intros H. unfold dequeue. by rewrite (isEmpty_nil q). Qed.

(** The counting loop of [size]. *)
Lemma cells_loop_count (cs : list (loc * Volunteer)) (c0 : Z) :
  (c0 ≤ INT_MAX)%Z →
  cells_loop (R := Empty_set)
    (λ _ _ count, count' ← int_incr count; Ok (Next count')) cs c0
  = if decide (c0 + Z.of_nat (length cs) ≤ INT_MAX)%Z
    then Ok (Next (c0 + Z.of_nat (length cs))%Z) else Err Overflow.
Proof.
  revert c0. induction cs as [|[a v] cs IH]; intros c0 Hc0.
  - simpl. rewrite decide_True by lia. do 2 f_equal. lia.
  - cbn [cells_loop length]. destruct (decide (c0 < INT_MAX)%Z) as [Hlt|Hge].
    + rewrite int_incr_lt by done. simpl. rewrite IH by lia.
      repeat case_decide; try done; try lia. do 2 f_equal. lia.
    + rewrite int_incr_max by lia. simpl. rewrite decide_False; [done | lia].
Qed.

Lemma size_repr q cs :
  repr q cs →
  size q = if decide (Z.of_nat (length cs) ≤ INT_MAX)%Z
           then Ok (Z.of_nat (length cs)) else Err Overflow.
Proof.
  intros [Hown _]. unfold size. pose proof (owns_size _ _ _ Hown).
  destruct Hown as (? & _).
  rewrite (chain_loop_lseg _ _ _ _ cs), cells_loop_count by (done || lia).
  rewrite Z.add_0_l. by case_decide.
Qed.

(** The row loop of [displayAll]. *)
Lemma cells_loop_rows (cs : list (loc * Volunteer)) rows (pos : Z) :
  (pos + Z.of_nat (length cs) ≤ INT_MAX)%Z →
  cells_loop (R := Empty_set)
    (λ _ v '(rows, position),
       position' ← int_incr position;
       Ok (Next (rows ++ [(position, v)], position'))) cs (rows, pos)
  = Ok (Next (rows ++ imap (λ i v, (pos + Z.of_nat i, v)%Z) cs.*2,
              (pos + Z.of_nat (length cs))%Z)).
Proof.
  revert rows pos. induction cs as [|[a v] cs IH]; intros rows pos Hle; simpl.
  - rewrite app_nil_r. do 3 f_equal. lia.
  - rewrite int_incr_lt by (simpl in *; lia). simpl.
    rewrite IH by (simpl in *; lia). do 3 f_equal; [|lia].
    rewrite <-app_assoc. simpl. do 2 f_equal; [f_equal; lia|].
    apply imap_ext. intros i x _. simpl. f_equal. lia.
Qed.

Lemma destroy_loop_repr fuel q cs :
  repr q cs → length cs ≤ fuel → destroy_loop fuel q = Ok new.
Proof.
  revert fuel q. induction cs as [|[a v] cs IH]; intros fuel q Hrepr Hfuel.
  - pose proof (isEmpty_nil q Hrepr) as He.
    destruct fuel; simpl; rewrite He; f_equal;
      destruct Hrepr as [(Hseg & _ & Hdom) Htail], q as [h hd tl];
      simpl in *; apply dom_empty_inv_L in Hdom; by subst.
  - destruct fuel as [|fuel]; [simpl in *; lia|]. simpl.
    rewrite (isEmpty_cons q _ cs) by done.
    destruct (dequeue_repr q a v cs Hrepr) as (q' & -> & Hrepr').
    apply IH; [done | simpl in *; lia].
Qed.

(** ** The member functions on the abstraction *)

Lemma isEmpty_models q vs : models q vs → isEmpty q = bool_decide (vs = []).
Proof.
  intros ([|c cs] & Hrepr & <-); [by rewrite (isEmpty_nil q) | by rewrite (isEmpty_cons q c cs)].
Qed.

Lemma enqueue_models v q vs :
  models q vs → ∃ q', enqueue v q = Ok q' ∧ models q' (vs ++ [v]).
Proof.
  intros (cs & Hrepr & <-).
  destruct (enqueue_repr v q cs Hrepr) as (a & q' & ? & ?).
  exists q'. split; [done|]. exists (cs ++ [(a, v)]). by rewrite fmap_app.
Qed.

Lemma dequeue_models q v vs :
  models q (v :: vs) → ∃ q', dequeue q = Ok (v, q') ∧ models q' vs.
Proof.
  intros ([|[a v'] cs] & Hrepr & Hcs); simplify_eq/=.
  destruct (dequeue_repr q a _ cs Hrepr) as (q' & ? & Hrepr').
  exists q'. split; [done | by exists cs].
Qed.

Lemma size_models q vs :
  models q vs → (Z.of_nat (length vs) ≤ INT_MAX)%Z →
  size q = Ok (Z.of_nat (length vs)).
Proof.
  intros (cs & Hrepr & <-) Hle. rewrite length_fmap in *.
  by rewrite (size_repr q cs Hrepr), decide_True.
Qed.

Lemma destroy_models q vs : models q vs → destroy q = Ok new.
Proof.
  intros (cs & Hrepr & _). unfold destroy.
  apply (destroy_loop_repr _ _ cs); [done|].
  destruct Hrepr as [Hown _]. by rewrite (owns_size _ _ _ Hown).
Qed.

Lemma displayAll_models q vs :
  models q vs → (Z.of_nat (length vs) < INT_MAX)%Z →
  displayAll q
  = Ok (if bool_decide (vs = []) then NoVolunteers
        else Table (imap (λ i v, (1 + Z.of_nat i, v)%Z) vs)
                   (Z.of_nat (length vs))).
Proof.
  intros (cs & Hrepr & <-) Hle. rewrite length_fmap in *. unfold displayAll.
  destruct cs as [|c cs].
  { by rewrite (isEmpty_nil q Hrepr). }
  rewrite (isEmpty_cons q c cs Hrepr), bool_decide_eq_false_2 by done.
  rewrite (size_repr q _ Hrepr), decide_True by lia.
  destruct Hrepr as [Hown _]. pose proof (owns_size _ _ _ Hown).
  destruct Hown as (? & _).
  rewrite (chain_loop_lseg _ _ _ _ (c :: cs)) by (done || lia).
  by rewrite cells_loop_rows by lia.
Qed.

Lemma size_models_Ok q vs n :
  models q vs → size q = Ok n → n = Z.of_nat (length vs) ∧ (n ≤ INT_MAX)%Z.
Proof.
  intros (cs & Hrepr & <-). rewrite (size_repr q cs Hrepr), length_fmap.
  case_decide; [|done]. by intros [= <-].
Qed.

(** ** One call refines one call of the abstract queue *)

Lemma call_refines o q vs :
  models q vs →
  ∃ q', call o q = (q', (QueueSpec.call o vs).2) ∧
        models q' (QueueSpec.call o vs).1.
Proof.
  intros (cs & Hrepr & <-). destruct o as [v| |]; simpl.
  - destruct (enqueue_repr v q cs Hrepr) as (a & q' & -> & Hrepr').
    exists q'. split; [done|]. exists (cs ++ [(a, v)]). by rewrite fmap_app.
  - destruct cs as [|[a v] cs]; simpl.
    + rewrite (dequeue_repr_nil q Hrepr). exists q. split; [done|]. by exists [].
    + destruct (dequeue_repr q a v cs Hrepr) as (q' & -> & Hrepr').
      exists q'. split; [done|]. by exists cs.
  - rewrite (size_repr q cs Hrepr), length_fmap. exists q.
    split; [by case_decide | by exists cs].
Qed.

Lemma run_refines_aux os q vs :
  models q vs →
  ∃ q', run os q = (q', (QueueSpec.run os vs).2) ∧
        models q' (QueueSpec.run os vs).1.
Proof.
  revert q vs. induction os as [|o os IH]; intros q vs Hm; simpl.
  - by exists q.
  - destruct (call_refines o q vs Hm) as (q1 & -> & Hm1).
    destruct (QueueSpec.call o vs) as [vs1 b]. simpl in *.
    destruct (IH q1 vs1 Hm1) as (q2 & -> & Hm2).
    destruct (QueueSpec.run os vs1) as [vs2 bs]. simpl in *. by exists q2.
Qed.

(** ** Theorems *)

(** C3 Refinement: every run of [enqueue], [dequeue] and [size] calls on
    a well-formed linked queue that holds [vs] shows the observations of
    the same run on the abstract FIFO queue from [vs], and ends in a
    well-formed queue that holds the abstract queue's final state. *)
Theorem run_refines os q vs :
  models q vs →
  ∃ q', run os q = (q', (QueueSpec.run os vs).2) ∧
        models q' (QueueSpec.run os vs).1.
Proof. apply run_refines_aux. Qed.

(** C8 FIFO order: after the volunteers [vs] are enqueued on an empty
    queue, as many [dequeue] calls return exactly [vs], in that order,
    and leave the queue empty. *)
Theorem fifo_order vs q :
  models q [] →
  ∃ q', run ((Enqueue <$> vs) ++ replicate (length vs) Dequeue) q
        = (q', replicate (length vs) Done ++ (Got <$> vs)) ∧
        models q' [].
Proof.
  intros Hm.
  destruct (run_refines_aux ((Enqueue <$> vs) ++ replicate (length vs) Dequeue)
              q [] Hm) as (q' & Hrun & Hm').
  rewrite QueueSpec.run_fifo in Hrun, Hm'. by exists q'.
Qed.

(** The size law: after any run of calls from a queue that holds
    [vs], [size()] is the number of volunteers held at the start plus the
    number enqueued minus the number got, as long as that is an [int]. *)
Theorem size_after_run os q vs q' bs :
  models q vs → run os q = (q', bs) →
  (Z.of_nat (length vs + QueueSpec.enqueues os) - Z.of_nat (QueueSpec.gots bs)
   ≤ INT_MAX)%Z →
  size q' = Ok (Z.of_nat (length vs + QueueSpec.enqueues os)
                - Z.of_nat (QueueSpec.gots bs))%Z.
Proof.
  intros Hm Hrun Hle.
  destruct (run_refines_aux os q vs Hm) as (q1 & Hrun1 & (cs & Hrepr & Hcs)).
  rewrite Hrun in Hrun1. simplify_eq.
  pose proof (QueueSpec.run_balance os vs) as Hbal.
  rewrite <-Hcs, length_fmap in Hbal.
  rewrite (size_repr _ cs Hrepr).
  rewrite decide_True by lia. f_equal. lia.
Qed.

(** C9 The empty-dequeue error: [dequeue()] on an empty queue throws
    [std::runtime_error], and the queue is as it was: still empty, of
    size 0. *)
Theorem dequeue_empty q :
  models q [] →
  dequeue q = Err RuntimeError ∧ call Dequeue q = (q, Failed RuntimeError) ∧
  size q = Ok 0%Z.
Proof.
  intros ([|??] & Hrepr & ?); [|done].
  unfold call. rewrite (dequeue_repr_nil q Hrepr), (size_repr q [] Hrepr).
  done.
Qed.

(** [dequeue()] on a queue that holds [v :: vs] returns [v], frees
    its node, and leaves a well-formed queue that holds [vs]. *)
Theorem dequeue_spec q v vs :
  models q (v :: vs) →
  ∃ q', dequeue q = Ok (v, q') ∧ models q' vs ∧
        base.size (nodes q') = length vs.
Proof.
  intros ([|[a v'] cs] & Hrepr & Hcs); simplify_eq/=.
  destruct (dequeue_repr q a _ cs Hrepr) as (q' & ? & Hrepr').
  exists q'. split_and!; [done | by exists cs |].
  destruct Hrepr' as [Hown _]. by rewrite (owns_size _ _ _ Hown), length_fmap.
Qed.

(** [enqueue(v)] always returns normally on a well-formed queue and
    puts [v] behind the volunteers already queued. *)
Theorem enqueue_spec v q vs :
  models q vs → ∃ q', enqueue v q = Ok q' ∧ models q' (vs ++ [v]).
Proof. apply enqueue_models. Qed.

(** [size()] walks the chain and returns the number of volunteers;
    [isEmpty()] says whether there is none. *)
Theorem queue_size_spec q vs :
  models q vs → (Z.of_nat (length vs) ≤ INT_MAX)%Z →
  size q = Ok (Z.of_nat (length vs)) ∧ (isEmpty q = true ↔ vs = []).
Proof.
  intros (cs & Hrepr & <-) Hle. rewrite length_fmap in *.
  rewrite (size_repr q cs Hrepr), decide_True by done.
  split; [done|]. rewrite (isEmpty_repr q cs Hrepr). by destruct cs.
Qed.

(** The destructor dequeues until the queue is empty: it ends, and
    no node is left in the store. *)
Theorem destroy_spec q vs : models q vs → destroy q = Ok new.
Proof. apply destroy_models. Qed.

(** [displayAll()] lists the volunteers from front to rear with the
    positions 1, 2, ... and the total; on an empty queue it prints the
    notice only. *)
Theorem displayAll_spec q vs :
  models q vs → (Z.of_nat (length vs) < INT_MAX)%Z →
  displayAll q
  = Ok (if bool_decide (vs = []) then NoVolunteers
        else Table (imap (λ i v, (1 + Z.of_nat i, v)%Z) vs)
                   (Z.of_nat (length vs))).
Proof. apply displayAll_models. Qed.

(** ** A queue of two volunteers *)

Definition ana : Volunteer := mkVolunteer "Ana" "555-0101" "medic".
Definition ben : Volunteer := mkVolunteer "Ben" "555-0102" "cook".

Definition sample_cells : list (loc * Volunteer) := [(1%positive, ana); (2%positive, ben)].

Definition sample : t :=
  mk {[ 1%positive := mkNode ana (Some 2%positive); 2%positive := mkNode ben None ]}
     (Some 1%positive) (Some 2%positive).

Lemma queue_sample_models : models sample [ana; ben].
Proof. apply (queue_check_models sample sample_cells). by vm_compute. Qed.

Lemma run_refines_witness :
  ∃ q', run [Dequeue; Enqueue ana; Size] sample
        = (q', (QueueSpec.run [Dequeue; Enqueue ana; Size] [ana; ben]).2) ∧
        models q' (QueueSpec.run [Dequeue; Enqueue ana; Size] [ana; ben]).1.
Proof. apply run_refines, queue_sample_models. Defined.

Lemma fifo_order_witness :
  ∃ q', run ((Enqueue <$> [ana; ben]) ++ replicate (length [ana; ben]) Dequeue) new
        = (q', replicate (length [ana; ben]) Done ++ (Got <$> [ana; ben])) ∧
        models q' [].
Proof. apply fifo_order, queue_models_new. Defined.

Lemma size_after_run_witness :
  size (run [Dequeue; Enqueue ana] sample).1
  = Ok (Z.of_nat (length [ana; ben] + QueueSpec.enqueues [Dequeue; Enqueue ana])
        - Z.of_nat (QueueSpec.gots (run [Dequeue; Enqueue ana] sample).2))%Z.
Proof.
  apply (size_after_run [Dequeue; Enqueue ana] sample [ana; ben]);
    [apply queue_sample_models | by destruct (run _ sample) | by vm_compute].
Defined.

Lemma dequeue_empty_witness :
  dequeue new = Err RuntimeError ∧ call Dequeue new = (new, Failed RuntimeError) ∧
  size new = Ok 0%Z.
Proof. apply dequeue_empty, queue_models_new. Defined.

Lemma dequeue_spec_witness :
  ∃ q', dequeue sample = Ok (ana, q') ∧ models q' [ben] ∧
        base.size (nodes q') = length [ben].
Proof. apply dequeue_spec, queue_sample_models. Defined.

Lemma enqueue_spec_witness :
  ∃ q', enqueue ana sample = Ok q' ∧ models q' ([ana; ben] ++ [ana]).
Proof. apply enqueue_spec, queue_sample_models. Defined.

Lemma queue_size_spec_witness :
  size sample = Ok (Z.of_nat (length [ana; ben])) ∧
  (isEmpty sample = true ↔ [ana; ben] = []).
Proof. apply queue_size_spec; [apply queue_sample_models | done]. Defined.

Lemma destroy_spec_witness : destroy sample = Ok new.
Proof. apply (destroy_spec sample [ana; ben]), queue_sample_models. Defined.

Lemma displayAll_spec_witness :
  displayAll sample
  = Ok (if bool_decide ([ana; ben] = []) then NoVolunteers
        else Table (imap (λ i v, (1 + Z.of_nat i, v)%Z) [ana; ben])
                   (Z.of_nat (length [ana; ben]))).
Proof. apply displayAll_spec; [apply queue_sample_models | done]. Defined.

End VolunteerQueue.

