(* ===== verification/Ratio.v ===== *)
(** * The fill ratio of a relief site

    [findMostNeededSite] compares the sites by
    [static_cast<double>(currentCount) / maxCapacity], starting from the
    value [1.1].  What the scan needs of [double] is the interface
    [FillOps] with the laws [FillOrder]: the comparison is a strict weak
    order on the values that are not NaN, and the ratio of a site that has
    room is not a NaN.

    [binary64] is the arithmetic of the code: IEEE 754 double precision as
    [SpecFloat] defines it ([prec = 53], [emax = 1024]), round to nearest
    even.  [binary64_order] proves the laws of it: the order laws by an
    embedding [key] of the values into triples of integers ordered
    lexicographically, the ratio law from the closed form [of_int_finite]
    of the conversion of an [int] (exact: 32 bits fit the 53 of the
    mantissa) and from the sign of the mantissa through the rounding
    ([binary_round_aux_not_nan]). *)

From Stdlib Require Import SpecFloat.
From S2P Require Import Prelude.

(** ** The interface *)

Class FillOps := {
  (** [double] *)
  ratio_t : Type;
  (** [static_cast<double>(currentCount) / maxCapacity] *)
  ratio : Z → Z → ratio_t;
  (** [1.1] *)
  start : ratio_t;
  (** [<] on [double] *)
  ltb : ratio_t → ratio_t → bool;
  (** a value that compares with every value (not a NaN) *)
  valid : ratio_t → Prop
}.

Class FillOrder (O : FillOps) := {
  ltb_irrefl x : ltb x x = false;
  ltb_trans x y z : ltb x y = true → ltb y z = true → ltb x z = true;
  ltb_cotrans x y z : valid y → ltb x z = true → ltb x y = true ∨ ltb y z = true;
  ratio_valid c m : is_int c → is_int m → (c < m)%Z → valid (ratio c m);
  ratio_below_start c m :
    is_int c → is_int m → (0 ≤ c < m)%Z → ltb (ratio c m) start = true
}.

(** ** IEEE 754 double precision *)

(** [(double)z] for an [int] [z] *)
Definition of_int (z : Z) : spec_float := binary_normalize 53 1024 z 0 false.

(** The literal [1.1]: the double nearest to 11/10,
    [0x3FF199999999999A]. *)
Definition double_1_1 : spec_float := S754_finite false 4953959590107546 (-52).

#[export] Instance binary64 : FillOps := {|
  ratio_t := spec_float;
  ratio c m := SFdiv 53 1024 (of_int c) (of_int m);
  start := double_1_1;
  ltb := SFltb;
  valid x := x ≠ S754_nan
|}.

(** ** The order of [SFltb] *)

(** The position of a value that is not a NaN: the class (negative
    infinity, negative, zero, positive, positive infinity), then the
    exponent and the mantissa, both negated for a negative value. *)
Definition key (x : spec_float) : Z * Z * Z :=
  match x with
  | S754_infinity true => (-2, 0, 0)
  | S754_finite true m e => (-1, - e, - Z.pos m)
  | S754_zero _ | S754_nan => (0, 0, 0)
  | S754_finite false m e => (1, e, Z.pos m)
  | S754_infinity false => (2, 0, 0)
  end%Z.

Definition key_lt (a b : Z * Z * Z) : Prop :=
  (a.1.1 < b.1.1 ∨ a.1.1 = b.1.1 ∧ (a.1.2 < b.1.2 ∨ a.1.2 = b.1.2 ∧ a.2 < b.2))%Z.

Lemma SFltb_key x y :
  SFltb x y = true ↔ x ≠ S754_nan ∧ y ≠ S754_nan ∧ key_lt (key x) (key y).
Proof.
  unfold SFltb, key_lt.
  destruct x as [[]|[]| |[] mx ex], y as [[]|[]| |[] my ey]; simpl;
    try change (Pos.compare_cont Eq mx my) with (mx ?= my)%positive;
    try destruct (Z.compare_spec ex ey); try destruct (Pos.compare_spec mx my);
    simpl; (split; [intros ?; split_and!; (done || lia) | intros (? & ? & ?); (done || lia)]).
Qed.

Lemma key_lt_irrefl a : ¬ key_lt a a.
Proof. unfold key_lt. lia. Qed.

Lemma key_lt_trans a b c : key_lt a b → key_lt b c → key_lt a c.
Proof. unfold key_lt. lia. Qed.

Lemma key_lt_cotrans a b c : key_lt a c → key_lt a b ∨ key_lt b c.
Proof. unfold key_lt. lia. Qed.

(** ** Rounding keeps the sign of the mantissa *)

Section rounding.
Variables prec emax : Z.

Lemma iter_pos_invariant {A} (P : A → Prop) (f : A → A) n x :
  (∀ y, P y → P (f y)) → P x → P (SpecFloat.iter_pos f n x).
Proof. intros Hf. revert x. induction n; simpl; auto. Qed.

Lemma shr_1_nonneg mrs : (0 ≤ shr_m mrs → 0 ≤ shr_m (shr_1 mrs))%Z.
Proof. destruct mrs as [[|[p|p|]|p] r s]; simpl; lia. Qed.

Lemma shr_record_of_loc_m m l : shr_m (shr_record_of_loc m l) = m.
Proof. by destruct l as [|[]]. Qed.

Lemma shr_fexp_nonneg m e l :
  (0 ≤ m → 0 ≤ shr_m (shr_fexp prec emax m e l).1)%Z.
Proof.
  intros Hm. unfold shr_fexp, shr.
  destruct (_ - e)%Z; simpl; rewrite ?shr_record_of_loc_m; try done.
  apply (iter_pos_invariant (λ mrs, 0 ≤ shr_m mrs)%Z); [apply shr_1_nonneg|].
  by rewrite shr_record_of_loc_m.
Qed.

Lemma round_nearest_even_nonneg m l : (0 ≤ m → 0 ≤ round_nearest_even m l)%Z.
Proof. destruct l as [|[]]; simpl; try destruct (Z.even m); lia. Qed.

Lemma binary_round_aux_not_nan s m e l :
  (0 ≤ m)%Z → binary_round_aux prec emax s m e l ≠ S754_nan.
Proof.
  intros Hm. unfold binary_round_aux.
  pose proof (shr_fexp_nonneg m e l Hm) as H1.
  destruct (shr_fexp prec emax m e l) as [mrs' e']. simpl in H1.
  pose proof (shr_fexp_nonneg _ e' loc_Exact
                (round_nearest_even_nonneg _ (loc_of_shr_record mrs') H1)) as H2.
  destruct (shr_fexp prec emax _ e' loc_Exact) as [mrs'' e'']. simpl in H2.
  destruct (shr_m mrs''); [done | by case Z.leb | lia].
Qed.

Lemma SFdiv_core_binary_nonneg mx ex my ey :
  (0 ≤ (SFdiv_core_binary prec emax (Z.pos mx) ex (Z.pos my) ey).1.1)%Z.
Proof.
  unfold SFdiv_core_binary.
  set (m' := match _ with Z.pos _ => _ | Z0 => _ | Z.neg _ => _ end).
  assert (0 ≤ m')%Z as Hm'.
  { unfold m'. destruct (_ - _ - _)%Z; [lia | | lia]. by apply Z.shiftl_nonneg. }
  pose proof (Z.div_pos m' (Z.pos my) Hm' eq_refl) as Hq. unfold Z.div in Hq.
  by destruct (Z.div_eucl m' (Z.pos my)).
Qed.

Lemma SFdiv_finite_not_nan sx mx ex sy my ey :
  SFdiv prec emax (S754_finite sx mx ex) (S754_finite sy my ey) ≠ S754_nan.
Proof.
  simpl. pose proof (SFdiv_core_binary_nonneg mx ex my ey) as Hq.
  destruct (SFdiv_core_binary prec emax _ ex _ ey) as [[q e] l].
  by apply binary_round_aux_not_nan.
Qed.

End rounding.

(** ** The conversion of an [int] is exact *)

Lemma digits2_pos_size m : digits2_pos m = Pos.size m.
Proof. induction m; simpl; congruence. Qed.

(** [digits2_pos p] is the number of binary digits of [p]. *)
Lemma digits2_pos_bounds p :
  (2 ^ (Z.pos (digits2_pos p) - 1) ≤ Z.pos p < 2 ^ Z.pos (digits2_pos p))%Z.
Proof.
  rewrite digits2_pos_size.
  pose proof (Pos.size_gt p) as Hgt. pose proof (Pos.size_le p) as Hle.
  apply Pos2Z.pos_lt_pos in Hgt. apply Pos2Z.pos_le_pos in Hle.
  rewrite Pos2Z.inj_pow in Hgt, Hle.
  replace (Z.pos (Pos.size p)) with (Z.succ (Z.pos (Pos.size p) - 1)) in Hle by lia.
  rewrite Z.pow_succ_r in Hle by lia. lia.
Qed.

Lemma digits2_pos_unique p d :
  (2 ^ (d - 1) ≤ Z.pos p < 2 ^ d)%Z → (0 < d)%Z → Z.pos (digits2_pos p) = d.
Proof.
  intros [Hlo Hhi] Hd. pose proof (digits2_pos_bounds p) as [Hlo' Hhi'].
  destruct (Z.lt_trichotomy (Z.pos (digits2_pos p)) d) as [Hlt | [? | Hgt]]; [|done|].
  - pose proof (Z.pow_le_mono_r 2 (Z.pos (digits2_pos p)) (d - 1)). lia.
  - pose proof (Z.pow_le_mono_r 2 d (Z.pos (digits2_pos p) - 1)). lia.
Qed.

Lemma digits2_pos_mono p q :
  (Z.pos p ≤ Z.pos q)%Z → (Z.pos (digits2_pos p) ≤ Z.pos (digits2_pos q))%Z.
Proof.
  intros Hpq. pose proof (digits2_pos_bounds p) as [Hp _].
  pose proof (digits2_pos_bounds q) as [_ Hq].
  apply Z.nlt_ge. intros Hlt.
  pose proof (Z.pow_le_mono_r 2 (Z.pos (digits2_pos q)) (Z.pos (digits2_pos p) - 1)).
  lia.
Qed.

(** A value of at most [2^31] has at most 32 binary digits. *)
Lemma digits2_pos_int m : (Z.pos m ≤ 2 ^ 31 → Z.pos (digits2_pos m) ≤ 32)%Z.
Proof.
  intros Hm. pose proof (digits2_pos_bounds m) as [Hlo _].
  apply Z.nlt_ge. intros Hlt.
  pose proof (Z.pow_le_mono_r 2 32 (Z.pos (digits2_pos m) - 1)). lia.
Qed.

Lemma iter_xO_value m k : Z.pos (Pos.iter xO m k) = (Z.pos m * 2 ^ Z.pos k)%Z.
Proof.
  induction k as [|k IH] using Pos.peano_ind; [simpl; lia|].
  rewrite Pos.iter_succ, Pos2Z.inj_xO, IH, Pos2Z.inj_succ, Z.pow_succ_r by lia. lia.
Qed.

Lemma digits2_pos_iter m k : digits2_pos (Pos.iter xO m k) = (digits2_pos m + k)%positive.
Proof.
  induction k as [|k IH] using Pos.peano_ind; [simpl; lia|].
  rewrite Pos.iter_succ. simpl. lia.
Qed.

(** A mantissa of 53 digits with an exponent in the range of the format
    is its own rounding. *)
Lemma binary_round_aux_exact s m e :
  Z.pos (digits2_pos m) = 53%Z → (-1074 ≤ e ≤ 971)%Z →
  binary_round_aux 53 1024 s (Z.pos m) e loc_Exact = S754_finite s m e.
Proof.
  intros Hd He. unfold binary_round_aux, shr_fexp, fexp, emin. simpl Zdigits2.
  rewrite Hd. replace (Z.max (53 + e - 53) (3 - 1024 - 53) - e)%Z with 0%Z by lia.
  simpl. rewrite Hd.
  replace (Z.max (53 + e - 53) (3 - 1024 - 53) - e)%Z with 0%Z by lia.
  simpl. by rewrite (proj2 (Z.leb_le e (1024 - 53))) by lia.
Qed.

(** The conversion of a non-zero [int]: the value shifted to a mantissa
    of 53 digits. *)
Definition normal_of (p m : positive) (e : Z) : Prop :=
  Z.pos (digits2_pos m) = 53%Z ∧ e = (Z.pos (digits2_pos p) - 53)%Z ∧
  Z.pos m = (Z.pos p * 2 ^ (- e))%Z.

Lemma binary_round_int s p :
  (Z.pos p ≤ 2 ^ 31)%Z →
  ∃ m e, binary_round 53 1024 s p 0 = S754_finite s m e ∧ normal_of p m e ∧
         (-52 ≤ e ≤ -21)%Z.
Proof.
  intros Hp%digits2_pos_int. unfold binary_round, shl_align, fexp, emin.
  destruct (Z.max _ _ - 0)%Z as [|k|k] eqn:Hk; [lia..|].
  exists (Pos.iter xO p k), (Z.max (Z.pos (digits2_pos p) + 0 - 53) (3 - 1024 - 53)).
  assert (Z.pos (digits2_pos (Pos.iter xO p k)) = 53%Z) as Hd
    by (rewrite digits2_pos_iter; lia).
  split; [apply binary_round_aux_exact; [done | lia]|].
  split_and!; [| lia..]. split_and!; [done | lia |].
  rewrite iter_xO_value. f_equal. f_equal. lia.
Qed.

Lemma of_int_finite z :
  is_int z → z ≠ 0%Z →
  ∃ m e, of_int z = S754_finite (bool_decide (z < 0)%Z) m e ∧
         normal_of (Z.to_pos (Z.abs z)) m e ∧ (-52 ≤ e ≤ -21)%Z.
Proof.
  intros Hz Hnz. destruct z as [|p|p]; [done|..]; simpl;
    apply binary_round_int; int_solve.
Qed.

Lemma normal_of_bounds p m e :
  normal_of p m e → (4503599627370496 ≤ Z.pos m < 9007199254740992)%Z.
Proof.
  intros (Hd & _ & _). pose proof (digits2_pos_bounds m) as Hm.
  rewrite Hd in Hm. exact Hm.
Qed.

(** The conversion keeps the order: a smaller value has a smaller
    exponent, or the same exponent and a smaller mantissa. *)
Lemma normal_of_lt p m e p' m' e' :
  normal_of p m e → normal_of p' m' e' → (Z.pos p < Z.pos p')%Z →
  (e < e' ∨ e = e' ∧ Z.pos m < Z.pos m')%Z.
Proof.
  intros (_ & He & Hm) (_ & He' & Hm') Hlt.
  pose proof (digits2_pos_mono p p') as Hd.
  destruct (decide (e = e')) as [<-|]; [right | left; lia].
  split; [done|]. rewrite Hm, Hm'. apply Z.mul_lt_mono_pos_r; [|done].
  pose proof (Z.pow_nonneg 2 (- e)). nia.
Qed.

(** ** Rounding a quotient of two normal mantissas *)

Lemma loc_of_shr_record_of_loc m l : loc_of_shr_record (shr_record_of_loc m l) = l.
Proof. by destruct l as [|[]]. Qed.

Lemma shr_1_m mrs : (0 ≤ shr_m mrs)%Z → shr_m (shr_1 mrs) = Z.div2 (shr_m mrs).
Proof. destruct mrs as [[|[p|p|]|p] r s]; simpl; (done || lia). Qed.

Lemma round_nearest_even_bounds x l : (x ≤ round_nearest_even x l ≤ x + 1)%Z.
Proof. destruct l as [|[]]; simpl; try destruct (Z.even x); lia. Qed.

Lemma Zdigits2_53 x :
  (4503599627370496 ≤ x < 9007199254740992)%Z → Zdigits2 x = 53%Z.
Proof. intros Hx. destruct x as [|p|p]; [lia | | lia]. by apply digits2_pos_unique. Qed.

Lemma Zdigits2_54 x :
  (9007199254740992 ≤ x < 18014398509481984)%Z → Zdigits2 x = 54%Z.
Proof. intros Hx. destruct x as [|p|p]; [lia | | lia]. by apply digits2_pos_unique. Qed.

(** A mantissa of 53 digits is not shifted, one of 54 digits is shifted
    once. *)
Lemma shr_fexp_53 x e l :
  (4503599627370496 ≤ x < 9007199254740992)%Z → (-1074 ≤ e)%Z →
  shr_fexp 53 1024 x e l = (shr_record_of_loc x l, e).
Proof.
  intros Hx He. unfold shr_fexp, fexp, emin. rewrite Zdigits2_53 by done.
  by replace (Z.max (53 + e - 53) (3 - 1024 - 53) - e)%Z with 0%Z by lia.
Qed.

Lemma shr_fexp_54 x e l :
  (9007199254740992 ≤ x < 18014398509481984)%Z → (-1074 ≤ e)%Z →
  shr_fexp 53 1024 x e l = (shr_1 (shr_record_of_loc x l), (e + 1)%Z).
Proof.
  intros Hx He. unfold shr_fexp, fexp, emin. rewrite Zdigits2_54 by done.
  by replace (Z.max (54 + e - 53) (3 - 1024 - 53) - e)%Z with 1%Z by lia.
Qed.

(** The second half of [binary_round_aux]: the shift after the rounding
    and the test of the exponent. *)
Definition round_tail (s : bool) (x e : Z) : spec_float :=
  let '(mrs, e') := shr_fexp 53 1024 x e loc_Exact in
  match shr_m mrs with
  | Z0 => S754_zero s
  | Zpos m => if Z.leb e' (1024 - 53) then S754_finite s m e' else S754_infinity s
  | _ => S754_nan
  end.

Lemma binary_round_aux_tail s m e l :
  binary_round_aux 53 1024 s m e l
  = let '(mrs, e') := shr_fexp 53 1024 m e l in
    round_tail s (round_nearest_even (shr_m mrs) (loc_of_shr_record mrs)) e'.
Proof. unfold binary_round_aux, round_tail. by destruct (shr_fexp 53 1024 m e l). Qed.

(** [x] is at most [2^52 * 2^E]: the value [1] when [E = -52]. *)
Definition at_most_pow2 (x : spec_float) (E : Z) : Prop :=
  ∃ m e, x = S754_finite false m e ∧
         (e < E ∨ e = E ∧ Z.pos m = 4503599627370496)%Z.

Lemma round_tail_normal x e :
  (4503599627370496 ≤ x ≤ 9007199254740992)%Z → (-1074 ≤ e ≤ 970)%Z →
  at_most_pow2 (round_tail false x e) (e + 1).
Proof.
  intros Hx He. unfold round_tail.
  destruct (decide (x = 9007199254740992%Z)) as [->|].
  - rewrite shr_fexp_54 by lia. simpl.
    rewrite (proj2 (Z.leb_le (e + 1) (1024 - 53))) by lia.
    eexists _, _. split; [done|]. lia.
  - rewrite shr_fexp_53 by lia. simpl. destruct x as [|p|p]; [lia | | lia].
    rewrite (proj2 (Z.leb_le e (1024 - 53))) by lia.
    eexists _, _. split; [done|]. lia.
Qed.

(** The rounding of a mantissa of 53 or 54 digits. *)
Lemma binary_round_aux_normal q e l :
  (4503599627370496 ≤ q < 18014398509481984)%Z → (-1074 ≤ e ≤ 960)%Z →
  at_most_pow2 (binary_round_aux 53 1024 false q e l)
    (if decide (q < 9007199254740992)%Z then e + 1 else e + 2).
Proof.
  intros Hq He. rewrite binary_round_aux_tail.
  destruct (decide (q < 9007199254740992)%Z).
  - rewrite shr_fexp_53 by lia.
    rewrite shr_record_of_loc_m, loc_of_shr_record_of_loc.
    pose proof (round_nearest_even_bounds q l).
    apply round_tail_normal; lia.
  - rewrite shr_fexp_54 by lia. rewrite shr_1_m by (rewrite shr_record_of_loc_m; lia).
    rewrite shr_record_of_loc_m.
    pose proof (round_nearest_even_bounds (Z.div2 q)
                  (loc_of_shr_record (shr_1 (shr_record_of_loc q l)))).
    rewrite Z.div2_div in *.
    pose proof (Z.div_mod q 2). pose proof (Z.mod_pos_bound q 2).
    replace (e + 2)%Z with (e + 1 + 1)%Z by lia.
    apply round_tail_normal; lia.
Qed.

(** The quotient of two normal mantissas: the dividend is shifted by 53
    digits. *)
Lemma SFdiv_core_binary_normal mc ec mm em :
  (4503599627370496 ≤ Z.pos mc < 9007199254740992)%Z →
  (4503599627370496 ≤ Z.pos mm < 9007199254740992)%Z →
  (-52 ≤ ec ≤ -21)%Z → (-52 ≤ em ≤ -21)%Z →
  ∃ l, SFdiv_core_binary 53 1024 (Z.pos mc) ec (Z.pos mm) em
       = ((Z.pos mc * 2 ^ 53) `div` Z.pos mm, ec - em - 53, l)%Z.
Proof.
  intros Hc Hm Hec Hem. unfold SFdiv_core_binary. cbv zeta.
  rewrite !Zdigits2_53 by done.
  replace (Z.min (fexp 53 1024 (53 + ec - (53 + em))) (ec - em))
    with (ec - em - 53)%Z by (unfold fexp, emin; lia).
  replace (ec - em - (ec - em - 53))%Z with 53%Z by lia.
  cbv iota. rewrite Z.shiftl_mul_pow2 by lia. unfold Z.div.
  destruct (Z.div_eucl _ _). eauto.
Qed.

(** The ratio of two positive [int]s [c < m] is at most [1]. *)
Lemma ratio_at_most_one c m :
  is_int c → is_int m → (0 < c < m)%Z → at_most_pow2 (ratio c m) (-52).
Proof.
  intros Hc Hm Hlt. simpl.
  destruct (of_int_finite c) as (mc & ec & -> & Hnc & Hec); [done | lia |].
  destruct (of_int_finite m) as (mm & em & -> & Hnm & Hem); [done | lia |].
  rewrite !bool_decide_eq_false_2 by lia.
  pose proof (normal_of_bounds _ _ _ Hnc). pose proof (normal_of_bounds _ _ _ Hnm).
  assert (ec < em ∨ ec = em ∧ Z.pos mc < Z.pos mm)%Z as Horder
    by (apply (normal_of_lt _ _ _ _ _ _ Hnc Hnm); lia).
  destruct (SFdiv_core_binary_normal mc ec mm em) as [l Hdiv]; [done..|].
  simpl. rewrite Hdiv.
  set (q := ((Z.pos mc * 2 ^ 53) `div` Z.pos mm)%Z).
  assert (4503599627370496 ≤ q < 18014398509481984)%Z as Hq
    by (split; [apply Z.div_le_lower_bound | apply Z.div_lt_upper_bound]; lia).
  destruct (binary_round_aux_normal q (ec - em - 53) l) as (mf & ef & -> & Hf);
    [done | lia |].
  exists mf, ef. split; [done|].
  destruct Horder as [? | [-> ?]]; [destruct (decide _); lia|].
  rewrite decide_True in Hf; [lia|]. apply Z.div_lt_upper_bound; lia.
Qed.

Lemma binary64_ratio_below_start c m :
  is_int c → is_int m → (0 ≤ c < m)%Z → SFltb (ratio c m) double_1_1 = true.
Proof.
  intros Hc Hm Hlt. destruct (decide (c = 0%Z)) as [->|].
  - simpl. destruct (of_int_finite m) as (mm & em & -> & _); [done | lia |].
    by rewrite bool_decide_eq_false_2 by lia.
  - destruct (ratio_at_most_one c m) as (mf & ef & -> & Hf); [done | done | lia |].
    apply SFltb_key. split_and!; [done..|]. unfold key_lt. simpl. lia.
Qed.

(** ** The laws of [binary64] *)

Lemma binary64_ratio_valid c m :
  is_int c → is_int m → (c < m)%Z → ratio c m ≠ S754_nan.
Proof.
  intros Hc Hm Hlt. simpl.
  destruct (decide (c = 0%Z)) as [->|Hc0], (decide (m = 0%Z)) as [->|Hm0]; [lia|..].
  - destruct (of_int_finite m) as (? & ? & -> & _); done.
  - destruct (of_int_finite c) as (? & ? & -> & _); done.
  - destruct (of_int_finite c) as (? & ? & -> & _); [done..|].
    destruct (of_int_finite m) as (? & ? & -> & _); [done..|].
    apply SFdiv_finite_not_nan.
Qed.

#[export] Instance binary64_order : FillOrder binary64.
Proof.
  split; simpl.
  - intros x. apply not_true_is_false. intros (_ & _ & ?%key_lt_irrefl)%SFltb_key. done.
  - intros x y z (? & ? & ?)%SFltb_key (? & ? & ?)%SFltb_key.
    apply SFltb_key. eauto using key_lt_trans.
  - intros x y z Hy (? & ? & Hxz)%SFltb_key.
    destruct (key_lt_cotrans _ (key y) _ Hxz); [left | right];
      by apply SFltb_key.
  - apply binary64_ratio_valid.
  - apply binary64_ratio_below_start.
Qed.

(** ** Theorems *)

(** The ratio of a site with room whose count is not negative is at
    most [1.0] as a [double], and so below the start value [1.1] of the
    scan: such a site can always be selected. *)
Theorem ratio_le_one c m :
  is_int c → is_int m → (0 ≤ c < m)%Z →
  SFleb (ratio c m) (of_int 1) = true ∧ SFltb (ratio c m) double_1_1 = true.
Proof.
  intros Hc Hm Hlt. split; [|by apply binary64_ratio_below_start].
  destruct (decide (c = 0%Z)) as [->|].
  - simpl. destruct (of_int_finite m) as (mm & em & -> & _); [done | lia |].
    by rewrite bool_decide_eq_false_2 by lia.
  - destruct (ratio_at_most_one c m) as (mf & ef & -> & Hf); [done | done | lia |].
    change (of_int 1) with (S754_finite false 4503599627370496 (-52)).
    unfold SFleb, SFcompare. destruct (Z.compare_spec ef (-52)); [|done|lia].
    destruct Hf as [? | [_ Hmf]]; [lia|]. injection Hmf as ->. done.
Qed.

(** The exact conversions and the division on the values of the
    specification: [2/10] and [1/5] are the same [double]. *)
Example ratio_examples :
  of_int 10 = S754_finite false 5629499534213120 (-49) ∧
  ratio 2 10 = ratio 1 5 ∧
  ratio 0 10 = S754_zero false ∧
  SFltb (ratio 2 10) (ratio 9 10) = true.
Proof. by vm_compute. Qed.

Lemma ratio_le_one_witness :
  SFleb (ratio 2 10) (of_int 1) = true ∧ SFltb (ratio 2 10) double_1_1 = true.
Proof. by apply ratio_le_one. Defined.
