(* ===== verification/SiteAlgorithm.v ===== *)
(** * [findMostNeededSite]

    The matcher of [src/include/SiteAlgorithm.hpp]: one scan over the
    list of relief sites that keeps the lowest fill ratio seen so far and
    the index where it was seen.

    The ratio is a [double].  What the scan needs of it is the interface
    [Ratio.FillOps] with the laws [Ratio.FillOrder]; the scan and its
    theorems are stated against the interface, and evaluated on
    [Ratio.binary64], the arithmetic of the code. *)

From Stdlib Require Import SpecFloat.
From S2P Require Import Prelude Chain CustomLists Queue Ratio.

(** ** The scan *)

(** The last column of a printed row. *)
Inductive priority := HIGHEST | Lower | FULL.

#[export] Instance priority_eq_dec : EqDecision priority.
Proof. solve_decision. Defined.

Section scan.
Context `{O : FillOps}.

(** The local variables of [findMostNeededSite] and the rows printed so
    far. *)
Record scan := mkScan {
  bestSiteIndex : Z;
  lowestPercentage : ratio_t;
  index : Z;
  rows : list (string * priority)
}.

(** The body of the loop on the site [*it], and [++index]. *)
Definition scan_site (s : ReliefSite) (st : scan) : res scan :=
  let st' :=
    if decide (currentCount s < maxCapacity s)%Z then
      let percentage := ratio (currentCount s) (maxCapacity s) in
      let priority := if ltb percentage (lowestPercentage st) then HIGHEST else Lower in
      let rows' := rows st ++ [(site_name s, priority)] in
      if ltb percentage (lowestPercentage st)
      then mkScan (index st) percentage (index st) rows'
      else mkScan (bestSiteIndex st) (lowestPercentage st) (index st) rows'
    else
      mkScan (bestSiteIndex st) (lowestPercentage st) (index st)
        (rows st ++ [(site_name s, FULL)]) in
  index' ← int_incr (index st');
  return_ (mkScan (bestSiteIndex st') (lowestPercentage st') index' (rows st')).

(** [int findMostNeededSite(const CustomLinkedList<ReliefSite>& sites)]:
    the index returned and the rows printed. *)
Definition findMostNeededSite (sites : CustomLinkedList.t ReliefSite)
    : res (Z * list (string * priority)) :=
  c ← CustomLinkedList.iterate (R := Empty_set) sites
         (λ _ s st, Next <$> scan_site s st) (mkScan (-1) start 0 []);
  match c with
  | Next st => return_ (bestSiteIndex st, rows st)
  | Return r => match r : Empty_set with end
  end.

(** ** What the scan is to compute *)

(** The ratio of a site. *)
Definition fill (s : ReliefSite) : ratio_t := ratio (currentCount s) (maxCapacity s).

(** A site the scan can select: it has room and its ratio is below the
    start value. *)
Definition candidate (s : ReliefSite) : Prop :=
  (currentCount s < maxCapacity s)%Z ∧ ltb (fill s) start = true.

(** [best_at xs i s]: the site [s] at index [i] is a candidate, no
    candidate has a lower ratio, and every candidate before it has a
    higher one: [i] is the first index of minimal ratio. *)
Definition best_at (xs : list ReliefSite) (i : nat) (s : ReliefSite) : Prop :=
  xs !! i = Some s ∧ candidate s ∧
  (∀ j t, xs !! j = Some t → candidate t → ltb (fill t) (fill s) = false) ∧
  (∀ j t, j < i → xs !! j = Some t → candidate t → ltb (fill s) (fill t) = true).

Definition selects (xs : list ReliefSite) (i : nat) : Prop := ∃ s, best_at xs i s.

(** The result of the scan on [xs]: [-1] when no site is a candidate. *)
Definition result_ok (xs : list ReliefSite) (r : Z) : Prop :=
  (r = -1 ∧ ∀ s, s ∈ xs → ¬ candidate s)%Z ∨
  (0 ≤ r ∧ selects xs (Z.to_nat r))%Z.

(** The fields of a site are [int]s. *)
Definition site_ok (s : ReliefSite) : Prop :=
  is_int (currentCount s) ∧ is_int (maxCapacity s).

#[export] Instance site_ok_dec s : Decision (site_ok s).
Proof. unfold site_ok. apply _. Defined.

(** The invariant of the loop after the sites [pre]. *)
Definition scan_inv (pre : list ReliefSite) (st : scan) : Prop :=
  index st = Z.of_nat (length pre) ∧
  ((bestSiteIndex st = (-1)%Z ∧ lowestPercentage st = start ∧
    ∀ s, s ∈ pre → ¬ candidate s) ∨
   (∃ i s, bestSiteIndex st = Z.of_nat i ∧ lowestPercentage st = fill s ∧
           best_at pre i s)).

(** The rows printed after the sites [pre]: one row per site, in order,
    [FULL] exactly for the sites without room, and the index kept is the
    last row marked [HIGHEST]. *)
Definition rows_inv (pre : list ReliefSite) (st : scan) : Prop :=
  (rows st).*1 = site_name <$> pre ∧
  (∀ i s, pre !! i = Some s →
     (rows st).*2 !! i = Some FULL ↔ ¬ (currentCount s < maxCapacity s)%Z) ∧
  ((bestSiteIndex st = (-1)%Z ∧ HIGHEST ∉ (rows st).*2) ∨
   (∃ i, bestSiteIndex st = Z.of_nat i ∧ (rows st).*2 !! i = Some HIGHEST ∧
         ∀ j, i < j → (rows st).*2 !! j ≠ Some HIGHEST)).

End scan.

(** ** The scan selects the first site of minimal ratio *)

Section scan_lemmas.
Context {O : FillOps} {L : FillOrder O}.
Implicit Types (s t x : ReliefSite) (xs pre : list ReliefSite) (st : scan).

Lemma candidate_valid s : site_ok s → candidate s → valid (fill s).
Proof. intros [??] [??]. by apply ratio_valid. Qed.

Lemma best_at_snoc_keep pre i s x :
  best_at pre i s →
  (candidate x → ltb (fill x) (fill s) = false) →
  best_at (pre ++ [x]) i s.
Proof.
  intros (Hi & Hc & Hmin & Hfirst) Hx.
  pose proof (lookup_lt_Some _ _ _ Hi) as Hlt. split_and!; [| done | |].
  - by rewrite lookup_app_l.
  - intros j t [[_ Hj] | [_ ->]]%lookup_snoc_Some; eauto.
  - intros j t Hji Hj. rewrite lookup_app_l in Hj by lia. eauto.
Qed.

Lemma best_at_snoc_new pre x :
  candidate x →
  (∀ j t, pre !! j = Some t → candidate t →
     ltb (fill t) (fill x) = false ∧ ltb (fill x) (fill t) = true) →
  best_at (pre ++ [x]) (length pre) x.
Proof.
  intros Hc Hpre. split_and!; [apply list_lookup_middle; done | done | |].
  - intros j t [[_ Hj] | [_ ->]]%lookup_snoc_Some Ht;
      [by apply (Hpre j t) | apply ltb_irrefl].
  - intros j t Hlt Hj Ht. rewrite lookup_app_l in Hj by done.
    by apply (Hpre j t).
Qed.

(** The first index of minimal ratio is one index. *)
Lemma best_at_inj xs i s j t :
  best_at xs i s → best_at xs j t → i = j ∧ s = t.
Proof.
  intros (Hi & Hs & Hmin1 & Hfirst1) (Hj & Ht & Hmin2 & Hfirst2).
  destruct (Nat.lt_trichotomy i j) as [Hlt|[->|Hlt]].
  - specialize (Hfirst2 i s Hlt Hi Hs). specialize (Hmin1 j t Hj Ht). congruence.
  - split; [done | congruence].
  - specialize (Hfirst1 j t Hlt Hj Ht). specialize (Hmin2 i s Hi Hs). congruence.
Qed.

(** A new minimum is below every candidate seen before. *)
Lemma new_minimum pre i s x :
  Forall site_ok pre → best_at pre i s →
  ltb (fill x) (fill s) = true →
  ∀ j t, pre !! j = Some t → candidate t →
    ltb (fill t) (fill x) = false ∧ ltb (fill x) (fill t) = true.
Proof.
  intros Hok (Hi & Hc & Hmin & Hfirst) Hlt j t Hj Ht.
  pose proof (Hmin j t Hj Ht) as Hts. split.
  - apply not_true_is_false. intros Htx.
    by rewrite (ltb_trans _ _ _ Htx Hlt) in Hts.
  - destruct (ltb_cotrans (fill x) (fill t) (fill s)) as [? | Hts'];
      [| done | done | by rewrite Hts' in Hts].
    apply candidate_valid; [|done]. by eapply Forall_lookup_1.
Qed.

Lemma scan_site_inv pre x st :
  Forall site_ok pre → (Z.of_nat (length pre) < INT_MAX)%Z →
  scan_inv pre st →
  ∃ st', scan_site x st = Ok st' ∧ scan_inv (pre ++ [x]) st'.
Proof.
  intros Hok Hlen [Hidx Hbest]. unfold scan_site.
  assert (∀ b l r, int_incr (index (mkScan b l (index st) r))
                   = Ok (Z.of_nat (length (pre ++ [x])))) as Hincr.
  { intros. simpl. rewrite int_incr_lt by lia. f_equal.
    rewrite length_app. simpl. lia. }
  destruct (decide (currentCount x < maxCapacity x)%Z) as [Hroom|Hfull];
    [destruct (ltb _ (lowestPercentage st)) eqn:Hlt|];
    rewrite Hincr; simpl; eexists; (split; [done|]); (split; [done|]); simpl.
  - right. exists (length pre), x. split_and!; [lia | done |].
    destruct Hbest as [(_ & Hlow & Hnone) | (i & s & _ & Hlow & Hbest)];
      rewrite Hlow in Hlt.
    + apply best_at_snoc_new; [done|]. intros j t Hj Ht.
      by destruct (Hnone t); [eapply list_elem_of_lookup_2|].
    + apply best_at_snoc_new; [|by eapply new_minimum].
      split; [done|]. destruct Hbest as (_ & [_ Hs] & _).
      by eapply ltb_trans.
  - destruct Hbest as [(? & Hlow & Hnone) | (i & s & ? & Hlow & Hbest)];
      rewrite Hlow in Hlt; [left | right].
    + split_and!; [done..|]. intros t [Ht | ->%list_elem_of_singleton]%elem_of_app;
        [by apply Hnone | intros [_ Hc]; unfold fill in Hc; congruence].
    + exists i, s. split_and!; [done..|]. by apply best_at_snoc_keep.
  - destruct Hbest as [(? & Hlow & Hnone) | (i & s & ? & Hlow & Hbest)];
      [left | right].
    + split_and!; [done..|]. intros t [Ht | ->%list_elem_of_singleton]%elem_of_app;
        [by apply Hnone | by intros [? _]].
    + exists i, s. split_and!; [done..|]. apply best_at_snoc_keep; [done|].
      by intros [? _].
Qed.

(** A site with room whose count is not negative can be selected. *)
Lemma room_candidate s :
  site_ok s → (0 ≤ currentCount s < maxCapacity s)%Z → candidate s.
Proof. intros [??] ?. split; [lia|]. by apply ratio_below_start. Qed.

(** The rows: what one step appends. *)
Lemma scan_site_rows x st st' :
  scan_site x st = Ok st' →
  ∃ p, rows st' = rows st ++ [(site_name x, p)] ∧
       (p = FULL ↔ ¬ (currentCount x < maxCapacity x)%Z) ∧
       (p = HIGHEST → bestSiteIndex st' = index st) ∧
       (p ≠ HIGHEST → bestSiteIndex st' = bestSiteIndex st).
Proof.
  unfold scan_site.
  destruct (decide (currentCount x < maxCapacity x)%Z);
    [destruct (ltb _ (lowestPercentage st))|];
    intros Hst; res_inv; simpl; eexists; (split; [done|]); naive_solver.
Qed.

Lemma scan_site_rows_inv pre x st st' :
  index st = Z.of_nat (length pre) →
  scan_site x st = Ok st' →
  rows_inv pre st → rows_inv (pre ++ [x]) st'.
Proof.
  intros Hidx (p & Hr & Hfull & Hhigh & Hkeep)%scan_site_rows (Hnames & Hrooms & Hlast).
  assert (length (rows st).*2 = length pre) as Hlen.
  { by rewrite <-(length_fmap site_name pre), <-Hnames, !length_fmap. }
  unfold rows_inv. rewrite Hr, !fmap_app. simpl. split_and!.
  - by rewrite Hnames.
  - intros i s [[Hi Hs] | [-> ->]]%lookup_snoc_Some.
    + rewrite lookup_app_l by lia. eauto.
    + rewrite <-Hlen, list_lookup_middle by done. naive_solver.
  - destruct (decide (p = HIGHEST)) as [->|Hp].
    + right. exists (length pre). rewrite Hhigh by done.
      split_and!; [done | by rewrite <-Hlen, list_lookup_middle |].
      intros j Hj. rewrite lookup_ge_None_2; [done|]. rewrite length_app. simpl. lia.
    + rewrite Hkeep by done.
      destruct Hlast as [[? Hnot] | (i & ? & Hi & Hafter)]; [left | right].
      * split; [done|]. rewrite elem_of_app, list_elem_of_singleton. naive_solver.
      * exists i. pose proof (lookup_lt_Some _ _ _ Hi).
        split_and!; [done | by rewrite lookup_app_l by lia |].
        intros j Hj [[_ ?] | [_ ?]]%lookup_snoc_Some; [by eapply Hafter | done].
Qed.

(** The loop on a list of sites: it ends normally, in a state where both
    invariants hold of the whole list. *)
Lemma findMostNeededSite_scan sites xs :
  CustomLinkedList.models sites xs → Forall site_ok xs →
  ∃ st, findMostNeededSite sites = Ok (bestSiteIndex st, rows st) ∧
        scan_inv xs st ∧ rows_inv xs st.
Proof.
  intros Hm Hok. unfold findMostNeededSite.
  rewrite (CustomLinkedList.iterate_models _ _ _ _ Hm).
  destruct (CustomLinkedList.models_length _ _ Hm) as [_ Hlen].
  destruct (list_loop_invariant (R := Empty_set)
              (λ pre st, scan_inv pre st ∧ rows_inv pre st)
              (λ s st, Next <$> scan_site s st) xs (mkScan (-1) start 0 []))
    as (st & -> & Hst); [| | by exists st].
  - split; [split; [done | left; split_and!; [done..|]] | split_and!].
    + by intros ? ?%elem_of_nil.
    + done.
    + intros i s Hi. by rewrite lookup_nil in Hi.
    + left. split; [done | apply not_elem_of_nil].
  - intros pre x suf st -> [Hinv Hrows].
    rewrite length_app in Hlen. simpl in Hlen.
    apply Forall_app in Hok as [Hok _].
    destruct (scan_site_inv pre x st) as (st' & Hst' & ?); [done | lia | done |].
    exists st'. rewrite Hst'. split_and!; [done | done |].
    destruct Hinv as [? _]. by eapply scan_site_rows_inv.
Qed.

Lemma scan_inv_result xs st : scan_inv xs st → result_ok xs (bestSiteIndex st).
Proof.
  intros [_ [(-> & _ & ?) | (i & s & -> & _ & ?)]]; [by left | right].
  split; [lia|]. rewrite Nat2Z.id. by exists s.
Qed.

Lemma result_ok_range xs r :
  result_ok xs r → (r = -1 ∨ 0 ≤ r < Z.of_nat (length xs))%Z.
Proof.
  intros [[-> _] | [? (s & ?%lookup_lt_Some & _)]]; [by left | right; lia].
Qed.

End scan_lemmas.

(** ** The matcher *)

Section matcher.
Context {O : FillOps} {L : FillOrder O}.
Implicit Types (sites : CustomLinkedList.t ReliefSite) (xs : list ReliefSite).

(** C2 On a list of sites the matcher ends and returns the first index of
    minimal ratio among the sites that have room and a ratio below the
    start value, or [-1] when no site is such. *)
Theorem findMostNeededSite_spec sites xs :
  CustomLinkedList.models sites xs → Forall site_ok xs →
  ∃ r rs, findMostNeededSite sites = Ok (r, rs) ∧ result_ok xs r.
Proof.
  intros Hm Hok. destruct (findMostNeededSite_scan sites xs Hm Hok) as (st & ? & ? & _).
  exists (bestSiteIndex st), (rows st). eauto using scan_inv_result.
Qed.

(** C10 An index returned by the matcher other than [-1] is in the bounds
    of the list: [operator[]] on it does not throw, and refers to a site
    that has room. *)
Theorem findMostNeededSite_subscript sites xs r rs :
  CustomLinkedList.models sites xs → Forall site_ok xs →
  findMostNeededSite sites = Ok (r, rs) → r ≠ (-1)%Z →
  ∃ a s, CustomLinkedList.subscript sites r = Ok a ∧
         CustomLinkedList.read sites (Some a) = Ok s ∧
         xs !! Z.to_nat r = Some s ∧ (currentCount s < maxCapacity s)%Z.
Proof.
  intros Hm Hok Hr Hne.
  destruct (findMostNeededSite_scan sites xs Hm Hok) as (st & Hst & Hinv%scan_inv_result & _).
  rewrite Hr in Hst. injection Hst as -> _.
  destruct Hinv as [[? _] | [Hpos (s & Hs & [Hroom _] & _)]]; [done|].
  destruct Hm as (cs & Hrepr & <-).
  apply list_lookup_fmap_Some in Hs as ([a s'] & -> & Hcs).
  exists a, s'. split_and!; [| by eapply CustomLinkedList.read_repr | | done].
  - by eapply CustomLinkedList.subscript_repr.
  - by rewrite list_lookup_fmap, Hcs.
Qed.

(** The table printed by the matcher has one row per site, in the
    order of the list; a row is marked [FULL] exactly when its site has no
    room; the index returned is the last row marked [HIGHEST], and [-1]
    when no row is. *)
Theorem findMostNeededSite_rows sites xs r rs :
  CustomLinkedList.models sites xs → Forall site_ok xs →
  findMostNeededSite sites = Ok (r, rs) →
  rs.*1 = site_name <$> xs ∧
  (∀ i s, xs !! i = Some s →
     rs.*2 !! i = Some FULL ↔ ¬ (currentCount s < maxCapacity s)%Z) ∧
  ((r = (-1)%Z ∧ HIGHEST ∉ rs.*2) ∨
   (∃ i, r = Z.of_nat i ∧ rs.*2 !! i = Some HIGHEST ∧
         ∀ j, i < j → rs.*2 !! j ≠ Some HIGHEST)).
Proof.
  intros Hm Hok Hr.
  destruct (findMostNeededSite_scan sites xs Hm Hok) as (st & Hst & _ & Hrows).
  rewrite Hr in Hst. by injection Hst as -> ->.
Qed.

(** When some site of the list has room and a ratio below the start
    value, the matcher returns the index of a site. *)
Theorem findMostNeededSite_finds sites xs s :
  CustomLinkedList.models sites xs → Forall site_ok xs →
  s ∈ xs → candidate s →
  ∃ r rs, findMostNeededSite sites = Ok (r, rs) ∧ (0 ≤ r)%Z.
Proof.
  intros Hm Hok Hs Hc.
  destruct (findMostNeededSite_scan sites xs Hm Hok) as (st & ? & Hinv%scan_inv_result & _).
  exists (bestSiteIndex st), (rows st). split; [done|].
  destruct Hinv as [[_ Hnone] | [? _]]; [by destruct (Hnone s) | done].
Qed.

(** C31 On sites whose counts are not negative the matcher returns [-1]
    exactly when no site has room. *)
Theorem findMostNeededSite_none sites xs :
  CustomLinkedList.models sites xs → Forall site_ok xs →
  Forall (λ s, 0 ≤ currentCount s)%Z xs →
  ∃ r rs, findMostNeededSite sites = Ok (r, rs) ∧
    (r = (-1)%Z ↔ Forall (λ s, maxCapacity s ≤ currentCount s)%Z xs).
Proof.
  intros Hm Hok Hpos.
  destruct (findMostNeededSite_scan sites xs Hm Hok) as (st & ? & Hinv%scan_inv_result & _).
  exists (bestSiteIndex st), (rows st). split; [done|].
  rewrite Forall_forall. rewrite Forall_forall in Hok, Hpos. split.
  - intros Hr s Hs. destruct Hinv as [[_ Hnone] | [? _]]; [|lia].
    apply Z.nlt_ge. intros Hroom. destruct (Hnone s Hs).
    apply room_candidate; [by apply Hok|]. by specialize (Hpos s Hs); lia.
  - intros Hfull. destruct Hinv as [[? _] | [_ (s & Hs & [Hroom _] & _)]]; [done|].
    apply list_elem_of_lookup_2, Hfull in Hs. lia.
Qed.

End matcher.

(** ** The matcher on [binary64] *)

(** The matcher on the list that holds [xs]. *)
Definition match_sites (xs : list ReliefSite) : res (Z * list (string * priority)) :=
  sites ← CustomLinkedList.push_all xs CustomLinkedList.new;
  findMostNeededSite sites.

Definition tie_sites : list ReliefSite := [mkSite "A" 2 10; mkSite "B" 1 5].

Definition tie_list : CustomLinkedList.t ReliefSite :=
  CustomLinkedList.mk
    {[ 1%positive := mkNode (mkSite "A" 2 10) (Some 2%positive);
       2%positive := mkNode (mkSite "B" 1 5) None ]}
    (Some 1%positive) (Some 2%positive) 2.

Lemma tie_list_models : CustomLinkedList.models tie_list tie_sites.
Proof.
  apply (CustomLinkedList.check_models tie_list
           [(1%positive, mkSite "A" 2 10); (2%positive, mkSite "B" 1 5)]).
  by vm_compute.
Qed.

Lemma tie_sites_ok : Forall site_ok tie_sites.
Proof. by apply (bool_decide_unpack _). Qed.

(** Two sites filled to 20%: the first is selected. *)
Example tie_break : match_sites tie_sites = Ok (0%Z, [("A", HIGHEST); ("B", Lower)]).
Proof. by vm_compute. Qed.

(** Every site at capacity: no site is selected and every row is [FULL]. *)
Example all_full :
  match_sites [mkSite "A" 10 10; mkSite "B" 5 5] = Ok ((-1)%Z, [("A", FULL); ("B", FULL)]).
Proof. by vm_compute. Qed.

(** No site at all. *)
Example no_sites : match_sites [] = Ok ((-1)%Z, []).
Proof. by vm_compute. Qed.

(** The least filled site is selected, wherever it is. *)
Example lowest_ratio :
  fst <$> match_sites [mkSite "A" 9 10; mkSite "B" 2 10] = Ok 1%Z ∧
  fst <$> match_sites [mkSite "A" 5 10; mkSite "B" 2 10; mkSite "C" 1 10] = Ok 2%Z ∧
  fst <$> match_sites [mkSite "A" 1 10; mkSite "B" 2 10; mkSite "C" 5 10] = Ok 0%Z.
Proof. by vm_compute. Qed.



(** A site with negative fields can have room and still not be selected:
    [-3 < -2] and the ratio is [1.5]. *)
Example room_not_selected :
  (currentCount (mkSite "A" (-3) (-2)) < maxCapacity (mkSite "A" (-3) (-2)))%Z ∧
  match_sites [mkSite "A" (-3) (-2)] = Ok ((-1)%Z, [("A", Lower)]).
Proof. by vm_compute. Qed.

Lemma findMostNeededSite_spec_witness :
  ∃ r rs, findMostNeededSite tie_list = Ok (r, rs) ∧ result_ok tie_sites r.
Proof. apply findMostNeededSite_spec; [apply tie_list_models | apply tie_sites_ok]. Defined.

Lemma findMostNeededSite_subscript_witness :
  ∃ a s, CustomLinkedList.subscript tie_list 0 = Ok a ∧
         CustomLinkedList.read tie_list (Some a) = Ok s ∧
         tie_sites !! Z.to_nat 0 = Some s ∧ (currentCount s < maxCapacity s)%Z.
Proof.
  apply (findMostNeededSite_subscript tie_list tie_sites 0 [("A", HIGHEST); ("B", Lower)]);
    [apply tie_list_models | apply tie_sites_ok | by vm_compute | done].
Defined.

Lemma findMostNeededSite_rows_witness :
  [("A", HIGHEST); ("B", Lower)].*1 = site_name <$> tie_sites ∧
  (∀ i s, tie_sites !! i = Some s →
     [("A", HIGHEST); ("B", Lower)].*2 !! i = Some FULL
     ↔ ¬ (currentCount s < maxCapacity s)%Z) ∧
  ((0 = -1 ∧ HIGHEST ∉ [("A", HIGHEST); ("B", Lower)].*2)%Z ∨
   (∃ i, 0%Z = Z.of_nat i ∧ [("A", HIGHEST); ("B", Lower)].*2 !! i = Some HIGHEST ∧
         ∀ j, i < j → [("A", HIGHEST); ("B", Lower)].*2 !! j ≠ Some HIGHEST)).
Proof.
  apply (findMostNeededSite_rows tie_list tie_sites 0 [("A", HIGHEST); ("B", Lower)]);
    [apply tie_list_models | apply tie_sites_ok | by vm_compute].
Defined.

Lemma findMostNeededSite_finds_witness :
  ∃ r rs, findMostNeededSite tie_list = Ok (r, rs) ∧ (0 ≤ r)%Z.
Proof.
  apply (findMostNeededSite_finds tie_list tie_sites (mkSite "B" 1 5));
    [apply tie_list_models | apply tie_sites_ok | set_solver | by vm_compute].
Defined.

Lemma findMostNeededSite_none_witness :
  ∃ r rs, findMostNeededSite tie_list = Ok (r, rs) ∧
    (r = (-1)%Z ↔ Forall (λ s, maxCapacity s ≤ currentCount s)%Z tie_sites).
Proof.
  apply findMostNeededSite_none;
    [apply tie_list_models | apply tie_sites_ok | by apply (bool_decide_unpack _)].
Defined.
