(* ===== verification/Text.v ===== *)
(** * [trim]

    [std::string trim(const std::string&)] of [src/src/main.cpp]: the
    string without the spaces, tabs, carriage returns and line feeds at its
    two ends.  The code finds the first and the last character that is not
    one of them and takes the substring between; [strip] is the reference
    definition, which drops them from the front and from the back.  The
    functions work on the characters of the string; [trim] is the function
    on [string]. *)

From Stdlib Require Import Ascii String.
From S2P Require Import Prelude.

(** [" \t\r\n"] *)
Definition whitespace : list ascii := [" "; "009"; "013"; "010"]%char.

Definition is_ws (c : ascii) : bool := bool_decide (c ∈ whitespace).

(** [str.find_first_not_of(" \t\r\n")]; [None] is [std::string::npos]. *)
Fixpoint find_first_not_of (l : list ascii) : option nat :=
  match l with
  | [] => None
  | c :: l' => if is_ws c then S <$> find_first_not_of l' else Some 0
  end.

(** [str.find_last_not_of(" \t\r\n")] *)
Fixpoint find_last_not_of (l : list ascii) : option nat :=
  match l with
  | [] => None
  | c :: l' =>
      match find_last_not_of l' with
      | Some i => Some (S i)
      | None => if is_ws c then None else Some 0
      end
  end.

(** [trim] on the characters.  With [end = npos] the count
    [end - start + 1] wraps around to a number that is not less than the
    length, and [substr] takes the rest of the string. *)
Definition trim_chars (l : list ascii) : list ascii :=
  match find_first_not_of l with
  | None => []
  | Some start =>
      match find_last_not_of l with
      | Some end_ => take (end_ - start + 1) (drop start l)
      | None => drop start l
      end
  end.

(** [std::string trim(const std::string& str)] *)
Definition trim (str : string) : string :=
  string_of_list_ascii (trim_chars (list_ascii_of_string str)).

(** ** The reference definition *)

Fixpoint drop_ws (l : list ascii) : list ascii :=
  match l with
  | [] => []
  | c :: l' => if is_ws c then drop_ws l' else l
  end.

Definition drop_ws_end (l : list ascii) : list ascii := rev (drop_ws (rev l)).

Definition strip (l : list ascii) : list ascii := drop_ws_end (drop_ws l).

(** ** Lemmas *)

Lemma drop_ws_nil l : drop_ws l = [] ↔ Forall (λ c, is_ws c = true) l.
Proof.
  induction l as [|c l IH]; simpl; [by split|].
  destruct (is_ws c) eqn:Hc.
  - rewrite IH, Forall_cons. naive_solver.
  - split; [done|]. intros [? _]%Forall_cons. congruence.
Qed.

Lemma drop_ws_app l1 l2 :
  drop_ws (l1 ++ l2) = if decide (drop_ws l1 = []) then drop_ws l2 else drop_ws l1 ++ l2.
Proof.
  induction l1 as [|c l1 IH]; simpl; [done|].
  destruct (is_ws c); [done|]. first [done | by rewrite decide_False].
Qed.

Lemma drop_ws_end_cons c l :
  drop_ws_end (c :: l)
  = if decide (drop_ws_end l = []) then (if is_ws c then [] else [c])
    else c :: drop_ws_end l.
Proof.
  unfold drop_ws_end. simpl. rewrite drop_ws_app.
  destruct (decide (drop_ws (rev l) = [])) as [Hnil|Hne].
  - rewrite Hnil. simpl. by destruct (is_ws c).
  - rewrite decide_False, rev_app_distr; [done|].
    intros Heq. apply Hne. by rewrite <-(rev_involutive (drop_ws _)), Heq.
Qed.

Lemma drop_ws_end_find_last l :
  drop_ws_end l = match find_last_not_of l with
                  | Some end_ => take (end_ + 1) l
                  | None => []
                  end.
Proof.
  induction l as [|c l IH]; [done|]. rewrite drop_ws_end_cons, IH. simpl.
  destruct (find_last_not_of l) as [i|] eqn:Hi.
  - rewrite !Nat.add_1_r. destruct l; [done|]. by rewrite decide_False.
  - simpl. by destruct (is_ws c).
Qed.

Lemma trim_chars_strip l : trim_chars l = strip l.
Proof.
  unfold strip. induction l as [|c l IH]; [done|].
  unfold trim_chars in *. simpl. destruct (is_ws c) eqn:Hc.
  - rewrite <-IH. destruct (find_first_not_of l) as [i|]; simpl; [|done].
    by destruct (find_last_not_of l).
  - simpl. rewrite drop_ws_end_find_last. simpl. rewrite Hc.
    by destruct (find_last_not_of l) as [j|]; rewrite Nat.sub_0_r.
Qed.

Lemma drop_ws_idemp l : drop_ws (drop_ws l) = drop_ws l.
Proof.
  induction l as [|c l IH]; simpl; [done|].
  destruct (is_ws c) eqn:Hc; [done|]. simpl. by rewrite Hc.
Qed.

Lemma drop_ws_head l c l' : drop_ws l = c :: l' → is_ws c = false.
Proof.
  induction l as [|d l IH]; simpl; [done|].
  destruct (is_ws d) eqn:Hd; [done|]. by intros [= <- _].
Qed.

(** Dropping at the end keeps a first character that is not whitespace. *)
Lemma drop_ws_end_head c l :
  is_ws c = false → ∃ l', drop_ws_end (c :: l) = c :: l'.
Proof.
  intros Hc. rewrite drop_ws_end_cons, Hc. case_decide; eauto.
Qed.

Lemma strip_head l c l' : strip l = c :: l' → is_ws c = false.
Proof.
  unfold strip. destruct (drop_ws l) as [|d k] eqn:Hd; [done|].
  pose proof (drop_ws_head _ _ _ Hd) as Hws.
  destruct (drop_ws_end_head d k Hws) as [k' ->]. by intros [= <- _].
Qed.

Lemma last_rev (l : list ascii) : last (rev l) = head l.
Proof. destruct l; simpl; [done | apply last_snoc]. Qed.

Lemma strip_last l c : last (strip l) = Some c → is_ws c = false.
Proof.
  unfold strip, drop_ws_end. rewrite last_rev.
  destruct (drop_ws (rev (drop_ws l))) as [|d k] eqn:Hd; [done|].
  intros [= ->]. by eapply drop_ws_head.
Qed.

Lemma strip_idemp l : strip (strip l) = strip l.
Proof.
  unfold strip. destruct (drop_ws_end (drop_ws l)) as [|c k] eqn:Hs; [done|].
  pose proof (strip_head l c k Hs) as Hc. simpl. rewrite Hc.
  unfold drop_ws_end in *. rewrite <-Hs, rev_involutive, drop_ws_idemp. done.
Qed.

Lemma strip_nil l : strip l = [] ↔ Forall (λ c, is_ws c = true) l.
Proof.
  unfold strip, drop_ws_end. rewrite <-drop_ws_nil. split.
  - intros H. apply (f_equal (@rev _)) in H. rewrite rev_involutive in H. simpl in H.
    apply drop_ws_nil in H. destruct (drop_ws l) as [|c k] eqn:Hd; [done|].
    apply drop_ws_head in Hd. apply Forall_rev in H. rewrite rev_involutive in H.
    apply Forall_cons in H as [? _]. congruence.
  - by intros ->.
Qed.

(** A string that neither begins nor ends with whitespace is kept. *)
Lemma strip_fixed l c d :
  head l = Some c → is_ws c = false → last l = Some d → is_ws d = false →
  strip l = l.
Proof.
  intros Hc Hwc Hd Hwd. unfold strip, drop_ws_end.
  destruct l as [|c' l]; simplify_eq/=. rewrite Hwc.
  rewrite <-(rev_involutive (c :: l)) in Hd. rewrite last_rev in Hd.
  destruct (rev (c :: l)) as [|d' k] eqn:Hk; simplify_eq/=. rewrite Hwd.
  rewrite <-Hk. change (rev l ++ [c]) with (rev (c :: l)). by rewrite rev_involutive.
Qed.

(** The characters of the result are characters of the argument. *)
Lemma trim_chars_length l : length (trim_chars l) ≤ length l.
Proof.
  unfold trim_chars. destruct (find_first_not_of l) as [start|]; [|simpl; lia].
  destruct (find_last_not_of l) as [end_|];
    rewrite ?length_take, length_drop; lia.
Qed.

Lemma trim_chars_subseteq l : trim_chars l ⊆ l.
Proof.
  unfold trim_chars. destruct (find_first_not_of l) as [start|]; [|set_solver].
  destruct (find_last_not_of l) as [end_|].
  - etrans; [apply subseteq_take | apply subseteq_drop].
  - apply subseteq_drop.
Qed.

(** ** Theorems *)

(** C33 [trim] is the reference definition: the characters of the result
    are those of the argument without the whitespace at the two ends. *)
Theorem trim_spec str :
  list_ascii_of_string (trim str) = strip (list_ascii_of_string str).
Proof.
  unfold trim. by rewrite list_ascii_of_string_of_list_ascii, trim_chars_strip.
Qed.

(** A trimmed string does not begin or end with whitespace. *)
Theorem trim_ends str :
  (∀ c l, list_ascii_of_string (trim str) = c :: l → is_ws c = false) ∧
  (∀ c, last (list_ascii_of_string (trim str)) = Some c → is_ws c = false).
Proof.
  unfold trim. rewrite list_ascii_of_string_of_list_ascii, trim_chars_strip.
  split; [apply strip_head | apply strip_last].
Qed.

(** [trim] is idempotent. *)
Theorem trim_idemp str : trim (trim str) = trim str.
Proof.
  unfold trim. rewrite list_ascii_of_string_of_list_ascii, !trim_chars_strip.
  by rewrite strip_idemp.
Qed.

(** The result is empty exactly when every character of the argument
    is whitespace. *)
Theorem trim_empty str :
  trim str = "" ↔ Forall (λ c, is_ws c = true) (list_ascii_of_string str).
Proof.
  unfold trim. rewrite trim_chars_strip, <-strip_nil. split.
  - intros H. apply (f_equal list_ascii_of_string) in H.
    by rewrite list_ascii_of_string_of_list_ascii in H.
  - by intros ->.
Qed.

(** The function on an input line. *)
Example trim_line : trim "  Ana Lim 	" = "Ana Lim" ∧ trim " 	 " = "" ∧ trim "" = "".
Proof. by vm_compute. Qed.
