(* ===== verification/Deploy.v ===== *)
(** * Deployment

    The functions of [src/src/main.cpp] that move a volunteer from the
    queue to a relief site: the loaders and savers of the three data
    files and [deployVolunteer].

    The files are reached through the interface [Storage]: what a file
    holds is the list of the records its lines parse to, and a write
    replaces or extends that list.  [StorageLaws] are the laws of a store
    whose files can be written: a record that the format can hold is read
    back as it was written, and a write to one file leaves the others.
    [files] is the instance at the level of records.  The loaders, the
    savers and [deployVolunteer] are written against the interface, with
    every call of the source in its place: the [size()] walks that only
    print, the test [sites.empty()], the loop that computes
    [hasAvailableCapacity] with its subtraction on [int], the matcher, and
    the [try] block with [dequeue], [operator[]], the increment and the two
    saves.  The console text is reduced to the [outcome]. *)

From S2P Require Import Prelude Chain CustomLists Queue Ratio SiteAlgorithm.

(** ** The files *)

Class Storage := {
  store : Type;
  (** the records of [relief_sites.txt], [None] when it cannot be opened *)
  read_sites : store → option (list ReliefSite);
  (** [std::ofstream file(filename)] and one line per site *)
  write_sites : list ReliefSite → store → store;
  (** the records of [deployed_volunteers.txt] *)
  read_deployed : store → option (list Volunteer);
  (** [std::ofstream file(filename, std::ios::app)] and one line *)
  append_deployed : Volunteer → store → store;
  (** the records of [volunteers.txt] *)
  read_volunteers : store → option (list Volunteer);
  append_volunteer : Volunteer → store → store;
  (** the records that a line of the file holds *)
  site_storable : ReliefSite → Prop;
  volunteer_storable : Volunteer → Prop
}.

(** [currentCount] set to [c] *)
Definition with_count (s : ReliefSite) (c : Z) : ReliefSite :=
  mkSite (site_name s) c (maxCapacity s).

Class StorageLaws (S : Storage) := {
  read_sites_storable st xs : read_sites st = Some xs → Forall site_storable xs;
  site_storable_ok s : site_storable s → site_ok s;
  site_storable_count s c : site_storable s → is_int c → site_storable (with_count s c);
  write_sites_read xs st :
    Forall site_storable xs → read_sites (write_sites xs st) = Some xs;
  write_sites_deployed xs st : read_deployed (write_sites xs st) = read_deployed st;
  write_sites_volunteers xs st : read_volunteers (write_sites xs st) = read_volunteers st;
  append_deployed_read v st :
    volunteer_storable v →
    read_deployed (append_deployed v st) = Some (default [] (read_deployed st) ++ [v]);
  append_deployed_sites v st : read_sites (append_deployed v st) = read_sites st;
  append_deployed_volunteers v st :
    read_volunteers (append_deployed v st) = read_volunteers st;
  append_volunteer_read v st :
    volunteer_storable v →
    read_volunteers (append_volunteer v st) = Some (default [] (read_volunteers st) ++ [v]);
  append_volunteer_sites v st : read_sites (append_volunteer v st) = read_sites st;
  append_volunteer_deployed v st :
    read_deployed (append_volunteer v st) = read_deployed st
}.

(** ** The files as lists of records *)

Record files := mkFiles {
  sites_file : option (list ReliefSite);
  deployed_file : option (list Volunteer);
  volunteers_file : option (list Volunteer)
}.

#[export] Instance files_eq_dec : EqDecision files.
Proof. solve_decision. Defined.

(** A line of [relief_sites.txt] whose numbers [std::stoi] rejects is
    skipped by the loader: a record is read when its fields are [int]s. *)
#[export] Instance files_storage : Storage := {|
  store := files;
  read_sites st := filter site_ok <$> sites_file st;
  write_sites xs st := mkFiles (Some xs) (deployed_file st) (volunteers_file st);
  read_deployed := deployed_file;
  append_deployed v st :=
    mkFiles (sites_file st) (Some (default [] (deployed_file st) ++ [v])) (volunteers_file st);
  read_volunteers := volunteers_file;
  append_volunteer v st :=
    mkFiles (sites_file st) (deployed_file st) (Some (default [] (volunteers_file st) ++ [v]));
  site_storable := site_ok;
  volunteer_storable _ := True
|}.

#[export] Instance files_laws : StorageLaws files_storage.
Proof.
  split; simpl; try done.
  - intros st xs Hxs. destruct (sites_file st) as [ys|]; simplify_eq/=.
    apply Forall_forall. by intros s [? _]%list_elem_of_filter.
  - by intros s c [_ ?] ?.
  - intros xs st Hxs. f_equal. clear st.
    induction Hxs as [|x xs Hx _ IH]; [done|].
    by rewrite filter_cons_True, IH.
Qed.

(** ** The reports *)

(** What [deployVolunteer] prints: the error banner it stops at, or the
    volunteer deployed and the site as it is after the deployment. *)
Inductive outcome :=
| NoVolunteers
| NoSitesData
| AllFull
| NoSiteAvailable
| Deployed (volunteer : Volunteer) (site : ReliefSite)
| DeploymentFailed.

#[export] Instance outcome_eq_dec : EqDecision outcome.
Proof. solve_decision. Defined.

(** ** Loaders, savers and the deployment *)

Section deploy.
Context {O : FillOps} {F : Storage}.
Implicit Types (q : VolunteerQueue.t) (st : store) (v : Volunteer).

(** What the files hold; a file that cannot be opened holds nothing. *)
Definition sites_of st : list ReliefSite := default [] (read_sites st).
Definition ledger st : list Volunteer := default [] (read_deployed st).
Definition registered st : list Volunteer := default [] (read_volunteers st).

(** [CustomLinkedList<ReliefSite> loadReliefSites(const std::string&)] *)
Definition loadReliefSites st : res (CustomLinkedList.t ReliefSite) :=
  match read_sites st with
  | None => return_ CustomLinkedList.new
  | Some records => CustomLinkedList.push_all records CustomLinkedList.new
  end.

(** [void saveReliefSites(const CustomLinkedList<ReliefSite>&, const std::string&)] *)
Definition saveReliefSites (sites : CustomLinkedList.t ReliefSite) st : res store :=
  c ← CustomLinkedList.iterate (R := Empty_set) sites
         (λ _ s lines, return_ (Next (lines ++ [s]))) [];
  match c with
  | Next lines => return_ (write_sites lines st)
  | Return r => match r : Empty_set with end
  end.

(** [void saveDeployedVolunteer(const Volunteer&, const std::string&)] *)
Definition saveDeployedVolunteer v st : store := append_deployed v st.

(** [void saveVolunteerToFile(const Volunteer&, const std::string&)] *)
Definition saveVolunteerToFile v st : store := append_volunteer v st.

(** [bool isVolunteerDeployed(const Volunteer&, const std::string&)] *)
Definition isVolunteerDeployed v st : res bool :=
  match read_deployed st with
  | None => return_ false
  | Some records =>
      deployedList ← CustomLinkedList.push_all records CustomLinkedList.new;
      c ← CustomLinkedList.iterate deployedList
             (λ _ d (_ : unit),
                if decide (name d = name v ∧ contact d = contact v ∧ skill d = skill v)
                then return_ (Return true) else return_ (Next ())) ();
      match c with
      | Return b => return_ b
      | Next _ => return_ false
      end
  end.

(** The counters [loadedCount] and [skippedCount] of the loader. *)
Record load_report := mkReport { loadedCount : Z; skippedCount : Z }.

(** The loop of [loadVolunteersFromFile] on the records of the file. *)
Fixpoint load_loop (records : list Volunteer) st q (r : load_report)
    : res (VolunteerQueue.t * load_report) :=
  match records with
  | [] => return_ (q, r)
  | volunteer :: records' =>
      if decide (name volunteer ≠ "" ∧ contact volunteer ≠ "" ∧ skill volunteer ≠ "")
      then
        deployed ← isVolunteerDeployed volunteer st;
        if negb deployed then
          q' ← VolunteerQueue.enqueue volunteer q;
          n ← int_incr (loadedCount r);
          load_loop records' st q' (mkReport n (skippedCount r))
        else
          n ← int_incr (skippedCount r);
          load_loop records' st q (mkReport (loadedCount r) n)
      else load_loop records' st q r
  end.

(** [void loadVolunteersFromFile(VolunteerQueue&, const std::string&)] *)
Definition loadVolunteersFromFile q st : res (VolunteerQueue.t * load_report) :=
  match read_volunteers st with
  | None => return_ (q, mkReport 0 0)
  | Some records => load_loop records st q (mkReport 0 0)
  end.

(** The loop of [deployVolunteer] that sets [hasAvailableCapacity]:
    [int available = it->maxCapacity - it->currentCount;
     if (available > 0) hasAvailableCapacity = true;] *)
Definition hasAvailableCapacity (sites : CustomLinkedList.t ReliefSite) : res bool :=
  c ← CustomLinkedList.iterate (R := Empty_set) sites
         (λ _ s has,
            available ← int_sub (maxCapacity s) (currentCount s);
            return_ (Next (if decide (0 < available)%Z then true else has))) false;
  match c with
  | Next has => return_ has
  | Return r => match r : Empty_set with end
  end.

(** The [try] block of [deployVolunteer]. *)
Definition deploy_to (bestSiteIndex : Z) (sites : CustomLinkedList.t ReliefSite) q st
    : res (outcome * VolunteerQueue.t * store) :=
  '(volunteer, q') ← VolunteerQueue.dequeue q;
  (* sites[bestSiteIndex].currentCount++ *)
  site ← CustomLinkedList.subscript sites bestSiteIndex;
  s ← CustomLinkedList.read sites (Some site);
  c ← int_incr (currentCount s);
  sites' ← CustomLinkedList.write sites (Some site) (with_count s c);
  let st1 := saveDeployedVolunteer volunteer st in
  (* the lines printed of sites[bestSiteIndex]: the count before, and
     [int availableAfter = ...maxCapacity - ...currentCount] *)
  site' ← CustomLinkedList.subscript sites' bestSiteIndex;
  s' ← CustomLinkedList.read sites' (Some site');
  _ ← int_sub (currentCount s') 1;
  _ ← int_sub (maxCapacity s') (currentCount s');
  st2 ← saveReliefSites sites' st1;
  _ ← VolunteerQueue.size q';
  return_ (Deployed volunteer s', q', st2).

(** [void deployVolunteer(VolunteerQueue& queue)]: the report, the queue
    and the files afterwards. *)
Definition deployVolunteer q st : res (outcome * VolunteerQueue.t * store) :=
  if VolunteerQueue.isEmpty q then return_ (NoVolunteers, q, st)
  else
    _ ← VolunteerQueue.size q;
    sites ← loadReliefSites st;
    if CustomLinkedList.empty sites then return_ (NoSitesData, q, st)
    else
      has ← hasAvailableCapacity sites;
      if negb has then
        _ ← VolunteerQueue.size q;
        _ ← VolunteerQueue.size q;
        return_ (AllFull, q, st)
      else
        '(bestSiteIndex, _) ← findMostNeededSite sites;
        if decide (bestSiteIndex = (-1)%Z) then return_ (NoSiteAvailable, q, st)
        else
          catch_runtime (deploy_to bestSiteIndex sites q st)
            (return_ (DeploymentFailed, q, st)).

(** ** What the deployment is to do *)

(** The site has room. *)
Definition has_room (s : ReliefSite) : Prop := (currentCount s < maxCapacity s)%Z.

(** The data model of a site: two [int]s that are not negative. *)
Definition site_valid (s : ReliefSite) : Prop :=
  site_ok s ∧ (0 ≤ currentCount s)%Z ∧ (0 ≤ maxCapacity s)%Z.

(** The capacity bound of a site. *)
Definition within_capacity (s : ReliefSite) : Prop :=
  (currentCount s ≤ maxCapacity s)%Z.

(** One more volunteer at the site. *)
Definition arrive (s : ReliefSite) : ReliefSite := with_count s (currentCount s + 1).

(** A record of [volunteers.txt] that the loader enqueues. *)
Definition loadable st v : Prop :=
  (name v ≠ "" ∧ contact v ≠ "" ∧ skill v ≠ "") ∧ v ∉ ledger st.

#[export] Instance has_room_dec s : Decision (has_room s).
Proof. unfold has_room. apply _. Defined.
#[export] Instance site_valid_dec s : Decision (site_valid s).
Proof. unfold site_valid. apply _. Defined.
#[export] Instance within_capacity_dec s : Decision (within_capacity s).
Proof. unfold within_capacity. apply _. Defined.
#[export] Instance loadable_dec st v : Decision (loadable st v).
Proof. unfold loadable. apply _. Defined.

(** The deployment, branch by branch: the result on a queue that holds
    [vs]. *)
Definition deploy_spec q (vs : list Volunteer) st
    (r : outcome * VolunteerQueue.t * store) : Prop :=
  match vs with
  | [] => r = (NoVolunteers, q, st)
  | v :: vs' =>
      if decide (sites_of st = []) then r = (NoSitesData, q, st)
      else if decide (Exists has_room (sites_of st)) then
        ∃ i s q', best_at (sites_of st) i s ∧ VolunteerQueue.models q' vs' ∧
          r = (Deployed v (arrive s), q',
               write_sites (<[i := arrive s]> (sites_of st)) (append_deployed v st))
      else r = (AllFull, q, st)
  end.

End deploy.

(** ** The loaders and savers on the abstraction *)

Section deploy_lemmas.
Context {O : FillOps} {L : FillOrder O} {F : Storage} {FL : StorageLaws F}.
Implicit Types (q : VolunteerQueue.t) (st : store) (v : Volunteer).
Implicit Types (sites : CustomLinkedList.t ReliefSite) (xs : list ReliefSite).

Lemma loadReliefSites_models st :
  (Z.of_nat (length (sites_of st)) ≤ INT_MAX)%Z →
  ∃ sites, loadReliefSites st = Ok sites ∧ CustomLinkedList.models sites (sites_of st).
Proof.
  unfold loadReliefSites, sites_of. destruct (read_sites st) as [xs|]; simpl; intros Hlen.
  - by apply (CustomLinkedList.push_all_models xs _ []); [apply CustomLinkedList.models_new|].
  - eexists. split; [done | apply CustomLinkedList.models_new].
Qed.

Lemma saveReliefSites_models sites xs st :
  CustomLinkedList.models sites xs → saveReliefSites sites st = Ok (write_sites xs st).
Proof.
  intros Hm. unfold saveReliefSites.
  by rewrite (CustomLinkedList.iterate_models _ _ _ _ Hm), list_loop_collect.
Qed.

Lemma site_valid_sub s : site_valid s → is_int (maxCapacity s - currentCount s).
Proof. intros ([??] & ? & ?). int_solve. Qed.

Lemma hasAvailableCapacity_loop xs has :
  Forall site_valid xs →
  list_loop (R := Empty_set)
    (λ s has, available ← int_sub (maxCapacity s) (currentCount s);
              Ok (Next (if decide (0 < available)%Z then true else has))) xs has
  = Ok (Next (has || bool_decide (Exists has_room xs))).
Proof.
  intros Hxs. revert has. induction Hxs as [|s xs Hs _ IH]; intros has.
  - simpl. by rewrite orb_false_r.
  - cbn [list_loop]. rewrite int_sub_Ok by by apply site_valid_sub. simpl. rewrite IH. do 2 f_equal.
    unfold has_room at 2. destruct (decide (0 < _)%Z).
    + rewrite (bool_decide_eq_true_2 (Exists has_room (s :: xs)));
        [by rewrite orb_true_r|]. left. unfold has_room. lia.
    + f_equal. apply bool_decide_ext.
      rewrite Exists_cons. unfold has_room at 2. intuition lia.
Qed.

Lemma hasAvailableCapacity_models sites xs :
  CustomLinkedList.models sites xs → Forall site_valid xs →
  hasAvailableCapacity sites = Ok (bool_decide (Exists has_room xs)).
Proof.
  intros Hm Hxs. unfold hasAvailableCapacity.
  by rewrite (CustomLinkedList.iterate_models _ _ _ _ Hm), hasAvailableCapacity_loop.
Qed.

Lemma isVolunteerDeployed_models v st :
  (Z.of_nat (length (ledger st)) ≤ INT_MAX)%Z →
  isVolunteerDeployed v st = Ok (bool_decide (v ∈ ledger st)).
Proof.
  unfold isVolunteerDeployed, ledger. destruct (read_deployed st) as [ds|]; simpl.
  - intros Hlen.
    destruct (CustomLinkedList.push_all_models ds CustomLinkedList.new [])
      as (l & -> & Hm); [apply CustomLinkedList.models_new | done |].
    simpl in *. rewrite (CustomLinkedList.iterate_models _ _ _ _ Hm).
    rewrite (list_loop_exists
               (λ d, name d = name v ∧ contact d = contact v ∧ skill d = skill v)).
    simpl. assert (Exists (λ d, name d = name v ∧ contact d = contact v ∧
                                skill d = skill v) ds ↔ v ∈ ds) as Hiff.
    { rewrite Exists_exists. split.
      - intros ([???] & ? & ? & ? & ?). destruct v. by simplify_eq/=.
      - intros ?. by exists v. }
    destruct (decide (Exists _ ds)) as [?%Hiff | Hn]; simpl.
    + by rewrite bool_decide_eq_true_2.
    + rewrite bool_decide_eq_false_2; [done|]. by rewrite <-Hiff.
  - done.
Qed.

Lemma load_loop_models records st q vs r :
  VolunteerQueue.models q vs →
  (Z.of_nat (length (ledger st)) ≤ INT_MAX)%Z →
  (loadedCount r + Z.of_nat (length records) ≤ INT_MAX)%Z →
  (skippedCount r + Z.of_nat (length records) ≤ INT_MAX)%Z →
  ∃ q' r', load_loop records st q r = Ok (q', r') ∧
           VolunteerQueue.models q' (vs ++ filter (loadable st) records) ∧
           loadedCount r' = (loadedCount r
                             + Z.of_nat (length (filter (loadable st) records)))%Z.
Proof.
  intros Hq Hledger. revert q vs r Hq.
  induction records as [|v records IH]; intros q vs r Hq Hl Hs; simpl in *.
  { exists q, r. rewrite app_nil_r. split_and!; [done | done | lia]. }
  destruct (decide (name v ≠ "" ∧ contact v ≠ "" ∧ skill v ≠ "")) as [Hne|Hempty].
  - rewrite isVolunteerDeployed_models by done. simpl.
    destruct (decide (v ∈ ledger st)) as [Hin|Hout].
    + rewrite bool_decide_eq_true_2 by done. simpl.
      rewrite int_incr_lt by lia. simpl.
      rewrite filter_cons_False by by intros [_ ?].
      apply (IH q vs (mkReport (loadedCount r) (skippedCount r + 1)));
        simpl; [done | lia..].
    + rewrite bool_decide_eq_false_2 by done. simpl.
      destruct (VolunteerQueue.enqueue_models v q vs Hq) as (q1 & -> & Hq1). simpl.
      rewrite int_incr_lt by lia. simpl.
      rewrite filter_cons_True by done.
      destruct (IH q1 (vs ++ [v]) (mkReport (loadedCount r + 1) (skippedCount r)) Hq1)
        as (q' & r' & -> & Hq' & Hr'); simpl; [lia..|].
      exists q', r'. rewrite <-app_assoc in Hq'. simpl in *.
      split_and!; [done | done | lia].
  - rewrite filter_cons_False by by intros [? _].
    apply IH; [done | lia..].
Qed.

Lemma loadVolunteersFromFile_models_new st :
  (Z.of_nat (length (ledger st)) ≤ INT_MAX)%Z →
  (Z.of_nat (length (registered st)) ≤ INT_MAX)%Z →
  ∃ q' r, loadVolunteersFromFile VolunteerQueue.new st = Ok (q', r) ∧
          VolunteerQueue.models q' (filter (loadable st) (registered st)).
Proof.
  intros Hl Hr. unfold loadVolunteersFromFile, registered in *.
  destruct (read_volunteers st) as [records|]; simpl in *.
  - destruct (load_loop_models records st VolunteerQueue.new [] (mkReport 0 0))
      as (q' & r' & ? & ? & ?); simpl; [apply VolunteerQueue.queue_models_new | lia..|].
    by exists q', r'.
  - exists VolunteerQueue.new, (mkReport 0 0).
    split; [done | apply VolunteerQueue.queue_models_new].
Qed.

(** With room somewhere, the matcher returns the index of a site. *)
Lemma matcher_finds sites xs :
  CustomLinkedList.models sites xs → Forall site_valid xs → Exists has_room xs →
  ∃ i s rs, findMostNeededSite sites = Ok (Z.of_nat i, rs) ∧ best_at xs i s.
Proof.
  intros Hm Hv (s & Hs & Hroom)%Exists_exists.
  assert (Forall site_ok xs) as Hok by (eapply Forall_impl; [done | by intros ? [? _]]).
  destruct (findMostNeededSite_scan sites xs Hm Hok) as (sc & Hsc & Hinv%scan_inv_result & _).
  destruct Hinv as [[_ Hnone] | [Hpos [s' Hbest]]].
  - destruct (Hnone s Hs). rewrite Forall_forall in Hv.
    destruct (Hv s Hs) as (? & ? & ?). apply room_candidate; [done|].
    unfold has_room in Hroom. lia.
  - exists (Z.to_nat (bestSiteIndex sc)), s', (rows sc).
    by rewrite Z2Nat.id.
Qed.

(** The [try] block on a queue that is not empty and a valid index. *)
Lemma deploy_to_models i sites xs s q v vs st :
  CustomLinkedList.models sites xs → VolunteerQueue.models q (v :: vs) →
  xs !! i = Some s → site_valid s → has_room s →
  (Z.of_nat (length vs) ≤ INT_MAX)%Z →
  ∃ q', deploy_to (Z.of_nat i) sites q st
        = Ok (Deployed v (arrive s), q',
              write_sites (<[i := arrive s]> xs) (append_deployed v st)) ∧
        VolunteerQueue.models q' vs.
Proof.
  intros Hs Hq Hi ([??] & ? & ?) Hroom Hlen. unfold deploy_to, has_room in *.
  destruct (VolunteerQueue.dequeue_models q v vs Hq) as (q' & -> & Hq'). simpl.
  destruct (CustomLinkedList.subscript_models sites xs (Z.of_nat i) s (arrive s))
    as (a & sites' & -> & Hr & Hw & Hs'); [done | lia | by rewrite Nat2Z.id |].
  simpl. rewrite Hr. simpl. rewrite int_incr_lt by int_solve. simpl.
  change (with_count s (currentCount s + 1)) with (arrive s). rewrite Hw. simpl.
  rewrite Nat2Z.id in Hs'.
  destruct (CustomLinkedList.subscript_models sites' (<[i := arrive s]> xs)
              (Z.of_nat i) (arrive s) (arrive s))
    as (a' & _ & -> & Hr' & _); [done | lia | |].
  { rewrite Nat2Z.id. apply list_lookup_insert_eq. by eapply lookup_lt_Some. }
  simpl. rewrite Hr'. simpl. rewrite !int_sub_Ok by (simpl; int_solve). simpl.
  rewrite (saveReliefSites_models _ _ _ Hs'). simpl.
  rewrite (VolunteerQueue.size_models q' vs) by done. simpl. by exists q'.
Qed.

Lemma best_at_room xs i s :
  Forall site_valid xs → best_at xs i s →
  xs !! i = Some s ∧ has_room s ∧ site_valid s ∧ is_int (currentCount s + 1).
Proof.
  intros Hv (Hi & [Hroom _] & _). rewrite Forall_forall in Hv.
  pose proof (Hv s (list_elem_of_lookup_2 _ _ _ Hi)) as Hs.
  split_and!; [done..|]. destruct Hs as ([??] & ? & ?). int_solve.
Qed.

Lemma deployVolunteer_models q vs st :
  VolunteerQueue.models q vs →
  (Z.of_nat (length vs) ≤ INT_MAX)%Z →
  (Z.of_nat (length (sites_of st)) ≤ INT_MAX)%Z →
  Forall site_valid (sites_of st) →
  ∃ r, deployVolunteer q st = Ok r ∧ deploy_spec q vs st r.
Proof.
  intros Hq Hlen Hslen Hv. unfold deployVolunteer, deploy_spec.
  rewrite (VolunteerQueue.isEmpty_models q vs Hq).
  destruct vs as [|v vs]; [by eauto|]. rewrite bool_decide_eq_false_2 by done.
  rewrite (VolunteerQueue.size_models q (v :: vs)) by done. simpl.
  destruct (loadReliefSites_models st Hslen) as (sites & -> & Hs). simpl.
  rewrite (CustomLinkedList.empty_models _ _ Hs).
  destruct (decide (sites_of st = [])).
  { rewrite bool_decide_eq_true_2 by done. eauto. }
  rewrite bool_decide_eq_false_2 by done.
  rewrite (hasAvailableCapacity_models _ _ Hs Hv). simpl.
  destruct (decide (Exists has_room (sites_of st))) as [Hroom|].
  - rewrite bool_decide_eq_true_2 by done. simpl.
    destruct (matcher_finds sites _ Hs Hv Hroom) as (i & s & rs & -> & Hbest). simpl.
    rewrite decide_False by lia.
    destruct (best_at_room _ _ _ Hv Hbest) as (Hi & ? & ? & ?).
    destruct (deploy_to_models i sites _ s q v vs st Hs Hq Hi) as (q' & -> & Hq');
      [done | done | simpl in *; lia |].
    simpl. eexists. split; [done|]. by exists i, s, q'.
  - rewrite bool_decide_eq_false_2 by done. simpl. eauto.
Qed.

(** A deployment that returns has counted the queue in an [int]. *)
Lemma deployVolunteer_Ok_length q vs st r :
  VolunteerQueue.models q vs → deployVolunteer q st = Ok r →
  (Z.of_nat (length vs) ≤ INT_MAX)%Z.
Proof.
  intros Hq. unfold deployVolunteer. rewrite (VolunteerQueue.isEmpty_models q vs Hq).
  destruct vs as [|v vs]; [simpl; int_solve|].
  rewrite bool_decide_eq_false_2 by done. intros Hrun.
  apply res_bind_Ok in Hrun as (n & Hn & _).
  by destruct (VolunteerQueue.size_models_Ok q _ n Hq Hn) as [<- ?].
Qed.

(** The sites file after a deployment. *)
Lemma deployed_sites st xs v i s :
  read_sites st = Some xs → xs !! i = Some s → is_int (currentCount s + 1) →
  sites_of (write_sites (<[i := arrive s]> xs) (append_deployed v st))
  = <[i := arrive s]> xs.
Proof.
  intros Hxs Hi Hc. unfold sites_of. rewrite write_sites_read; [done|].
  pose proof (read_sites_storable st xs Hxs) as Hst.
  apply Forall_insert; [done|]. apply site_storable_count; [|done].
  by eapply Forall_lookup_1.
Qed.

(** The files after a deployment. *)
Lemma deployed_store st xs v i s :
  read_sites st = Some xs → xs !! i = Some s → is_int (currentCount s + 1) →
  volunteer_storable v →
  let st' := write_sites (<[i := arrive s]> xs) (append_deployed v st) in
  sites_of st' = <[i := arrive s]> xs ∧ ledger st' = ledger st ++ [v] ∧
  registered st' = registered st.
Proof.
  intros Hxs Hi Hc Hv. simpl. split; [by apply deployed_sites|].
  unfold ledger, registered.
  by rewrite write_sites_deployed, write_sites_volunteers,
    append_deployed_read, append_deployed_volunteers.
Qed.

Lemma sites_of_Some st : sites_of st ≠ [] → read_sites st = Some (sites_of st).
Proof. unfold sites_of. by destruct (read_sites st). Qed.

(** The [try] block returns with the report of a deployment or not at
    all. *)
Lemma deploy_to_Deployed i sites q st o q' st' :
  deploy_to i sites q st = Ok (o, q', st') → ∃ v s, o = Deployed v s.
Proof.
  unfold deploy_to. intros H. res_inv_pairs. eauto.
Qed.

(** The volunteer of a deployment is the one that [dequeue] returns,
    with the queue that it leaves. *)
Lemma deployVolunteer_dequeue q st v s q' st' :
  deployVolunteer q st = Ok (Deployed v s, q', st') →
  VolunteerQueue.dequeue q = Ok (v, q').
Proof.
  unfold deployVolunteer, catch_runtime. intros H.
  repeat (case_match; res_inv_pairs); simplify_eq.
  match goal with H : deploy_to _ _ _ _ = _ |- _ => unfold deploy_to in H end.
  by res_inv_pairs.
Qed.

End deploy_lemmas.

(** ** Theorems *)

Section deploy_theorems.
Context {O : FillOps} {L : FillOrder O} {F : Storage} {FL : StorageLaws F}.
Implicit Types (q : VolunteerQueue.t) (st : store) (v : Volunteer).

(** C1 A deployment with a volunteer waiting and room at some site
    succeeds: the volunteer at the front of the queue is deployed to the
    first site of minimal ratio; afterwards the queue holds the others,
    that site's count is one higher in the sites file, the others are as
    before, the ledger has the volunteer at its end and the registration
    file is untouched. *)
Theorem deployVolunteer_deploys q v vs st :
  VolunteerQueue.models q (v :: vs) →
  (Z.of_nat (length (v :: vs)) ≤ INT_MAX)%Z →
  (Z.of_nat (length (sites_of st)) ≤ INT_MAX)%Z →
  Forall site_valid (sites_of st) → Exists has_room (sites_of st) →
  volunteer_storable v →
  ∃ i s q' st',
    deployVolunteer q st = Ok (Deployed v (arrive s), q', st') ∧
    best_at (sites_of st) i s ∧ VolunteerQueue.models q' vs ∧
    sites_of st' = <[i := arrive s]> (sites_of st) ∧
    ledger st' = ledger st ++ [v] ∧ registered st' = registered st.
Proof.
  intros Hq Hlen Hslen Hv Hroom Hst.
  destruct (deployVolunteer_models q _ st Hq Hlen Hslen Hv) as (r & Hr & Hspec).
  unfold deploy_spec in Hspec.
  assert (sites_of st ≠ []) as Hne by (by intros Heq; rewrite Heq in Hroom; inversion Hroom).
  rewrite decide_False, decide_True in Hspec by done.
  destruct Hspec as (i & s & q' & Hbest & Hq' & ->).
  destruct (best_at_room _ _ _ Hv Hbest) as (Hi & _ & _ & Hint).
  exists i, s, q'. eexists. split_and!; [done..| | |];
    by eapply deployed_store; [apply sites_of_Some|..].
Qed.

(** C6 Every check of [deployVolunteer] comes before any change: when
    the report is not that of a deployment, the queue and the files are
    as they were. *)
Theorem deployVolunteer_frame q st o q' st' :
  deployVolunteer q st = Ok (o, q', st') →
  (∀ v s, o ≠ Deployed v s) → q' = q ∧ st' = st.
Proof.
  unfold deployVolunteer. intros H Ho.
  repeat (case_match; res_inv); try done.
  unfold catch_runtime in *. repeat case_match; simplify_eq; try done.
  by match goal with H : deploy_to _ _ _ _ = Ok _ |- _ =>
    apply deploy_to_Deployed in H as (? & ? & ?%Ho) end.
Qed.

(** C7 The capacity bound is an invariant of the deployment: when every
    site of the file is within its capacity, so is every site of the file
    afterwards. *)
Theorem deployVolunteer_within_capacity q vs st o q' st' :
  VolunteerQueue.models q vs →
  (Z.of_nat (length vs) ≤ INT_MAX)%Z →
  (Z.of_nat (length (sites_of st)) ≤ INT_MAX)%Z →
  Forall site_valid (sites_of st) → Forall volunteer_storable vs →
  Forall within_capacity (sites_of st) →
  deployVolunteer q st = Ok (o, q', st') →
  Forall within_capacity (sites_of st').
Proof.
  intros Hq Hlen Hslen Hv Hst Hcap Hrun.
  destruct (deployVolunteer_models q _ st Hq Hlen Hslen Hv) as (r & Hr & Hspec).
  rewrite Hrun in Hr. injection Hr as <-. unfold deploy_spec in Hspec.
  destruct vs as [|v vs]; [by simplify_eq|].
  repeat case_decide; simplify_eq; try done.
  destruct Hspec as (i & s & q1 & Hbest & _ & ?). simplify_eq.
  destruct (best_at_room _ _ _ Hv Hbest) as (Hi & Hroom & _ & Hint).
  apply Forall_cons in Hst as [Hst _].
  destruct (deployed_store st _ v i s (sites_of_Some st ltac:(done)) Hi Hint Hst)
    as (-> & _).
  apply Forall_insert; [done|]. unfold within_capacity, has_room in *. simpl. lia.
Qed.

(** C5 No volunteer is lost or deployed twice by a deployment: the
    ledger followed by the queue is the same sequence before and after. *)
Theorem deployVolunteer_conserves q vs st o q' st' :
  VolunteerQueue.models q vs →
  (Z.of_nat (length vs) ≤ INT_MAX)%Z →
  (Z.of_nat (length (sites_of st)) ≤ INT_MAX)%Z →
  Forall site_valid (sites_of st) → Forall volunteer_storable vs →
  deployVolunteer q st = Ok (o, q', st') →
  ∃ vs', VolunteerQueue.models q' vs' ∧ ledger st' ++ vs' = ledger st ++ vs.
Proof.
  intros Hq Hlen Hslen Hv Hst Hrun.
  destruct (deployVolunteer_models q _ st Hq Hlen Hslen Hv) as (r & Hr & Hspec).
  rewrite Hrun in Hr. injection Hr as <-. unfold deploy_spec in Hspec.
  destruct vs as [|v vs]; [simplify_eq; by exists []|].
  repeat case_decide; simplify_eq; try by exists (v :: vs).
  destruct Hspec as (i & s & q1 & Hbest & Hq1 & ?). simplify_eq.
  destruct (best_at_room _ _ _ Hv Hbest) as (Hi & Hroom & _ & Hint).
  apply Forall_cons in Hst as [Hst _].
  destruct (deployed_store st _ v i s (sites_of_Some st ltac:(done)) Hi Hint Hst)
    as (_ & -> & _).
  exists vs. split; [done|]. by rewrite <-app_assoc.
Qed.

(** C11 On valid data [deployVolunteer] returns: no exception leaves it,
    no [int] overflows, no walk fails to end; and it does not report
    [NoSiteAvailable] or [DeploymentFailed]. *)
Theorem deployVolunteer_total q vs st :
  VolunteerQueue.models q vs →
  (Z.of_nat (length vs) ≤ INT_MAX)%Z →
  (Z.of_nat (length (sites_of st)) ≤ INT_MAX)%Z →
  Forall site_valid (sites_of st) →
  ∃ o q' st', deployVolunteer q st = Ok (o, q', st') ∧
              o ≠ NoSiteAvailable ∧ o ≠ DeploymentFailed.
Proof.
  intros Hq Hlen Hslen Hv.
  destruct (deployVolunteer_models q _ st Hq Hlen Hslen Hv) as ([[o q'] st'] & Hr & Hspec).
  exists o, q', st'. split; [done|]. unfold deploy_spec in Hspec.
  destruct vs; repeat case_decide; try destruct Hspec as (? & ? & ? & _ & _ & ?);
    by simplify_eq.
Qed.

(** With no volunteer waiting nothing is deployed, whatever the files
    hold. *)
Theorem deployVolunteer_no_volunteers q st :
  VolunteerQueue.models q [] → deployVolunteer q st = Ok (NoVolunteers, q, st).
Proof.
  intros Hq. unfold deployVolunteer. by rewrite (VolunteerQueue.isEmpty_models q [] Hq).
Qed.

(** When every site is at its capacity nothing is deployed and the
    volunteers stay in the queue. *)
Theorem deployVolunteer_all_full q v vs st :
  VolunteerQueue.models q (v :: vs) →
  (Z.of_nat (length (v :: vs)) ≤ INT_MAX)%Z →
  (Z.of_nat (length (sites_of st)) ≤ INT_MAX)%Z →
  Forall site_valid (sites_of st) → sites_of st ≠ [] →
  Forall (λ s, maxCapacity s ≤ currentCount s)%Z (sites_of st) →
  deployVolunteer q st = Ok (AllFull, q, st).
Proof.
  intros Hq Hlen Hslen Hv Hne Hfull.
  destruct (deployVolunteer_models q _ st Hq Hlen Hslen Hv) as (r & Hr & Hspec).
  unfold deploy_spec in Hspec. rewrite decide_False in Hspec by done.
  rewrite decide_False in Hspec; [by subst|].
  intros (s & Hs & Hroom)%Exists_exists. rewrite Forall_forall in Hfull.
  specialize (Hfull s Hs). unfold has_room in Hroom. lia.
Qed.

(** Without site data (the file is missing or holds no valid line)
    nothing is deployed. *)
Theorem deployVolunteer_no_sites q v vs st :
  VolunteerQueue.models q (v :: vs) →
  (Z.of_nat (length (v :: vs)) ≤ INT_MAX)%Z → sites_of st = [] →
  deployVolunteer q st = Ok (NoSitesData, q, st).
Proof.
  intros Hq Hlen Hnil.
  destruct (deployVolunteer_models q _ st Hq Hlen) as (r & Hr & Hspec);
    [by rewrite Hnil.. |].
  unfold deploy_spec in Hspec. rewrite decide_True in Hspec by done. by subst.
Qed.

(** [isVolunteerDeployed] says whether the ledger file holds a record
    with the three fields of the volunteer. *)
Theorem isVolunteerDeployed_spec v st :
  (Z.of_nat (length (ledger st)) ≤ INT_MAX)%Z →
  isVolunteerDeployed v st = Ok (bool_decide (v ∈ ledger st)).
Proof. apply isVolunteerDeployed_models. Qed.

(** The loader enqueues, in the order of the file, the records of
    the registration file that have three non-empty fields and are not
    in the ledger, and counts them. *)
Theorem loadVolunteersFromFile_spec q vs st :
  VolunteerQueue.models q vs →
  (Z.of_nat (length (ledger st)) ≤ INT_MAX)%Z →
  (Z.of_nat (length (registered st)) ≤ INT_MAX)%Z →
  ∃ q' r, loadVolunteersFromFile q st = Ok (q', r) ∧
          VolunteerQueue.models q' (vs ++ filter (loadable st) (registered st)) ∧
          loadedCount r = Z.of_nat (length (filter (loadable st) (registered st))).
Proof.
  intros Hq Hl Hr. unfold loadVolunteersFromFile, registered in *.
  destruct (read_volunteers st) as [records|]; simpl in *.
  - destruct (load_loop_models records st q vs (mkReport 0 0) Hq Hl)
      as (q' & r' & ? & ? & ?); simpl; [lia..|]. by exists q', r'.
  - exists q, (mkReport 0 0). by rewrite app_nil_r.
Qed.

(** C30 Deduplication at load time: no volunteer that the loader puts in
    an empty queue is in the ledger. *)
Theorem loadVolunteersFromFile_dedup st q' r vs' :
  (Z.of_nat (length (ledger st)) ≤ INT_MAX)%Z →
  (Z.of_nat (length (registered st)) ≤ INT_MAX)%Z →
  loadVolunteersFromFile VolunteerQueue.new st = Ok (q', r) →
  VolunteerQueue.models q' vs' →
  Forall (λ v, v ∉ ledger st) vs'.
Proof.
  intros Hl Hr Hload Hq'.
  destruct (loadVolunteersFromFile_models_new st Hl Hr) as (q1 & r1 & Hload1 & Hq1).
  rewrite Hload in Hload1. simplify_eq.
  rewrite (VolunteerQueue.queue_models_inj _ _ _ Hq' Hq1).
  apply Forall_forall. by intros v [[_ ?] _]%list_elem_of_filter.
Qed.

(** Saving a list of sites and loading the file again gives a list
    with the same sites in the same order. *)
Theorem save_load_sites sites xs st :
  CustomLinkedList.models sites xs → Forall site_storable xs →
  ∃ st' sites', saveReliefSites sites st = Ok st' ∧
                loadReliefSites st' = Ok sites' ∧
                CustomLinkedList.models sites' xs.
Proof.
  intros Hm Hst. exists (write_sites xs st).
  destruct (CustomLinkedList.models_length _ _ Hm) as [_ Hlen].
  destruct (loadReliefSites_models (write_sites xs st)) as (sites' & ? & Hm');
    unfold sites_of in *; rewrite write_sites_read in * by done; [done|].
  exists sites'. by rewrite (saveReliefSites_models _ _ _ Hm).
Qed.

End deploy_theorems.

(** ** The scenario of the specification, on [binary64] and [files] *)

Definition site_A : ReliefSite := mkSite "A" 9 10.
Definition site_B : ReliefSite := mkSite "B" 2 10.

(** Two sites, two volunteers registered, none deployed. *)
Definition files0 : files :=
  mkFiles (Some [site_A; site_B]) None
          (Some [VolunteerQueue.ana; VolunteerQueue.ben]).

(** Both sites full. *)
Definition files_full : files :=
  mkFiles (Some [mkSite "A" 10 10; mkSite "B" 5 5]) None None.

(** No sites file. *)
Definition files_none : files := mkFiles None None None.

(** The first deployment: Ana goes to B, whose ratio 0.2 is below 0.9. *)
Example deploy_scenario :
  ∃ q', deployVolunteer VolunteerQueue.sample files0
        = Ok (Deployed VolunteerQueue.ana (mkSite "B" 3 10), q',
              mkFiles (Some [site_A; mkSite "B" 3 10]) (Some [VolunteerQueue.ana])
                      (Some [VolunteerQueue.ana; VolunteerQueue.ben])) ∧
        VolunteerQueue.check q' [(2%positive, VolunteerQueue.ben)] = true.
Proof. eexists. split; by vm_compute. Qed.

(** After a restart the loader skips Ana, who is in the ledger. *)
Example reload_scenario :
  ∃ q' r, loadVolunteersFromFile VolunteerQueue.new
            (mkFiles (Some [site_A; mkSite "B" 3 10]) (Some [VolunteerQueue.ana])
                     (Some [VolunteerQueue.ana; VolunteerQueue.ben]))
          = Ok (q', r) ∧
          VolunteerQueue.check q' [(1%positive, VolunteerQueue.ben)] = true ∧
          r = mkReport 1 1.
Proof. do 2 eexists. split_and!; by vm_compute. Qed.


Lemma files0_valid : Forall site_valid (sites_of files0).
Proof. by apply (bool_decide_unpack _). Qed.

Lemma deployVolunteer_deploys_witness :
  ∃ i s q' st',
    deployVolunteer VolunteerQueue.sample files0
    = Ok (Deployed VolunteerQueue.ana (arrive s), q', st') ∧
    best_at (sites_of files0) i s ∧ VolunteerQueue.models q' [VolunteerQueue.ben] ∧
    sites_of st' = <[i := arrive s]> (sites_of files0) ∧
    ledger st' = ledger files0 ++ [VolunteerQueue.ana] ∧
    registered st' = registered files0.
Proof.
  apply (deployVolunteer_deploys (O := binary64) (F := files_storage));
    [apply VolunteerQueue.queue_sample_models | done | done | apply files0_valid
    | by apply (bool_decide_unpack _) | done].
Defined.

Lemma deployVolunteer_frame_witness :
  VolunteerQueue.sample = VolunteerQueue.sample ∧ files_full = files_full.
Proof.
  apply (deployVolunteer_frame (O := binary64) (F := files_storage) VolunteerQueue.sample files_full AllFull);
    [by vm_compute | done].
Defined.

Lemma deployVolunteer_within_capacity_witness :
  Forall within_capacity
    (sites_of (mkFiles (Some [site_A; mkSite "B" 3 10]) (Some [VolunteerQueue.ana])
                       (Some [VolunteerQueue.ana; VolunteerQueue.ben]))).
Proof.
  destruct deploy_scenario as (q' & Hrun & _).
  eapply (deployVolunteer_within_capacity (O := binary64) (F := files_storage) VolunteerQueue.sample
            [VolunteerQueue.ana; VolunteerQueue.ben] files0);
    [apply VolunteerQueue.queue_sample_models | done | done | apply files0_valid
    | by repeat constructor | by apply (bool_decide_unpack _) | exact Hrun].
Defined.

Lemma deployVolunteer_conserves_witness :
  ∃ vs', VolunteerQueue.models
           (VolunteerQueue.mk {[ 2%positive := mkNode VolunteerQueue.ben None ]}
                              (Some 2%positive) (Some 2%positive)) vs' ∧
         ledger (mkFiles (Some [site_A; mkSite "B" 3 10]) (Some [VolunteerQueue.ana])
                         (Some [VolunteerQueue.ana; VolunteerQueue.ben])) ++ vs'
         = ledger files0 ++ [VolunteerQueue.ana; VolunteerQueue.ben].
Proof.
  apply (deployVolunteer_conserves (O := binary64) (F := files_storage) VolunteerQueue.sample
           [VolunteerQueue.ana; VolunteerQueue.ben] files0
           (Deployed VolunteerQueue.ana (mkSite "B" 3 10)));
    [apply VolunteerQueue.queue_sample_models | done | done | apply files0_valid
    | by repeat constructor | by vm_compute].
Defined.

Lemma deployVolunteer_total_witness :
  ∃ o q' st', deployVolunteer VolunteerQueue.sample files0 = Ok (o, q', st') ∧
              o ≠ NoSiteAvailable ∧ o ≠ DeploymentFailed.
Proof.
  apply (deployVolunteer_total (O := binary64) (F := files_storage) VolunteerQueue.sample
           [VolunteerQueue.ana; VolunteerQueue.ben]);
    [apply VolunteerQueue.queue_sample_models | done | done | apply files0_valid].
Defined.

Lemma deployVolunteer_no_volunteers_witness :
  deployVolunteer VolunteerQueue.new files0 = Ok (NoVolunteers, VolunteerQueue.new, files0).
Proof. apply (deployVolunteer_no_volunteers (O := binary64) (F := files_storage)), VolunteerQueue.queue_models_new. Defined.

Lemma deployVolunteer_all_full_witness :
  deployVolunteer VolunteerQueue.sample files_full
  = Ok (AllFull, VolunteerQueue.sample, files_full).
Proof.
  apply (deployVolunteer_all_full (O := binary64) (F := files_storage) _ VolunteerQueue.ana [VolunteerQueue.ben]);
    [apply VolunteerQueue.queue_sample_models | done | done
    | by apply (bool_decide_unpack _) | done | by apply (bool_decide_unpack _)].
Defined.

Lemma deployVolunteer_no_sites_witness :
  deployVolunteer VolunteerQueue.sample files_none
  = Ok (NoSitesData, VolunteerQueue.sample, files_none).
Proof.
  apply (deployVolunteer_no_sites (O := binary64) (F := files_storage) _ VolunteerQueue.ana [VolunteerQueue.ben]);
    [apply VolunteerQueue.queue_sample_models | done | done].
Defined.

Lemma isVolunteerDeployed_spec_witness :
  isVolunteerDeployed VolunteerQueue.ana files0
  = Ok (bool_decide (VolunteerQueue.ana ∈ ledger files0)).
Proof. by apply (isVolunteerDeployed_spec (F := files_storage)). Defined.

Lemma loadVolunteersFromFile_spec_witness :
  ∃ q' r, loadVolunteersFromFile VolunteerQueue.new files0 = Ok (q', r) ∧
          VolunteerQueue.models q' ([] ++ filter (loadable files0) (registered files0)) ∧
          loadedCount r = Z.of_nat (length (filter (loadable files0) (registered files0))).
Proof.
  apply (loadVolunteersFromFile_spec (F := files_storage)); [apply VolunteerQueue.queue_models_new | done..].
Defined.

Lemma loadVolunteersFromFile_dedup_witness :
  Forall (λ v, v ∉ ledger files0) [VolunteerQueue.ana; VolunteerQueue.ben].
Proof.
  apply (loadVolunteersFromFile_dedup (F := files_storage) files0 VolunteerQueue.sample (mkReport 2 0));
    [done | done | by vm_compute | apply VolunteerQueue.queue_sample_models].
Defined.

Lemma save_load_sites_witness :
  ∃ st' sites', saveReliefSites tie_list files_none = Ok st' ∧
                loadReliefSites st' = Ok sites' ∧
                CustomLinkedList.models sites' tie_sites.
Proof. apply (save_load_sites (F := files_storage)); [apply tie_list_models | apply tie_sites_ok]. Defined.
