(* ===== verification/Registration.v ===== *)
(** * Registration

    [registerSingleVolunteer] of [src/src/main.cpp]: three lines are read
    from the console, trimmed, and refused when empty; the volunteer is
    put at the rear of the queue and appended to the registration file.
    [registerMultipleVolunteers]: a number of turns of the same dialogue
    in a [for] loop, each ended by a field that is [skip] or blank, with
    a confirmation above 50 and a summary of the counters.  The console
    input is the list of the lines still to be read; the number of
    volunteers is an argument, read in [Console].  The theorems say what a registration
    changes; the scenarios at the end follow a volunteer through
    registration, deployment and a second registration. *)

From S2P Require Import Prelude Chain CustomLists Queue Ratio SiteAlgorithm Text Deploy.

(** What [registerSingleVolunteer] prints: the error it stops at, or the
    volunteer registered. *)
Inductive registration :=
| NameEmpty
| ContactEmpty
| SkillEmpty
| Registered (volunteer : Volunteer).

#[export] Instance registration_eq_dec : EqDecision registration.
Proof. solve_decision. Defined.

(** [std::getline(std::cin, line)]: the next line, the empty string at
    the end of the input. *)
Definition getline (input : list string) : string * list string :=
  match input with
  | [] => ("", [])
  | line :: rest => (line, rest)
  end.

Section registration.
Context {F : Storage}.
Implicit Types (q : VolunteerQueue.t) (st : store) (input : list string).

(** [void registerSingleVolunteer(VolunteerQueue& queue)]: the report,
    the input left, the queue and the files afterwards.
    [validateVolunteerFile] at its end only reads and prints. *)
Definition registerSingleVolunteer input q st
    : res (registration * list string * VolunteerQueue.t * store) :=
  let '(line, input) := getline input in
  let name := trim line in
  if decide (name = "") then return_ (NameEmpty, input, q, st)
  else
    let '(line, input) := getline input in
    let contact := trim line in
    if decide (contact = "") then return_ (ContactEmpty, input, q, st)
    else
      let '(line, input) := getline input in
      let skill := trim line in
      if decide (skill = "") then return_ (SkillEmpty, input, q, st)
      else
        let newVolunteer := mkVolunteer name contact skill in
        q' ← VolunteerQueue.enqueue newVolunteer q;
        let st' := saveVolunteerToFile newVolunteer st in
        return_ (Registered newVolunteer, input, q', st').

(** The volunteer that three input lines describe. *)
Definition entered (l1 l2 l3 : string) : Volunteer :=
  mkVolunteer (trim l1) (trim l2) (trim l3).

(** The volunteer that a registration with this input registers, if
    any: the first three lines, none of them blank. *)
Definition arrival (input : list string) : list Volunteer :=
  let '(l1, input) := getline input in
  let '(l2, input) := getline input in
  let '(l3, _) := getline input in
  if decide (trim l1 ≠ "" ∧ trim l2 ≠ "" ∧ trim l3 ≠ "") then [entered l1 l2 l3] else [].

(** ** Several volunteers in one dialogue *)

(** What [registerMultipleVolunteers] prints at its end: the count
    refused, the registration cancelled at the confirmation, or the two
    counters and, when a volunteer was registered, the size of the
    queue. *)
Inductive multiple :=
| CountRefused
| Cancelled
| Completed (successCount failedCount : Z) (total : option Z).

(** [successCount] and [failedCount]. *)
Record progress := mkProgress { successCount : Z; failedCount : Z }.

(** The answers that [registerMultipleVolunteers] takes for a yes. *)
Definition confirmed (confirm : string) : bool :=
  negb (bool_decide (confirm ≠ "y") && bool_decide (confirm ≠ "Y") &&
        bool_decide (confirm ≠ "yes") && bool_decide (confirm ≠ "Yes")).

(** The body of the [for] loop of [registerMultipleVolunteers]: a field
    that is [skip] or blank ends the turn of this volunteer, and the
    fields after it are not asked for. *)
Definition register_one (i numVolunteers : Z) input q st (p : progress)
    : res (list string * VolunteerQueue.t * store * progress) :=
  let skip input :=
    f ← int_incr (failedCount p);
    return_ (input, q, st, mkProgress (successCount p) f) in
  let '(line, input) := getline input in
  let name := trim line in
  if decide (name = "skip") then skip input
  else if decide (name = "") then skip input
  else
    let '(line, input) := getline input in
    let contact := trim line in
    if decide (contact = "skip") then skip input
    else if decide (contact = "") then skip input
    else
      let '(line, input) := getline input in
      let skill := trim line in
      if decide (skill = "skip") then skip input
      else if decide (skill = "") then skip input
      else
        let newVolunteer := mkVolunteer name contact skill in
        q' ← VolunteerQueue.enqueue newVolunteer q;
        let st' := saveVolunteerToFile newVolunteer st in
        s ← int_incr (successCount p);
        _ ← (if decide (i < numVolunteers)%Z then int_sub numVolunteers i
             else return_ 0%Z);
        return_ (input, q', st', mkProgress s (failedCount p)).

(** [for (int i = 1; i <= numVolunteers; i++)], from [i]. *)
Fixpoint register_loop (fuel : nat) (i numVolunteers : Z) input q st (p : progress)
    : res (list string * VolunteerQueue.t * store * progress) :=
  if decide (i ≤ numVolunteers)%Z then
    match fuel with
    | 0 => throw OutOfFuel
    | S fuel' =>
        '(input, q, st, p) ← register_one i numVolunteers input q st p;
        i' ← int_incr i;
        register_loop fuel' i' numVolunteers input q st p
    end
  else return_ (input, q, st, p).

(** [void registerMultipleVolunteers(VolunteerQueue& queue)], with the
    number typed at its first question. *)
Definition registerMultipleVolunteers (numVolunteers : Z) input q st
    : res (multiple * list string * VolunteerQueue.t * store) :=
  if decide (numVolunteers ≤ 0)%Z then return_ (CountRefused, input, q, st)
  else
    let '(proceed, input) :=
      if decide (50 < numVolunteers)%Z then
        let '(confirm, input) := getline input in (confirmed confirm, input)
      else (true, input) in
    if proceed : bool then
      '(input, q, st, p) ←
        register_loop (Z.to_nat numVolunteers) 1 numVolunteers input q st
                      (mkProgress 0 0);
      total ← (if decide (0 < successCount p)%Z
               then Some <$> VolunteerQueue.size q else return_ None);
      return_ (Completed (successCount p) (failedCount p) total, input, q, st)
    else return_ (Cancelled, input, q, st).

(** A field that the dialogue accepts. *)
Definition usable (x : string) : Prop := x ≠ "skip" ∧ x ≠ "".

#[export] Instance usable_dec x : Decision (usable x).
Proof. unfold usable. apply _. Defined.

(** The volunteer that one turn of the dialogue registers, if any, and
    the input it leaves. *)
Definition entry input : list Volunteer * list string :=
  let '(l1, i1) := getline input in
  if decide (usable (trim l1)) then
    let '(l2, i2) := getline i1 in
    if decide (usable (trim l2)) then
      let '(l3, i3) := getline i2 in
      if decide (usable (trim l3)) then ([entered l1 l2 l3], i3) else ([], i3)
    else ([], i2)
  else ([], i1).

(** The volunteers of [n] turns, in order, and the input left. *)
Fixpoint dialogue (n : nat) input : list Volunteer * list string :=
  match n with
  | 0 => ([], input)
  | S n' =>
      let '(new, input) := entry input in
      let '(vs, input) := dialogue n' input in
      (new ++ vs, input)
  end.

(** The volunteers that [registerMultipleVolunteers] registers. *)
Definition arrival_multiple (numVolunteers : Z) input : list Volunteer :=
  if decide (numVolunteers ≤ 0)%Z then []
  else if decide (50 < numVolunteers)%Z then
    let '(confirm, input) := getline input in
    if confirmed confirm then (dialogue (Z.to_nat numVolunteers) input).1 else []
  else (dialogue (Z.to_nat numVolunteers) input).1.

End registration.

Section registration_theorems.
Context {F : Storage} {FL : StorageLaws F}.
Implicit Types (q : VolunteerQueue.t) (st : store) (input : list string).

(** What a dialogue leaves of the input is an end of it. *)
Lemma getline_suffix input : (getline input).2 `suffix_of` input.
Proof. destruct input as [|line input]; [done|]. by apply suffix_cons_r. Qed.

Lemma getline_suffix_of input input' :
  input' `suffix_of` input → (getline input').2 `suffix_of` input.
Proof. intros. by etrans; [apply getline_suffix|]. Qed.

Lemma registerSingleVolunteer_input input q st r input' q' st' :
  registerSingleVolunteer input q st = Ok (r, input', q', st') →
  input' `suffix_of` input.
Proof.
  unfold registerSingleVolunteer.
  pose proof (getline_suffix input) as H1.
  destruct (getline input) as [l1 i1]. cbn [snd] in H1.
  pose proof (getline_suffix_of _ _ H1) as H2.
  destruct (getline i1) as [l2 i2]. cbn [snd] in H2.
  pose proof (getline_suffix_of _ _ H2) as H3.
  destruct (getline i2) as [l3 i3]. cbn [snd] in H3.
  repeat case_decide; intros; res_inv; by simplify_eq/=.
Qed.

Lemma register_one_input i n input q st p input' q' st' p' :
  register_one i n input q st p = Ok (input', q', st', p') →
  input' `suffix_of` input.
Proof.
  unfold register_one.
  pose proof (getline_suffix input) as H1.
  destruct (getline input) as [l1 i1]. cbn [snd] in H1.
  pose proof (getline_suffix_of _ _ H1) as H2.
  destruct (getline i1) as [l2 i2]. cbn [snd] in H2.
  pose proof (getline_suffix_of _ _ H2) as H3.
  destruct (getline i2) as [l3 i3]. cbn [snd] in H3.
  repeat case_decide; intros; res_inv; by simplify_eq/=.
Qed.

Lemma register_loop_input fuel i n input q st p input' q' st' p' :
  register_loop fuel i n input q st p = Ok (input', q', st', p') →
  input' `suffix_of` input.
Proof.
  revert i input q st p. induction fuel as [|fuel IH]; intros i input q st p;
    simpl; case_decide; intros Hrun; try done; try by simplify_eq.
  res_inv_pairs. etrans; [by eapply IH|]. by eapply register_one_input.
Qed.

Lemma registerMultipleVolunteers_input n input q st o input' q' st' :
  registerMultipleVolunteers n input q st = Ok (o, input', q', st') →
  input' `suffix_of` input.
Proof.
  unfold registerMultipleVolunteers. case_decide; [by intros; simplify_eq|].
  pose proof (getline_suffix input) as H1.
  destruct (getline input) as [confirm i1]. cbn [snd] in H1.
  case_decide; [destruct (confirmed confirm)|]; intros Hrun; res_inv_pairs;
    try done;
    match goal with H : register_loop _ _ _ _ _ _ _ = Ok _ |- _ =>
      apply register_loop_input in H end; by try etrans.
Qed.

(** A registration on any input: it returns, the queue holds the
    arrival behind the others, and only the registration file can have
    changed. *)
Lemma registerSingleVolunteer_run input q vs st :
  VolunteerQueue.models q vs →
  ∃ o input' q' st',
    registerSingleVolunteer input q st = Ok (o, input', q', st') ∧
    VolunteerQueue.models q' (vs ++ arrival input) ∧
    ledger st' = ledger st ∧ sites_of st' = sites_of st ∧
    (arrival input = [] → q' = q ∧ st' = st).
Proof.
  intros Hq. unfold registerSingleVolunteer, arrival.
  destruct (getline input) as [l1 i1], (getline i1) as [l2 i2], (getline i2) as [l3 i3].
  destruct (decide (trim l1 = "")).
  { rewrite decide_False by naive_solver. rewrite app_nil_r. by eauto 10. }
  destruct (decide (trim l2 = "")).
  { rewrite decide_False by naive_solver. rewrite app_nil_r. by eauto 10. }
  destruct (decide (trim l3 = "")).
  { rewrite decide_False by naive_solver. rewrite app_nil_r. by eauto 10. }
  rewrite decide_True by done.
  destruct (VolunteerQueue.enqueue_models (entered l1 l2 l3) q vs Hq) as (q' & Hq' & ?).
  unfold entered in *. rewrite Hq'. simpl. do 4 eexists. split_and!; [done..| | |done].
  - unfold ledger, saveVolunteerToFile. by rewrite append_volunteer_deployed.
  - unfold sites_of, saveVolunteerToFile. by rewrite append_volunteer_sites.
Qed.

(** C32 A registration with three lines that are not blank puts the
    volunteer of the trimmed lines at the rear of the queue and at the
    end of the registration file, reads exactly three lines, and leaves
    the ledger and the sites file as they were. *)
Theorem registerSingleVolunteer_registers l1 l2 l3 input q vs st :
  VolunteerQueue.models q vs →
  trim l1 ≠ "" → trim l2 ≠ "" → trim l3 ≠ "" →
  volunteer_storable (entered l1 l2 l3) →
  ∃ q' st',
    registerSingleVolunteer (l1 :: l2 :: l3 :: input) q st
    = Ok (Registered (entered l1 l2 l3), input, q', st') ∧
    VolunteerQueue.models q' (vs ++ [entered l1 l2 l3]) ∧
    registered st' = registered st ++ [entered l1 l2 l3] ∧
    ledger st' = ledger st ∧ sites_of st' = sites_of st.
Proof.
  intros Hq H1 H2 H3 Hst. unfold registerSingleVolunteer. simpl.
  rewrite !decide_False by done.
  destruct (VolunteerQueue.enqueue_models (entered l1 l2 l3) q vs Hq) as (q' & Hq' & ?).
  unfold entered in *. rewrite Hq'. simpl. exists q'. eexists. split_and!; [done..| | |].
  - unfold registered, saveVolunteerToFile. by rewrite append_volunteer_read.
  - unfold ledger, saveVolunteerToFile. by rewrite append_volunteer_deployed.
  - unfold sites_of, saveVolunteerToFile. by rewrite append_volunteer_sites.
Qed.

(** A registration that is refused changes nothing: the queue and the
    files are as they were. *)
Theorem registerSingleVolunteer_frame input q st o input' q' st' :
  registerSingleVolunteer input q st = Ok (o, input', q', st') →
  (∀ v, o ≠ Registered v) → q' = q ∧ st' = st.
Proof.
  unfold registerSingleVolunteer. intros H Ho.
  repeat (case_match; res_inv); try done. by edestruct Ho.
Qed.

(** Every volunteer registered has three fields that are not empty
    and do not begin or end with whitespace. *)
Theorem registerSingleVolunteer_fields input q st v input' q' st' :
  registerSingleVolunteer input q st = Ok (Registered v, input', q', st') →
  name v ≠ "" ∧ contact v ≠ "" ∧ skill v ≠ "" ∧
  trim (name v) = name v ∧ trim (contact v) = contact v ∧ trim (skill v) = skill v.
Proof.
  unfold registerSingleVolunteer. intros H.
  repeat (case_match; res_inv). simpl. by rewrite !trim_idemp.
Qed.

(** ** Several volunteers *)

Lemma entry_length input : length (entry input).1 ≤ 1.
Proof. unfold entry. repeat (case_match; simpl); lia. Qed.

(** One turn of the dialogue that returns: the queue gains the entry,
    one of the counters is one higher, and only the registration file
    can have changed. *)
Lemma register_one_sound i n input q vs st p input' q' st' p' :
  VolunteerQueue.models q vs →
  register_one i n input q st p = Ok (input', q', st', p') →
  ∃ new, entry input = (new, input') ∧ VolunteerQueue.models q' (vs ++ new) ∧
         ledger st' = ledger st ∧ sites_of st' = sites_of st ∧
         (Forall volunteer_storable new → registered st' = registered st ++ new) ∧
         successCount p' = (successCount p + Z.of_nat (length new))%Z ∧
         (successCount p' + failedCount p' = successCount p + failedCount p + 1)%Z.
Proof.
  intros Hq. unfold register_one, entry, usable.
  destruct (getline input) as [l1 i1], (getline i1) as [l2 i2], (getline i2) as [l3 i3].
  repeat case_decide; intros Hrun; res_inv; simplify_eq/=;
    try (destruct_and?; congruence);
    try (by intuition congruence);
    try (exists []; rewrite !app_nil_r; split_and!; (done || (simpl; lia))).
  all: destruct (VolunteerQueue.enqueue_models (entered l1 l2 l3) q vs Hq) as (q1 & Hq1 & ?).
  all: unfold entered in *; exists [mkVolunteer (trim l1) (trim l2) (trim l3)].
  all: assert (q' = q1) as -> by congruence.
  all: unfold ledger, sites_of, registered, saveVolunteerToFile.
  all: rewrite append_volunteer_deployed, append_volunteer_sites.
  all: split_and!; [done.. | | simpl; lia | simpl; lia].
  all: intros [? _]%Forall_cons; by rewrite append_volunteer_read.
Qed.

(** One turn of the dialogue returns while the counters and the
    progress line stay in the range of [int]. *)
Lemma register_one_total i n input q vs st p :
  VolunteerQueue.models q vs →
  (successCount p < INT_MAX)%Z → (failedCount p < INT_MAX)%Z →
  is_int (n - i) →
  ∃ r, register_one i n input q st p = Ok r.
Proof.
  intros Hq Hs Hf Hsub. unfold register_one.
  destruct (getline input) as [l1 i1], (getline i1) as [l2 i2], (getline i2) as [l3 i3].
  rewrite (int_incr_lt _ Hf).
  repeat case_decide; simpl; eauto;
    destruct (VolunteerQueue.enqueue_models (mkVolunteer (trim l1) (trim l2) (trim l3))
                q vs Hq) as (q1 & -> & _);
    simpl; rewrite (int_incr_lt _ Hs); simpl; rewrite ?int_sub_Ok by done; simpl; eauto.
Qed.

(** What the dialogue has done when it is over: the state after a loop
    that started at [i] with [input], among [vs] in the queue. *)
Definition registered_all (n i : Z) input vs st (p : progress)
    (r : list string * VolunteerQueue.t * store * progress) : Prop :=
  let '(input', q', st', p') := r in
  let d := dialogue (Z.to_nat (n - i + 1)) input in
  input' = d.2 ∧ VolunteerQueue.models q' (vs ++ d.1) ∧
  ledger st' = ledger st ∧ sites_of st' = sites_of st ∧
  (Forall volunteer_storable d.1 → registered st' = registered st ++ d.1) ∧
  successCount p' = (successCount p + Z.of_nat (length d.1))%Z ∧
  (successCount p' + failedCount p'
   = successCount p + failedCount p + Z.of_nat (Z.to_nat (n - i + 1)))%Z.

Lemma dialogue_length n input : length (dialogue n input).1 ≤ n.
Proof.
  revert input. induction n as [|n IH]; intros input; simpl; [done|].
  pose proof (entry_length input). destruct (entry input) as [new i1].
  specialize (IH i1). destruct (dialogue n i1). simpl in *. rewrite length_app. lia.
Qed.

(** The loop, when it returns, has registered the volunteers of the
    dialogue. *)
Lemma register_loop_sound fuel i n input q vs st p r :
  VolunteerQueue.models q vs →
  register_loop fuel i n input q st p = Ok r →
  registered_all n i input vs st p r.
Proof.
  revert i input q vs st p. induction fuel as [|fuel IH]; intros i input q vs st p Hq;
    simpl; case_decide; intros Hrun; try done.
  1,3: injection Hrun as <-; unfold registered_all;
       replace (Z.to_nat (n - i + 1)) with 0 by lia; simpl;
       rewrite !app_nil_r; split_and!; (done || lia).
  res_inv_pairs. subst. unfold registered_all in *.
  destruct (register_one_sound _ _ _ _ _ _ _ _ _ _ _ Hq ltac:(done))
    as (new & Hentry & Hq1 & Hl1 & Hs1 & Hr1 & Hc1 & Hf1).
  specialize (IH _ _ _ _ _ _ Hq1 Hrun).
  replace (Z.to_nat (n - i + 1)) with (S (Z.to_nat (n - (i + 1) + 1))) by lia.
  simpl. rewrite Hentry. destruct (dialogue _ _) as [ws rest]. simpl in *.
  destruct IH as (? & ? & ? & ? & Hr2 & ? & ?).
  rewrite (assoc_L (++)), length_app.
  split_and!; [done | done | congruence | congruence | | lia | lia].
  intros [? ?]%Forall_app. by rewrite Hr2, Hr1, (assoc_L (++)).
Qed.

(** The loop returns when the number asked for is below [INT_MAX]. *)
Lemma register_loop_total fuel i n input q vs st p :
  VolunteerQueue.models q vs →
  (n < INT_MAX)%Z → Z.to_nat (n - i + 1) ≤ fuel →
  (0 ≤ successCount p)%Z → (0 ≤ failedCount p)%Z →
  (successCount p + failedCount p = i - 1)%Z →
  ∃ r, register_loop fuel i n input q st p = Ok r.
Proof.
  revert i input q vs st p. induction fuel as [|fuel IH];
    intros i input q vs st p Hq Hn Hfuel Hs Hf Hi; simpl; case_decide; eauto; [lia|].
  destruct (register_one_total i n input q vs st p Hq) as ([[[i1 q1] st1] p1] & Hone);
    [lia | lia | int_solve |].
  destruct (register_one_sound _ _ _ _ _ _ _ _ _ _ _ Hq Hone)
    as (new & Hentry & Hq1 & _ & _ & _ & ? & ?).
  pose proof (entry_length input) as Hnew. rewrite Hentry in Hnew. simpl in Hnew.
  rewrite Hone. simpl. rewrite int_incr_lt by lia. simpl.
  apply (IH _ _ _ (vs ++ new)); [done | done | lia..].
Qed.

(** With [INT_MAX] volunteers asked for, [i <= numVolunteers] holds of
    every [int]: the loop leaves through the overflow of [i++]. *)
Lemma register_loop_overflow fuel i input q vs st p :
  VolunteerQueue.models q vs →
  (i ≤ INT_MAX)%Z → Z.to_nat (INT_MAX - i + 1) ≤ fuel →
  (0 ≤ successCount p)%Z → (0 ≤ failedCount p)%Z →
  (successCount p + failedCount p = i - 1)%Z →
  register_loop fuel i INT_MAX input q st p = Err Overflow.
Proof.
  revert i input q vs st p. induction fuel as [|fuel IH];
    intros i input q vs st p Hq Hn Hfuel Hs Hf Hi; simpl; case_decide; try lia.
  destruct (register_one_total i INT_MAX input q vs st p Hq)
    as ([[[i1 q1] st1] p1] & Hone); [lia | lia | int_solve |].
  destruct (register_one_sound _ _ _ _ _ _ _ _ _ _ _ Hq Hone)
    as (new & Hentry & Hq1 & _ & _ & _ & ? & ?).
  pose proof (entry_length input) as Hnew. rewrite Hentry in Hnew. simpl in Hnew.
  rewrite Hone. simpl. destruct (decide (i = INT_MAX)) as [->|].
  { by rewrite int_incr_max. }
  rewrite int_incr_lt by lia. simpl.
  apply (IH _ _ _ (vs ++ new)); [done | lia..].
Qed.

(** What [registerMultipleVolunteers] has done when it returns. *)
Definition multiple_ok (new : list Volunteer) (n : Z) vs st (o : multiple) q' st' : Prop :=
  VolunteerQueue.models q' (vs ++ new) ∧
  ledger st' = ledger st ∧ sites_of st' = sites_of st ∧
  (Forall volunteer_storable new → registered st' = registered st ++ new) ∧
  match o with
  | Completed s f total =>
      s = Z.of_nat (length new) ∧ (s + f = n)%Z ∧
      total = (if decide (new = []) then None else Some (Z.of_nat (length (vs ++ new))))
  | _ => new = []
  end.

Lemma arrival_multiple_eq n input :
  ¬ (n ≤ 0)%Z →
  arrival_multiple n input
  = (let '(proceed, input) :=
       if decide (50 < n)%Z then
         let '(confirm, input) := getline input in (confirmed confirm, input)
       else (true, input) in
     if proceed : bool then (dialogue (Z.to_nat n) input).1 else []).
Proof.
  intros. unfold arrival_multiple. rewrite decide_False by done.
  case_decide; [|done]. by destruct (getline input).
Qed.

Lemma multiple_ok_nil n q vs st o :
  VolunteerQueue.models q vs → (∀ s f t, o ≠ Completed s f t) →
  multiple_ok [] n vs st o q st.
Proof.
  intros Hq Ho. unfold multiple_ok. rewrite !app_nil_r.
  split_and!; [done..|]. destruct o; naive_solver.
Qed.

Lemma registerMultipleVolunteers_sound n input q vs st o input' q' st' :
  VolunteerQueue.models q vs →
  registerMultipleVolunteers n input q st = Ok (o, input', q', st') →
  multiple_ok (arrival_multiple n input) n vs st o q' st'.
Proof.
  intros Hq. unfold registerMultipleVolunteers.
  case_decide as Hn.
  { intros [= <- <- <- <-]. unfold arrival_multiple. rewrite decide_True by done.
    by apply multiple_ok_nil. }
  rewrite arrival_multiple_eq by done.
  destruct (if decide (50 < n)%Z then _ else _) as [[|] input1].
  2: { intros [= <- <- <- <-]. by apply multiple_ok_nil. }
  intros Hrun. res_inv_pairs. subst.
  match goal with H : register_loop _ _ _ _ _ _ _ = Ok _ |- _ =>
    apply (register_loop_sound _ _ _ _ _ vs) in H as (_ & Hq' & ? & ? & ? & Hs & Hf);
      [|done] end.
  replace (Z.to_nat (n - 1 + 1)) with (Z.to_nat n) in * by lia. simpl in *.
  unfold multiple_ok. split_and!; [done.. | lia | lia |].
  destruct (dialogue (Z.to_nat n) input1).1 as [|v new] eqn:Hnew; simpl in *.
  - case_decide; [lia|]. by simplify_eq.
  - case_decide; [|lia]. res_inv.
    match goal with H : VolunteerQueue.size _ = Ok _ |- _ =>
      apply (VolunteerQueue.size_models_Ok _ _ _ Hq') in H as [-> _] end.
    by subst.
Qed.

Lemma registerMultipleVolunteers_total n input q vs st :
  VolunteerQueue.models q vs → (n < INT_MAX)%Z →
  (Z.of_nat (length (vs ++ arrival_multiple n input)) ≤ INT_MAX)%Z →
  ∃ r, registerMultipleVolunteers n input q st = Ok r.
Proof.
  intros Hq Hn. unfold registerMultipleVolunteers. case_decide; [by eauto|].
  rewrite arrival_multiple_eq by done.
  destruct (if decide (50 < n)%Z then _ else _) as [[|] input1]; [|by eauto].
  intros Hlen.
  destruct (register_loop_total (Z.to_nat n) 1 n input1 q vs st (mkProgress 0 0))
    as ([[[i2 q2] st2] p2] & Hloop); [done | done | lia | done..|].
  rewrite Hloop. simpl.
  apply (register_loop_sound _ _ _ _ _ vs) in Hloop as (_ & Hq2 & _); [|done].
  replace (Z.to_nat (n - 1 + 1)) with (Z.to_nat n) in * by lia.
  case_decide; simpl; [|by eauto].
  rewrite (VolunteerQueue.size_models _ _ Hq2) by done. simpl. eauto.
Qed.

(** C19 [registerMultipleVolunteers] with a number below [INT_MAX]
    returns, whatever is typed: the queue holds the volunteers of the
    dialogue behind the others, in the order in which they were entered,
    the registration file has them at its end, and the ledger and the
    sites file are as they were.  A turn whose name, contact or skill is
    [skip] or blank registers nobody and asks for no further field. *)
Theorem registerMultipleVolunteers_registers n input q vs st :
  VolunteerQueue.models q vs → (n < INT_MAX)%Z →
  (Z.of_nat (length (vs ++ arrival_multiple n input)) ≤ INT_MAX)%Z →
  Forall volunteer_storable (arrival_multiple n input) →
  ∃ o input' q' st',
    registerMultipleVolunteers n input q st = Ok (o, input', q', st') ∧
    VolunteerQueue.models q' (vs ++ arrival_multiple n input) ∧
    registered st' = registered st ++ arrival_multiple n input ∧
    ledger st' = ledger st ∧ sites_of st' = sites_of st.
Proof.
  intros Hq Hn Hlen Hst.
  destruct (registerMultipleVolunteers_total n input q vs st Hq Hn Hlen)
    as ([[[o input'] q'] st'] & Hrun).
  destruct (registerMultipleVolunteers_sound _ _ _ _ _ _ _ _ _ Hq Hrun)
    as (? & ? & ? & Hreg & _).
  exists o, input', q', st'. split_and!; [done | done | by apply Hreg | done | done].
Qed.

(** The summary of [registerMultipleVolunteers]: the number of
    successes is the number of volunteers registered, successes and
    failures add up to the number asked for, and the total printed when
    there was a success is the size of the queue. *)
Theorem registerMultipleVolunteers_counts n input q vs st s f total input' q' st' :
  VolunteerQueue.models q vs →
  registerMultipleVolunteers n input q st = Ok (Completed s f total, input', q', st') →
  s = Z.of_nat (length (arrival_multiple n input)) ∧ (s + f = n)%Z ∧
  total = (if decide (arrival_multiple n input = []) then None
           else Some (Z.of_nat (length (vs ++ arrival_multiple n input)))).
Proof.
  intros Hq Hrun.
  by destruct (registerMultipleVolunteers_sound _ _ _ _ _ _ _ _ _ Hq Hrun)
    as (_ & _ & _ & _ & ?).
Qed.

(** C40 With [INT_MAX] volunteers asked for and the warning confirmed,
    the condition [i <= numVolunteers] of the loop holds of every [int]:
    after the last turn [i++] overflows, which is undefined behaviour. *)
Theorem registerMultipleVolunteers_overflow n input q vs st :
  VolunteerQueue.models q vs → n = INT_MAX →
  confirmed (getline input).1 = true →
  registerMultipleVolunteers n input q st = Err Overflow.
Proof.
  intros Hq -> Hc. unfold registerMultipleVolunteers.
  rewrite decide_False, decide_True by (unfold INT_MAX; lia).
  destruct (getline input) as [c i1]. simpl in Hc. rewrite Hc.
  by rewrite (register_loop_overflow _ 1 i1 q vs) by (done || lia).
Qed.

End registration_theorems.

(** ** Scenarios on [binary64] and [files] *)

(** Ana, registered and deployed, registers again: she is in the queue
    and in the ledger at once. *)
Example registered_again :
  ∃ q1 st1 q2 st2,
    deployVolunteer VolunteerQueue.sample files0
    = Ok (Deployed VolunteerQueue.ana (mkSite "B" 3 10), q1, st1) ∧
    registerSingleVolunteer ["Ana"; "555-0101"; "medic"] q1 st1
    = Ok (Registered VolunteerQueue.ana, [], q2, st2) ∧
    VolunteerQueue.check q2 [(2%positive, VolunteerQueue.ben); (3%positive, VolunteerQueue.ana)]
    = true ∧
    VolunteerQueue.ana ∈ ledger st2.
Proof.
  do 4 eexists. split_and!; [by vm_compute | by vm_compute | by vm_compute |].
  vm_compute. set_solver.
Qed.


Lemma registerSingleVolunteer_registers_witness :
  ∃ q' st',
    registerSingleVolunteer (F := files_storage)
      (" Cy " :: "555-0103" :: "driver" :: []) VolunteerQueue.sample files0
    = Ok (Registered (entered " Cy " "555-0103" "driver"), [], q', st') ∧
    VolunteerQueue.models q'
      ([VolunteerQueue.ana; VolunteerQueue.ben] ++ [entered " Cy " "555-0103" "driver"]) ∧
    registered st' = registered files0 ++ [entered " Cy " "555-0103" "driver"] ∧
    ledger st' = ledger files0 ∧ sites_of st' = sites_of files0.
Proof.
  apply (registerSingleVolunteer_registers (F := files_storage));
    [apply VolunteerQueue.queue_sample_models | by vm_compute.. | done].
Defined.

Lemma registerSingleVolunteer_frame_witness :
  VolunteerQueue.sample = VolunteerQueue.sample ∧ files0 = files0.
Proof.
  apply (registerSingleVolunteer_frame (F := files_storage)
           ["Cy"; "  "] VolunteerQueue.sample files0 ContactEmpty []);
    [by vm_compute | done].
Defined.

Lemma registerSingleVolunteer_fields_witness :
  name VolunteerQueue.ana ≠ "" ∧ contact VolunteerQueue.ana ≠ "" ∧
  skill VolunteerQueue.ana ≠ "" ∧
  trim (name VolunteerQueue.ana) = name VolunteerQueue.ana ∧
  trim (contact VolunteerQueue.ana) = contact VolunteerQueue.ana ∧
  trim (skill VolunteerQueue.ana) = skill VolunteerQueue.ana.
Proof.
  eapply (registerSingleVolunteer_fields (F := files_storage)
            ["Ana"; "555-0101"; "medic"] VolunteerQueue.new files0).
  by vm_compute.
Defined.

(** Three turns of the dialogue: Cy is registered, the second turn is
    skipped at the name, Di is registered; the summary counts two
    successes and one failure and a queue of four. *)
Definition three_turns : list string :=
  ["Cy"; "555-0103"; "driver"; " skip "; "Di"; "555-0104"; "nurse"].

Example multiple_scenario :
  ∃ q' st',
    registerMultipleVolunteers (F := files_storage) 3 three_turns
      VolunteerQueue.sample files0
    = Ok (Completed 2 1 (Some 4%Z), [], q', st') ∧
    VolunteerQueue.check q'
      [(1%positive, VolunteerQueue.ana); (2%positive, VolunteerQueue.ben);
       (3%positive, mkVolunteer "Cy" "555-0103" "driver");
       (4%positive, mkVolunteer "Di" "555-0104" "nurse")] = true ∧
    registered st'
    = [VolunteerQueue.ana; VolunteerQueue.ben;
       mkVolunteer "Cy" "555-0103" "driver"; mkVolunteer "Di" "555-0104" "nurse"].
Proof. do 2 eexists. split_and!; by vm_compute. Qed.

(** A field left blank after the name ends the turn: the line typed
    next is read as the name of the following volunteer. *)
Example blank_contact :
  arrival_multiple 2 ["Cy"; " "; "555-0103"; "driver"; "x"]
  = [mkVolunteer "555-0103" "driver" "x"].
Proof. by vm_compute. Qed.

Lemma registerMultipleVolunteers_registers_witness :
  ∃ o input' q' st',
    registerMultipleVolunteers (F := files_storage) 3 three_turns
      VolunteerQueue.sample files0 = Ok (o, input', q', st') ∧
    VolunteerQueue.models q'
      ([VolunteerQueue.ana; VolunteerQueue.ben] ++ arrival_multiple 3 three_turns) ∧
    registered st' = registered files0 ++ arrival_multiple 3 three_turns ∧
    ledger st' = ledger files0 ∧ sites_of st' = sites_of files0.
Proof.
  apply (registerMultipleVolunteers_registers (F := files_storage));
    [apply VolunteerQueue.queue_sample_models | done | by vm_compute
    | by apply Forall_forall].
Defined.

Lemma registerMultipleVolunteers_counts_witness :
  2%Z = Z.of_nat (length (arrival_multiple 3 three_turns)) ∧ (2 + 1 = 3)%Z ∧
  Some 4%Z
  = (if decide (arrival_multiple 3 three_turns = []) then None
     else Some (Z.of_nat (length ([VolunteerQueue.ana; VolunteerQueue.ben]
                                  ++ arrival_multiple 3 three_turns)))).
Proof.
  eapply (registerMultipleVolunteers_counts (F := files_storage) 3 three_turns
            VolunteerQueue.sample [VolunteerQueue.ana; VolunteerQueue.ben] files0);
    [apply VolunteerQueue.queue_sample_models | vm_compute; reflexivity].
Defined.

Lemma registerMultipleVolunteers_overflow_witness :
  registerMultipleVolunteers (F := files_storage) INT_MAX ["y"]
    VolunteerQueue.sample files0 = Err Overflow.
Proof.
  apply (registerMultipleVolunteers_overflow (F := files_storage) INT_MAX ["y"]
           VolunteerQueue.sample [VolunteerQueue.ana; VolunteerQueue.ben]);
    [apply VolunteerQueue.queue_sample_models | done | done].
Defined.
