(* ===== verification/Session.v ===== *)
(** * The session

    [main] of [src/src/main.cpp] loads the queue from the registration
    file and then serves the menu until the operator leaves.  A command
    is one turn of the menu, with what the operator types in the dialogue
    it opens; the reading of the numbers from the console is in
    [Console].  [handle] is the [switch] of [main], [registerVolunteer]
    the submenu of the registrations, [main_loop] the [while (running)],
    [step] the transition relation of the program's state, the queue and
    the files.

    The theorems follow the state through a whole session: the
    invariants hold in every state that can be reached, the volunteers
    are deployed in the order in which they arrived, the counts of the
    sites grow by the number of volunteers deployed. *)

From S2P Require Import Prelude Chain CustomLists Queue Ratio SiteAlgorithm Text.
From S2P Require Import Deploy Registration.

(** The second menu, of [registerVolunteer], and what is typed in the
    dialogue of the choice. *)
Inductive registration_choice :=
| Single (input : list string)
| Multiple (numVolunteers : Z) (input : list string)
| NoSuchRegistration.

(** The first menu. *)
Inductive command :=
| Register (c : registration_choice)
| Deploy
| View
| Exit
| NoSuchCommand.

#[export] Instance registration_choice_eq_dec : EqDecision registration_choice.
Proof. solve_decision. Defined.
#[export] Instance command_eq_dec : EqDecision command.
Proof. solve_decision. Defined.

(** What one turn prints. *)
Inductive report :=
| Registration (r : registration)
| Registrations (m : multiple)
| RegistrationRefused
| Deployment (o : outcome)
| Listing (d : option display)
| Goodbye
| InvalidChoice.

(** A queue with the files of some storage. *)
Record world_of (store : Type) :=
  mkWorld { queue : VolunteerQueue.t; files : store }.
Arguments mkWorld {store} queue files.
Arguments queue {store} w.
Arguments files {store} w.

Section session.
Context {O : FillOps} {F : Storage}.
Implicit Types (q : VolunteerQueue.t) (st : store).

(** The state of the program between two turns: the queue of [main]
    and the files. *)
Definition world : Type := world_of store.

(** [void viewRegisteredVolunteers(const VolunteerQueue& queue)]: [None]
    is its own notice for the empty queue. *)
Definition viewRegisteredVolunteers q : res (option display) :=
  if VolunteerQueue.isEmpty q then return_ None
  else Some <$> VolunteerQueue.displayAll q.

(** [void registerVolunteer(VolunteerQueue& queue)] *)
Definition registerVolunteer (c : registration_choice) q st
    : res (report * VolunteerQueue.t * store) :=
  match c with
  | Single input =>
      '(r, _, q', st') ← registerSingleVolunteer input q st;
      return_ (Registration r, q', st')
  | Multiple numVolunteers input =>
      '(m, _, q', st') ← registerMultipleVolunteers numVolunteers input q st;
      return_ (Registrations m, q', st')
  | NoSuchRegistration => return_ (RegistrationRefused, q, st)
  end.

(** The [switch (choice)] of [main]: the report, the state and
    [running]. *)
Definition handle (c : command) (w : world) : res (report * world * bool) :=
  match c with
  | Register rc =>
      '(r, q, st) ← registerVolunteer rc (queue w) (files w);
      return_ (r, mkWorld q st, true)
  | Deploy =>
      '(o, q, st) ← deployVolunteer (queue w) (files w);
      return_ (Deployment o, mkWorld q st, true)
  | View =>
      d ← viewRegisteredVolunteers (queue w);
      return_ (Listing d, w, true)
  | Exit => return_ (Goodbye, w, false)
  | NoSuchCommand => return_ (InvalidChoice, w, true)
  end.

(** [while (running) { ... }] on the commands of the operator. *)
Fixpoint main_loop (cs : list command) (w : world) : res (list report * world) :=
  match cs with
  | [] => return_ ([], w)
  | c :: cs' =>
      '(r, w', running) ← handle c w;
      if running : bool then
        '(rs, w'') ← main_loop cs' w';
        return_ (r :: rs, w'')
      else return_ ([r], w')
  end.

(** [int main()]: the queue is loaded, the menu is served, and the
    queue is destroyed at the end. *)
Definition main (st : store) (cs : list command) : res (list report * store) :=
  '(volunteerQueue, _) ← loadVolunteersFromFile VolunteerQueue.new st;
  '(rs, w) ← main_loop cs (mkWorld volunteerQueue st);
  _ ← VolunteerQueue.destroy (queue w);
  return_ (rs, files w).

(** One turn of the menu that returns. *)
Inductive step : world → world → Prop :=
| step_handle c w r w' running :
    handle c w = Ok (r, w', running) → step w w'.

(** ** What a session is to keep *)

(** The volunteers that the commands register, up to the first [Exit]. *)
Definition arrivals_of (c : command) : list Volunteer :=
  match c with
  | Register (Single input) => arrival input
  | Register (Multiple numVolunteers input) => arrival_multiple numVolunteers input
  | _ => []
  end.

(** The commands whose numbers leave room for the counter of the
    dialogue: [registerMultipleVolunteers] is not asked for [INT_MAX]
    volunteers. *)
Definition served (c : command) : Prop :=
  match c with
  | Register (Multiple numVolunteers _) => (numVolunteers < INT_MAX)%Z
  | _ => True
  end.

#[export] Instance served_dec c : Decision (served c).
Proof. destruct c as [[| |]| | | |]; simpl; apply _. Defined.

Fixpoint arrivals (cs : list command) : list Volunteer :=
  match cs with
  | [] => []
  | Exit :: _ => []
  | c :: cs' => arrivals_of c ++ arrivals cs'
  end.

(** The volunteers at all the sites. *)
Definition total_count (xs : list ReliefSite) : Z :=
  foldr Z.add 0%Z (currentCount <$> xs).

(** What a deployment never changes of the sites. *)
Definition capacities (xs : list ReliefSite) : list (string * Z) :=
  (λ s, (site_name s, maxCapacity s)) <$> xs.

(** The invariant of the session: the queue is well formed and holds
    [vs], the records of the sites file are valid and within their
    capacity. *)
Definition sane (w : world) (vs : list Volunteer) : Prop :=
  VolunteerQueue.models (queue w) vs ∧
  Forall site_valid (sites_of (files w)) ∧
  Forall within_capacity (sites_of (files w)) ∧
  (Z.of_nat (length (sites_of (files w))) ≤ INT_MAX)%Z.

(** What a turn does to the state, seen from outside: the ledger
    followed by the queue gains [new] at its end, the ledger does not
    shrink, the sites keep their names and capacities, and the counts
    grow with the ledger. *)
Definition advances (w : world) vs (new : list Volunteer) (w' : world) vs' : Prop :=
  ledger (files w') ++ vs' = ledger (files w) ++ vs ++ new ∧
  length (ledger (files w)) ≤ length (ledger (files w')) ∧
  capacities (sites_of (files w')) = capacities (sites_of (files w)) ∧
  (total_count (sites_of (files w')) - Z.of_nat (length (ledger (files w')))
   = total_count (sites_of (files w)) - Z.of_nat (length (ledger (files w))))%Z.

End session.

(** ** One turn *)

Section session_lemmas.
Context {O : FillOps} {L : FillOrder O} {F : Storage} {FL : StorageLaws F}.
Implicit Types (q : VolunteerQueue.t) (st : store) (w : world).
Implicit Types (vs : list Volunteer) (xs : list ReliefSite).

Lemma world_eta w : mkWorld (queue w) (files w) = w.
Proof. by destruct w. Qed.

Lemma advances_refl w vs : advances w vs [] w vs.
Proof. unfold advances. by rewrite app_nil_r. Qed.

Lemma advances_trans w1 vs1 new1 w2 vs2 new2 w3 vs3 :
  advances w1 vs1 new1 w2 vs2 → advances w2 vs2 new2 w3 vs3 →
  advances w1 vs1 (new1 ++ new2) w3 vs3.
Proof.
  intros (Ha & ? & ? & ?) (Hb & ? & ? & ?). unfold advances.
  split_and!; [|lia|congruence|lia].
  by rewrite Hb, (assoc_L (++) _ vs2), Ha, <-!(assoc_L (++)).
Qed.

Lemma total_count_insert xs i s :
  xs !! i = Some s → total_count (<[i := arrive s]> xs) = (total_count xs + 1)%Z.
Proof.
  unfold total_count. revert i. induction xs as [|x xs IH]; intros [|i] Hi;
    simplify_eq/=; [lia|]. rewrite (IH i Hi). lia.
Qed.

Lemma capacities_insert xs i s :
  xs !! i = Some s → capacities (<[i := arrive s]> xs) = capacities xs.
Proof.
  intros Hi. unfold capacities. rewrite list_fmap_insert. apply list_insert_id.
  by rewrite list_lookup_fmap, Hi.
Qed.

(** The sites after one more volunteer at a site with room. *)
Lemma arrive_sane xs i s :
  Forall site_valid xs → Forall within_capacity xs →
  xs !! i = Some s → has_room s → is_int (currentCount s + 1) →
  Forall site_valid (<[i := arrive s]> xs) ∧
  Forall within_capacity (<[i := arrive s]> xs).
Proof.
  intros Hv Hc Hi Hroom Hint.
  pose proof (Forall_lookup_1 _ _ _ _ Hv Hi) as ([_ ?] & ? & ?).
  split; (apply Forall_insert; [done|]);
    unfold site_valid, site_ok, within_capacity, has_room in *; simpl;
    [split_and!; (done || lia) | lia].
Qed.

(** A deployment keeps the invariant, whatever it reports. *)
Lemma deployVolunteer_sane w vs o q' st' :
  sane w vs → deployVolunteer (queue w) (files w) = Ok (o, q', st') →
  ∃ vs', sane (mkWorld q' st') vs' ∧ length vs' ≤ length vs ∧
         (Forall volunteer_storable vs → advances w vs [] (mkWorld q' st') vs').
Proof.
  intros (Hq & Hv & Hc & Hlen) Hrun.
  pose proof (deployVolunteer_Ok_length _ _ _ _ Hq Hrun) as Hvs.
  destruct (deployVolunteer_models _ _ _ Hq Hvs Hlen Hv) as (r & Hr & Hspec).
  rewrite Hrun in Hr. injection Hr as <-. unfold deploy_spec in Hspec.
  assert (∀ o1 o2 : outcome, (o1, q', st') = (o2, queue w, files w) →
            ∃ vs', sane (mkWorld q' st') vs' ∧ length vs' ≤ length vs ∧
                   (Forall volunteer_storable vs → advances w vs [] (mkWorld q' st') vs'))
    as Hsame.
  { intros ?? [= _ -> ->]. rewrite world_eta. exists vs.
    split_and!; [done.. | intros _; apply advances_refl]. }
  destruct vs as [|v vs]; [by eauto|].
  destruct (decide (sites_of (files w) = [])); [by eauto|].
  destruct (decide (Exists has_room (sites_of (files w)))); [|by eauto].
  destruct Hspec as (i & s & q1 & Hbest & Hq1 & ?). simplify_eq.
  destruct (best_at_room _ _ _ Hv Hbest) as (Hi & Hroom & _ & Hint).
  pose proof (sites_of_Some (files w) ltac:(done)) as Hread.
  pose proof (deployed_sites _ _ v i s Hread Hi Hint) as Hsites.
  destruct (arrive_sane _ i s Hv Hc Hi Hroom Hint) as [Hv' Hc'].
  exists vs. split_and!; [split_and!; simpl; rewrite ?Hsites, ?length_insert; done | simpl; lia |].
  intros [Hst _]%Forall_cons.
  destruct (deployed_store _ _ v i s Hread Hi Hint Hst) as (_ & Hledger & _).
  unfold advances. simpl. rewrite Hsites, Hledger, app_nil_r, length_app.
  rewrite capacities_insert, total_count_insert by done. simpl.
  split_and!; [by rewrite <-app_assoc | lia | done | lia].
Qed.

Lemma turn_same w vs :
  sane w vs →
  ∃ vs', sane w vs' ∧ length vs' ≤ length vs + 0 ∧
         (Forall volunteer_storable vs → advances w vs [] w vs').
Proof. intros. exists vs. split_and!; [done | lia | intros _; apply advances_refl]. Qed.

(** A turn that returns keeps the invariant, and moves the state as
    [advances] says. *)
Lemma handle_sane c w vs r w' running :
  sane w vs → handle c w = Ok (r, w', running) →
  ∃ vs', sane w' vs' ∧ length vs' ≤ length vs + length (arrivals_of c) ∧
         (Forall volunteer_storable vs → advances w vs (arrivals_of c) w' vs').
Proof.
  intros Hsane Hrun. destruct c as [[input|n input|]| | | |]; simpl in *; res_inv_pairs;
    rewrite ?world_eta; try by apply turn_same.
  - destruct Hsane as (Hq & Hv & Hc & Hlen).
    destruct (registerSingleVolunteer_run input (queue w) vs (files w) Hq)
      as (o & i' & q' & st' & Hreg & Hq' & Hledger & Hsites & _).
    rewrite Hreg in *. simplify_eq.
    exists (vs ++ arrival input). unfold sane, advances. simpl.
    rewrite Hsites, Hledger, length_app. by split_and!.
  - destruct Hsane as (Hq & Hv & Hc & Hlen).
    match goal with H : registerMultipleVolunteers _ _ _ _ = Ok _ |- _ =>
      apply (registerMultipleVolunteers_sound _ _ _ vs) in H
        as (Hq' & Hledger & Hsites & _); [|done] end.
    exists (vs ++ arrival_multiple n input). unfold sane, advances. simpl.
    rewrite Hsites, Hledger, length_app. by split_and!.
  - destruct (deployVolunteer_sane _ _ _ _ _ Hsane ltac:(done)) as (vs' & ? & ? & ?).
    exists vs'. split_and!; [done | simpl; lia | done].
Qed.

(** A turn on a state that satisfies the invariant returns. *)
Lemma handle_total c w vs :
  sane w vs → served c →
  (Z.of_nat (length (vs ++ arrivals_of c)) < INT_MAX)%Z →
  ∃ r w', handle c w = Ok (r, w', negb (bool_decide (c = Exit))).
Proof.
  intros (Hq & Hv & Hc & Hlen) Hn Hvs. rewrite length_app in Hvs.
  destruct c as [[input|n input|]| | | |]; simpl in *; eauto.
  - destruct (registerSingleVolunteer_run input (queue w) vs (files w) Hq)
      as (o & i' & q' & st' & -> & _). simpl. eauto.
  - destruct (registerMultipleVolunteers_total n input (queue w) vs (files w) Hq Hn)
      as ([[[o i'] q'] st'] & ->); [rewrite length_app; lia|]. simpl. eauto.
  - destruct (deployVolunteer_models _ _ _ Hq ltac:(lia) Hlen Hv) as ([[o q'] st'] & -> & _).
    simpl. eauto.
  - unfold viewRegisteredVolunteers.
    destruct (VolunteerQueue.isEmpty (queue w)); simpl; [by eauto|].
    rewrite (VolunteerQueue.displayAll_models _ vs) by (done || lia). simpl. eauto.
Qed.

(** ** A whole session *)

Lemma arrivals_cons c cs :
  c ≠ Exit → arrivals (c :: cs) = arrivals_of c ++ arrivals cs.
Proof. by destruct c. Qed.

(** The queue after a turn is the end of the queue before it and of
    the arrivals. *)
Lemma advances_suffix w vs new w' vs' :
  advances w vs new w' vs' → vs' `suffix_of` vs ++ new.
Proof.
  intros (Heq & Hlen & _).
  exists (drop (length (ledger (files w))) (ledger (files w'))).
  apply (f_equal (drop (length (ledger (files w))))) in Heq.
  by rewrite drop_app_length, drop_app_le in Heq.
Qed.

Lemma Forall_suffix {A} (P : A → Prop) (l k : list A) :
  l `suffix_of` k → Forall P k → Forall P l.
Proof. intros [m ->] Hk. by apply Forall_app in Hk as [_ ?]. Qed.

(** The menu on a state that satisfies the invariant: every turn
    returns, and the state at the end is the one [advances] describes
    for the volunteers registered on the way. *)
Lemma main_loop_run cs w vs :
  sane w vs → Forall served cs → Forall volunteer_storable (vs ++ arrivals cs) →
  (Z.of_nat (length (vs ++ arrivals cs)) < INT_MAX)%Z →
  ∃ rs w' vs', main_loop cs w = Ok (rs, w') ∧ sane w' vs' ∧
               advances w vs (arrivals cs) w' vs' ∧ length rs ≤ length cs.
Proof.
  revert w vs. induction cs as [|c cs IH]; intros w vs Hsane Hcs Hst Hlen.
  { exists [], w, vs. split_and!; [done.. | apply advances_refl | done]. }
  apply Forall_cons in Hcs as [Hc1 Hcs].
  apply Forall_app in Hst as Hst'. destruct Hst' as [Hvs _].
  assert (Z.of_nat (length (vs ++ arrivals_of c)) < INT_MAX)%Z as Hlen0.
  { destruct (decide (c = Exit)) as [->|Hc]; [rewrite length_app in *; simpl; lia|].
    rewrite arrivals_cons in Hlen by done. rewrite !length_app in *. lia. }
  destruct (handle_total c w vs Hsane Hc1 Hlen0) as (r & w1 & Hrun).
  destruct (handle_sane _ _ _ _ _ _ Hsane Hrun) as (vs1 & Hsane1 & Hlen1 & Hadv).
  specialize (Hadv Hvs). cbn [main_loop]. rewrite Hrun.
  destruct (decide (c = Exit)) as [->|Hc].
  { exists [r], w1, vs1. split_and!; [done.. | simpl; lia]. }
  rewrite bool_decide_eq_false_2 by done.
  rewrite arrivals_cons in * by done. rewrite !length_app in Hlen.
  rewrite (assoc_L (++)) in Hst. apply Forall_app in Hst as [Hst1 Hst2].
  destruct (IH w1 vs1 Hsane1 Hcs) as (rs & w2 & vs2 & Hloop & Hsane2 & Hadv2 & Hrs).
  - apply Forall_app. split; [|done].
    eapply Forall_suffix; [by eapply advances_suffix | done].
  - rewrite length_app. lia.
  - exists (r :: rs), w2, vs2. cbn [mbind res_bind negb]. rewrite Hloop.
    split_and!; [done.. | by eapply advances_trans | simpl; lia].
Qed.

(** The program from its start to its end. *)
Lemma main_run st cs :
  Forall site_valid (sites_of st) → Forall within_capacity (sites_of st) →
  (Z.of_nat (length (sites_of st)) ≤ INT_MAX)%Z →
  (Z.of_nat (length (ledger st)) ≤ INT_MAX)%Z →
  (Z.of_nat (length (registered st)) ≤ INT_MAX)%Z →
  Forall served cs →
  let line := filter (loadable st) (registered st) ++ arrivals cs in
  Forall volunteer_storable line → (Z.of_nat (length line) < INT_MAX)%Z →
  ∃ rs st' q vs, main st cs = Ok (rs, st') ∧
                 advances (mkWorld VolunteerQueue.new st)
                          (filter (loadable st) (registered st)) (arrivals cs)
                          (mkWorld q st') vs ∧
                 Forall within_capacity (sites_of st').
Proof.
  intros Hv Hc Hlen Hl Hr Hcs line Hst Hline. unfold main.
  destruct (loadVolunteersFromFile_models_new st Hl Hr) as (q0 & r0 & -> & Hq0).
  simpl.
  destruct (main_loop_run cs (mkWorld q0 st) _ ltac:(by split_and!) Hcs Hst Hline)
    as (rs & [q st'] & vs & -> & (Hq & _ & Hc' & _) & Hadv & _).
  simpl in *. rewrite (VolunteerQueue.destroy_models q vs Hq). simpl.
  by exists rs, st', q, vs.
Qed.

End session_lemmas.

(** ** The session theorems *)

Section session_theorems.
Context {O : FillOps} {L : FillOrder O} {F : Storage} {FL : StorageLaws F}.
Implicit Types (q : VolunteerQueue.t) (st : store) (w : world).
Implicit Types (vs : list Volunteer) (xs : list ReliefSite).

(** C13 The invariant of the session holds in every state that the menu
    can reach from a state in which it holds: whatever the operator
    chooses, and however often, the queue stays well formed, the records
    of the sites stay valid, and no site is ever above its capacity. *)
Theorem reachable_sane w vs w' :
  sane w vs → rtc step w w' → ∃ vs', sane w' vs'.
Proof.
  intros Hsane Hsteps. revert vs Hsane.
  induction Hsteps as [w|w w1 w' [c ? r ? running Hrun] _ IH]; intros vs Hsane.
  { by exists vs. }
  destruct (handle_sane _ _ _ _ _ _ Hsane Hrun) as (vs1 & Hsane1 & _).
  by apply (IH vs1).
Qed.

(** C12 A session serves every command of the operator up to the first
    [Exit] and returns.  At its end the ledger followed by the queue is
    the ledger of the start followed by the queue of the start and by
    the volunteers registered on the way, in that order: volunteers are
    deployed in the order in which they arrived, none is lost and none
    is deployed twice. *)
Theorem main_loop_order cs w vs :
  sane w vs → Forall served cs → Forall volunteer_storable (vs ++ arrivals cs) →
  (Z.of_nat (length (vs ++ arrivals cs)) < INT_MAX)%Z →
  ∃ rs w' vs', main_loop cs w = Ok (rs, w') ∧
               VolunteerQueue.models (queue w') vs' ∧
               ledger (files w') ++ vs' = ledger (files w) ++ vs ++ arrivals cs.
Proof.
  intros Hsane Hcs Hst Hlen.
  destruct (main_loop_run cs w vs Hsane Hcs Hst Hlen)
    as (rs & w' & vs' & ? & (? & _) & (? & _) & _).
  by exists rs, w', vs'.
Qed.

(** Over a whole session the sites keep their names and capacities,
    the sum of their counts grows by exactly the number of volunteers
    that the ledger gained, and every count stays within the capacity. *)
Theorem main_loop_counts cs w vs rs w' :
  sane w vs → Forall served cs → Forall volunteer_storable (vs ++ arrivals cs) →
  (Z.of_nat (length (vs ++ arrivals cs)) < INT_MAX)%Z →
  main_loop cs w = Ok (rs, w') →
  capacities (sites_of (files w')) = capacities (sites_of (files w)) ∧
  (total_count (sites_of (files w'))
   = total_count (sites_of (files w))
     + (Z.of_nat (length (ledger (files w'))) - Z.of_nat (length (ledger (files w)))))%Z ∧
  length (ledger (files w)) ≤ length (ledger (files w')) ∧
  Forall within_capacity (sites_of (files w')).
Proof.
  intros Hsane Hcs Hst Hlen Hrun.
  destruct (main_loop_run cs w vs Hsane Hcs Hst Hlen)
    as (rs1 & w1 & vs1 & Hrun1 & (_ & _ & ? & _) & (_ & ? & ? & ?) & _).
  rewrite Hrun in Hrun1. simplify_eq. split_and!; [done | lia | done | done].
Qed.

(** The menu stops at the first [Exit]: the commands after it are
    never read. *)
Theorem main_loop_exit cs rest w :
  Exit ∉ cs → main_loop (cs ++ Exit :: rest) w = main_loop (cs ++ [Exit]) w.
Proof.
  revert w. induction cs as [|c cs IH]; intros w Hcs; [done|].
  apply not_elem_of_cons in Hcs as [_ Hcs]. cbn [app main_loop].
  destruct (handle c w) as [[[r w1] [|]]|e]; simpl; [|done..].
  by rewrite IH.
Qed.

(** C14 The program from its start to its end, on files whose sites are
    valid and within capacity: it returns; the ledger of the end is the
    ledger of the start followed by a first part of the waiting line
    (the registered volunteers not yet deployed, then those registered
    in the session); the counts of the sites grew by the number of
    volunteers deployed, and no site is above its capacity. *)
Theorem main_spec st cs :
  Forall site_valid (sites_of st) → Forall within_capacity (sites_of st) →
  (Z.of_nat (length (sites_of st)) ≤ INT_MAX)%Z →
  (Z.of_nat (length (ledger st)) ≤ INT_MAX)%Z →
  (Z.of_nat (length (registered st)) ≤ INT_MAX)%Z →
  Forall served cs →
  let line := filter (loadable st) (registered st) ++ arrivals cs in
  Forall volunteer_storable line → (Z.of_nat (length line) < INT_MAX)%Z →
  ∃ rs st' waiting,
    main st cs = Ok (rs, st') ∧
    ledger st' ++ waiting = ledger st ++ line ∧
    capacities (sites_of st') = capacities (sites_of st) ∧
    (total_count (sites_of st')
     = total_count (sites_of st) + Z.of_nat (length line - length waiting))%Z ∧
    Forall within_capacity (sites_of st').
Proof.
  intros Hv Hc Hlen Hl Hr Hcs line Hst Hline.
  destruct (main_run st cs Hv Hc Hlen Hl Hr Hcs Hst Hline)
    as (rs & st' & q & vs & Hrun & (Heq & ? & ? & ?) & ?). simpl in *.
  exists rs, st', vs. split_and!; [done.. | | done].
  apply (f_equal length) in Heq. unfold line. rewrite !length_app in *. lia.
Qed.

End session_theorems.

(** ** A session on [binary64] and [files] *)

Definition cy_input : list string := [" Cy "; "555-0103"; "driver"].
Definition cy : Volunteer := mkVolunteer "Cy" "555-0103" "driver".

Definition di : Volunteer := mkVolunteer "Di" "555-0104" "nurse".

(** The operator looks at the queue, deploys, registers Cy, deploys,
    registers Di in a dialogue of two turns of which the second is
    skipped, deploys until the queue is empty, and leaves; the command
    after [Exit] is never read. *)
Definition session0 : list command :=
  [View; Deploy; Register (Single cy_input); Deploy; NoSuchCommand;
   Register (Multiple 2 ["Di"; "555-0104"; "nurse"; "skip"]);
   Deploy; Deploy; Deploy; Exit; Deploy].

Definition world0 : world := mkWorld VolunteerQueue.sample files0.

(** The files at the end of [session0]. *)
Definition files_end : Deploy.files :=
  mkFiles (Some [site_A; mkSite "B" 6 10])
          (Some [VolunteerQueue.ana; VolunteerQueue.ben; cy; di])
          (Some [VolunteerQueue.ana; VolunteerQueue.ben; cy; di]).

(** The four volunteers go to B, whose ratio stays below that of A, in
    the order Ana, Ben, Cy, Di; the fifth deployment finds the queue
    empty. *)
Example session_scenario :
  main (O := binary64) (F := files_storage) files0 session0
  = Ok ([Listing (Some (Table [(1, VolunteerQueue.ana); (2, VolunteerQueue.ben)] 2));
         Deployment (Deployed VolunteerQueue.ana (mkSite "B" 3 10));
         Registration (Registered cy);
         Deployment (Deployed VolunteerQueue.ben (mkSite "B" 4 10));
         InvalidChoice;
         Registrations (Completed 1 1 (Some 2));
         Deployment (Deployed cy (mkSite "B" 5 10));
         Deployment (Deployed di (mkSite "B" 6 10));
         Deployment NoVolunteers;
         Goodbye]%Z,
        files_end).
Proof. by vm_compute. Qed.

Lemma world0_sane :
  sane (F := files_storage) world0 [VolunteerQueue.ana; VolunteerQueue.ben].
Proof.
  split_and!; [apply VolunteerQueue.queue_sample_models | apply files0_valid
              | by apply (bool_decide_unpack _) | done].
Defined.

Lemma reachable_sane_witness :
  ∃ vs', sane (F := files_storage)
           (mkWorld (VolunteerQueue.mk {[ 2%positive := mkNode VolunteerQueue.ben None ]}
                                       (Some 2%positive) (Some 2%positive))
                    (mkFiles (Some [site_A; mkSite "B" 3 10]) (Some [VolunteerQueue.ana])
                             (Some [VolunteerQueue.ana; VolunteerQueue.ben]))) vs'.
Proof.
  apply (reachable_sane (O := binary64) (F := files_storage) world0
           [VolunteerQueue.ana; VolunteerQueue.ben]); [apply world0_sane|].
  apply rtc_once.
  by apply (step_handle (O := binary64) (F := files_storage) Deploy world0
              (Deployment (Deployed VolunteerQueue.ana (mkSite "B" 3 10))) _ true).
Defined.

Lemma main_loop_order_witness :
  ∃ rs w' vs', main_loop (O := binary64) (F := files_storage) session0 world0 = Ok (rs, w') ∧
               VolunteerQueue.models (queue w') vs' ∧
               ledger (files w') ++ vs'
               = ledger (files world0) ++ [VolunteerQueue.ana; VolunteerQueue.ben]
                 ++ arrivals session0.
Proof.
  apply (main_loop_order (O := binary64) (F := files_storage) session0 world0
           [VolunteerQueue.ana; VolunteerQueue.ben]);
    [apply world0_sane | by apply (bool_decide_unpack _) | by apply Forall_forall
    | by vm_compute].
Defined.

Lemma main_loop_counts_witness :
  capacities (sites_of files_end) = capacities (sites_of files0) ∧
  (total_count (sites_of files_end)
   = total_count (sites_of files0)
     + (Z.of_nat (length (ledger files_end)) - Z.of_nat (length (ledger files0))))%Z ∧
  length (ledger files0) ≤ length (ledger files_end) ∧
  Forall within_capacity (sites_of files_end).
Proof.
  apply (main_loop_counts (O := binary64) (F := files_storage) session0 world0
           [VolunteerQueue.ana; VolunteerQueue.ben]
           [Listing (Some (Table [(1, VolunteerQueue.ana); (2, VolunteerQueue.ben)] 2));
            Deployment (Deployed VolunteerQueue.ana (mkSite "B" 3 10));
            Registration (Registered cy);
            Deployment (Deployed VolunteerQueue.ben (mkSite "B" 4 10));
            InvalidChoice;
            Registrations (Completed 1 1 (Some 2));
            Deployment (Deployed cy (mkSite "B" 5 10));
            Deployment (Deployed di (mkSite "B" 6 10));
            Deployment NoVolunteers;
            Goodbye]%Z
           (mkWorld VolunteerQueue.new files_end));
    [apply world0_sane | by apply (bool_decide_unpack _) | by apply Forall_forall
    | by vm_compute | by vm_compute].
Defined.

Lemma main_loop_exit_witness :
  main_loop (O := binary64) (F := files_storage) ([Deploy] ++ Exit :: [Deploy]) world0
  = main_loop ([Deploy] ++ [Exit]) world0.
Proof.
  apply (main_loop_exit (O := binary64) (F := files_storage)).
  by apply (bool_decide_unpack _).
Defined.

Lemma main_spec_witness :
  ∃ rs st' waiting,
    main (O := binary64) (F := files_storage) files0 session0 = Ok (rs, st') ∧
    ledger st' ++ waiting
    = ledger files0 ++ filter (loadable files0) (registered files0) ++ arrivals session0 ∧
    capacities (sites_of st') = capacities (sites_of files0) ∧
    (total_count (sites_of st')
     = total_count (sites_of files0)
       + Z.of_nat (length (filter (loadable files0) (registered files0)
                           ++ arrivals session0) - length waiting))%Z ∧
    Forall within_capacity (sites_of st').
Proof.
  apply (main_spec (O := binary64) (F := files_storage) files0 session0);
    [apply files0_valid | by apply (bool_decide_unpack _) | done | done | done
    | by apply (bool_decide_unpack _) | by apply Forall_forall | by vm_compute].
Defined.
