(* ===== verification/Refinement.v ===== *)
(** * Two levels of storage

    The functions of [src/src/main.cpp] reach the data files through the
    interface [Storage].  An [Abstraction] relates a storage [C] to a
    storage [A] by a function [abstract] on the files: what is read from
    the abstract files is what is read from the files themselves, and a
    write of records that the format of [C] can hold commutes with
    [abstract].  Under it every run of the program on [C] is a run on [A]:
    the same reports, the same queue, and files that [abstract] relates.
    The theorems go from the loaders and [deployVolunteer] through the
    registrations to [handle], [main_loop] and [main].  The instance for
    the text of the files is in [TextFiles]. *)

From S2P Require Import Prelude Chain CustomLists Queue Ratio SiteAlgorithm Text.
From S2P Require Import Deploy Registration Session.

Class Abstraction (C A : Storage) := {
  abstract : @store C → @store A;
  abstract_read_sites st : @read_sites A (abstract st) = @read_sites C st;
  abstract_read_deployed st : @read_deployed A (abstract st) = @read_deployed C st;
  abstract_read_volunteers st :
    @read_volunteers A (abstract st) = @read_volunteers C st;
  abstract_write_sites xs st :
    Forall (@site_storable C) xs →
    abstract (@write_sites C xs st) = @write_sites A xs (abstract st);
  abstract_append_deployed v st :
    @volunteer_storable C v →
    abstract (@append_deployed C v st) = @append_deployed A v (abstract st);
  abstract_append_volunteer v st :
    @volunteer_storable C v →
    abstract (@append_volunteer C v st) = @append_volunteer A v (abstract st)
}.

(** A turn of the dialogue that is skipped changes a counter only. *)
Ltac turn_skipped :=
  res_inv; simplify_eq/=; rewrite int_incr_lt by done; done.

Section refinement.
Context {O : FillOps} {L : FillOrder O}.
Context {C A : Storage} {CL : StorageLaws C} {AL : StorageLaws A}.
Context {R : Abstraction C A}.
Implicit Types (q : VolunteerQueue.t) (st : @store C) (v : Volunteer).
Implicit Types (vs : list Volunteer) (w : world_of (@store C)).

(** The state of the session on the abstract files. *)
Definition abstract_world w : world_of (@store A) :=
  mkWorld (queue w) (abstract (files w)).

(** ** What is read *)

Lemma abstract_sites_of st : sites_of (F := A) (abstract st) = sites_of (F := C) st.
Proof. unfold sites_of. by rewrite abstract_read_sites. Qed.

Lemma abstract_ledger st : ledger (F := A) (abstract st) = ledger (F := C) st.
Proof. unfold ledger. by rewrite abstract_read_deployed. Qed.

Lemma abstract_registered st :
  registered (F := A) (abstract st) = registered (F := C) st.
Proof. unfold registered. by rewrite abstract_read_volunteers. Qed.

Lemma isVolunteerDeployed_abstract v st :
  isVolunteerDeployed (F := A) v (abstract st) = isVolunteerDeployed (F := C) v st.
Proof. unfold isVolunteerDeployed. by rewrite abstract_read_deployed. Qed.

Lemma load_loop_abstract records st q r :
  load_loop (F := A) records (abstract st) q r = load_loop (F := C) records st q r.
Proof.
  revert q r. induction records as [|v records IH]; intros q r; simpl; [done|].
  rewrite isVolunteerDeployed_abstract. case_decide; [|done].
  destruct (isVolunteerDeployed v st) as [[|]|]; simpl; try done.
  - destruct (int_incr _); simpl; [apply IH | done].
  - destruct (VolunteerQueue.enqueue v q); simpl; [|done].
    destruct (int_incr _); simpl; [apply IH | done].
Qed.

(** The loader reads the same queue from the two levels. *)
Lemma loadVolunteersFromFile_abstract q st :
  loadVolunteersFromFile (F := A) q (abstract st)
  = loadVolunteersFromFile (F := C) q st.
Proof.
  unfold loadVolunteersFromFile. rewrite abstract_read_volunteers.
  destruct (read_volunteers st); [apply load_loop_abstract | done].
Qed.

(** ** The deployment *)

(** The sites that a deployment writes are sites that the format holds. *)
Lemma arrive_storable st xs i s :
  @read_sites C st = Some xs → xs !! i = Some s → is_int (currentCount s + 1) →
  Forall (@site_storable C) (<[i := arrive s]> xs).
Proof.
  intros Hxs Hi Hc. pose proof (read_sites_storable st xs Hxs) as Hst.
  apply Forall_insert; [done|]. apply site_storable_count; [|done].
  by eapply Forall_lookup_1.
Qed.

Lemma deployVolunteer_abstract q vs st o q' st' :
  VolunteerQueue.models q vs →
  (Z.of_nat (length (sites_of st)) ≤ INT_MAX)%Z →
  Forall site_valid (sites_of st) →
  Forall (@volunteer_storable C) vs →
  deployVolunteer (F := C) q st = Ok (o, q', st') →
  deployVolunteer (F := A) q (abstract st) = Ok (o, q', abstract st').
Proof.
  intros Hq Hslen Hv Hvs Hrun.
  pose proof (deployVolunteer_Ok_length _ _ _ _ Hq Hrun) as Hlen.
  destruct (deployVolunteer_models (F := C) q vs st Hq Hlen Hslen Hv) as (r1 & Hr1 & Hs1).
  destruct (deployVolunteer_models (F := A) q vs (abstract st) Hq Hlen)
    as (r2 & Hr2 & Hs2); [by rewrite abstract_sites_of..|].
  rewrite Hrun in Hr1. simplify_eq. rewrite Hr2. f_equal.
  unfold deploy_spec in *. rewrite abstract_sites_of in Hs2.
  destruct vs as [|v vs]; [by simplify_eq|].
  destruct (decide (sites_of st = [])); [by simplify_eq|].
  destruct (decide (Exists has_room (sites_of st))); [|by simplify_eq].
  destruct Hs1 as (i & s & q1 & Hbest & _ & ?).
  destruct Hs2 as (j & t & q2 & Hbest2 & _ & ->). simplify_eq.
  destruct (best_at_inj _ _ _ _ _ Hbest Hbest2) as [<- <-].
  apply deployVolunteer_dequeue in Hrun. apply deployVolunteer_dequeue in Hr2.
  rewrite Hrun in Hr2. simplify_eq.
  destruct (best_at_room _ _ _ Hv Hbest) as (Hi & _ & _ & Hint).
  apply Forall_cons in Hvs as [? _].
  rewrite abstract_write_sites, abstract_append_deployed; [done | done |].
  eapply arrive_storable; [|done..]. by apply sites_of_Some.
Qed.

(** ** The registrations *)

Lemma saveVolunteerToFile_abstract v st :
  @volunteer_storable C v →
  abstract (saveVolunteerToFile (F := C) v st)
  = saveVolunteerToFile (F := A) v (abstract st).
Proof. apply abstract_append_volunteer. Qed.

Lemma registerSingleVolunteer_abstract input q st r input' q' st' :
  Forall (@volunteer_storable C) (arrival input) →
  registerSingleVolunteer (F := C) input q st = Ok (r, input', q', st') →
  registerSingleVolunteer (F := A) input q (abstract st)
  = Ok (r, input', q', abstract st').
Proof.
  unfold registerSingleVolunteer, arrival, entered.
  destruct (getline input) as [l1 i1], (getline i1) as [l2 i2], (getline i2) as [l3 i3].
  intros Hst Hrun.
  destruct (decide (trim l1 = "")); [by simplify_eq|].
  destruct (decide (trim l2 = "")); [by simplify_eq|].
  destruct (decide (trim l3 = "")); [by simplify_eq|].
  rewrite decide_True in Hst by done. apply Forall_cons in Hst as [Hv _].
  res_inv. simplify_eq.
  match goal with H : VolunteerQueue.enqueue _ _ = _ |- _ => rewrite H end. simpl.
  by rewrite saveVolunteerToFile_abstract.
Qed.

Lemma register_one_abstract i n input q st p input' q' st' p' :
  Forall (@volunteer_storable C) (entry input).1 →
  register_one (F := C) i n input q st p = Ok (input', q', st', p') →
  register_one (F := A) i n input q (abstract st) p
  = Ok (input', q', abstract st', p').
Proof.
  unfold register_one, entry, usable, entered.
  destruct (getline input) as [l1 i1], (getline i1) as [l2 i2], (getline i2) as [l3 i3].
  intros Hst Hrun.
  destruct (decide (trim l1 = "skip")); [by turn_skipped|].
  destruct (decide (trim l1 = "")); [by turn_skipped|].
  destruct (decide (trim l2 = "skip")); [by turn_skipped|].
  destruct (decide (trim l2 = "")); [by turn_skipped|].
  destruct (decide (trim l3 = "skip")); [by turn_skipped|].
  destruct (decide (trim l3 = "")); [by turn_skipped|].
  rewrite !decide_True in Hst by done. apply Forall_cons in Hst as [Hv _].
  apply res_bind_Ok in Hrun as (q1 & -> & Hrun). simpl.
  apply res_bind_Ok in Hrun as (c & -> & Hrun). simpl.
  apply res_bind_Ok in Hrun as (d & -> & Hrun). simpl.
  simplify_eq. by rewrite saveVolunteerToFile_abstract.
Qed.

Lemma register_loop_abstract fuel i n input q vs st p input' q' st' p' :
  VolunteerQueue.models q vs →
  Forall (@volunteer_storable C) (dialogue (Z.to_nat (n - i + 1)) input).1 →
  register_loop (F := C) fuel i n input q st p = Ok (input', q', st', p') →
  register_loop (F := A) fuel i n input q (abstract st) p
  = Ok (input', q', abstract st', p').
Proof.
  revert i input q vs st p. induction fuel as [|fuel IH]; intros i input q vs st p Hq;
    simpl; case_decide; intros Hst Hrun; simplify_eq; try done.
  apply res_bind_Ok in Hrun as ([[[i1 q1] st1] p1] & Hone & Hrun).
  apply res_bind_Ok in Hrun as (i' & Hi & Hrun).
  destruct (register_one_sound _ _ _ _ _ _ _ _ _ _ _ Hq Hone) as (new & Hentry & Hq1 & _).
  replace (Z.to_nat (n - i + 1)) with (S (Z.to_nat (n - (i + 1) + 1))) in Hst by lia.
  simpl in Hst. rewrite Hentry in Hst.
  destruct (dialogue _ i1) as [ws rest] eqn:Hd. simpl in Hst.
  apply Forall_app in Hst as [Hnew Hws].
  rewrite (register_one_abstract _ _ _ _ _ _ _ _ _ _ ltac:(by rewrite Hentry) Hone).
  simpl. rewrite Hi. simpl. apply int_incr_Ok in Hi as [_ ->].
  apply (IH _ _ _ (vs ++ new)); [done | by rewrite Hd | done].
Qed.

Lemma registerMultipleVolunteers_abstract n input q vs st r input' q' st' :
  VolunteerQueue.models q vs →
  Forall (@volunteer_storable C) (arrival_multiple n input) →
  registerMultipleVolunteers (F := C) n input q st = Ok (r, input', q', st') →
  registerMultipleVolunteers (F := A) n input q (abstract st)
  = Ok (r, input', q', abstract st').
Proof.
  intros Hq. unfold registerMultipleVolunteers.
  case_decide; [by intros; simplify_eq|]. rewrite arrival_multiple_eq by done.
  destruct (if decide (50 < n)%Z then _ else _) as [[|] input1];
    [|by intros; simplify_eq].
  intros Hst Hrun.
  apply res_bind_Ok in Hrun as ([[[i1 q1] st1] p1] & Hloop & Hrun).
  rewrite (register_loop_abstract _ _ _ _ _ vs _ _ _ _ _ _ Hq
             ltac:(by replace (n - 1 + 1)%Z with n by lia) Hloop).
  simpl. apply res_bind_Ok in Hrun as (total & -> & Hrun). simpl. by simplify_eq.
Qed.

(** ** The session *)

Lemma handle_abstract c w vs r w' running :
  sane (F := C) w vs → Forall (@volunteer_storable C) (vs ++ arrivals_of c) →
  handle (F := C) c w = Ok (r, w', running) →
  handle (F := A) c (abstract_world w) = Ok (r, abstract_world w', running).
Proof.
  intros (Hq & Hv & _ & Hlen) [Hvs Hnew]%Forall_app Hrun.
  destruct c as [[input|n input|]| | | |]; simpl in *; res_inv_pairs; simplify_eq; try done.
  - by erewrite registerSingleVolunteer_abstract.
  - by erewrite registerMultipleVolunteers_abstract.
  - by erewrite deployVolunteer_abstract.
  - match goal with H : viewRegisteredVolunteers _ = _ |- _ => by rewrite H end.
Qed.

Lemma main_loop_abstract cs w vs rs w' :
  sane (F := C) w vs → Forall (@volunteer_storable C) (vs ++ arrivals cs) →
  main_loop (F := C) cs w = Ok (rs, w') →
  main_loop (F := A) cs (abstract_world w) = Ok (rs, abstract_world w').
Proof.
  revert w vs rs. induction cs as [|c cs IH]; intros w vs rs Hsane Hst Hrun;
    [by simplify_eq/=|].
  cbn [main_loop] in *.
  apply res_bind_Ok in Hrun as ([[r w1] running] & Hturn & Hrun).
  assert (Forall (@volunteer_storable C) (vs ++ arrivals_of c) ∧
          (running = true → Forall (@volunteer_storable C)
                              ((vs ++ arrivals_of c) ++ arrivals cs))) as [Hc Hrest].
  { destruct (decide (c = Exit)) as [->|Hc].
    - simpl in *. rewrite app_nil_r in *. split; [done|]. intros ->. by simplify_eq/=.
    - rewrite arrivals_cons, (assoc_L (++)) in Hst by done.
      split; [by apply Forall_app in Hst as [? _] | done]. }
  rewrite (handle_abstract _ _ _ _ _ _ Hsane Hc Hturn). simpl.
  destruct running; [|by simplify_eq].
  apply res_bind_Ok in Hrun as ([rs1 w2] & Hloop & Hrun). simplify_eq.
  destruct (handle_sane _ _ _ _ _ _ Hsane Hturn) as (vs1 & Hsane1 & _ & Hadv).
  apply Forall_app in Hc as Hvs. destruct Hvs as [Hvs _]. specialize (Hadv Hvs).
  specialize (Hrest eq_refl). apply Forall_app in Hrest as [Hline Hlater].
  rewrite (IH w1 vs1 rs1); [done | done | | done].
  apply Forall_app. split; [|done].
  by eapply Forall_suffix; [apply (advances_suffix (F := C) _ _ _ _ _ Hadv)|].
Qed.

Lemma main_abstract st cs rs st' :
  Forall site_valid (sites_of st) → Forall within_capacity (sites_of st) →
  (Z.of_nat (length (sites_of st)) ≤ INT_MAX)%Z →
  (Z.of_nat (length (ledger st)) ≤ INT_MAX)%Z →
  (Z.of_nat (length (registered st)) ≤ INT_MAX)%Z →
  Forall (@volunteer_storable C) (filter (loadable st) (registered st) ++ arrivals cs) →
  main (F := C) st cs = Ok (rs, st') →
  main (F := A) (abstract st) cs = Ok (rs, abstract st').
Proof.
  intros Hv Hc Hlen Hl Hr Hst. unfold main.
  rewrite loadVolunteersFromFile_abstract.
  destruct (loadVolunteersFromFile_models_new (F := C) st Hl Hr) as (q0 & r0 & -> & Hq0).
  simpl. intros Hrun.
  apply res_bind_Ok in Hrun as ([rs1 w1] & Hloop & Hrun).
  change (mkWorld q0 (abstract st)) with (abstract_world (mkWorld q0 st)).
  rewrite (main_loop_abstract cs (mkWorld q0 st) _ rs1 w1 ltac:(by split_and!) Hst Hloop).
  simpl. apply res_bind_Ok in Hrun as (q1 & -> & Hrun). simpl. by simplify_eq.
Qed.

End refinement.
