(* ===== verification/TextFiles.v ===== *)
(** * The text of the data files

    The three data files of [src/src/main.cpp] as text: what the loops
    [while (std::getline(file, line))] read, how a line is cut into the
    fields of a record ([std::getline(ss, name, ',')] for the volunteers,
    [ss >> name >> currentStr >> maxStr] and [std::stoi] for the sites),
    and what the savers print.  The theorems are the round trips: a
    record that the format can hold is read back as it was written.  The
    examples at the end show the lines that the loaders accept although
    they are not records.  The instance of the interface [Storage] on
    these definitions is in [Disk]. *)

From Stdlib Require Import Ascii String.
From S2P Require Import Prelude Chain CustomLists Queue Ratio SiteAlgorithm Text Deploy.

(** The characters of a file, of a line or of a field. *)
Definition text : Type := list ascii.

Definition newline : ascii := "010"%char.
Definition comma : ascii := ","%char.

(** ** Lines *)

(** The characters before the first [delim] and those after it. *)
Fixpoint until (delim : ascii) (s : text) : text * text :=
  match s with
  | [] => ([], [])
  | c :: s' =>
      if decide (c = delim) then ([], s')
      else let '(l, r) := until delim s' in (c :: l, r)
  end.

(** [std::getline(stream, line, delim)] on what is left of the stream:
    the line and the rest, [None] when no character could be extracted
    and the stream fails. *)
Definition getline_delim (delim : ascii) (s : text) : option (text * text) :=
  match s with
  | [] => None
  | _ => Some (until delim s)
  end.

(** [while (std::getline(file, line)) { ... }]: the lines that the loop
    sees, within a budget of turns. *)
Fixpoint read_lines (fuel : nat) (s : text) : list text :=
  match fuel with
  | 0 => []
  | S fuel' =>
      match getline_delim newline s with
      | None => []
      | Some (line, rest) => line :: read_lines fuel' rest
      end
  end.

(** Every turn extracts a character: the length of the file is budget
    enough. *)
Definition lines (s : text) : list text := read_lines (length s) s.

(** The text of lines that each end with a line feed. *)
Definition unlines (ls : list text) : text :=
  concat ((λ l, l ++ [newline]) <$> ls).

(** [checkFile.seekg(-1, std::ios::end); checkFile.get(lastChar) &&
    lastChar != '\n'] *)
Definition needsNewline (s : text) : bool :=
  match last s with
  | Some lastChar => bool_decide (lastChar ≠ newline)
  | None => false
  end.

(** The file after [if (needsNewline) file << "\n"]. *)
Definition terminate (s : text) : text :=
  if needsNewline s then s ++ [newline] else s.

(** *** Lemmas on lines *)

Lemma until_spec delim s :
  (∃ l r, s = l ++ delim :: r ∧ (delim ∉ l) ∧ until delim s = (l, r)) ∨
  ((delim ∉ s) ∧ until delim s = (s, [])).
Proof.
  induction s as [|c s IH]; simpl.
  { right. split; [apply not_elem_of_nil | done]. }
  case_decide as Hc.
  { left. exists [], s. subst. split_and!; [done | apply not_elem_of_nil | done]. }
  destruct IH as [(l & r & -> & Hl & ->)|[Hs ->]].
  - left. exists (c :: l), r. split_and!; [done | | done].
    apply not_elem_of_cons. by split; [congruence|].
  - right. split; [|done]. apply not_elem_of_cons. by split; [congruence|].
Qed.

Lemma until_app delim l r :
  delim ∉ l → until delim (l ++ delim :: r) = (l, r).
Proof.
  induction l as [|c l IH]; simpl; intros Hl.
  { by rewrite decide_True. }
  apply not_elem_of_cons in Hl as [? ?]. rewrite decide_False by done.
  by rewrite IH.
Qed.

Lemma until_all delim l : delim ∉ l → until delim l = (l, []).
Proof.
  induction l as [|c l IH]; simpl; intros Hl; [done|].
  apply not_elem_of_cons in Hl as [? ?]. rewrite decide_False by done.
  by rewrite IH.
Qed.

Lemma until_length delim s : length (until delim s).2 ≤ pred (length s).
Proof.
  induction s as [|c s IH]; simpl; [done|]. case_decide; simpl; [done|].
  destruct (until delim s). simpl in *. lia.
Qed.

Lemma until_lengths delim s :
  length (until delim s).1 + length (until delim s).2 ≤ length s.
Proof.
  induction s as [|c s IH]; simpl; [done|]. case_decide; simpl; [lia|].
  destruct (until delim s). simpl in *. lia.
Qed.

(** A file has no more lines than characters, and no line is longer
    than the file. *)
Lemma read_lines_length fuel s : length (read_lines fuel s) ≤ length s.
Proof.
  revert s. induction fuel as [|fuel IH]; intros [|c s]; try (simpl; lia).
  cbn [read_lines getline_delim length].
  pose proof (until_length newline (c :: s)) as Hr.
  destruct (until newline (c :: s)) as [l r]. specialize (IH r). simpl in *. lia.
Qed.

Lemma read_lines_Forall_length fuel s :
  Forall (λ l, length l ≤ length s) (read_lines fuel s).
Proof.
  revert s. induction fuel as [|fuel IH]; intros [|c s]; try by constructor.
  cbn [read_lines getline_delim].
  pose proof (until_lengths newline (c :: s)) as Hr.
  destruct (until newline (c :: s)) as [l r]. specialize (IH r).
  cbn [fst snd] in Hr. constructor; [lia|].
  eapply Forall_impl; [done|]. cbn beta. intros; lia.
Qed.

(** The lines do not depend on the budget, once it is the length. *)
Lemma read_lines_enough fuel fuel' s :
  length s ≤ fuel → length s ≤ fuel' → read_lines fuel s = read_lines fuel' s.
Proof.
  revert fuel' s. induction fuel as [|fuel IH]; intros [|fuel'] [|c s] ??;
    try done; try (simpl in *; lia).
  cbn [read_lines getline_delim].
  pose proof (until_length newline (c :: s)) as Hr.
  destruct (until newline (c :: s)) as [l r].
  f_equal. apply IH; simpl in *; lia.
Qed.

Lemma lines_nil : lines [] = [].
Proof. done. Qed.

Lemma lines_cons l r :
  newline ∉ l → lines (l ++ newline :: r) = l :: lines r.
Proof.
  intros Hl. unfold lines. destruct (l ++ newline :: r) as [|c s] eqn:Hs.
  { by destruct l. }
  cbn [length read_lines getline_delim]. rewrite <-Hs, until_app by done.
  f_equal. apply read_lines_enough; [|done].
  apply (f_equal length) in Hs. rewrite length_app in Hs. simpl in Hs. lia.
Qed.

Lemma lines_last l : l ≠ [] → newline ∉ l → lines l = [l].
Proof.
  intros Hne Hl. unfold lines. destruct l as [|c s]; [done|].
  cbn [length read_lines getline_delim]. rewrite until_all by done.
  by destruct (length s).
Qed.

Lemma unlines_cons l ls : unlines (l :: ls) = l ++ newline :: unlines ls.
Proof. unfold unlines. simpl. by rewrite <-(assoc_L (++)). Qed.

Lemma unlines_app ls ks : unlines (ls ++ ks) = unlines ls ++ unlines ks.
Proof. unfold unlines. by rewrite fmap_app, concat_app. Qed.

Lemma lines_unlines_app ls s :
  Forall (λ l, newline ∉ l) ls → lines (unlines ls ++ s) = ls ++ lines s.
Proof.
  induction 1 as [|l ls Hl _ IH]; [done|].
  rewrite unlines_cons, <-(assoc_L (++)). simpl.
  by rewrite lines_cons, IH.
Qed.

Lemma lines_unlines ls : Forall (λ l, newline ∉ l) ls → lines (unlines ls) = ls.
Proof.
  intros Hls. rewrite <-(app_nil_r (unlines ls)), lines_unlines_app by done.
  by rewrite lines_nil, app_nil_r.
Qed.

Lemma terminate_app l r :
  terminate (l ++ newline :: r) = l ++ newline :: terminate r.
Proof.
  unfold terminate, needsNewline. rewrite last_app, last_cons.
  destruct (last r) as [e|]; simpl.
  - by destruct (bool_decide (e ≠ newline)); rewrite <-?(assoc_L (++)).
  - done.
Qed.

(** A file with the line feed that an append adds when it is missing
    is the text of its lines. *)
Lemma terminate_lines s :
  terminate s = unlines (lines s) ∧ Forall (λ l, newline ∉ l) (lines s).
Proof.
  induction s as [s IH] using (induction_ltof1 _ length). unfold ltof in IH.
  destruct (decide (s = [])) as [->|Hne]; [done|].
  destruct (until_spec newline s) as [(l & r & -> & Hl & _)|[Hs _]].
  - rewrite terminate_app, lines_cons by done.
    destruct (IH r) as [-> Hr]; [rewrite length_app; simpl; lia|].
    split; [by rewrite unlines_cons | by constructor].
  - rewrite lines_last by done. split; [|by repeat constructor].
    rewrite unlines_cons. unfold terminate, needsNewline.
    destruct (last s) as [c|] eqn:Hc; [|by apply last_None in Hc].
    rewrite bool_decide_eq_true_2; [done|]. intros ->.
    apply Hs. apply last_Some in Hc as [s' ->]. set_solver.
Qed.

(** What an append of one line does to the lines of a file. *)
Lemma lines_append s l :
  newline ∉ l → lines (terminate s ++ l ++ [newline]) = lines s ++ [l].
Proof.
  intros Hl. destruct (terminate_lines s) as [-> Hs].
  change (l ++ [newline]) with (l ++ newline :: unlines []).
  rewrite <-unlines_cons, <-unlines_app. apply lines_unlines.
  apply Forall_app. split; [done | by repeat constructor].
Qed.

(** ** Characters and strings *)

Definition chars (x : string) : text := list_ascii_of_string x.
Definition str (l : text) : string := string_of_list_ascii l.

Lemma chars_str l : chars (str l) = l.
Proof. apply list_ascii_of_string_of_list_ascii. Qed.

Lemma str_chars x : str (chars x) = x.
Proof. apply string_of_list_ascii_of_string. Qed.

Lemma chars_inj x y : chars x = chars y → x = y.
Proof. intros H. by rewrite <-(str_chars x), H, str_chars. Qed.

Lemma chars_nil x : chars x = [] ↔ x = "".
Proof. split; [intros H; by apply chars_inj | by intros ->]. Qed.

Lemma trim_str l : trim (str l) = str (trim_chars l).
Proof. unfold trim, str. by rewrite list_ascii_of_string_of_list_ascii. Qed.

(** The longest prefix whose characters satisfy [p], and the rest. *)
Fixpoint take_while (p : ascii → bool) (l : text) : text :=
  match l with
  | c :: l' => if p c then c :: take_while p l' else []
  | [] => []
  end.

Fixpoint drop_while (p : ascii → bool) (l : text) : text :=
  match l with
  | c :: l' => if p c then drop_while p l' else l
  | [] => []
  end.

Lemma take_while_app p l c r :
  Forall (λ x, p x = true) l → p c = false → take_while p (l ++ c :: r) = l.
Proof.
  induction 1 as [|x l Hx _ IH]; simpl; intros Hc; [by rewrite Hc|].
  by rewrite Hx, IH.
Qed.

Lemma drop_while_app p l c r :
  Forall (λ x, p x = true) l → p c = false → drop_while p (l ++ c :: r) = c :: r.
Proof.
  induction 1 as [|x l Hx _ IH]; simpl; intros Hc; [by rewrite Hc|].
  by rewrite Hx, IH.
Qed.

(** The scan stops at the first character that fails the test,
    whatever follows. *)
Lemma take_while_stop p l c r :
  p c = false → take_while p (l ++ c :: r) = take_while p l.
Proof.
  intros Hc. induction l as [|x l IH]; simpl; [by rewrite Hc|].
  destruct (p x); [by rewrite IH | done].
Qed.

Lemma drop_while_stop p l c r :
  p c = false → drop_while p (l ++ c :: r) = drop_while p l ++ c :: r.
Proof.
  intros Hc. induction l as [|x l IH]; simpl; [by rewrite Hc|].
  by destruct (p x).
Qed.

Lemma drop_while_skip p l r :
  drop_while p l = [] → drop_while p (l ++ r) = drop_while p r.
Proof.
  induction l as [|x l IH]; simpl; [done|]. by destruct (p x).
Qed.

Lemma drop_while_keep_app p l r :
  drop_while p l ≠ [] → drop_while p (l ++ r) = drop_while p l ++ r.
Proof.
  induction l as [|x l IH]; simpl; [done|]. by destruct (p x).
Qed.

Lemma drop_while_subseteq p l : drop_while p l ⊆ l.
Proof.
  induction l as [|x l IH]; simpl; [done|]. destruct (p x); [|done].
  by apply list_subseteq_cons.
Qed.

Lemma take_while_all p l : Forall (λ x, p x = true) l → take_while p l = l.
Proof. induction 1 as [|x l Hx _ IH]; simpl; [done|]. by rewrite Hx, IH. Qed.

Lemma drop_while_all p l : Forall (λ x, p x = true) l → drop_while p l = [].
Proof. induction 1 as [|x l Hx _ IH]; simpl; [done|]. by rewrite Hx, IH. Qed.

Lemma take_while_Forall p l : Forall (λ x, p x = true) (take_while p l).
Proof.
  induction l as [|c l IH]; simpl; [done|].
  destruct (p c) eqn:Hc; by constructor.
Qed.

Lemma take_drop_while p l : take_while p l ++ drop_while p l = l.
Proof.
  induction l as [|c l IH]; simpl; [done|]. destruct (p c); [|done].
  simpl. by rewrite IH.
Qed.

Lemma drop_while_head p l c r : drop_while p l = c :: r → p c = false.
Proof.
  induction l as [|x l IH]; simpl; [done|].
  destruct (p x) eqn:Hx; [done|]. by intros [= <- _].
Qed.

Lemma omap_fmap_id {A B} (f : B → option A) (g : A → B) (xs : list A) :
  Forall (λ x, f (g x) = Some x) xs → omap f (g <$> xs) = xs.
Proof.
  induction 1 as [|x xs Hx _ IH]; [done|]. csimpl. by rewrite Hx, IH.
Qed.

(** ** The volunteer files *)

(** [line = trim(line); if (line.empty()) continue;] and then the
    parse of the line, in the loops of the loaders. *)
Definition record_of_line {A} (parse : text → option A) (line : text) : option A :=
  let line := trim_chars line in
  if decide (line = []) then None else parse line.

(** The three [std::getline] on the [std::stringstream] of a line,
    the first two up to a comma, and the [trim] of the three fields. *)
Definition parse_volunteer (line : text) : option Volunteer :=
  '(name, ss) ← getline_delim comma line;
  '(contact, ss) ← getline_delim comma ss;
  '(skill, _) ← getline_delim newline ss;
  Some (mkVolunteer (trim (str name)) (trim (str contact)) (trim (str skill))).

(** The records of a volunteer file, as the loops of
    [loadVolunteersFromFile] and [isVolunteerDeployed] parse them. *)
Definition text_volunteers (s : text) : list Volunteer :=
  omap (record_of_line parse_volunteer) (lines s).

(** [file << volunteer.name << "," << volunteer.contact << "," <<
    volunteer.skill] *)
Definition print_volunteer (v : Volunteer) : text :=
  chars (name v) ++ comma :: chars (contact v) ++ comma :: chars (skill v).

(** The append of one line to a file that is created when it does not
    exist: [std::ofstream file(filename, std::ios::app)], the line feed
    when it is needed, the line and [std::endl]. *)
Definition append_line (line : text) (file : option text) : option text :=
  Some (terminate (default [] file) ++ line ++ [newline]).

(** A field that a line can hold: trimmed, and on one line. *)
Definition field_ok (x : string) : Prop := trim x = x ∧ newline ∉ chars x.

(** The volunteers that a line can hold: no comma in the name or in the
    contact, and a skill. *)
Definition volunteer_text_ok (v : Volunteer) : Prop :=
  (field_ok (name v) ∧ comma ∉ chars (name v)) ∧
  (field_ok (contact v) ∧ comma ∉ chars (contact v)) ∧
  (field_ok (skill v) ∧ skill v ≠ "").

#[export] Instance field_ok_dec x : Decision (field_ok x).
Proof. unfold field_ok. apply _. Defined.
#[export] Instance volunteer_text_ok_dec v : Decision (volunteer_text_ok v).
Proof. unfold volunteer_text_ok. apply _. Defined.

(** *** Lemmas *)

(** A trimmed string that is not empty begins and ends with characters
    that are not whitespace. *)
Lemma trimmed_ends x :
  trim x = x → x ≠ "" →
  ∃ c d, head (chars x) = Some c ∧ is_ws c = false ∧
         last (chars x) = Some d ∧ is_ws d = false.
Proof.
  intros Hx Hne. destruct (trim_ends x) as [Hhead Hlast]. rewrite Hx in *.
  unfold chars. destruct (list_ascii_of_string x) as [|c l] eqn:Hl.
  { destruct Hne. by apply chars_nil. }
  destruct (last (c :: l)) as [d|] eqn:Hd; [|by apply last_None in Hd].
  exists c, d. split_and!; [done | by eapply Hhead | done | by apply Hlast].
Qed.

Lemma is_ws_comma : is_ws comma = false.
Proof. done. Qed.

(** The line of a volunteer is kept by the [trim] of the loaders. *)
Lemma print_volunteer_trim v :
  volunteer_text_ok v →
  trim_chars (print_volunteer v) = print_volunteer v ∧ print_volunteer v ≠ [] ∧
  newline ∉ print_volunteer v.
Proof.
  intros ([[Hn Hnl] _] & [[_ Hcl] _] & [[Hs Hsl] Hne]).
  destruct (trimmed_ends _ Hs Hne) as (_ & d & _ & _ & Hd & Hwd).
  unfold print_volunteer. split_and!.
  - rewrite trim_chars_strip.
    assert (last (chars (name v) ++ comma :: chars (contact v) ++ comma :: chars (skill v))
            = Some d) as Hlast.
    { rewrite last_app, last_cons, last_app, last_cons, Hd. done. }
    destruct (decide (name v = "")) as [Hn0|Hn0].
    + rewrite Hn0 in *. by eapply (strip_fixed _ comma d).
    + destruct (trimmed_ends _ Hn Hn0) as (c & _ & Hc & Hwc & _).
      eapply (strip_fixed _ c d); [|done..].
      by destruct (chars (name v)).
  - by destruct (chars (name v)).
  - rewrite !elem_of_app, !elem_of_cons, !elem_of_app, !elem_of_cons.
    unfold newline, comma in *. naive_solver.
Qed.

(** The round trip of one line. *)
Lemma parse_print_volunteer v :
  volunteer_text_ok v → parse_volunteer (print_volunteer v) = Some v.
Proof.
  intros ([[Hn _] Hnc] & [[Hc _] Hcc] & [[Hs Hsl] Hne]).
  unfold parse_volunteer, print_volunteer, getline_delim.
  destruct (chars (name v) ++ _) as [|x l] eqn:Hline; [by destruct (chars (name v))|].
  rewrite <-Hline, until_app by done. simpl.
  destruct (chars (contact v) ++ _) as [|y k] eqn:Hrest; [by destruct (chars (contact v))|].
  rewrite <-Hrest, until_app by done. simpl.
  destruct (chars (skill v)) as [|z m] eqn:Hskill.
  { destruct Hne. by apply chars_nil. }
  rewrite until_all by done. rewrite <-Hskill. simpl.
  rewrite !str_chars, Hn, Hc, Hs. by destruct v.
Qed.

Lemma record_print_volunteer v :
  volunteer_text_ok v →
  record_of_line parse_volunteer (print_volunteer v) = Some v.
Proof.
  intros Hv. destruct (print_volunteer_trim v Hv) as (Ht & Hne & _).
  unfold record_of_line. rewrite Ht, decide_False by done.
  by apply parse_print_volunteer.
Qed.

(** What an append does to the records of a file. *)
Lemma text_volunteers_append v file :
  volunteer_text_ok v →
  text_volunteers <$> append_line (print_volunteer v) file
  = Some (default [] (text_volunteers <$> file) ++ [v]).
Proof.
  intros Hv. destruct (print_volunteer_trim v Hv) as (_ & _ & Hnl).
  unfold append_line, text_volunteers. simpl. f_equal.
  rewrite lines_append, omap_app by done. simpl.
  rewrite record_print_volunteer by done. by destruct file.
Qed.

(** ** The sites file *)

(** [std::isspace] in the C locale: the characters that [operator>>]
    and [std::stoi] skip. *)
Definition isspace (c : ascii) : bool :=
  bool_decide (c ∈ [" "; "009"; "010"; "011"; "012"; "013"]%char).

Definition notspace (c : ascii) : bool := negb (isspace c).

(** [ss >> word]: the whitespace is skipped and the characters up to
    the next whitespace are extracted; [None] when there is none and the
    stream fails. *)
Definition extract (ss : text) : option (text * text) :=
  let ss := drop_while isspace ss in
  if decide (ss = []) then None
  else Some (take_while notspace ss, drop_while notspace ss).

Definition is_digit (c : ascii) : bool :=
  bool_decide (48 ≤ N_of_ascii c ≤ 57)%N.

Definition digit_value (c : ascii) : Z := Z.of_N (N_of_ascii c) - 48.

(** The number that a sequence of digits denotes. *)
Definition number (ds : text) : Z :=
  foldl (λ acc c, 10 * acc + digit_value c)%Z 0%Z ds.

(** [std::stoi(str)]: the whitespace is skipped, a sign is taken, then
    the longest sequence of digits; what follows is ignored.  [None]
    stands for the two exceptions, [std::invalid_argument] without a
    digit and [std::out_of_range] outside [int]; the loader catches
    both. *)
Definition stoi (s : text) : option Z :=
  let s := drop_while isspace s in
  let '(negative, s) :=
    match s with
    | c :: s' =>
        if decide (c = "-"%char) then (true, s')
        else if decide (c = "+"%char) then (false, s') else (false, s)
    | [] => (false, [])
    end in
  let ds := take_while is_digit s in
  if decide (ds = []) then None
  else
    let v := if negative : bool then (- number ds)%Z else number ds in
    if decide (is_int v) then Some v else None.

(** [if (ss >> name >> currentStr >> maxStr)] and the [try] block with
    the two [std::stoi]. *)
Definition parse_site (line : text) : option ReliefSite :=
  '(name, ss) ← extract line;
  '(currentStr, ss) ← extract ss;
  '(maxStr, _) ← extract ss;
  current ← stoi currentStr;
  max ← stoi maxStr;
  Some (mkSite (str name) current max).

(** The records of the sites file, as the loop of [loadReliefSites]
    parses them. *)
Definition text_sites (s : text) : list ReliefSite :=
  omap (record_of_line parse_site) (lines s).

Definition digit_char (d : Z) : ascii := ascii_of_N (Z.to_N (d + 48)).

(** The decimal digits of a number that is not negative, at most
    [fuel] of them. *)
Fixpoint digits (fuel : nat) (n : Z) : text :=
  match fuel with
  | 0 => []
  | S fuel' =>
      (if decide (n < 10)%Z then [] else digits fuel' (n / 10))
      ++ [digit_char (n mod 10)]
  end.

(** [file << n] for an [int]: it has ten digits at most. *)
Definition print_int (n : Z) : text :=
  if decide (n < 0)%Z then "-"%char :: digits 10 (- n) else digits 10 n.

(** [file << it->name << " " << it->currentCount << " " <<
    it->maxCapacity] *)
Definition print_site (s : ReliefSite) : text :=
  chars (site_name s) ++ " "%char :: print_int (currentCount s)
  ++ " "%char :: print_int (maxCapacity s).

(** The file that [saveReliefSites] writes. *)
Definition print_sites (xs : list ReliefSite) : text :=
  unlines (print_site <$> xs).

(** The sites that a line can hold: a name without whitespace, and
    two [int]s. *)
Definition site_text_ok (s : ReliefSite) : Prop :=
  (site_name s ≠ "" ∧ Forall (λ c, notspace c = true) (chars (site_name s))) ∧
  site_ok s.

#[export] Instance site_text_ok_dec s : Decision (site_text_ok s).
Proof. unfold site_text_ok. apply _. Defined.

(** *** Digits *)

Lemma digit_char_spec d :
  (0 ≤ d ≤ 9)%Z → is_digit (digit_char d) = true ∧ digit_value (digit_char d) = d.
Proof.
  intros Hd. unfold is_digit, digit_value, digit_char.
  rewrite N_ascii_embedding by lia. split; [apply bool_decide_eq_true|]; lia.
Qed.

(** A digit is no whitespace and no sign. *)
Lemma is_digit_plain c :
  is_digit c = true →
  isspace c = false ∧ is_ws c = false ∧ c ≠ "-"%char ∧ c ≠ "+"%char.
Proof.
  intros Hc%bool_decide_eq_true.
  assert (∀ l, Forall (λ d, (N_of_ascii d < 48)%N) l → c ∉ l) as Hnot.
  { intros l Hl Hin. eapply Forall_forall in Hl; [|done]. lia. }
  split_and!; [apply bool_decide_eq_false, Hnot | apply bool_decide_eq_false, Hnot
              | intros -> | intros ->]; [by repeat constructor.. | |].
  - by apply (Hnot ["-"%char]); [repeat constructor | left].
  - by apply (Hnot ["+"%char]); [repeat constructor | left].
Qed.

Lemma number_snoc ds c : number (ds ++ [c]) = (10 * number ds + digit_value c)%Z.
Proof. unfold number. by rewrite foldl_app. Qed.

Lemma digits_Forall fuel n : Forall (λ c, is_digit c = true) (digits fuel n).
Proof.
  revert n. induction fuel as [|fuel IH]; intros n; simpl; [done|].
  apply Forall_app. split; [by case_decide|].
  repeat constructor. apply digit_char_spec.
  pose proof (Z.mod_pos_bound n 10). lia.
Qed.

Lemma digits_last fuel n : last (digits (S fuel) n) = Some (digit_char (n mod 10)).
Proof. simpl. by rewrite last_snoc. Qed.

Lemma digit_mod n : digit_value (digit_char (n mod 10)) = (n mod 10)%Z.
Proof. apply digit_char_spec. pose proof (Z.mod_pos_bound n 10). lia. Qed.

Lemma digits_S fuel n :
  digits (S fuel) n
  = (if decide (n < 10)%Z then [] else digits fuel (n / 10)) ++ [digit_char (n mod 10)].
Proof. done. Qed.

(** The digits denote the number, when there is room for them. *)
Lemma number_digits fuel n :
  (0 ≤ n < 10 ^ Z.of_nat (S fuel))%Z → number (digits (S fuel) n) = n.
Proof.
  revert n. induction fuel as [|fuel IH]; intros n Hn;
    rewrite digits_S, number_snoc, digit_mod.
  - change (10 ^ Z.of_nat 1)%Z with 10%Z in Hn.
    rewrite decide_True by lia. cbn. rewrite Z.mod_small; lia.
  - case_decide; [cbn; rewrite Z.mod_small; lia|].
    rewrite IH; [pose proof (Z.div_mod n 10); lia|].
    split; [apply Z.div_pos; lia|].
    apply Z.div_lt_upper_bound; [lia|].
    rewrite <-Z.pow_succ_r, <-Nat2Z.inj_succ by lia. lia.
Qed.

Lemma drop_while_keep p l c :
  head l = Some c → p c = false → drop_while p l = l.
Proof. destruct l; simpl; [done|]. by intros [= ->] ->. Qed.

(** [std::stoi] on digits, and on digits after a minus. *)
Lemma stoi_digits ds :
  ds ≠ [] → Forall (λ c, is_digit c = true) ds → is_int (number ds) →
  stoi ds = Some (number ds).
Proof.
  intros Hne Hds Hint. unfold stoi. destruct ds as [|c ds]; [done|].
  apply Forall_cons in Hds as Hc. destruct Hc as [Hc _].
  destruct (is_digit_plain c Hc) as (Hsp & _ & ? & ?).
  rewrite (drop_while_keep _ _ c) by done.
  rewrite !decide_False by done. rewrite take_while_all by done.
  by rewrite decide_False, decide_True.
Qed.

Lemma stoi_minus ds :
  ds ≠ [] → Forall (λ c, is_digit c = true) ds → is_int (- number ds) →
  stoi ("-"%char :: ds) = Some (- number ds)%Z.
Proof.
  intros Hne Hds Hint. unfold stoi. simpl.
  rewrite take_while_all by done. by rewrite decide_False, decide_True.
Qed.

(** Ten digits are enough for the absolute value of an [int]. *)
Lemma digits_int n :
  (0 ≤ n ≤ 2147483648)%Z → number (digits 10 n) = n ∧ digits 10 n ≠ [].
Proof.
  intros Hn. split.
  - apply (number_digits 9). change (10 ^ Z.of_nat 10)%Z with 10000000000%Z. lia.
  - rewrite digits_S. by destruct (if decide _ then _ else _).
Qed.

(** The round trip of an [int]. *)
Lemma stoi_print_int_eq n : is_int n → stoi (print_int n) = Some n.
Proof.
  intros Hn. unfold print_int. case_decide.
  - destruct (digits_int (- n)) as [Hnum Hne]; [int_solve|].
    rewrite stoi_minus; rewrite ?Hnum; [f_equal; lia | done | apply digits_Forall |].
    by replace (- - n)%Z with n by lia.
  - destruct (digits_int n) as [Hnum Hne]; [int_solve|].
    rewrite stoi_digits; rewrite ?Hnum; [done | done | apply digits_Forall | done].
Qed.

Lemma print_int_plain n :
  Forall (λ c, notspace c = true) (print_int n) ∧
  ∃ c d, head (print_int n) = Some c ∧ last (print_int n) = Some d ∧
         is_digit d = true.
Proof.
  assert (∀ m, Forall (λ c, notspace c = true) (digits 10 m)) as Hdigits.
  { intros m. eapply Forall_impl; [apply digits_Forall|].
    intros c Hc. unfold notspace. by destruct (is_digit_plain c Hc) as [-> _]. }
  assert (∀ m, is_digit (digit_char (m mod 10)) = true) as Hlast.
  { intros m. apply digit_char_spec. pose proof (Z.mod_pos_bound m 10). lia. }
  unfold print_int. case_decide.
  - split; [by constructor|]. eexists _, _. rewrite last_cons, digits_last.
    by split_and!.
  - split; [done|]. pose proof (digits_last 9 n) as Hl.
    destruct (digits 10 n) as [|c l] eqn:Hd; [done|].
    exists c. eexists. by split_and!.
Qed.

(** *** Words *)

Lemma notspace_ws c : notspace c = true → is_ws c = false ∧ c ≠ newline.
Proof.
  unfold notspace, isspace, is_ws, whitespace.
  intros Hc%negb_true_iff%bool_decide_eq_false.
  split; [apply bool_decide_eq_false|]; set_solver.
Qed.

Lemma notspace_newline l : Forall (λ c, notspace c = true) l → newline ∉ l.
Proof.
  intros Hl Hin. eapply Forall_forall in Hl; [|done].
  by apply notspace_ws in Hl as [_ ?].
Qed.

(** [ss >> word] on a word that the stream begins with. *)
Lemma extract_word w r :
  w ≠ [] → Forall (λ c, notspace c = true) w →
  extract (w ++ " "%char :: r) = Some (w, " "%char :: r).
Proof.
  intros Hne Hw. unfold extract. destruct w as [|c w]; [done|].
  apply Forall_cons in Hw as Hc. destruct Hc as [Hc _].
  rewrite (drop_while_keep isspace _ c); [|done | by apply negb_true_iff].
  rewrite decide_False by done.
  by rewrite take_while_app, drop_while_app.
Qed.

Lemma extract_last w :
  w ≠ [] → Forall (λ c, notspace c = true) w → extract w = Some (w, []).
Proof.
  intros Hne Hw. unfold extract. destruct w as [|c w]; [done|].
  apply Forall_cons in Hw as Hc. destruct Hc as [Hc _].
  rewrite (drop_while_keep isspace _ c); [|done | by apply negb_true_iff].
  rewrite decide_False by done.
  by rewrite take_while_all, drop_while_all.
Qed.

Lemma extract_space s : extract (" "%char :: s) = extract s.
Proof. done. Qed.

(** A word that [ss >> word] extracts is not empty and has no
    whitespace. *)
Lemma extract_Some ss w r :
  extract ss = Some (w, r) → w ≠ [] ∧ Forall (λ c, notspace c = true) w.
Proof.
  unfold extract. case_decide as Hne; [done|]. intros [= <- <-].
  split; [|apply take_while_Forall].
  destruct (drop_while isspace ss) as [|c l] eqn:Hd; [done|].
  apply drop_while_head in Hd. simpl. unfold notspace at 1. by rewrite Hd.
Qed.

(** A number that [std::stoi] returns is an [int]. *)
Lemma stoi_Some s n : stoi s = Some n → is_int n.
Proof.
  unfold stoi. destruct (match drop_while isspace s with [] => _ | _ => _ end) as [neg r].
  repeat case_decide; by intros [= <-].
Qed.

(** *** The round trip of a site *)

Lemma print_site_trim s :
  site_text_ok s →
  trim_chars (print_site s) = print_site s ∧ print_site s ≠ [] ∧
  newline ∉ print_site s.
Proof.
  intros [[Hne Hname] _]. unfold print_site.
  destruct (print_int_plain (currentCount s)) as [Hc _].
  destruct (print_int_plain (maxCapacity s)) as [Hm (_ & d & _ & Hd & Hdd)].
  destruct (chars (site_name s)) as [|c l] eqn:Hn; [by apply chars_nil in Hn|].
  apply Forall_cons in Hname as Hc0. destruct Hc0 as [Hc0 _].
  split_and!; [|done|].
  - rewrite trim_chars_strip. apply (strip_fixed _ c d); [done | | |].
    + by apply notspace_ws.
    + rewrite last_app, last_cons, last_app, last_cons, Hd. done.
    + by apply is_digit_plain.
  - pose proof (notspace_newline _ Hname). pose proof (notspace_newline _ Hc).
    pose proof (notspace_newline _ Hm).
    unfold newline in *. set_solver.
Qed.

Lemma parse_print_site s :
  site_text_ok s → parse_site (print_site s) = Some s.
Proof.
  intros [[Hne Hname] [Hc Hm]]. unfold parse_site, print_site.
  destruct (print_int_plain (currentCount s)) as [Hcs (c1 & _ & Hc1 & _)].
  destruct (print_int_plain (maxCapacity s)) as [Hms (c2 & _ & Hc2 & _)].
  rewrite extract_word; [|by rewrite chars_nil | done]. simpl.
  rewrite extract_space, extract_word; [|by intros E; rewrite E in Hc1 | done]. simpl.
  rewrite extract_space, extract_last; [|by intros E; rewrite E in Hc2 | done]. simpl.
  rewrite !stoi_print_int_eq by done. simpl. rewrite str_chars. by destruct s.
Qed.

Lemma record_print_site s :
  site_text_ok s → record_of_line parse_site (print_site s) = Some s.
Proof.
  intros Hs. destruct (print_site_trim s Hs) as (Ht & Hne & _).
  unfold record_of_line. rewrite Ht, decide_False by done.
  by apply parse_print_site.
Qed.

(** A site that the loader reads has a name without whitespace and
    two [int]s. *)
Lemma parse_site_ok line s : parse_site line = Some s → site_text_ok s.
Proof.
  unfold parse_site. intros H.
  repeat (match type of H with
          | (?m ≫= _) = Some _ => destruct m as [[? ?]|] eqn:? || destruct m eqn:?
          end; simplify_eq/=).
  repeat match goal with H : extract _ = Some _ |- _ => apply extract_Some in H end.
  repeat match goal with H : stoi _ = Some _ |- _ => apply stoi_Some in H end.
  destruct_and?. unfold site_text_ok, site_ok. simpl. rewrite chars_str.
  split_and!; try done. intros Hn%chars_nil. by rewrite chars_str in Hn.
Qed.

(** Reading what [saveReliefSites] wrote. *)
Lemma text_sites_print xs :
  Forall site_text_ok xs → text_sites (print_sites xs) = xs.
Proof.
  intros Hxs. unfold text_sites, print_sites. rewrite lines_unlines.
  - apply omap_fmap_id. eapply Forall_impl; [done|]. apply record_print_site.
  - apply Forall_fmap. eapply Forall_impl; [done|]. intros s Hs. simpl.
    by destruct (print_site_trim s Hs) as (_ & _ & ?).
Qed.

Lemma text_sites_ok s : Forall site_text_ok (text_sites s).
Proof.
  unfold text_sites. apply Forall_forall. intros x (line & _ & Hx)%list_elem_of_omap.
  unfold record_of_line in Hx. case_decide; [done|]. by eapply parse_site_ok.
Qed.

(** *** The records that the loaders read *)

(** A volunteer that the loaders read from a line has trimmed fields on
    one line and no comma in the name or in the contact. *)
Lemma parse_volunteer_ok line v :
  newline ∉ line → parse_volunteer line = Some v →
  (field_ok (name v) ∧ comma ∉ chars (name v)) ∧
  (field_ok (contact v) ∧ comma ∉ chars (contact v)) ∧ field_ok (skill v).
Proof.
  intros Hnl. unfold parse_volunteer, getline_delim.
  destruct line as [|c line]; [done|]. cbn [mbind option_bind].
  destruct (until_spec comma (c :: line)) as [(n & r1 & Hline & Hn & ->)|[_ ->]]; [|done].
  simpl. destruct r1 as [|c1 r1]; [done|]. cbn [mbind option_bind].
  destruct (until_spec comma (c1 :: r1)) as [(k & r2 & Hr1 & Hk & ->)|[_ ->]]; [|done].
  simpl. destruct r2 as [|c2 r2]; [done|]. cbn [mbind option_bind].
  destruct (until newline (c2 :: r2)) as [sk r3] eqn:Hsk. intros [= <-]. simpl.
  assert ((newline ∉ n) ∧ (newline ∉ k) ∧ (newline ∉ sk)) as (? & ? & ?).
  { rewrite Hline, Hr1 in Hnl.
    destruct (until_spec newline (c2 :: r2)) as [(l & r & Hr2 & _ & Heq)|[_ Heq]];
      rewrite Heq in Hsk; simplify_eq; [rewrite Hr2 in Hnl|]; set_solver. }
  assert (∀ x (l : text), x ∉ l → x ∉ chars (trim (str l))) as Hsub.
  { intros x l Hx. rewrite trim_str, chars_str. intros Hin.
    by apply Hx, (trim_chars_subseteq l). }
  unfold field_ok. rewrite !trim_idemp. split_and!; by try apply Hsub.
Qed.

Lemma text_volunteers_ok s v :
  v ∈ text_volunteers s → skill v ≠ "" → volunteer_text_ok v.
Proof.
  unfold text_volunteers. intros (line & Hline & Hv)%list_elem_of_omap Hskill.
  unfold record_of_line in Hv. case_decide; [done|].
  destruct (terminate_lines s) as [_ Hnl]. rewrite Forall_forall in Hnl.
  apply parse_volunteer_ok in Hv as (? & ? & ?); [by unfold volunteer_text_ok|].
  intros Hin. by apply (Hnl line Hline), (trim_chars_subseteq line).
Qed.

(** ** Theorems *)

(** C25 The loop [while (std::getline(file, line))] ends within as many
    turns as the file has characters, whatever the file holds: a larger
    budget gives the same lines.  The lines, each with a line feed, are
    the file with the line feed that an append adds when the last line
    has none. *)
Theorem read_lines_total fuel s :
  length s ≤ fuel →
  read_lines fuel s = lines s ∧ unlines (lines s) = terminate s.
Proof.
  intros Hfuel. split; [by apply read_lines_enough|].
  by destruct (terminate_lines s) as [-> _].
Qed.


(** The round trip of a number: what [file << n] prints of an [int]
    is read back by [std::stoi] as [n], the most negative [int]
    included. *)
Theorem stoi_print_int n : is_int n → stoi (print_int n) = Some n.
Proof. apply stoi_print_int_eq. Qed.


(** C21 The round trip of the sites file: the text that [saveReliefSites]
    writes for sites whose names hold no whitespace is read back by
    [loadReliefSites] as the same sites, in the same order. *)
Theorem text_sites_roundtrip xs :
  Forall site_text_ok xs → text_sites (print_sites xs) = xs.
Proof. apply text_sites_print. Qed.

(** C22 The round trip of an append: after [saveDeployedVolunteer] or
    [saveVolunteerToFile] has appended a volunteer whose fields are
    trimmed, with no comma in the name or the contact, the file holds
    the records it held and the volunteer at the end, whatever the file
    was, with or without a line feed at its end. *)
Theorem append_volunteer_roundtrip v old :
  volunteer_text_ok v →
  text_volunteers (terminate old ++ print_volunteer v ++ [newline])
  = text_volunteers old ++ [v].
Proof.
  intros Hv. pose proof (text_volunteers_append v (Some old) Hv) as H.
  simpl in H. by injection H.
Qed.

(** ** Examples *)

(** The text of a file with these lines. *)
Definition file_of (ls : list string) : option text := Some (unlines (chars <$> ls)).

(** ** What the format does not hold *)


(** Lines that the loader skips, as the specification asks. *)
Example malformed_sites_skipped :
  text_sites (unlines (chars <$> ["A 1"; "B x 4"; ""; "C 1 99999999999"; "  "]))
  = [].
Proof. by vm_compute. Qed.

(** A file without a line feed at its end: the append adds one before
    the record. *)
Example append_without_newline :
  append_line (print_volunteer VolunteerQueue.ben) (Some (chars "Ana,555-0101,medic"))
  = file_of ["Ana,555-0101,medic"; "Ben,555-0102,cook"].
Proof. by vm_compute. Qed.

Lemma read_lines_total_witness :
  read_lines 9 (chars "a,b
c") = lines (chars "a,b
c") ∧
  unlines (lines (chars "a,b
c")) = terminate (chars "a,b
c").
Proof. apply read_lines_total. simpl; lia. Defined.


Lemma stoi_print_int_witness : stoi (print_int (-2147483648)) = Some (-2147483648)%Z.
Proof. apply stoi_print_int. by vm_compute. Defined.

Lemma text_sites_roundtrip_witness :
  text_sites (print_sites [site_A; site_B]) = [site_A; site_B].
Proof. apply text_sites_roundtrip. by apply (bool_decide_unpack _). Defined.

Lemma append_volunteer_roundtrip_witness :
  text_volunteers (terminate (chars "Ana,555-0101,medic")
                   ++ print_volunteer VolunteerQueue.ben ++ [newline])
  = text_volunteers (chars "Ana,555-0101,medic") ++ [VolunteerQueue.ben].
Proof. apply append_volunteer_roundtrip. by apply (bool_decide_unpack _). Defined.
