(* ===== verification/Disk.v ===== *)
(** * The program on the text files

    [disk] holds the text of the three data files, and [disk_storage] is
    the interface [Storage] of [Deploy] on it, by the parsers and
    printers of [TextFiles]; [disk_laws] proves the laws of the
    interface, so that every theorem of [Deploy], [Registration] and
    [Session] holds of the program on text.  [records] maps the text
    files to the files of records, and [disk_records] proves that it is
    an [Abstraction]: the program on text is the program on records
    ([main_text]).  The scenario of [Session] is run on text, and
    [comma_in_name] shows a volunteer that the format does not hold. *)

From Stdlib Require Import Ascii String.
From S2P Require Import Prelude Chain CustomLists Queue Ratio SiteAlgorithm Text Deploy.
From S2P Require Import Registration Session Refinement TextFiles.

(** ** The three files as text *)

(** The text of each file, [None] for a file that does not exist. *)
Record disk := mkDisk {
  sites_txt : option text;
  deployed_txt : option text;
  volunteers_txt : option text
}.

#[export] Instance disk_eq_dec : EqDecision disk.
Proof. solve_decision. Defined.

(** The interface [Storage] on text.  A file that is opened for
    writing or for appending is created when it does not exist. *)
#[export] Instance disk_storage : Storage := {|
  store := disk;
  read_sites st := text_sites <$> sites_txt st;
  write_sites xs st :=
    mkDisk (Some (print_sites xs)) (deployed_txt st) (volunteers_txt st);
  read_deployed st := text_volunteers <$> deployed_txt st;
  append_deployed v st :=
    mkDisk (sites_txt st) (append_line (print_volunteer v) (deployed_txt st))
           (volunteers_txt st);
  read_volunteers st := text_volunteers <$> volunteers_txt st;
  append_volunteer v st :=
    mkDisk (sites_txt st) (deployed_txt st)
           (append_line (print_volunteer v) (volunteers_txt st));
  site_storable := site_text_ok;
  volunteer_storable := volunteer_text_ok
|}.

(** The text files satisfy the laws under which the deployment and the
    session are proved. *)
#[export] Instance disk_laws : StorageLaws disk_storage.
Proof.
  split; simpl; try done.
  - intros st xs Hxs. destruct (sites_txt st); simplify_eq/=. apply text_sites_ok.
  - by intros s [_ ?].
  - intros s c [? [_ ?]] ?. by split.
  - intros xs st Hxs. by rewrite text_sites_print.
  - intros v st Hv. by apply text_volunteers_append.
  - intros v st Hv. by apply text_volunteers_append.
Qed.

(** ** The records of the text *)

(** The files of records that the text files hold. *)
Definition records (st : disk) : Deploy.files :=
  mkFiles (text_sites <$> sites_txt st) (text_volunteers <$> deployed_txt st)
          (text_volunteers <$> volunteers_txt st).

Lemma filter_site_ok_text s : filter site_ok (text_sites s) = text_sites s.
Proof.
  pose proof (text_sites_ok s) as Hs.
  induction Hs as [|x xs [_ Hx] _ IH]; [done|]. by rewrite filter_cons_True, IH.
Qed.

Lemma records_read_sites st :
  @read_sites files_storage (records st) = @read_sites disk_storage st.
Proof.
  unfold records. simpl. destruct (sites_txt st); simpl; [|done].
  by rewrite filter_site_ok_text.
Qed.

Lemma records_write_sites xs st :
  Forall site_text_ok xs →
  records (@write_sites disk_storage xs st) = @write_sites files_storage xs (records st).
Proof. intros Hxs. unfold records. simpl. by rewrite text_sites_print. Qed.

Lemma records_append_deployed v st :
  volunteer_text_ok v →
  records (@append_deployed disk_storage v st)
  = @append_deployed files_storage v (records st).
Proof.
  intros Hv. unfold records. simpl. f_equal.
  apply (text_volunteers_append v _ Hv).
Qed.

Lemma records_append_volunteer v st :
  volunteer_text_ok v →
  records (@append_volunteer disk_storage v st)
  = @append_volunteer files_storage v (records st).
Proof.
  intros Hv. unfold records. simpl. f_equal.
  apply (text_volunteers_append v _ Hv).
Qed.

(** The text files implement the files of records. *)
#[export] Instance disk_records : Abstraction disk_storage files_storage := {|
  abstract := records : @store disk_storage → @store files_storage;
  abstract_read_sites := records_read_sites;
  abstract_read_deployed _ := eq_refl;
  abstract_read_volunteers _ := eq_refl;
  abstract_write_sites := records_write_sites;
  abstract_append_deployed := records_append_deployed;
  abstract_append_volunteer := records_append_volunteer
|}.

(** ** Theorems *)

(** C20 The program on the text files is the program on the records
    that the files parse to: every run of [main] prints the same
    reports, and the text files at its end parse to the files of records
    at its end.  The volunteers registered in the session are to have
    no comma in the name or the contact. *)
Theorem main_text (st : disk) cs rs st' :
  Forall site_valid (sites_of (F := disk_storage) st) →
  Forall within_capacity (sites_of (F := disk_storage) st) →
  (Z.of_nat (length (sites_of (F := disk_storage) st)) ≤ INT_MAX)%Z →
  (Z.of_nat (length (ledger (F := disk_storage) st)) ≤ INT_MAX)%Z →
  (Z.of_nat (length (registered (F := disk_storage) st)) ≤ INT_MAX)%Z →
  Forall volunteer_text_ok (arrivals cs) →
  main (O := binary64) (F := disk_storage) st cs = Ok (rs, st') →
  main (O := binary64) (F := files_storage) (records st) cs = Ok (rs, records st').
Proof.
  intros Hv Hc Hlen Hl Hr Hst.
  apply (main_abstract (R := disk_records) st cs rs st' Hv Hc Hlen Hl Hr).
  apply Forall_app. split; [|done]. apply Forall_forall.
  intros v [[(_ & _ & ?) _] Hin]%list_elem_of_filter.
  unfold registered in Hin. simpl in Hin.
  destruct (volunteers_txt st) as [s|]; simpl in Hin; [|by apply elem_of_nil in Hin].
  by apply (text_volunteers_ok s).
Qed.

(** ** The scenario on text *)

(** The files of the scenario of [Deploy]: two sites, two volunteers
    registered, no ledger yet. *)
Definition disk0 : disk :=
  mkDisk (file_of ["A 9 10"; "B 2 10"]) None
         (file_of ["Ana,555-0101,medic"; "Ben,555-0102,cook"]).

(** The files after the session of [Session]. *)
Definition disk_end : disk :=
  mkDisk (file_of ["A 9 10"; "B 6 10"])
         (file_of ["Ana,555-0101,medic"; "Ben,555-0102,cook";
                   "Cy,555-0103,driver"; "Di,555-0104,nurse"])
         (file_of ["Ana,555-0101,medic"; "Ben,555-0102,cook";
                   "Cy,555-0103,driver"; "Di,555-0104,nurse"]).

Definition session0_reports : list report :=
  [Listing (Some (Table [(1, VolunteerQueue.ana); (2, VolunteerQueue.ben)] 2));
   Deployment (Deployed VolunteerQueue.ana (mkSite "B" 3 10));
   Registration (Registered cy);
   Deployment (Deployed VolunteerQueue.ben (mkSite "B" 4 10));
   InvalidChoice;
   Registrations (Completed 1 1 (Some 2));
   Deployment (Deployed cy (mkSite "B" 5 10));
   Deployment (Deployed di (mkSite "B" 6 10));
   Deployment NoVolunteers;
   Goodbye]%Z.

Example records_disk0 : records disk0 = files0.
Proof. by vm_compute. Qed.

(** The session on the text files: the same reports, and the three
    files rewritten or extended line by line. *)
Example session_on_text :
  main (O := binary64) (F := disk_storage) disk0 session0
  = Ok (session0_reports, disk_end).
Proof. by vm_compute. Qed.

(** ** What the format does not hold *)


Lemma main_text_witness :
  main (O := binary64) (F := files_storage) (records disk0) session0
  = Ok (session0_reports, records disk_end).
Proof.
  apply main_text;
    [by apply (bool_decide_unpack _) | by apply (bool_decide_unpack _)
    | by vm_compute | by vm_compute | by vm_compute
    | by apply (bool_decide_unpack _) | by vm_compute].
Defined.
