(* ===== verification/Console.v ===== *)
(** * The console

    What the operator types reaches the program through [std::cin].
    [istream] is the stream on its characters with its failed state,
    and [extract_int], [ignore] and [cin_getline] are [std::cin >> x],
    [std::cin.ignore(max, '\n')] and [std::getline(std::cin, line)] on
    it.  The program reads whole lines: every [>>] is followed by
    [ignore], so that between two reads the stream is at the start of a
    line.  [pending] is what is left of the stream in lines, the empty
    list for a stream that failed or ended, and [read_int] and
    [pauseForUser] are the reads of the program on these lines; they
    are proved to be the reads on the characters.

    [Module Console] is the program on the console: [turn] is one turn
    of the [while] loop of [main], from the read of the choice to
    [pauseForUser], and keeps the variable [choice] of [main], which a
    failed read leaves as it was.  Every run that returns is a run of
    [Session] on the commands it read ([main_session]); a run ends
    within as many turns as the input has lines, or never
    ([main_loop_enough]); and at the end of the input nothing stops the
    loop ([main_loop_eof]). *)

From Stdlib Require Import Ascii String.
From S2P Require Import Prelude Chain CustomLists Queue Ratio SiteAlgorithm Text.
From S2P Require Import Deploy Registration Session TextFiles Disk.

(** ** The stream of characters *)

(** [std::cin]: the characters not read yet, and whether [failbit] is
    set.  The program never clears the state of the stream. *)
Record istream := mkStream {
  unread : text;
  failed : bool
}.

(** The sign that the conversion of an [int] takes first. *)
Definition sign (s : text) : bool * text :=
  match s with
  | c :: s' =>
      if decide (c = "-"%char) then (true, s')
      else if decide (c = "+"%char) then (false, s') else (false, s)
  | [] => (false, [])
  end.

(** The digits after the sign: the number, whether the conversion
    succeeded, and the characters left.  Without a digit the number is
    0, and outside the range of [int] it is the nearest bound; both set
    [failbit]. *)
Definition digits_get (negative : bool) (s : text) : Z * bool * text :=
  let ds := take_while is_digit s in
  let s := drop_while is_digit s in
  if decide (ds = []) then (0%Z, false, s)
  else
    let v := if negative then (- number ds)%Z else number ds in
    if decide (INT_MAX < v)%Z then (INT_MAX, false, s)
    else if decide (v < INT_MIN)%Z then (INT_MIN, false, s)
    else (v, true, s).

(** The conversion of [std::cin >> x] for an [int], on the characters
    after the whitespace. *)
Definition num_get (s : text) : Z * bool * text :=
  let '(negative, s) := sign s in digits_get negative s.

(** [std::cin >> x], where [x] is [None] for a variable that was never
    assigned: on a stream that failed, or that ends in whitespace, [x]
    is as it was. *)
Definition extract_int (x : option Z) (cin : istream) : option Z * istream :=
  if failed cin then (x, cin)
  else
    let s := drop_while isspace (unread cin) in
    if decide (s = []) then (x, mkStream [] true)
    else
      let '(v, ok, s) := num_get s in
      (Some v, mkStream s (negb ok)).

(** [std::cin.ignore(std::numeric_limits<std::streamsize>::max(), '\n')] *)
Definition ignore (cin : istream) : istream :=
  if failed cin then cin
  else mkStream (until newline (unread cin)).2 false.

(** [std::getline(std::cin, line)] into a string that is empty. *)
Definition cin_getline (cin : istream) : text * istream :=
  if failed cin then ([], cin)
  else
    match getline_delim newline (unread cin) with
    | None => ([], mkStream [] true)
    | Some (line, rest) => (line, mkStream rest false)
    end.

(** ** The stream in lines *)

(** The lines that the program can still read. *)
Definition pending (cin : istream) : list string :=
  if failed cin then [] else str <$> lines (unread cin).

(** [std::cin >> x; std::cin.ignore(max, '\n')] on the lines: blank
    lines are passed over, the number is taken from the front of the
    next line and the rest of that line is dropped; after a conversion
    that failed nothing can be read any more. *)
Fixpoint read_int (x : option Z) (input : list string) : option Z * list string :=
  match input with
  | [] => (x, [])
  | line :: input' =>
      let s := drop_while isspace (chars line) in
      if decide (s = []) then read_int x input'
      else
        let '(v, ok, _) := num_get s in
        (Some v, if ok : bool then input' else [])
  end.

(** [void pauseForUser()]: [std::cin.ignore(max, '\n')] at the start of
    a line. *)
Definition pauseForUser (input : list string) : list string := tail input.

(** ** The program on the console *)

Module Console.
Section console.
Context {O : FillOps} {F : Storage}.
Implicit Types (q : VolunteerQueue.t) (st : store) (input : list string)
  (w : world) (choice : option Z).

(** The first lines of [registerMultipleVolunteers]:
    [int numVolunteers; std::cin >> numVolunteers; std::cin.ignore(...)],
    then the dialogue with that number. *)
Definition registerMultipleVolunteers input q st
    : res (multiple * list string * VolunteerQueue.t * store) :=
  let '(numVolunteers, input) := read_int None input in
  match numVolunteers with
  | None => throw Indeterminate
  | Some numVolunteers => Registration.registerMultipleVolunteers numVolunteers input q st
  end.

(** [void registerVolunteer(VolunteerQueue& queue)] with its
    [int choice; std::cin >> choice; std::cin.ignore(...)]. *)
Definition registerVolunteer input q st
    : res (report * list string * VolunteerQueue.t * store) :=
  let '(choice, input) := read_int None input in
  match choice with
  | None => throw Indeterminate
  | Some choice =>
      if decide (choice = 1%Z) then
        '(r, input, q, st) ← registerSingleVolunteer input q st;
        return_ (Registration r, input, q, st)
      else if decide (choice = 2%Z) then
        '(m, input, q, st) ← registerMultipleVolunteers input q st;
        return_ (Registrations m, input, q, st)
      else return_ (RegistrationRefused, input, q, st)
  end.

(** The [switch (choice)] of [main]. *)
Definition serve (choice : Z) input w : res (report * world * bool * list string) :=
  if decide (choice = 1%Z) then
    '(r, input, q, st) ← registerVolunteer input (queue w) (files w);
    return_ (r, mkWorld q st, true, input)
  else if decide (choice = 2%Z) then
    '(o, q, st) ← deployVolunteer (queue w) (files w);
    return_ (Deployment o, mkWorld q st, true, input)
  else if decide (choice = 3%Z) then
    d ← viewRegisteredVolunteers (queue w);
    return_ (Listing d, w, true, input)
  else if decide (choice = 4%Z) then return_ (Goodbye, w, false, input)
  else return_ (InvalidChoice, w, true, input).

(** One turn of [while (running)]: [std::cin >> choice] into the
    variable of [main], [ignore], the [switch], and [pauseForUser]
    [if (running)]. *)
Definition turn choice input w
    : res (report * world * bool * option Z * list string) :=
  let '(choice, input) := read_int choice input in
  match choice with
  | None => throw Indeterminate
  | Some c =>
      '(r, w, running, input) ← serve c input w;
      return_ (r, w, running, choice,
               if running : bool then pauseForUser input else input)
  end.

(** [while (running) { ... }], within a budget of turns. *)
Fixpoint main_loop (fuel : nat) choice input w : res (list report * world) :=
  match fuel with
  | 0 => throw OutOfFuel
  | S fuel' =>
      '(r, w, running, choice, input) ← turn choice input w;
      if running : bool then
        '(rs, w) ← main_loop fuel' choice input w;
        return_ (r :: rs, w)
      else return_ ([r], w)
  end.

(** [int main()] on the files and on what is typed. *)
Definition main (fuel : nat) st input : res (list report * store) :=
  '(volunteerQueue, _) ← loadVolunteersFromFile VolunteerQueue.new st;
  '(rs, w) ← main_loop fuel None input (mkWorld volunteerQueue st);
  _ ← VolunteerQueue.destroy (queue w);
  return_ (rs, files w).

(** The command that a turn reads, with the lines left for its
    dialogue. *)
Definition selected choice input : option command :=
  let '(choice, input) := read_int choice input in
  c ← choice;
  if decide (c = 1%Z) then
    let '(choice, input) := read_int None input in
    c ← choice;
    if decide (c = 1%Z) then Some (Register (Single input))
    else if decide (c = 2%Z) then
      let '(numVolunteers, input) := read_int None input in
      n ← numVolunteers;
      Some (Register (Multiple n input))
    else Some (Register NoSuchRegistration)
  else if decide (c = 2%Z) then Some Deploy
  else if decide (c = 3%Z) then Some View
  else if decide (c = 4%Z) then Some Exit
  else Some NoSuchCommand.

End console.
End Console.

(** ** The reads on the lines are the reads on the characters *)

Lemma isspace_newline : isspace newline = true.
Proof. done. Qed.

Lemma is_digit_newline : is_digit newline = false.
Proof. done. Qed.

(** The conversion does not look past the end of the line. *)
Lemma digits_get_line negative s r :
  digits_get negative (s ++ newline :: r)
  = ((digits_get negative s).1.1, (digits_get negative s).1.2,
     (digits_get negative s).2 ++ newline :: r).
Proof.
  unfold digits_get.
  rewrite take_while_stop, drop_while_stop by apply is_digit_newline.
  by repeat case_decide.
Qed.

Lemma num_get_line s r :
  s ≠ [] → (newline ∉ s) →
  num_get (s ++ newline :: r)
  = ((num_get s).1.1, (num_get s).1.2, (num_get s).2 ++ newline :: r).
Proof.
  intros Hs Hnl. destruct s as [|c s]; [done|]. unfold num_get, sign. cbn [app].
  assert (c ≠ newline) by (intros ->; apply Hnl; left).
  repeat case_decide; try apply digits_get_line.
  apply (digits_get_line false (c :: s)).
Qed.

Lemma digits_get_subseteq negative s : (digits_get negative s).2 ⊆ s.
Proof.
  unfold digits_get. repeat case_decide; apply drop_while_subseteq.
Qed.

Lemma num_get_subseteq s : (num_get s).2 ⊆ s.
Proof.
  unfold num_get, sign. destruct s as [|c s]; [by repeat case_decide|].
  repeat case_decide; try apply digits_get_subseteq;
    by apply list_subseteq_cons, digits_get_subseteq.
Qed.

(** The first line of a stream that has not ended, and the stream
    after it. *)
Lemma first_line s :
  s ≠ [] →
  ∃ l r, until newline s = (l, r) ∧ lines s = l :: lines r ∧ (newline ∉ l) ∧
         (s = l ++ newline :: r ∨ s = l ∧ r = []) ∧ length r < length s.
Proof.
  intros Hs. destruct (until_spec newline s) as [(l & r & -> & Hl & Hu)|[Hnl Hu]].
  - exists l, r. split_and!; [done | by apply lines_cons | done | by left |].
    rewrite length_app. simpl. lia.
  - exists s, []. split_and!; [done | by rewrite lines_last | done | by right |].
    destruct s; [done | simpl; lia].
Qed.

Lemma cin_getline_pending cin :
  getline (pending cin) = (str (cin_getline cin).1, pending (cin_getline cin).2).
Proof.
  destruct cin as [s [|]]; [done|]. unfold pending, cin_getline. cbn [failed unread].
  destruct (decide (s = [])) as [->|Hs]; [done|].
  destruct (first_line s Hs) as (l & r & Hu & -> & _). unfold getline_delim.
  rewrite Hu. by destruct s.
Qed.

Lemma ignore_pending cin : pending (ignore cin) = pauseForUser (pending cin).
Proof.
  destruct cin as [s [|]]; [done|]. unfold pending, ignore. cbn [failed unread].
  destruct (decide (s = [])) as [->|Hs]; [done|].
  destruct (first_line s Hs) as (l & r & -> & -> & _). done.
Qed.

Lemma read_int_cons x line input :
  read_int x (line :: input)
  = if decide (drop_while isspace (chars line) = []) then read_int x input
    else (Some (num_get (drop_while isspace (chars line))).1.1,
          if (num_get (drop_while isspace (chars line))).1.2 then input else []).
Proof.
  cbn [read_int]. case_decide; [done|].
  by destruct (num_get _) as [[v ok] s].
Qed.

Lemma extract_int_good x s :
  extract_int x (mkStream s false)
  = if decide (drop_while isspace s = []) then (x, mkStream [] true)
    else (Some (num_get (drop_while isspace s)).1.1,
          mkStream (num_get (drop_while isspace s)).2
                   (negb (num_get (drop_while isspace s)).1.2)).
Proof.
  unfold extract_int. cbn [failed unread]. case_decide; [done|].
  by destruct (num_get _) as [[v ok] s'].
Qed.

Lemma extract_int_pending x cin :
  read_int x (pending cin)
  = ((extract_int x cin).1, pending (ignore (extract_int x cin).2)).
Proof.
  destruct cin as [s [|]]; [done|]. unfold pending at 1. cbn [failed unread].
  induction s as [s IH] using (induction_ltof1 _ length). unfold ltof in IH.
  destruct (decide (s = [])) as [->|Hs]; [done|].
  destruct (first_line s Hs) as (l & r & _ & -> & Hl & Hs' & Hlen).
  rewrite fmap_cons, read_int_cons, chars_str, extract_int_good.
  pose proof (drop_while_subseteq isspace l) as Hsub.
  destruct (decide (drop_while isspace l = [])) as [Hblank|Hline].
  - rewrite (IH r Hlen), extract_int_good.
    destruct Hs' as [->|[-> ->]].
    + by rewrite (drop_while_skip _ _ _ Hblank).
    + by rewrite Hblank.
  - assert (newline ∉ drop_while isspace l) as Hnl by set_solver.
    pose proof (num_get_subseteq (drop_while isspace l)) as Hrest.
    assert (newline ∉ (num_get (drop_while isspace l)).2) as Hnl' by set_solver.
    destruct Hs' as [->|[-> ->]].
    + rewrite (drop_while_keep_app _ _ _ Hline), decide_False by by destruct (drop_while _ l).
      rewrite (num_get_line _ _ Hline Hnl). cbn [fst snd].
      destruct (num_get (drop_while isspace l)) as [[v [|]] s']; cbn [fst snd negb] in *;
        [|done].
      unfold ignore, pending. cbn [failed unread]. by rewrite (until_app _ _ _ Hnl').
    + rewrite decide_False by done.
      destruct (num_get (drop_while isspace l)) as [[v [|]] s']; cbn [fst snd negb] in *;
        [|done].
      unfold ignore, pending. cbn [failed unread]. by rewrite (until_all _ _ Hnl').
Qed.

(** ** Streams that read the same *)

(** Two streams are equivalent when the same lines are left of them: a
    stream that failed and a stream that ended, a last line with and
    without its line feed.  The reads of the program respect the
    equivalence. *)
#[export] Instance istream_equiv : Equiv istream :=
  λ cin cin', pending cin = pending cin'.

#[export] Instance istream_equivalence : Equivalence (≡@{istream}).
Proof.
  unfold equiv, istream_equiv.
  split; [done | by intros ?? | by intros ??? ->].
Qed.

#[export] Instance pending_proper : Proper ((≡) ==> (=)) pending.
Proof. by intros ???. Qed.

#[export] Instance ignore_proper : Proper ((≡) ==> (≡)) ignore.
Proof.
  intros cin cin' Hcin. unfold equiv, istream_equiv.
  by rewrite !ignore_pending, Hcin.
Qed.

(** [std::cin >> x; std::cin.ignore(max, '\n')] *)
Definition extract_line (x : option Z) (cin : istream) : option Z * istream :=
  ((extract_int x cin).1, ignore (extract_int x cin).2).

#[export] Instance extract_line_proper x :
  Proper ((≡) ==> prod_relation (=) (≡)) (extract_line x).
Proof.
  intros cin cin' Hcin.
  pose proof (extract_int_pending x cin) as H1.
  pose proof (extract_int_pending x cin') as H2. rewrite Hcin in H1.
  split; unfold equiv, istream_equiv; cbn [extract_line fst snd]; congruence.
Qed.

#[export] Instance cin_getline_proper :
  Proper ((≡) ==> prod_relation (=) (≡)) cin_getline.
Proof.
  intros cin cin' Hcin.
  pose proof (cin_getline_pending cin) as H1.
  pose proof (cin_getline_pending cin') as H2. rewrite Hcin in H1.
  rewrite H1 in H2. injection H2 as Hline Hrest.
  split; [|done]. by rewrite <-(chars_str (cin_getline cin).1), Hline, chars_str.
Qed.

(** A stream that has nothing left reads as a stream that failed, and
    stays so. *)
Lemma ended_failed cin : pending cin = [] → cin ≡ mkStream [] true.
Proof. done. Qed.

Lemma ended_ignore cin : pending cin = [] → ignore cin ≡ cin.
Proof. intros Hcin%ended_failed. by rewrite Hcin. Qed.

Lemma ended_extract x cin : pending cin = [] → (extract_line x cin).1 = x.
Proof.
  intros Hcin%ended_failed.
  by destruct (extract_line_proper x _ _ Hcin) as [-> _].
Qed.

(** ** Lemmas on the reads *)

Lemma read_int_suffix x input : (read_int x input).2 `suffix_of` input.
Proof.
  induction input as [|line input IH]; [done|]. rewrite read_int_cons.
  case_decide; [by apply suffix_cons_r|]. cbn [snd].
  destruct (num_get _).1.2; [by apply suffix_cons_r | apply suffix_nil].
Qed.

(** A read takes a line when there is one. *)
Lemma read_int_shorter x input :
  input ≠ [] → length (read_int x input).2 < length input.
Proof.
  destruct input as [|line input]; [done|]. intros _. rewrite read_int_cons.
  pose proof (suffix_length _ _ (read_int_suffix x input)).
  case_decide; cbn [snd length]; [lia|]. destruct (num_get _).1.2; simpl; lia.
Qed.

Lemma pauseForUser_suffix input : pauseForUser input `suffix_of` input.
Proof. destruct input; [done|]. by apply suffix_cons_r. Qed.

Section console_lemmas.
Context {O : FillOps} {F : Storage}.
Implicit Types (q : VolunteerQueue.t) (st : store) (input : list string)
  (w : world) (choice : option Z).

(** *** A turn on the console is a turn of the session *)

Lemma registerVolunteer_selected input q st :
  (λ '(r, _, q', st'), (r, q', st')) <$> Console.registerVolunteer input q st
  = match (read_int None input).1 with
    | None => Err Indeterminate
    | Some c =>
        if decide (c = 1%Z) then
          Session.registerVolunteer (Single (read_int None input).2) q st
        else if decide (c = 2%Z) then
          match (read_int None (read_int None input).2).1 with
          | None => Err Indeterminate
          | Some n =>
              Session.registerVolunteer
                (Multiple n (read_int None (read_int None input).2).2) q st
          end
        else Session.registerVolunteer NoSuchRegistration q st
    end.
Proof.
  unfold Console.registerVolunteer, Console.registerMultipleVolunteers,
    Session.registerVolunteer.
  destruct (read_int None input) as [[c|] input1]; [|done]. cbn [fst snd].
  destruct (decide (c = 1%Z)).
  { by destruct (registerSingleVolunteer input1 q st) as [[[[??]?]?]|]. }
  destruct (decide (c = 2%Z)); [|done].
  destruct (read_int None input1) as [[num|] input2]; [|done]. cbn [fst snd].
  by destruct (Registration.registerMultipleVolunteers num input2 q st) as [[[[??]?]?]|].
Qed.

Lemma register_turn (m : res (report * list string * VolunteerQueue.t * store)) (c : Z) :
  (λ '(r, w', running, _, _), (r, w', running)) <$>
    ((m ≫= λ '(r, input, q, st), Ok (r, mkWorld q st, true, input))
       ≫= λ '(r, w, running, input),
            Ok (r, w, running, Some c,
                if running : bool then pauseForUser input else input))
  = (λ '(r, q, st), (r, mkWorld q st, true)) <$>
      ((λ '(r, _, q', st'), (r, q', st')) <$> m).
Proof. by destruct m as [[[[??]?]?]|]. Qed.

Lemma handle_Register rc w :
  handle (Register rc) w
  = (λ '(r, q, st), (r, mkWorld q st, true)) <$>
      Session.registerVolunteer rc (queue w) (files w).
Proof.
  cbn [handle]. by destruct (Session.registerVolunteer _ _ _) as [[[??]?]|].
Qed.

Lemma turn_selected choice input w :
  (λ '(r, w', running, _, _), (r, w', running)) <$> Console.turn choice input w
  = match Console.selected choice input with
    | Some c => handle c w
    | None => Err Indeterminate
    end.
Proof.
  unfold Console.turn, Console.selected, Console.serve.
  destruct (read_int choice input) as [[c|] input1]; [|done]. cbn [mbind option_bind].
  destruct (decide (c = 1%Z)).
  { rewrite register_turn, registerVolunteer_selected.
    destruct (read_int None input1) as [[c1|] input2]; cbn [fst snd mbind option_bind];
      [|done].
    destruct (decide (c1 = 1%Z)); [by rewrite handle_Register|].
    destruct (decide (c1 = 2%Z)); [|by rewrite handle_Register].
    destruct (read_int None input2) as [[num|] input3]; cbn [fst snd mbind option_bind];
      [by rewrite handle_Register | done]. }
  destruct (decide (c = 2%Z)).
  { cbn [handle]. by destruct (deployVolunteer _ _) as [[[??]?]|]. }
  destruct (decide (c = 3%Z)).
  { cbn [handle]. by destruct (viewRegisteredVolunteers _) as [?|]. }
  by destruct (decide (c = 4%Z)).
Qed.

Lemma turn_handle choice input w r w' running choice' input' :
  Console.turn choice input w = Ok (r, w', running, choice', input') →
  ∃ c, Console.selected choice input = Some c ∧ handle c w = Ok (r, w', running).
Proof.
  intros Hturn. pose proof (turn_selected choice input w) as Hsel.
  rewrite Hturn in Hsel. destruct (Console.selected choice input) as [c|]; [|done].
  by exists c.
Qed.

Lemma registerMultipleVolunteers_console_input input q st m input' q' st' :
  Console.registerMultipleVolunteers input q st = Ok (m, input', q', st') →
  input' `suffix_of` input.
Proof.
  unfold Console.registerMultipleVolunteers.
  pose proof (read_int_suffix None input) as H1.
  destruct (read_int None input) as [[num|] input1]; [|done]. cbn [snd] in H1.
  intros Hrun%registerMultipleVolunteers_input. by etrans.
Qed.

Lemma registerVolunteer_input input q st r input' q' st' :
  Console.registerVolunteer input q st = Ok (r, input', q', st') →
  input' `suffix_of` input.
Proof.
  unfold Console.registerVolunteer.
  pose proof (read_int_suffix None input) as H1.
  destruct (read_int None input) as [[c|] input1]; [|done]. cbn [snd] in H1.
  repeat case_decide; intros Hrun; res_inv_pairs; [| |done].
  - etrans; [by eapply registerSingleVolunteer_input | done].
  - etrans; [by eapply registerMultipleVolunteers_console_input | done].
Qed.

Lemma serve_input c input w r w' running input' :
  Console.serve c input w = Ok (r, w', running, input') →
  input' `suffix_of` input ∧ (running = false ↔ c = 4%Z).
Proof.
  unfold Console.serve. repeat case_decide; intros Hrun; res_inv_pairs;
    (split; [|by split; intros; simplify_eq]); try done.
  by eapply registerVolunteer_input.
Qed.

(** A turn leaves in [choice] the number it served, an end of the
    input, and stops at the number 4 only. *)
Lemma turn_state choice input w r w' running choice' input' :
  Console.turn choice input w = Ok (r, w', running, choice', input') →
  choice' = (read_int choice input).1 ∧ input' `suffix_of` (read_int choice input).2 ∧
  (running = false ↔ choice' = Some 4%Z).
Proof.
  unfold Console.turn.
  destruct (read_int choice input) as [[c|] input1]; [|done]. cbn [fst snd].
  intros Hrun. res_inv_pairs.
  match goal with H : Console.serve _ _ _ = Ok _ |- _ =>
    apply serve_input in H as [Hsuf Hstop] end.
  split_and!; [done | | by rewrite Hstop; split; intros; simplify_eq].
  destruct running; [|done]. etrans; [apply pauseForUser_suffix | done].
Qed.

Lemma handle_stop c w r w' : handle c w = Ok (r, w', false) → c = Exit.
Proof. destruct c; cbn [handle]; intros; res_inv_pairs; done. Qed.

(** *** Runs *)

Lemma main_loop_commands fuel choice input w rs w' :
  Console.main_loop fuel choice input w = Ok (rs, w') →
  ∃ cs, Session.main_loop cs w = Ok (rs, w') ∧ last cs = Some Exit ∧ length cs ≤ fuel.
Proof.
  revert choice input w rs. induction fuel as [|fuel IH]; intros choice input w rs;
    cbn [Console.main_loop]; [done|].
  destruct (Console.turn choice input w) as [[[[[r w1] running] choice1] input1]|] eqn:Hturn;
    [|done].
  apply turn_handle in Hturn as (c & _ & Hc). cbn [mbind res_bind].
  destruct running.
  - intros Hrun. res_inv_pairs.
    match goal with H : Console.main_loop _ _ _ _ = Ok _ |- _ =>
      apply IH in H as (cs & Hcs & Hlast & Hlen) end.
    exists (c :: cs). cbn [Session.main_loop length]. rewrite Hc. cbn [mbind res_bind].
    rewrite Hcs. split_and!; [done | | lia]. by destruct cs.
  - intros [= <- <-]. apply handle_stop in Hc as Hexit. subst c.
    exists [Exit]. cbn [Session.main_loop length]. rewrite Hc. split_and!; [done | done | lia].
Qed.

(** More budget does not change a run that returned. *)
Lemma main_loop_mono fuel fuel' choice input w r :
  Console.main_loop fuel choice input w = Ok r → fuel ≤ fuel' →
  Console.main_loop fuel' choice input w = Ok r.
Proof.
  revert fuel' choice input w r. induction fuel as [|fuel IH];
    intros [|fuel'] choice input w r; cbn [Console.main_loop]; try done; [lia|].
  destruct (Console.turn choice input w) as [[[[[r1 w1] running] choice1] input1]|];
    [|done]. cbn [mbind res_bind]. destruct running; [|done].
  destruct (Console.main_loop fuel choice1 input1 w1) as [[rs w2]|] eqn:Hrun; [|done].
  intros Hr Hle. by rewrite (IH fuel' _ _ _ _ Hrun) by lia.
Qed.

(** At the end of the input a turn leaves everything to read as it
    was, and the loop goes on. *)
Lemma main_loop_eof_never fuel choice w r :
  choice ≠ Some 4%Z → Console.main_loop fuel choice [] w ≠ Ok r.
Proof.
  revert w r. induction fuel as [|fuel IH]; intros w r Hchoice;
    cbn [Console.main_loop]; [done|].
  destruct (Console.turn choice [] w) as [[[[[r1 w1] running] choice1] input1]|] eqn:Hturn;
    [|done].
  apply turn_state in Hturn as (-> & Hsuf & Hstop). cbn [read_int fst snd] in *.
  apply suffix_nil_inv in Hsuf as ->. cbn [mbind res_bind].
  destruct running; [|by destruct Hchoice; apply Hstop].
  destruct (Console.main_loop fuel choice [] w1) as [[rs w2]|] eqn:Hrun; [|done].
  by destruct (IH w1 (rs, w2) Hchoice).
Qed.

Lemma main_loop_out_of_fuel fuel choice input w :
  length input < fuel → choice ≠ Some 4%Z →
  Console.main_loop fuel choice input w = Err OutOfFuel →
  ∀ fuel' r, Console.main_loop fuel' choice input w ≠ Ok r.
Proof.
  revert choice input w. induction fuel as [|fuel IH]; intros choice input w Hlen Hchoice;
    [lia|].
  destruct (decide (input = [])) as [->|Hinput].
  { intros _ fuel' r. by apply main_loop_eof_never. }
  cbn [Console.main_loop]. intros Hrun [|fuel'] r; cbn [Console.main_loop]; [done|].
  destruct (Console.turn choice input w) as [[[[[r1 w1] running] choice1] input1]|] eqn:Hturn;
    [|done].
  apply turn_state in Hturn as (-> & Hsuf%suffix_length & Hstop).
  pose proof (read_int_shorter choice input Hinput).
  cbn [mbind res_bind] in *. destruct running; [|done].
  destruct (Console.main_loop fuel _ input1 w1) as [[rs w2]|[]] eqn:Hrun1; try done.
  assert ((read_int choice input).1 ≠ Some 4%Z) as Hchoice1.
  { intros E. by apply Hstop in E. }
  pose proof (IH _ input1 w1 ltac:(lia) Hchoice1 Hrun1 fuel') as Hnever.
  destruct (Console.main_loop fuel' _ input1 w1) as [[rs w2]|]; [|done].
  by destruct (Hnever (rs, w2)).
Qed.

Lemma main_commands fuel st input rs st' :
  Console.main fuel st input = Ok (rs, st') →
  ∃ cs, Session.main st cs = Ok (rs, st') ∧ last cs = Some Exit ∧ length cs ≤ fuel.
Proof.
  unfold Console.main, Session.main. intros Hrun. res_inv_pairs.
  match goal with H : Console.main_loop _ _ _ _ = Ok _ |- _ =>
    apply main_loop_commands in H as (cs & Hcs & Hlast & Hlen) end.
  exists cs. split_and!; [|done..].
  repeat match goal with H : _ = Ok _ |- _ => rewrite H; cbn [mbind res_bind] end.
  done.
Qed.

End console_lemmas.

(** ** Theorems *)

Section console_theorems.
Context {O : FillOps} {F : Storage}.
Implicit Types (st : store) (input : list string) (w : world) (choice : option Z).

(** C17 The reads of the program on the lines that are left of the
    input are its reads on the characters of [std::cin]:
    [std::cin >> x] followed by [ignore] is [read_int], with the value
    that [x] keeps when the stream failed or ended; [std::getline] is
    [getline]; [ignore] at the start of a line is [pauseForUser]. *)
Theorem console_reads (x : option Z) (cin : istream) :
  read_int x (pending cin)
  = ((extract_int x cin).1, pending (ignore (extract_int x cin).2)) ∧
  getline (pending cin) = (str (cin_getline cin).1, pending (cin_getline cin).2) ∧
  pauseForUser (pending cin) = pending (ignore cin).
Proof.
  split_and!; [apply extract_int_pending | apply cin_getline_pending
              | symmetry; apply ignore_pending].
Qed.

(** C15 Every run of [main] on the console that returns is a run of
    [main] on the commands that its turns read, with the same reports
    and the same files at the end; the last of these commands is
    [Exit], and they are no more than the turns. *)
Theorem main_session fuel st input rs st' :
  Console.main fuel st input = Ok (rs, st') →
  ∃ cs, Session.main st cs = Ok (rs, st') ∧ last cs = Some Exit ∧ length cs ≤ fuel.
Proof. apply main_commands. Qed.

(** C18 One turn more than the input has lines is budget enough for the
    loop of [main]: a run that returns within a budget returns the same
    with any larger one, and a run that has not ended within that
    budget does not end with any. *)
Theorem main_loop_enough fuel choice input w :
  length input < fuel → choice ≠ Some 4%Z →
  (∀ r fuel', Console.main_loop fuel choice input w = Ok r → fuel ≤ fuel' →
              Console.main_loop fuel' choice input w = Ok r) ∧
  (Console.main_loop fuel choice input w = Err OutOfFuel →
   ∀ fuel' r, Console.main_loop fuel' choice input w ≠ Ok r).
Proof.
  intros Hlen Hchoice. split.
  - intros r fuel'. apply main_loop_mono.
  - by apply main_loop_out_of_fuel.
Qed.

(** C16 When the input has ended, or the stream has failed, the loop of
    [main] is never left: no read changes [choice], which is not 4, and
    every turn serves the last choice again. *)
Theorem main_loop_eof fuel choice w :
  choice ≠ Some 4%Z → ¬ is_Ok (Console.main_loop fuel choice [] w).
Proof. intros Hchoice [r Hr]. by apply main_loop_eof_never in Hr. Qed.

End console_theorems.

(** ** The invariant of the session on the console *)

Section console_invariant.
Context {O : FillOps} {L : FillOrder O} {F : Storage} {FL : StorageLaws F}.
Implicit Types (input : list string) (w : world) (choice : option Z).

(** A turn on the console keeps the invariant of the session. *)
Lemma turn_sane choice input w vs r w' running choice' input' :
  sane w vs → Console.turn choice input w = Ok (r, w', running, choice', input') →
  ∃ vs', sane w' vs'.
Proof.
  intros Hw (c & _ & Hc)%turn_handle.
  destruct (handle_sane c w vs r w' running Hw Hc) as (vs' & Hw' & _). by exists vs'.
Qed.

(** The invariant of the session holds at the end of every run of the
    loop on the console that returns. *)
Theorem main_loop_sane fuel choice input w vs rs w' :
  sane w vs → Console.main_loop fuel choice input w = Ok (rs, w') →
  ∃ vs', sane w' vs'.
Proof.
  revert choice input w vs rs. induction fuel as [|fuel IH];
    intros choice input w vs rs Hw; cbn [Console.main_loop]; [done|].
  destruct (Console.turn choice input w) as [[[[[r w1] running] choice1] input1]|] eqn:Hturn;
    [|done].
  destruct (turn_sane _ _ _ _ _ _ _ _ _ Hw Hturn) as (vs1 & Hw1).
  cbn [mbind res_bind]. destruct running.
  - intros Hrun. res_inv_pairs. by eapply IH.
  - intros [= <- <-]. by exists vs1.
Qed.

(** A turn that reads a command returns, on a state that satisfies the
    invariant. *)
Theorem turn_total choice input w vs c :
  Console.selected choice input = Some c → sane w vs → served c →
  (Z.of_nat (length (vs ++ arrivals_of c)) < INT_MAX)%Z →
  is_Ok (Console.turn choice input w).
Proof.
  intros Hsel Hw Hc Hlen. pose proof (turn_selected choice input w) as Hturn.
  rewrite Hsel in Hturn. destruct (handle_total c w vs Hw Hc Hlen) as (r & w' & Hr).
  rewrite Hr in Hturn. destruct (Console.turn choice input w) as [x|]; [by exists x | done].
Qed.

End console_invariant.

(** ** A session on the console *)

Open Scope string_scope.

(** What the operator types in the session of [Session], with an empty
    line at every pause. *)
Definition typed : text := chars "3

2

1
1
 Cy 
555-0103
driver

2

9

1
2
2
Di
555-0104
nurse
skip

2

2

2

4
2
".

Example typed_lines :
  pending (mkStream typed false)
  = ["3"; ""; "2"; ""; "1"; "1"; " Cy "; "555-0103"; "driver"; ""; "2"; ""; "9"; "";
     "1"; "2"; "2"; "Di"; "555-0104"; "nurse"; "skip"; ""; "2"; ""; "2"; ""; "2"; "";
     "4"; "2"].
Proof. by vm_compute. Qed.

(** The session of [Session] from the keyboard to the text files. *)
Example console_scenario :
  Console.main (O := binary64) (F := disk_storage) 10 disk0 (pending (mkStream typed false))
  = Ok (session0_reports, disk_end).
Proof. by vm_compute. Qed.

(** A word where a number is asked for: the stream fails, the choice is
    0, and every later read leaves it 0. *)
Example word_for_choice :
  read_int None ["two"; "4"] = (Some 0%Z, []) ∧
  extract_int None (mkStream (chars "99999999999 4") false)
  = (Some INT_MAX, mkStream (chars " 4") true).
Proof. done. Qed.

(** The state after [n] turns that go on. *)
Fixpoint turns {O : FillOps} {F : Storage} (n : nat) (choice : option Z)
    (input : list string) (w : world) : res (world * option Z * list string) :=
  match n with
  | 0 => return_ (w, choice, input)
  | S n' =>
      '(_, w, _, choice, input) ← Console.turn choice input w;
      turns n' choice input w
  end.

(** The input [2] alone, then the end of the input: the second turn
    deploys again, and the queue is emptied. *)
Example eof_deploys :
  turns (O := binary64) (F := files_storage) 2 None ["2"] world0
  = Ok (mkWorld VolunteerQueue.new
          (mkFiles (Some [site_A; mkSite "B" 4 10])
                   (Some [VolunteerQueue.ana; VolunteerQueue.ben])
                   (Some [VolunteerQueue.ana; VolunteerQueue.ben])),
        Some 2%Z, []).
Proof. by vm_compute. Qed.

(** Without any input the [switch] reads a [choice] that was never
    assigned. *)
Example no_input :
  Console.main (O := binary64) (F := files_storage) 1 files0 [] = Err Indeterminate.
Proof. by vm_compute. Qed.

Close Scope string_scope.

Lemma main_session_witness :
  ∃ cs, Session.main (O := binary64) (F := disk_storage) disk0 cs
        = Ok (session0_reports, disk_end) ∧
        last cs = Some Exit ∧ length cs ≤ 10.
Proof.
  apply (main_session (O := binary64) (F := disk_storage) 10 disk0
           (pending (mkStream typed false))).
  by vm_compute.
Defined.

Lemma main_loop_enough_witness :
  (∀ r fuel',
     Console.main_loop (O := binary64) (F := files_storage) 3 None ["2"%string] world0 = Ok r →
     3 ≤ fuel' →
     Console.main_loop (O := binary64) (F := files_storage) fuel' None ["2"%string] world0 = Ok r) ∧
  (Console.main_loop (O := binary64) (F := files_storage) 3 None ["2"%string] world0
   = Err OutOfFuel →
   ∀ fuel' r,
     Console.main_loop (O := binary64) (F := files_storage) fuel' None ["2"%string] world0 ≠ Ok r).
Proof.
  apply (main_loop_enough (O := binary64) (F := files_storage) 3 None ["2"%string] world0);
    [simpl; lia | done].
Defined.

Lemma main_loop_eof_witness :
  ¬ is_Ok (Console.main_loop (O := binary64) (F := files_storage) 5 (Some 2%Z) [] world0).
Proof. by apply (main_loop_eof (O := binary64) (F := files_storage) 5 (Some 2%Z) world0). Defined.
