(* ===== verification/Reports.v ===== *)
(** * The reports on the volunteer files and the file maintenance

    The functions of [main.cpp] that read the text of the volunteer
    files for a report: [validateVolunteerFile], which runs after every
    registration and warns about the lines that do not hold two commas;
    [displayVolunteersFromFile], the table of the registered volunteers
    with the tally of their skills in a [SkillCounter];
    [displayCombinedVolunteerReport], the queue, the deployed
    volunteers, that table and the summary with the deployment rate;
    and [saveAllVolunteersToFile].  A report is the value of what the
    function prints: the rows, the counts and the warnings, without
    the layout of the console.  Each function is proved equal to a
    reference on the records of the file ([text_volunteers]), on every
    file that is shorter than [INT_MAX] characters. *)

From Stdlib Require Import Ascii String SpecFloat.
From S2P Require Import Prelude Chain CustomLists Queue Ratio Text Deploy TextFiles Disk.

(** ** validateVolunteerFile *)

(** [Warning: Line <lineNum> in <filename> has invalid format (found
    <commaCount> commas, expected 2)] and [Line content: <line>]. *)
Record warning := mkWarning {
  lineNum : Z;
  commaCount : Z;
  content : text
}.

#[export] Instance warning_eq_dec : EqDecision warning.
Proof. solve_decision. Defined.

(** [for (char c : line) { if (c == ',') commaCount++; }] *)
Fixpoint count_commas (line : text) (commaCount : Z) : res Z :=
  match line with
  | [] => return_ commaCount
  | c :: line' =>
      if decide (c = comma) then
        commaCount ← int_incr commaCount;
        count_commas line' commaCount
      else count_commas line' commaCount
  end.

(** The loop [while (std::getline(file, line))] of
    [validateVolunteerFile] on the lines that are left. *)
Fixpoint validate_loop (ls : list text) (validLines : CustomLinkedList.t text)
    (lineNum : Z) (hasIssues : bool) (warnings : list warning)
    : res (list warning * bool) :=
  match ls with
  | [] => return_ (warnings, hasIssues)
  | line :: ls' =>
      lineNum ← int_incr lineNum;
      let line : text := trim_chars line in
      if decide (line = []) then validate_loop ls' validLines lineNum hasIssues warnings
      else
        commaCount ← count_commas line 0;
        if decide (commaCount ≠ 2%Z) then
          validate_loop ls' validLines lineNum true
            (warnings ++ [mkWarning lineNum commaCount line])
        else
          validLines ← CustomLinkedList.push_back line validLines;
          validate_loop ls' validLines lineNum hasIssues warnings
  end.

(** [void validateVolunteerFile(const std::string& filename)]: the
    warnings in the order of the lines, and whether the closing message
    [File validation found issues] is printed.  A file that does not
    exist is fine. *)
Definition validateVolunteerFile (file : option text) : res (list warning * bool) :=
  match file with
  | None => return_ ([], false)
  | Some s => validate_loop (lines s) CustomLinkedList.new 0 false []
  end.

(** ** displayVolunteersFromFile *)

(** [!name.empty() && !contact.empty() && !skill.empty()] *)
Definition complete (v : Volunteer) : Prop :=
  name v ≠ ""%string ∧ contact v ≠ ""%string ∧ Queue.skill v ≠ ""%string.

#[export] Instance complete_dec v : Decision (complete v).
Proof. unfold complete. apply _. Defined.

(** The body of the loops that read a volunteer file into a list and
    count its records: the line is trimmed, an empty line is passed
    over, and a record with its three fields is kept. *)
Definition read_record (line : text)
    (volunteers : CustomLinkedList.t Volunteer) (validCount : Z)
    : res (CustomLinkedList.t Volunteer * Z) :=
  match record_of_line parse_volunteer line with
  | Some v =>
      if decide (complete v) then
        volunteers ← CustomLinkedList.push_back v volunteers;
        validCount ← int_incr validCount;
        return_ (volunteers, validCount)
      else return_ (volunteers, validCount)
  | None => return_ (volunteers, validCount)
  end.

(** The loop of [displayCombinedVolunteerReport] on either file. *)
Fixpoint read_records (ls : list text)
    (volunteers : CustomLinkedList.t Volunteer) (validCount : Z)
    : res (CustomLinkedList.t Volunteer * Z) :=
  match ls with
  | [] => return_ (volunteers, validCount)
  | line :: ls' =>
      '(volunteers, validCount) ← read_record line volunteers validCount;
      read_records ls' volunteers validCount
  end.

(** The loop of [displayVolunteersFromFile], which also counts the
    lines. *)
Fixpoint read_numbered (ls : list text) (lineNumber : Z)
    (volunteers : CustomLinkedList.t Volunteer) (validCount : Z)
    : res (CustomLinkedList.t Volunteer * Z) :=
  match ls with
  | [] => return_ (volunteers, validCount)
  | line :: ls' =>
      lineNumber ← int_incr lineNumber;
      '(volunteers, validCount) ← read_record line volunteers validCount;
      read_numbered ls' lineNumber volunteers validCount
  end.

(** A row of the table: [id], [name.substr(0, 24)],
    [contact.substr(0, 29)] and [skill.substr(0, 19)]. *)
Record row := mkRow {
  id : Z;
  shown_name : string;
  shown_contact : string;
  shown_skill : string
}.

#[export] Instance row_eq_dec : EqDecision row.
Proof. solve_decision. Defined.

Definition show (id : Z) (v : Volunteer) : row :=
  mkRow id (substring 0 24 (name v)) (substring 0 29 (contact v))
        (substring 0 19 (Queue.skill v)).

(** [int id = 1; for (auto it = volunteers.begin(); it !=
    volunteers.end(); ++it, ++id)] *)
Definition table (volunteers : CustomLinkedList.t Volunteer) : res (list row) :=
  c ← CustomLinkedList.iterate (R := Empty_set) volunteers
         (λ _ v '(rows, id),
            id' ← int_incr id;
            return_ (Next (rows ++ [show id v], id')))
         ([], 1%Z);
  match c with
  | Next (rows, _) => return_ rows
  | Return r => match r : Empty_set with end
  end.

(** [SkillCounter skillCounts; for (...) skillCounts.increment(it->skill)]
    and the pairs that the second loop prints, in the order of the
    counter. *)
Definition skill_distribution (volunteers : CustomLinkedList.t Volunteer)
    : res (list StringCountPair) :=
  c ← CustomLinkedList.iterate (R := Empty_set) volunteers
         (λ _ v skillCounts,
            skillCounts ← SkillCounter.increment (Queue.skill v) skillCounts;
            return_ (Next skillCounts))
         SkillCounter.new;
  match c with
  | Next skillCounts =>
      if negb (SkillCounter.empty skillCounts) then
        CustomLinkedList.to_list (SkillCounter.skillList skillCounts)
      else return_ []
  | Return r => match r : Empty_set with end
  end.

(** What [displayVolunteersFromFile] prints. *)
Inductive file_report :=
  | NoFile
  | NoValidRecords
  | Roster (rows : list row) (validCount : Z) (distribution : list StringCountPair).

#[export] Instance file_report_eq_dec : EqDecision file_report.
Proof. solve_decision. Defined.

(** [void displayVolunteersFromFile(const std::string& filename)] *)
Definition displayVolunteersFromFile (file : option text) : res file_report :=
  match file with
  | None => return_ NoFile
  | Some s =>
      '(volunteers, validCount) ← read_numbered (lines s) 0 CustomLinkedList.new 0;
      if CustomLinkedList.empty volunteers then return_ NoValidRecords
      else
        rows ← table volunteers;
        distribution ← skill_distribution volunteers;
        return_ (Roster rows validCount distribution)
  end.

(** ** displayCombinedVolunteerReport *)

(** Section 2 of the report: the table of the deployed volunteers. *)
Inductive deployed_report :=
  | NoDeployedFile
  | NoneDeployed
  | DeployedTable (rows : list row).

#[export] Instance deployed_report_eq_dec : EqDecision deployed_report.
Proof. solve_decision. Defined.

(** Section 4 of the report; the rate is printed when somebody is
    registered. *)
Record summary := mkSummary {
  totalRegistered : Z;
  currentInQueue : Z;
  deployedCount : Z;
  deploymentRate : option spec_float
}.

Record combined_report := mkCombined {
  waiting : display;
  deployed : deployed_report;
  history : file_report;
  statistics : summary
}.

(** [(double)deployedCount / totalRegistered * 100] in binary64. *)
Definition deployment_rate (deployedCount totalRegistered : Z) : spec_float :=
  SFmul 53 1024 (SFdiv 53 1024 (of_int deployedCount) (of_int totalRegistered))
        (of_int 100).

(** Section 1: [if (queue.isEmpty()) ... else queue.displayAll()] *)
Definition queue_section (queue : VolunteerQueue.t) : res display :=
  if VolunteerQueue.isEmpty queue then return_ Queue.NoVolunteers
  else VolunteerQueue.displayAll queue.

(** Section 2: the deployed volunteers are read into a list and
    counted, and the table is printed [if (deployedCount > 0)]. *)
Definition deployed_section (file : option text) : res (deployed_report * Z) :=
  match file with
  | Some s =>
      '(deployedVolunteers, deployedCount) ←
        read_records (lines s) CustomLinkedList.new 0;
      if decide (0 < deployedCount)%Z then
        rows ← table deployedVolunteers;
        return_ (DeployedTable rows, deployedCount)
      else return_ (NoneDeployed, deployedCount)
  | None => return_ (NoDeployedFile, 0%Z)
  end.

(** Section 4: [totalRegistered], counted from the file once more. *)
Definition count_registered (file : option text) : res Z :=
  match file with
  | Some s =>
      '(_, totalRegistered) ← read_records (lines s) CustomLinkedList.new 0;
      return_ totalRegistered
  | None => return_ 0%Z
  end.

(** [void displayCombinedVolunteerReport(const VolunteerQueue& queue)] *)
Definition displayCombinedVolunteerReport (queue : VolunteerQueue.t) (st : disk)
    : res combined_report :=
  waiting ← queue_section queue;
  '(deployed, deployedCount) ← deployed_section (deployed_txt st);
  history ← displayVolunteersFromFile (volunteers_txt st);
  totalRegistered ← count_registered (volunteers_txt st);
  currentInQueue ← VolunteerQueue.size queue;
  return_ (mkCombined waiting deployed history
             (mkSummary totalRegistered currentInQueue deployedCount
                (if decide (0 < totalRegistered)%Z
                 then Some (deployment_rate deployedCount totalRegistered)
                 else None))).

(** ** saveAllVolunteersToFile *)

(** [void saveAllVolunteersToFile(const VolunteerQueue& queue, const
    std::string& filename)]: [std::ofstream file(filename)] opens the
    file for writing, which empties it, and nothing is written before
    [file.close()]. *)
Definition saveAllVolunteersToFile (queue : VolunteerQueue.t) (st : disk) : disk :=
  mkDisk (sites_txt st) (deployed_txt st) (Some []).

(** ** The reference of the reports *)

(** The number of commas of a line. *)
Definition commas (line : list ascii) : Z :=
  Z.of_nat (length (filter (λ c, c = comma) line)).

(** The warnings of the lines [ls] that follow line [lineNum]. *)
Fixpoint warnings_from (lineNum : Z) (ls : list text) : list warning :=
  match ls with
  | [] => []
  | line :: ls' =>
      let line : text := trim_chars line in
      (if decide (line ≠ [] ∧ commas line ≠ 2%Z)
       then [mkWarning (lineNum + 1) (commas line) line] else [])
      ++ warnings_from (lineNum + 1) ls'
  end.

(** The records of a file with their three fields. *)
Definition complete_records (s : text) : list Volunteer :=
  filter complete (text_volunteers s).

(** The table of a list of volunteers. *)
Definition rows_of (vs : list Volunteer) : list row :=
  imap (λ i v, show (1 + Z.of_nat i) v) vs.

(** The pairs of a [SkillCounter] after the skills are counted in
    order. *)
Definition tally (skills : list string) : list StringCountPair :=
  foldl (λ ps sk, SkillCounter.bump sk ps) [] skills.

(** How often a skill occurs. *)
Definition occurrences (sk : string) (skills : list string) : Z :=
  Z.of_nat (length (filter (λ x, x = sk) skills)).

(** What [displayVolunteersFromFile] shows of the records [vs]. *)
Definition report_of (vs : list Volunteer) : file_report :=
  if decide (vs = []) then NoValidRecords
  else Roster (rows_of vs) (Z.of_nat (length vs)) (tally (Queue.skill <$> vs)).

(** A file that the [int] counters of the reports can count. *)
Definition countable (file : option text) : Prop :=
  from_option (λ s, (Z.of_nat (length s) < INT_MAX)%Z) True file.

(** The records with three fields of a file that may not exist. *)
Definition listed (file : option text) : list Volunteer :=
  from_option complete_records [] file.

(** What [displayVolunteersFromFile] shows of a file that may not
    exist. *)
Definition history_of (file : option text) : file_report :=
  from_option (λ s, report_of (complete_records s)) NoFile file.

(** Section 2 of the combined report on the deployed file. *)
Definition deployed_of (file : option text) : deployed_report :=
  match file with
  | None => NoDeployedFile
  | Some s =>
      if decide (complete_records s = []) then NoneDeployed
      else DeployedTable (rows_of (complete_records s))
  end.

(** The combined report of a queue that holds [vs] and of the files. *)
Definition combined_of (vs : list Volunteer) (st : disk) : combined_report :=
  let total := Z.of_nat (length (listed (volunteers_txt st))) in
  let sent := Z.of_nat (length (listed (deployed_txt st))) in
  mkCombined
    (if decide (vs = []) then Queue.NoVolunteers
     else Table (imap (λ i v, (1 + Z.of_nat i, v)%Z) vs) (Z.of_nat (length vs)))
    (deployed_of (deployed_txt st))
    (history_of (volunteers_txt st))
    (mkSummary total (Z.of_nat (length vs)) sent
       (if decide (0 < total)%Z then Some (deployment_rate sent total) else None)).

(** ** Lemmas on the validation *)

Lemma commas_cons c line :
  commas (c :: line) = ((if decide (c = comma) then 1 else 0) + commas line)%Z.
Proof. unfold commas. rewrite filter_cons. case_decide; simpl; lia. Qed.

Lemma commas_bounds line : (0 ≤ commas line ≤ Z.of_nat (length line))%Z.
Proof. unfold commas. pose proof (length_filter (λ c, c = comma) line). lia. Qed.

Lemma count_commas_spec line n :
  (n + commas line ≤ INT_MAX)%Z → count_commas line n = Ok (n + commas line)%Z.
Proof.
  revert n. induction line as [|c line IH]; intros n; cbn [count_commas].
  { intros _. unfold commas. simpl. f_equal. lia. }
  rewrite commas_cons. pose proof (commas_bounds line).
  destruct (decide (c = comma)); intros Hn.
  - rewrite int_incr_lt by lia. simpl. rewrite IH by lia. f_equal. lia.
  - by rewrite IH by lia.
Qed.

Lemma validate_loop_spec ls validLines xs lineNum hasIssues warnings :
  CustomLinkedList.models validLines xs →
  (lineNum + Z.of_nat (length ls) ≤ INT_MAX)%Z →
  (Z.of_nat (length xs + length ls) ≤ INT_MAX)%Z →
  Forall (λ l, (Z.of_nat (length l) ≤ INT_MAX)%Z) ls →
  validate_loop ls validLines lineNum hasIssues warnings
  = Ok (warnings ++ warnings_from lineNum ls,
        hasIssues || bool_decide (warnings_from lineNum ls ≠ [])).
Proof.
  revert validLines xs lineNum hasIssues warnings.
  induction ls as [|line ls IH]; intros validLines xs lineNum hasIssues warnings
    Hm Hnum Hlen Hls; cbn [validate_loop warnings_from length] in *.
  { by rewrite app_nil_r, orb_false_r. }
  apply Forall_cons in Hls as [Hline Hls].
  rewrite int_incr_lt by lia. cbn [mbind res_bind].
  pose proof (trim_chars_length line). pose proof (commas_bounds (trim_chars line)).
  destruct (decide ((trim_chars line : text) = [])) as [Hnil|Hnil].
  { rewrite decide_False by tauto. by rewrite (IH _ xs) by (done || lia). }
  rewrite count_commas_spec by lia. cbn [mbind res_bind]. rewrite Z.add_0_l.
  destruct (decide (commas (trim_chars line) ≠ 2%Z)) as [Hc|Hc].
  - rewrite decide_True by done. rewrite (IH _ xs) by (done || lia).
    rewrite <-app_assoc. f_equal. f_equal. simpl. by rewrite orb_true_r.
  - rewrite decide_False by tauto.
    destruct (CustomLinkedList.push_back_models (T := text) (trim_chars line) validLines xs)
      as (l' & -> & Hm'); [done | lia |]. cbn [mbind res_bind].
    rewrite (IH _ _ _ _ _ Hm') by (done || rewrite ?length_app; simpl; lia). done.
Qed.

(** ** Lemmas on the loops that read the records *)

(** The records with their three fields among the lines [ls]. *)
Definition kept (ls : list text) : list Volunteer :=
  filter complete (omap (record_of_line parse_volunteer) ls).

Lemma kept_cons line ls :
  kept (line :: ls)
  = match record_of_line parse_volunteer line with
    | Some v => if decide (complete v) then v :: kept ls else kept ls
    | None => kept ls
    end.
Proof.
  unfold kept. cbn [omap list_omap].
  destruct (record_of_line parse_volunteer line) as [v|]; [|done].
  rewrite filter_cons. by case_decide.
Qed.

Lemma kept_length ls : length (kept ls) ≤ length ls.
Proof.
  unfold kept. etrans; [apply length_filter|].
  induction ls as [|l ls IH]; cbn [omap list_omap]; [done|].
  destruct (record_of_line _ l); simpl; lia.
Qed.

Lemma read_records_spec ls volunteers vs validCount :
  CustomLinkedList.models volunteers vs →
  (Z.of_nat (length vs + length ls) ≤ INT_MAX)%Z →
  (validCount + Z.of_nat (length ls) ≤ INT_MAX)%Z →
  ∃ volunteers',
    read_records ls volunteers validCount
    = Ok (volunteers', (validCount + Z.of_nat (length (kept ls)))%Z) ∧
    CustomLinkedList.models volunteers' (vs ++ kept ls).
Proof.
  revert volunteers vs validCount.
  induction ls as [|line ls IH]; intros volunteers vs validCount Hm Hlen Hcount;
    cbn [read_records length] in *.
  { exists volunteers. by rewrite Z.add_0_r, app_nil_r. }
  rewrite kept_cons. unfold read_record.
  destruct (record_of_line parse_volunteer line) as [v|];
    [destruct (decide (complete v))|]; cbn [mbind res_bind].
  2,3: destruct (IH volunteers vs validCount) as (l' & -> & Hm'); [done | lia.. |];
       by exists l'.
  destruct (CustomLinkedList.push_back_models v volunteers vs) as (l1 & -> & Hm1);
    [done | lia |]. cbn [mbind res_bind]. rewrite int_incr_lt by lia. cbn [mbind res_bind].
  destruct (IH l1 (vs ++ [v]) (validCount + 1)%Z) as (l' & -> & Hm');
    [done | rewrite length_app; simpl; lia | lia |].
  exists l'. rewrite <-app_assoc in Hm'. split; [|done].
  do 2 f_equal. cbn [length]. lia.
Qed.

Lemma read_numbered_records ls lineNumber volunteers validCount :
  (lineNumber + Z.of_nat (length ls) ≤ INT_MAX)%Z →
  read_numbered ls lineNumber volunteers validCount
  = read_records ls volunteers validCount.
Proof.
  revert lineNumber volunteers validCount.
  induction ls as [|line ls IH]; intros lineNumber volunteers validCount Hn;
    cbn [read_numbered read_records length] in *; [done|].
  rewrite int_incr_lt by lia. cbn [mbind res_bind].
  destruct (read_record line volunteers validCount) as [[??]|]; [|done].
  cbn [mbind res_bind]. apply IH. lia.
Qed.

(** The records that a report reads from a file of fewer than
    [INT_MAX] characters. *)
Lemma read_file s :
  (Z.of_nat (length s) < INT_MAX)%Z →
  ∃ volunteers,
    read_records (lines s) CustomLinkedList.new 0
    = Ok (volunteers, Z.of_nat (length (complete_records s))) ∧
    CustomLinkedList.models volunteers (complete_records s).
Proof.
  intros Hs. pose proof (read_lines_length (length s) s).
  destruct (read_records_spec (lines s) CustomLinkedList.new [] 0)
    as (l & Hl & Hm); [apply CustomLinkedList.models_new | unfold lines; simpl; lia..|].
  by exists l.
Qed.

(** ** Lemmas on the table and on the tally *)

Lemma table_loop vs rows (id : Z) :
  (id + Z.of_nat (length vs) ≤ INT_MAX)%Z →
  list_loop (R := Empty_set)
    (λ v '(rows, id), id' ← int_incr id; return_ (Next (rows ++ [show id v], id')))
    vs (rows, id)
  = Ok (Next (rows ++ imap (λ i v, show (id + Z.of_nat i) v) vs,
              (id + Z.of_nat (length vs))%Z)).
Proof.
  revert rows id. induction vs as [|v vs IH]; intros rows id Hid;
    cbn [list_loop imap length] in *.
  { by rewrite app_nil_r, Z.add_0_r. }
  rewrite int_incr_lt by lia. cbn [mbind res_bind]. rewrite IH by lia.
  rewrite <-app_assoc, Z.add_0_r. cbn [app]. do 2 f_equal. f_equal; [|lia].
  do 2 f_equal. apply imap_ext. intros i x _. simpl. f_equal. lia.
Qed.

Lemma table_models volunteers vs :
  CustomLinkedList.models volunteers vs →
  (Z.of_nat (length vs) < INT_MAX)%Z →
  table volunteers = Ok (rows_of vs).
Proof.
  intros Hm Hlen. unfold table.
  rewrite (CustomLinkedList.iterate_models _ _
    (λ v '(rows, id), id' ← int_incr id; return_ (Next (rows ++ [show id v], id')))
    _ Hm).
  by rewrite table_loop by lia.
Qed.

Lemma tally_snoc skills sk :
  tally (skills ++ [sk]) = SkillCounter.bump sk (tally skills).
Proof. unfold tally. by rewrite foldl_app. Qed.

(** The pairs of the tally are no more than the skills, and no count is
    more than their number. *)
Lemma tally_bounded skills :
  length (tally skills) ≤ length skills ∧
  Forall (λ p, (count p ≤ Z.of_nat (length skills))%Z) (tally skills).
Proof.
  induction skills as [|sk skills [IHl IHc]] using rev_ind; [by split|].
  rewrite tally_snoc, length_app. cbn [length].
  pose proof (SkillCounter.bump_length sk (tally skills)). split; [lia|].
  replace (Z.of_nat (length skills + 1)) with (Z.of_nat (length skills) + 1)%Z by lia.
  apply SkillCounter.bump_bounded; [done | lia].
Qed.

Lemma tally_loop vs :
  (Z.of_nat (length vs) < INT_MAX)%Z →
  ∃ skillCounts,
    list_loop (R := Empty_set)
      (λ v skillCounts,
         skillCounts ← SkillCounter.increment (Queue.skill v) skillCounts;
         return_ (Next skillCounts))
      vs SkillCounter.new
    = Ok (Next skillCounts) ∧
    SkillCounter.holds skillCounts (tally (Queue.skill <$> vs)).
Proof.
  intros Hlen.
  apply (list_loop_invariant
           (λ pre sc, SkillCounter.holds sc (tally (Queue.skill <$> pre))));
    [apply SkillCounter.holds_new|].
  intros pre v suf sc -> Hsc. rewrite length_app in Hlen. cbn [length] in Hlen.
  destruct (tally_bounded (Queue.skill <$> pre)) as [Hl Hc]. rewrite length_fmap in *.
  destruct (SkillCounter.increment_holds (Queue.skill v) sc _ Hsc) as (sc' & -> & Hsc').
  { eapply Forall_impl; [done|]. simpl. intros; lia. }
  { lia. }
  exists sc'. rewrite fmap_app. cbn [fmap list_fmap]. by rewrite tally_snoc.
Qed.

Lemma skill_distribution_models volunteers vs :
  CustomLinkedList.models volunteers vs →
  (Z.of_nat (length vs) < INT_MAX)%Z →
  skill_distribution volunteers = Ok (tally (Queue.skill <$> vs)).
Proof.
  intros Hm Hlen. unfold skill_distribution.
  rewrite (CustomLinkedList.iterate_models _ _
    (λ v skillCounts,
       skillCounts ← SkillCounter.increment (Queue.skill v) skillCounts;
       return_ (Next skillCounts)) _ Hm).
  destruct (tally_loop vs Hlen) as (sc & -> & Hsc). cbn [mbind res_bind].
  unfold SkillCounter.empty. rewrite (CustomLinkedList.empty_models _ _ Hsc).
  case_bool_decide as Hnil; simpl; [by rewrite Hnil|].
  by apply CustomLinkedList.to_list_models.
Qed.

(** The sum of the counts of the pairs. *)
Definition counted (ps : list StringCountPair) : Z :=
  foldr (λ p n, (count p + n)%Z) 0%Z ps.

Lemma counted_bump sk ps : counted (SkillCounter.bump sk ps) = (counted ps + 1)%Z.
Proof.
  induction ps as [|p ps IH]; simpl; [done|]. case_decide; simpl; [lia|].
  rewrite IH. lia.
Qed.

Lemma occurrences_snoc sk skills x :
  occurrences sk (skills ++ [x])
  = (occurrences sk skills + if decide (sk = x) then 1 else 0)%Z.
Proof.
  unfold occurrences. rewrite filter_app, length_app, filter_cons, filter_nil.
  repeat case_decide; simplify_eq/=; lia.
Qed.

Lemma tally_count_of sk skills :
  SkillCounter.count_of sk (tally skills) = occurrences sk skills.
Proof.
  induction skills as [|x skills IH] using rev_ind; [done|].
  rewrite tally_snoc, SkillCounter.count_of_bump, occurrences_snoc.
  case_decide; subst; rewrite <-IH; lia.
Qed.

Lemma tally_NoDup skills : NoDup (CustomLists.skill <$> tally skills).
Proof.
  induction skills as [|x skills IH] using rev_ind; [constructor|].
  rewrite tally_snoc. by apply SkillCounter.bump_NoDup.
Qed.

Lemma tally_counted skills : counted (tally skills) = Z.of_nat (length skills).
Proof.
  induction skills as [|x skills IH] using rev_ind; [done|].
  rewrite tally_snoc, counted_bump, IH, length_app. simpl. lia.
Qed.

Lemma warnings_from_app lineNum ls ls' :
  warnings_from lineNum (ls ++ ls')
  = warnings_from lineNum ls ++ warnings_from (lineNum + Z.of_nat (length ls)) ls'.
Proof.
  revert lineNum. induction ls as [|l ls IH]; intros lineNum; cbn [warnings_from app length].
  { by rewrite Z.add_0_r. }
  rewrite IH, <-app_assoc. do 3 f_equal. lia.
Qed.

Lemma commas_app l1 l2 : commas (l1 ++ l2) = (commas l1 + commas l2)%Z.
Proof. unfold commas. rewrite filter_app, length_app. lia. Qed.

Lemma commas_none l : (comma ∉ l) ↔ commas l = 0%Z.
Proof.
  induction l as [|c l IH]; [by split; [|intros _; apply not_elem_of_nil]|].
  rewrite commas_cons, not_elem_of_cons, IH. pose proof (commas_bounds l).
  case_decide; [split; [intros [??]; congruence | lia]|].
  split; [intros [_ ?]; lia | intros ?; split; [congruence | lia]].
Qed.

Lemma commas_print_volunteer v :
  (comma ∉ chars (name v)) → (comma ∉ chars (contact v)) →
  commas (print_volunteer v) = (2 + commas (chars (Queue.skill v)))%Z.
Proof.
  intros Hn Hc. apply commas_none in Hn, Hc. unfold print_volunteer.
  rewrite commas_app, commas_cons, commas_app, commas_cons, Hn, Hc.
  rewrite decide_True by done. lia.
Qed.

Lemma validateVolunteerFile_models s :
  (Z.of_nat (length s) < INT_MAX)%Z →
  validateVolunteerFile (Some s)
  = Ok (warnings_from 0 (lines s), bool_decide (warnings_from 0 (lines s) ≠ [])).
Proof.
  intros Hs. unfold validateVolunteerFile.
  pose proof (read_lines_length (length s) s).
  rewrite (validate_loop_spec _ _ [] 0 false []);
    [done | apply CustomLinkedList.models_new | unfold lines, text in *; simpl; lia.. |].
  eapply Forall_impl; [apply read_lines_Forall_length|]. simpl. intros; lia.
Qed.

Lemma displayVolunteersFromFile_models s :
  (Z.of_nat (length s) < INT_MAX)%Z →
  displayVolunteersFromFile (Some s) = Ok (report_of (complete_records s)).
Proof.
  intros Hs. unfold displayVolunteersFromFile, report_of.
  pose proof (read_lines_length (length s) s).
  rewrite read_numbered_records by (unfold lines; lia).
  destruct (read_file s Hs) as (l & -> & Hm). cbn [mbind res_bind].
  pose proof (kept_length (lines s)). fold (complete_records s) in *.
  rewrite (CustomLinkedList.empty_models _ _ Hm).
  case_bool_decide; [by rewrite decide_True|]. rewrite decide_False by done.
  rewrite (table_models _ _ Hm), (skill_distribution_models _ _ Hm);
    [done | unfold complete_records, kept, text_volunteers, lines in *; lia..].
Qed.

Lemma displayVolunteersFromFile_file file :
  countable file → displayVolunteersFromFile file = Ok (history_of file).
Proof.
  destruct file as [s|]; [|done]. apply displayVolunteersFromFile_models.
Qed.

Lemma complete_records_length s : length (complete_records s) ≤ length s.
Proof.
  etrans; [apply (kept_length (lines s))|]. apply read_lines_length.
Qed.

Lemma deployed_section_models file :
  countable file →
  deployed_section file
  = Ok (deployed_of file, Z.of_nat (length (listed file))).
Proof.
  destruct file as [s|]; [|done]. intros Hs. cbn in Hs.
  unfold deployed_section, deployed_of, listed. cbn [from_option].
  destruct (read_file s Hs) as (l & -> & Hm). cbn [mbind res_bind].
  pose proof (complete_records_length s).
  destruct (complete_records s) as [|v vs] eqn:E; [done|].
  rewrite decide_True by (cbn [length]; lia). rewrite decide_False by done.
  by rewrite (table_models _ _ Hm) by lia.
Qed.

Lemma count_registered_models file :
  countable file →
  count_registered file = Ok (Z.of_nat (length (listed file))).
Proof.
  destruct file as [s|]; [|done]. intros Hs.
  unfold count_registered. by destruct (read_file s Hs) as (l & -> & Hm).
Qed.

Lemma queue_section_models queue vs :
  VolunteerQueue.models queue vs → (Z.of_nat (length vs) < INT_MAX)%Z →
  queue_section queue
  = Ok (if decide (vs = []) then Queue.NoVolunteers
        else Table (imap (λ i v, (1 + Z.of_nat i, v)%Z) vs) (Z.of_nat (length vs))).
Proof.
  intros Hm Hlen. unfold queue_section.
  rewrite (VolunteerQueue.isEmpty_models _ _ Hm).
  case_bool_decide; [by rewrite decide_True|].
  rewrite (VolunteerQueue.displayAll_models _ _ Hm Hlen).
  rewrite bool_decide_false by done. by rewrite decide_False.
Qed.

Lemma displayCombinedVolunteerReport_models queue vs st :
  VolunteerQueue.models queue vs → (Z.of_nat (length vs) < INT_MAX)%Z →
  countable (deployed_txt st) → countable (volunteers_txt st) →
  displayCombinedVolunteerReport queue st = Ok (combined_of vs st).
Proof.
  intros Hm Hlen Hd Hv. unfold displayCombinedVolunteerReport.
  rewrite (queue_section_models _ _ Hm Hlen), (deployed_section_models _ Hd).
  cbn [mbind res_bind]. rewrite (displayVolunteersFromFile_file _ Hv).
  cbn [mbind res_bind]. rewrite (count_registered_models _ Hv). cbn [mbind res_bind].
  by rewrite (VolunteerQueue.size_models _ _ Hm) by lia.
Qed.

(** ** Theorems *)

(** C26 [validateVolunteerFile] on a file of fewer than [INT_MAX]
    characters ends without error, and warns exactly about the lines
    that are not blank and whose trimmed text does not hold two commas:
    one warning per such line, in the order of the file, with the
    number of the line counted from 1, the number of its commas and its
    trimmed text; the closing message is printed when there is a
    warning. *)
Theorem validateVolunteerFile_spec s :
  (Z.of_nat (length s) < INT_MAX)%Z →
  validateVolunteerFile (Some s)
  = Ok (warnings_from 0 (lines s), bool_decide (warnings_from 0 (lines s) ≠ [])).
Proof. apply validateVolunteerFile_models. Qed.

(** C27 After a volunteer that the format holds is appended to the
    volunteer file, as [saveVolunteerToFile] does, the validation that
    follows the registration finds the warnings that the file had, and
    one more when the skill holds a comma: the new line then has more
    than two commas. *)
Theorem validate_registered v s :
  volunteer_text_ok v →
  (Z.of_nat (length s + length (print_volunteer v)) + 2 < INT_MAX)%Z →
  validateVolunteerFile (append_line (print_volunteer v) (Some s))
  = Ok (let ws := warnings_from 0 (lines s)
             ++ (if decide (comma ∈ chars (Queue.skill v))
                 then [mkWarning (Z.of_nat (length (lines s)) + 1)
                                 (2 + commas (chars (Queue.skill v)))
                                 (print_volunteer v)]
                 else []) in
        (ws, bool_decide (ws ≠ []))).
Proof.
  intros Hv Hlen. destruct (print_volunteer_trim v Hv) as (Htrim & Hne & Hnl).
  destruct Hv as ((_ & Hn) & (_ & Hc) & _). unfold append_line.
  change (default [] (Some s)) with s. rewrite validateVolunteerFile_models.
  2:{ unfold terminate, text in *.
      destruct (needsNewline s); rewrite !length_app; cbn [length]; lia. }
  rewrite lines_append by done. rewrite warnings_from_app. cbn [warnings_from].
  rewrite Htrim, commas_print_volunteer, app_nil_r, Z.add_0_l by done.
  destruct (decide (comma ∈ chars (Queue.skill v))) as [Hin|Hin].
  - assert (commas (chars (Queue.skill v)) ≠ 0%Z) by (rewrite <-commas_none; tauto).
    by rewrite decide_True by (split; [done | lia]).
  - apply commas_none in Hin. by rewrite decide_False by (intros [_ ?]; lia).
Qed.

(** C29 [displayVolunteersFromFile] on a file of fewer than [INT_MAX]
    characters ends without error and shows the records of the file
    that have their three fields, in the order of the file: a row for
    each with its position from 1 and its fields cut to 24, 29 and 19
    characters, their number, and the tally of their skills; without
    such a record it prints that there is none. *)
Theorem displayVolunteersFromFile_spec s :
  (Z.of_nat (length s) < INT_MAX)%Z →
  displayVolunteersFromFile (Some s) = Ok (report_of (complete_records s)).
Proof. apply displayVolunteersFromFile_models. Qed.

(** C28 The skill distribution that [displayVolunteersFromFile] prints
    from its [SkillCounter]: every skill appears once, with the number
    of the volunteers of the list that have it, and the counts add up
    to the number of the volunteers. *)
Theorem skill_distribution_counts volunteers vs :
  CustomLinkedList.models volunteers vs →
  (Z.of_nat (length vs) < INT_MAX)%Z →
  ∃ ps, skill_distribution volunteers = Ok ps ∧
        NoDup (CustomLists.skill <$> ps) ∧
        (∀ sk, SkillCounter.count_of sk ps = occurrences sk (Queue.skill <$> vs)) ∧
        counted ps = Z.of_nat (length vs).
Proof.
  intros Hm Hlen. exists (tally (Queue.skill <$> vs)).
  split_and!; [by apply skill_distribution_models | apply tally_NoDup
              | intros sk; apply tally_count_of
              | by rewrite tally_counted, length_fmap].
Qed.

(** [displayCombinedVolunteerReport] on a queue and on files that its
    [int] counters can count ends without error and shows the queue
    from the front to the rear, the table of the deployed volunteers,
    the report of the volunteer file, and the summary: the numbers of
    the records with three fields of the two files, the length of the
    queue, and the rate of the first number to the second in binary64
    when somebody is registered. *)
Theorem displayCombinedVolunteerReport_spec queue vs st :
  VolunteerQueue.models queue vs → (Z.of_nat (length vs) < INT_MAX)%Z →
  countable (deployed_txt st) → countable (volunteers_txt st) →
  displayCombinedVolunteerReport queue st = Ok (combined_of vs st).
Proof. apply displayCombinedVolunteerReport_models. Qed.

(** [saveAllVolunteersToFile] leaves a volunteer file without records,
    whatever the queue holds: the next report finds no record and the
    next start of the program loads nobody. *)
Lemma saveAllVolunteersToFile_erases queue st :
  read_volunteers (saveAllVolunteersToFile queue st) = Some [] ∧
  displayVolunteersFromFile (volunteers_txt (saveAllVolunteersToFile queue st))
  = Ok NoValidRecords ∧
  read_sites (saveAllVolunteersToFile queue st) = read_sites st ∧
  read_deployed (saveAllVolunteersToFile queue st) = read_deployed st.
Proof. done. Qed.

(** ** A scenario *)

Open Scope string_scope.

(** A volunteer file with a blank line, a line without a skill, a
    skill that holds a comma, a record without a contact and a record
    with blanks around its fields. *)
Definition volunteers_file : text := chars "Ana,555-0101,medic
  
Ben,555-0102
Cy,555-0103,medic,driver
Di,,nurse
 Eve , 555-0105 , medic
".

Definition deployed_file : text := chars "Ana,555-0101,medic
".

Definition eve : Volunteer := mkVolunteer "Eve" "555-0105" "medic".
Definition flo : Volunteer := mkVolunteer "Flo" "555-0106" "first aid, nursing".

(** The list that holds Ana, Eve and Ben. *)
Definition medics : CustomLinkedList.t Volunteer :=
  CustomLinkedList.mk
    (<[1%positive := mkNode VolunteerQueue.ana (Some 2%positive)]>
       (<[2%positive := mkNode eve (Some 3%positive)]>
          (<[3%positive := mkNode VolunteerQueue.ben None]> ∅)))
    (Some 1%positive) (Some 3%positive) 3.

Lemma medics_models :
  CustomLinkedList.models medics [VolunteerQueue.ana; eve; VolunteerQueue.ben].
Proof.
  apply (CustomLinkedList.check_models medics
           [(1%positive, VolunteerQueue.ana); (2%positive, eve);
            (3%positive, VolunteerQueue.ben)]).
  by vm_compute.
Qed.

(** The line without a skill and the line with four fields are warned
    about; the record without a contact is not. *)
Example validate_scenario :
  validateVolunteerFile (Some volunteers_file)
  = Ok ([mkWarning 3 1 (chars "Ben,555-0102");
         mkWarning 4 3 (chars "Cy,555-0103,medic,driver")], true).
Proof. by vm_compute. Qed.

(** The line with four fields is a record of the report, with the skill
    [medic,driver]. *)
Example report_scenario :
  displayVolunteersFromFile (Some volunteers_file)
  = Ok (Roster
          [mkRow 1 "Ana" "555-0101" "medic"; mkRow 2 "Cy" "555-0103" "medic,driver";
           mkRow 3 "Eve" "555-0105" "medic"]
          3 [mkPair "medic" 2; mkPair "medic,driver" 1]).
Proof. by vm_compute. Qed.

(** One of three registered volunteers is deployed: the rate is the
    binary64 number next to 33.3. *)
Example combined_scenario :
  statistics <$> displayCombinedVolunteerReport VolunteerQueue.sample
                   (mkDisk None (Some deployed_file) (Some volunteers_file))
  = Ok (mkSummary 3 2 1 (Some (S754_finite false 4691249611844266 (-47)))).
Proof. by vm_compute. Qed.

(** A name of more than 24 characters is cut in the table. *)
Example long_name_cut :
  shown_name (show 1 (mkVolunteer "A name that is longer than twenty-four" "c" "s"))
  = "A name that is longer th".
Proof. done. Qed.

Lemma validateVolunteerFile_spec_witness :
  validateVolunteerFile (Some volunteers_file)
  = Ok (warnings_from 0 (lines volunteers_file),
        bool_decide (warnings_from 0 (lines volunteers_file) ≠ [])).
Proof. apply validateVolunteerFile_spec. by vm_compute. Defined.

Lemma validate_registered_witness :
  validateVolunteerFile (append_line (print_volunteer flo) (Some deployed_file))
  = Ok ([mkWarning 2 3 (chars "Flo,555-0106,first aid, nursing")], true).
Proof.
  apply (validate_registered flo deployed_file);
    [by apply (bool_decide_unpack _) | by vm_compute].
Defined.

Lemma displayVolunteersFromFile_spec_witness :
  displayVolunteersFromFile (Some volunteers_file)
  = Ok (report_of (complete_records volunteers_file)).
Proof. apply displayVolunteersFromFile_spec. by vm_compute. Defined.

Lemma skill_distribution_counts_witness :
  ∃ ps, skill_distribution medics = Ok ps ∧
        NoDup (CustomLists.skill <$> ps) ∧
        (∀ sk, SkillCounter.count_of sk ps
               = occurrences sk (Queue.skill <$> [VolunteerQueue.ana; eve; VolunteerQueue.ben])) ∧
        counted ps = Z.of_nat (length [VolunteerQueue.ana; eve; VolunteerQueue.ben]).
Proof.
  apply (skill_distribution_counts medics _ medics_models). by vm_compute.
Defined.

Lemma displayCombinedVolunteerReport_spec_witness :
  displayCombinedVolunteerReport VolunteerQueue.sample
    (mkDisk None (Some deployed_file) (Some volunteers_file))
  = Ok (combined_of [VolunteerQueue.ana; VolunteerQueue.ben]
          (mkDisk None (Some deployed_file) (Some volunteers_file))).
Proof.
  apply displayCombinedVolunteerReport_spec;
    [apply VolunteerQueue.queue_sample_models | by vm_compute..].
Defined.
